(** * mender common/io: a shallow embedding of [src/common/io/io.cpp]

    The development follows the source file top to bottom: the error and
    [expected] values the functions return, the in-memory adapters
    ([ByteReader], [ByteWriter]), the stream adapters, the blocking-stream
    bridge, the rewindable readers, the repeated-read driver and the copy
    engine.  Unsigned sizes ([Vsize], [size_t]) and [int64_t] are integers
    with their wrap-around written out. *)

From Stdlib Require Import String ZArith List Bool Lia.
From Stdlib.Strings Require Import Byte.
Import ListNotations.

Local Open Scope Z_scope.

(* ================================================================= *)
(** ** Errors and expected values *)

(** Modelled from the spec: the error category of a [std::error_condition].
    [common/error.hpp] is not part of the sources; the code only ever asks
    whether a category is [generic_category()]. *)
Inductive error_category : Type :=
| generic_category
| CommonErrorCategory
| other_category (id : nat).

Definition error_category_eqb (a b : error_category) : bool :=
  match a, b with
  | generic_category, generic_category => true
  | CommonErrorCategory, CommonErrorCategory => true
  | other_category i, other_category j => Nat.eqb i j
  | _, _ => false
  end.

Record error_condition : Type := mk_condition {
  category : error_category;
  value : Z
}.

(** Modelled from the spec: [error::Error], a condition and a message. *)
Record Error : Type := mk_Error {
  code : error_condition;
  message : string
}.

Definition NoError : Error :=
  mk_Error (mk_condition generic_category 0) EmptyString.

(** errno values of [<cerrno>] the file uses. *)
Definition EIO : Z := 5.
Definition ENOSPC : Z := 28.

(** [std::errc::io_error] and [std::errc::no_space_on_device] as conditions
    of the generic category. *)
Definition errc_io_error : error_condition := mk_condition generic_category EIO.
Definition errc_no_space_on_device : error_condition :=
  mk_condition generic_category ENOSPC.

(** [generic_category().default_error_condition(e)]. *)
Definition default_error_condition (e : Z) : error_condition :=
  mk_condition generic_category e.

(** Modelled from the spec: [error::ProgrammingError], the code of mender's
    own category used for violated invariants. *)
Definition ProgrammingError : error_condition :=
  mk_condition CommonErrorCategory 1.

Definition MakeError (c : error_condition) (msg : string) : Error :=
  mk_Error c msg.

Definition is_io_error (e : Error) : Prop := code e = errc_io_error.
Definition is_no_space_error (e : Error) : Prop :=
  code e = errc_no_space_on_device.

(** [expected<T, Error>]. *)
Inductive expected (A : Type) : Type :=
| Value (a : A)
| Unexpected (e : Error).
Arguments Value {A} a.
Arguments Unexpected {A} e.

Definition ExpectedSize : Type := expected Z.

(** Unsigned 64-bit sizes ([size_t], [Vsize]) and [int64_t]. *)
Definition two64 : Z := 2 ^ 64.
Definition to_size_t (z : Z) : Z := z mod two64.
Definition to_int64 (z : Z) : Z := (z + 2 ^ 63) mod two64 - 2 ^ 63.

Definition len {A} (l : list A) : Z := Z.of_nat (length l).

(** [std::copy_n(src, n, dst + off)]: overwrite [n] cells of [dst] from
    offset [off] on with the first [n] cells of [src]. *)
Definition copy_n {A} (src : list A) (n : Z) (dst : list A) (off : Z) : list A :=
  firstn (Z.to_nat off) dst
    ++ firstn (Z.to_nat n) src
    ++ skipn (Z.to_nat (off + n)) dst.

(* ================================================================= *)
(** ** In-memory adapters *)

(** [ByteReader]: a cursor into a container it does not own.  The container
    ([emitter_]) is passed to every operation, so that an owner that mutates
    it (the rewindable reader) is seen by the reader. *)
Record ByteReader : Type := mk_ByteReader {
  bytes_read_ : Z
}.

Definition ByteReader_new : ByteReader := mk_ByteReader 0.

(** [ByteReader::Read].  [None] is the failed [assert(end > start)]. *)
Definition ByteReader_Read (emitter_ : list byte) (r : ByteReader)
    (range : list byte) : option (ByteReader * list byte * ExpectedSize) :=
  if 0 <? len range then
    let max_read := to_size_t (len emitter_ - bytes_read_ r) in
    let iterator_size := to_size_t (len range) in
    let bytes_to_read := Z.min iterator_size max_read in
    let it := skipn (Z.to_nat (bytes_read_ r)) emitter_ in
    let range' := copy_n it bytes_to_read range 0 in
    Some (mk_ByteReader (to_size_t (bytes_read_ r + bytes_to_read)),
          range', Value bytes_to_read)
  else None.

Definition ByteReader_Rewind (r : ByteReader) : ByteReader :=
  mk_ByteReader 0.

(** A reader whose cursor is inside its container. *)
Definition ByteReader_wf (emitter_ : list byte) (r : ByteReader) : Prop :=
  0 <= bytes_read_ r <= len emitter_ /\ len emitter_ < two64.

(** [Read] called once per range, in order; the counts it returned. *)
Fixpoint ByteReader_Read_all (emitter_ : list byte) (r : ByteReader)
    (ranges : list (list byte)) : option (list ExpectedSize) :=
  match ranges with
  | [] => Some []
  | range :: rest =>
      match ByteReader_Read emitter_ r range with
      | None => None
      | Some (r', _, res) =>
          match ByteReader_Read_all emitter_ r' rest with
          | None => None
          | Some l => Some (res :: l)
          end
      end
  end.

(** [ByteWriter]: writes into [receiver_] from [bytes_written_] on. *)
Record ByteWriter : Type := mk_ByteWriter {
  receiver_ : list byte;
  bytes_written_ : Z;
  unlimited_ : bool
}.

Definition ByteWriter_new (receiver : list byte) : ByteWriter :=
  mk_ByteWriter receiver 0 false.

Definition ByteWriter_SetUnlimited (w : ByteWriter) (enabled : bool) : ByteWriter :=
  mk_ByteWriter (receiver_ w) (bytes_written_ w) enabled.

(** [vector::resize(n)]: truncate, or pad with zero bytes. *)
Definition resize (n : Z) (l : list byte) : list byte :=
  firstn (Z.to_nat n) l ++ repeat x00 (Z.to_nat n - length l).

(** [ByteWriter::Write].  [None] is the failed [assert(end > start)]. *)
Definition ByteWriter_Write (w : ByteWriter) (range : list byte)
    : option (ByteWriter * ExpectedSize) :=
  if 0 <? len range then
    let max_write := to_size_t (len (receiver_ w) - bytes_written_ w) in
    if (max_write =? 0) && negb (unlimited_ w) then
      Some (w, Unexpected (mk_Error errc_no_space_on_device EmptyString))
    else
      let iterator_size := to_size_t (len range) in
      let '(bytes_to_write, receiver) :=
        if unlimited_ w then
          let bytes_to_write := iterator_size in
          if max_write <? bytes_to_write then
            (bytes_to_write,
             resize (to_size_t (bytes_written_ w + bytes_to_write)) (receiver_ w))
          else (bytes_to_write, receiver_ w)
        else (Z.min iterator_size max_write, receiver_ w) in
      let receiver' := copy_n range bytes_to_write receiver (bytes_written_ w) in
      Some (mk_ByteWriter receiver'
              (to_size_t (bytes_written_ w + bytes_to_write)) (unlimited_ w),
            Value bytes_to_write)
  else None.

Definition ByteWriter_wf (w : ByteWriter) : Prop :=
  0 <= bytes_written_ w <= len (receiver_ w) /\ len (receiver_ w) < two64.

(** The capacity left in a writer: [receiver_->size() - bytes_written_]. *)
Definition remaining_capacity (w : ByteWriter) : Z :=
  len (receiver_ w) - bytes_written_ w.

(* ================================================================= *)
(** ** Capability interfaces *)

(** [Reader::Read(start, end)]: the callee sees the caller's range, may
    overwrite it, and answers a count or an error. *)
Class Reader (R : Type) : Type :=
  Read : R -> list byte -> R * list byte * ExpectedSize.

(** [Writer::Write(start, end)]. *)
Class Writer (W : Type) : Type :=
  Write : W -> list byte -> W * ExpectedSize.

(** A reader that keeps to the interface: a count it reports is within the
    range it was given, and the range keeps its length. *)
Definition Reader_contract {R} `{Reader R} : Prop :=
  forall (r r' : R) (range range' : list byte) (n : Z),
    Read r range = (r', range', Value n) ->
    0 <= n <= len range /\ len range' = len range.

(* ================================================================= *)
(** ** Stream adapters *)

(** The part of [std::istream] that [StreamReader] uses.  [istream_read]
    is [is.read(buf, n)]: it may fill the range, set state flags and set
    [errno]; [istream_fail] is [operator!] ([failbit] or [badbit] set). *)
Class IStream (S : Type) : Type := {
  istream_read : S -> Z -> list byte -> S * Z * list byte;
  istream_fail : S -> bool;
  istream_gcount : S -> Z
}.

(** [StreamReader]: [is_] is a [shared_ptr<std::istream>] ([FileReader::Rewind]
    assigns the result of [OpenSharedIfstream] to it and tests both [!is_]
    and [!( *is_ )]); [None] is the null pointer. *)
Record StreamReader (S : Type) : Type := mk_StreamReader {
  is_ : option S
}.
Arguments mk_StreamReader {S} _.
Arguments is_ {S} _.

(** [operator!] of a [shared_ptr]: true exactly for the null pointer. *)
Definition shared_ptr_not {S} (p : option S) : bool :=
  match p with None => true | Some _ => false end.

(** [StreamReader::Read], with [errno] threaded through.  [None] is the
    dereference of a null [is_]. *)
Definition StreamReader_Read {S} `{IStream S} (r : StreamReader S) (errno : Z)
    (range : list byte)
    : option (StreamReader S * Z * list byte * ExpectedSize) :=
  match is_ r with
  | None => None
  | Some s =>
      let '(s', errno', range') := istream_read s errno range in
      let r' := mk_StreamReader (Some s') in
      if shared_ptr_not (is_ r') then
        let io_error := errno' in
        Some (r', errno', range',
              Unexpected (mk_Error (default_error_condition io_error) EmptyString))
      else Some (r', errno', range', Value (istream_gcount s'))
  end.

(** The part of [std::ostream] that [StreamWriter] uses. *)
Class OStream (S : Type) : Type := {
  ostream_write : S -> list byte -> S;
  ostream_fail : S -> bool
}.

Record StreamWriter (S : Type) : Type := mk_StreamWriter {
  os_ : option S
}.
Arguments mk_StreamWriter {S} _.
Arguments os_ {S} _.

(** [StreamWriter::Write]: the test after the write is on the stream,
    [!( *(os_.get()))]. *)
Definition StreamWriter_Write {S} `{OStream S} (w : StreamWriter S)
    (range : list byte) : option (StreamWriter S * ExpectedSize) :=
  match os_ w with
  | None => None
  | Some s =>
      let s' := ostream_write s range in
      if ostream_fail s' then
        Some (mk_StreamWriter (Some s'),
              Unexpected (mk_Error errc_io_error EmptyString))
      else Some (mk_StreamWriter (Some s'), Value (len range))
  end.

(** A stream over an in-memory device that can be broken: [read] on a broken
    device transfers nothing and sets [badbit] and [errno = EIO]; on a
    healthy device it transfers what is left and sets [failbit] when that is
    less than asked for, as [std::istream::read] does. *)
Record MemStream : Type := mk_MemStream {
  ms_broken : bool;
  ms_data : list byte;
  ms_failed : bool;
  ms_gcount : Z
}.

Definition MemStream_read (s : MemStream) (errno : Z) (range : list byte)
    : MemStream * Z * list byte :=
  if ms_broken s then (mk_MemStream true (ms_data s) true 0, EIO, range)
  else if ms_failed s then (mk_MemStream false (ms_data s) true 0, errno, range)
  else
    let n := Z.min (len range) (len (ms_data s)) in
    (mk_MemStream false (skipn (Z.to_nat n) (ms_data s)) (n <? len range) n,
     errno, copy_n (ms_data s) n range 0).

#[export] Instance MemStream_IStream : IStream MemStream := {
  istream_read := MemStream_read;
  istream_fail := ms_failed;
  istream_gcount := ms_gcount
}.

(* ================================================================= *)
(** ** Blocking-stream bridge *)

Section Bridge.

(** The configured buffer size of [common/config.h], not part of the
    sources. *)
Variable MENDER_BUFSIZE : Z.

(** The reader behind the bridge, with its effect on [errno]: a reader
    backed by system calls leaves the failing call's code there. *)
Variable R : Type.
Variable Read_errno : R -> Z -> list byte -> R * Z * list byte * ExpectedSize.

(** The get area of a [std::streambuf]: [eback], [gptr], [egptr] as offsets
    into [buf_]; [None] is the initial state, all three null. *)
Record ReaderStreamBuffer : Type := mk_ReaderStreamBuffer {
  reader_ : R;
  buf_ : list byte;
  get_area : option (Z * Z * Z)
}.

Definition ReaderStreamBuffer_new (reader : R) : ReaderStreamBuffer :=
  mk_ReaderStreamBuffer reader (repeat x00 (Z.to_nat MENDER_BUFSIZE)) None.

(** [gptr() >= egptr()]; two null pointers compare equal. *)
Definition gptr_ge_egptr (sb : ReaderStreamBuffer) : bool :=
  match get_area sb with
  | None => true
  | Some (_, g, e) => e <=? g
  end.

Definition gptr_eq_egptr (sb : ReaderStreamBuffer) : bool :=
  match get_area sb with
  | None => true
  | Some (_, g, e) => g =? e
  end.

(** [std::char_traits<char>::eof()] and [to_int_type]. *)
Definition traits_eof : Z := -1.
Definition to_int_type (b : byte) : Z := Z.of_N (Byte.to_N b).

Definition deref_gptr (sb : ReaderStreamBuffer) : byte :=
  match get_area sb with
  | None => x00
  | Some (_, g, _) => nth (Z.to_nat g) (buf_ sb) x00
  end.

(** [ReaderStreamBuffer::underflow]: the new buffer state, the new [errno]
    and the returned [int_type]. *)
Definition underflow (sb : ReaderStreamBuffer) (errno : Z)
    : ReaderStreamBuffer * Z * Z :=
  let '(sb1, errno1) :=
    if gptr_ge_egptr sb then
      let errno := 0 in
      let '(reader', errno, buf', ex_n_read) :=
        Read_errno (reader_ sb) errno (buf_ sb) in
      let '(n_read, errno) :=
        match ex_n_read with
        | Value n => (to_int64 n, errno)
        | Unexpected e =>
            (0,
             if errno =? 0 then
               if error_category_eqb (category (code e)) generic_category
               then value (code e)
               else EIO
             else errno)
        end in
      let first := 0 in
      (mk_ReaderStreamBuffer reader' buf' (Some (first, first, first + n_read)),
       errno)
    else (sb, errno) in
  (sb1, errno1,
   if gptr_eq_egptr sb1 then traits_eof else to_int_type (deref_gptr sb1)).

End Bridge.

Arguments reader_ {R} _.
Arguments buf_ {R} _.
Arguments get_area {R} _.
Arguments mk_ReaderStreamBuffer {R} _ _ _.
Arguments gptr_ge_egptr {R} _.
Arguments gptr_eq_egptr {R} _.
Arguments underflow {R} _ _ _.

(* ================================================================= *)
(** ** Buffered, rewindable readers *)

(** Modelled from the spec: [AssertOrReturnUnexpected] and
    [AssertOrReturnError] of [common/error.hpp], which answer a violated
    invariant with a programming-error fault. *)
Definition assertion_error : Error :=
  MakeError ProgrammingError "Assertion failed".

Definition rewind_denied : Error :=
  mk_Error errc_io_error "Buffering was stopped, cannot rewind anymore".

Definition discard_denied : Error :=
  mk_Error errc_io_error "Cannot stop buffering, pending rewind read".

(** The fields of [BufferedReader] and of [AsyncBufferedReader] (the two
    classes declare the same ones); [R] is the wrapped reader.  The buffer
    reader reads from [buffer_]. *)
Record BufferedReader (R : Type) : Type := mk_BufferedReader {
  wrapped_reader_ : R;
  buffer_ : list byte;
  buffer_reader_ : ByteReader;
  buffer_remaining_ : Z;
  rewind_done_ : bool;
  rewind_consumed_ : bool;
  stop_done_ : bool
}.
Arguments mk_BufferedReader {R} _ _ _ _ _ _ _.
Arguments wrapped_reader_ {R} _.
Arguments buffer_ {R} _.
Arguments buffer_reader_ {R} _.
Arguments buffer_remaining_ {R} _.
Arguments rewind_done_ {R} _.
Arguments rewind_consumed_ {R} _.
Arguments stop_done_ {R} _.

(** Modelled from the spec: the state a reader is created in (the
    constructor is in [common/io.hpp]): empty buffer, recording, no rewind
    armed, recording not stopped. *)
Definition BufferedReader_new {R} (wrapped : R) : BufferedReader R :=
  mk_BufferedReader wrapped [] ByteReader_new 0 false false false.

Section Buffered.

Context {R : Type} `{Reader R}.

(** [BufferedReader::Read].  [None] is the failed assertion of the buffer
    reader (an empty range during replay), or the copy into the buffer of
    more bytes than the caller's range holds (the wrapped reader reported a
    count beyond the range). *)
Definition BufferedReader_Read (b : BufferedReader R) (range : list byte)
    : option (BufferedReader R * list byte * ExpectedSize) :=
  if rewind_done_ b && negb (rewind_consumed_ b) then
    match ByteReader_Read (buffer_ b) (buffer_reader_ b) range with
    | None => None
    | Some (br, range', ex_bytes_read) =>
        let b1 := mk_BufferedReader (wrapped_reader_ b) (buffer_ b) br
                    (buffer_remaining_ b) (rewind_done_ b) (rewind_consumed_ b)
                    (stop_done_ b) in
        match ex_bytes_read with
        | Unexpected e => Some (b1, range', Unexpected e)
        | Value bytes_read_buffer =>
            if negb (0 <? bytes_read_buffer) then
              Some (b1, range', Unexpected assertion_error)
            else if negb (bytes_read_buffer <=? buffer_remaining_ b) then
              Some (b1, range', Unexpected assertion_error)
            else
              let remaining := to_size_t (buffer_remaining_ b - bytes_read_buffer) in
              let out := remaining =? 0 in
              Some (mk_BufferedReader (wrapped_reader_ b)
                      (if out && stop_done_ b then [] else buffer_ b)
                      br remaining (rewind_done_ b)
                      (if out then true else rewind_consumed_ b)
                      (stop_done_ b),
                    range', Value bytes_read_buffer)
        end
    end
  else
    let '(wrapped', range', bytes_read) := Read (wrapped_reader_ b) range in
    match bytes_read with
    | Unexpected e =>
        Some (mk_BufferedReader wrapped' (buffer_ b) (buffer_reader_ b)
                (buffer_remaining_ b) (rewind_done_ b) (rewind_consumed_ b)
                (stop_done_ b),
              range', Unexpected e)
    | Value n =>
        if negb (stop_done_ b) then
          if n <=? len range then
            Some (mk_BufferedReader wrapped'
                    (buffer_ b ++ firstn (Z.to_nat n) range')
                    (buffer_reader_ b) (buffer_remaining_ b) (rewind_done_ b)
                    (rewind_consumed_ b) (stop_done_ b),
                  range', Value n)
          else None
        else
          Some (mk_BufferedReader wrapped' (buffer_ b)
                  (buffer_reader_ b) (buffer_remaining_ b) (rewind_done_ b)
                  (rewind_consumed_ b) (stop_done_ b),
                range', Value n)
    end.

End Buffered.

(** [BufferedReader::Rewind]. *)
Definition BufferedReader_Rewind {R} (b : BufferedReader R)
    : BufferedReader R * ExpectedSize :=
  if stop_done_ b && rewind_done_ b then (b, Unexpected rewind_denied)
  else
    let remaining := len (buffer_ b) in
    (mk_BufferedReader (wrapped_reader_ b) (buffer_ b)
       (ByteReader_Rewind (buffer_reader_ b)) remaining true
       (remaining =? 0) (stop_done_ b),
     Value remaining).

(** [BufferedReader::StopBufferingAndRewind]. *)
Definition BufferedReader_StopBufferingAndRewind {R} (b : BufferedReader R)
    : BufferedReader R * ExpectedSize :=
  let '(b1, result) := BufferedReader_Rewind b in
  (mk_BufferedReader (wrapped_reader_ b1) (buffer_ b1) (buffer_reader_ b1)
     (buffer_remaining_ b1) (rewind_done_ b1) (rewind_consumed_ b1) true,
   result).

(** [BufferedReader::StopBufferingAndDiscard]. *)
Definition BufferedReader_StopBufferingAndDiscard {R} (b : BufferedReader R)
    : BufferedReader R * Error :=
  if rewind_done_ b && negb (rewind_consumed_ b) then (b, discard_denied)
  else
    (mk_BufferedReader (wrapped_reader_ b) [] (buffer_reader_ b)
       (buffer_remaining_ b) (rewind_done_ b) true true,
     NoError).

(** [AsyncBufferedReader::Rewind]. *)
Definition AsyncBufferedReader_Rewind {R} (b : BufferedReader R)
    : BufferedReader R * ExpectedSize :=
  if stop_done_ b && rewind_done_ b then (b, Unexpected rewind_denied)
  else
    let remaining := len (buffer_ b) in
    (mk_BufferedReader (wrapped_reader_ b) (buffer_ b)
       (ByteReader_Rewind (buffer_reader_ b)) remaining true
       (remaining =? 0) (stop_done_ b),
     Value remaining).

(** [AsyncBufferedReader::StopBufferingAndRewind]. *)
Definition AsyncBufferedReader_StopBufferingAndRewind {R} (b : BufferedReader R)
    : BufferedReader R * ExpectedSize :=
  let '(b1, result) := AsyncBufferedReader_Rewind b in
  (mk_BufferedReader (wrapped_reader_ b1) (buffer_ b1) (buffer_reader_ b1)
     (buffer_remaining_ b1) (rewind_done_ b1) (rewind_consumed_ b1) true,
   result).

(** [AsyncBufferedReader::StopBufferingAndDiscard]. *)
Definition AsyncBufferedReader_StopBufferingAndDiscard {R} (b : BufferedReader R)
    : BufferedReader R * Error :=
  if rewind_done_ b && negb (rewind_consumed_ b) then (b, discard_denied)
  else
    (mk_BufferedReader (wrapped_reader_ b) [] (buffer_reader_ b)
       (buffer_remaining_ b) (rewind_done_ b) true true,
     NoError).

(** What every call keeps once the recording was stopped by a discard:
    [stop_done_] stays set, and [rewind_done_] is set exactly by the rewind
    calls; until then the buffer stays empty. *)
Definition stopped_inv {R} (armed : bool) (b : BufferedReader R) : Prop :=
  stop_done_ b = true
  /\ rewind_done_ b = armed
  /\ (armed = false -> buffer_ b = [] /\ rewind_consumed_ b = true).

(** The calls a client can make on a buffered reader, and a sequence of
    them run in order ([None]: an assertion failed on the way). *)
Inductive BufferedReader_call : Type :=
| CallRead (range : list byte)
| CallRewind
| CallStopBufferingAndRewind
| CallStopBufferingAndDiscard.

Definition is_rewind_call (c : BufferedReader_call) : bool :=
  match c with
  | CallRewind | CallStopBufferingAndRewind => true
  | _ => false
  end.

Section BufferedCalls.

Context {R : Type} `{Reader R}.

Definition BufferedReader_do (b : BufferedReader R) (c : BufferedReader_call)
    : option (BufferedReader R) :=
  match c with
  | CallRead range =>
      match BufferedReader_Read b range with
      | None => None
      | Some (b', _, _) => Some b'
      end
  | CallRewind => Some (fst (BufferedReader_Rewind b))
  | CallStopBufferingAndRewind => Some (fst (BufferedReader_StopBufferingAndRewind b))
  | CallStopBufferingAndDiscard => Some (fst (BufferedReader_StopBufferingAndDiscard b))
  end.

Fixpoint BufferedReader_run (b : BufferedReader R) (cs : list BufferedReader_call)
    : option (BufferedReader R) :=
  match cs with
  | [] => Some b
  | c :: rest =>
      match BufferedReader_do b c with
      | None => None
      | Some b' => BufferedReader_run b' rest
      end
  end.

(** First pass: one [Read] per range, in order, as long as each succeeds;
    the bytes delivered, and whether the last [Read] returned 0. *)
Fixpoint BufferedReader_Read_pass (b : BufferedReader R) (ranges : list (list byte))
    : option (BufferedReader R * list byte * bool) :=
  match ranges with
  | [] => Some (b, [], false)
  | range :: rest =>
      match BufferedReader_Read b range with
      | None => None
      | Some (b', range', Unexpected _) => None
      | Some (b', range', Value n) =>
          if n =? 0 then Some (b', [], true)
          else
            match BufferedReader_Read_pass b' rest with
            | None => None
            | Some (b'', bytes, eof) =>
                Some (b'', firstn (Z.to_nat n) range' ++ bytes, eof)
            end
      end
  end.

(** Second pass: [Read] as long as a replay is armed and not exhausted; the
    bytes and the counts served. *)
Fixpoint BufferedReader_Replay (b : BufferedReader R) (ranges : list (list byte))
    : option (BufferedReader R * list byte * Z) :=
  match ranges with
  | [] => Some (b, [], 0)
  | range :: rest =>
      if rewind_done_ b && negb (rewind_consumed_ b) then
        match BufferedReader_Read b range with
        | None => None
        | Some (b', range', res) =>
            match res with
            | Unexpected _ => None
            | Value n =>
                match BufferedReader_Replay b' rest with
                | None => None
                | Some (b'', bytes, total) =>
                    Some (b'', firstn (Z.to_nat n) range' ++ bytes, n + total)
                end
            end
        end
      else Some (b, [], 0)
  end.

End BufferedCalls.

(* ================================================================= *)
(** ** Sample readers and writers

    Stand-ins for the transports behind the interfaces, used to run the
    definitions on concrete inputs. *)

(** A source that serves an in-memory sequence, at most [cr_chunk] bytes a
    call: a transport with short reads. *)
Record ChunkReader : Type := mk_ChunkReader {
  cr_data : list byte;
  cr_chunk : nat
}.

Definition ChunkReader_Read (r : ChunkReader) (range : list byte)
    : ChunkReader * list byte * ExpectedSize :=
  let n := Z.min (len range) (Z.min (Z.of_nat (cr_chunk r)) (len (cr_data r))) in
  (mk_ChunkReader (skipn (Z.to_nat n) (cr_data r)) (cr_chunk r),
   copy_n (cr_data r) n range 0, Value n).

#[export] Instance ChunkReader_Reader : Reader ChunkReader := ChunkReader_Read.

(** A reader that plays a script: each call pops the next answer, bytes to
    place in the range or an error; an empty script is the end of data.
    The script may break the interface (more bytes than the range holds). *)
Definition ScriptReader : Type := list (expected (list byte)).

Definition ScriptReader_Read (r : ScriptReader) (range : list byte)
    : ScriptReader * list byte * ExpectedSize :=
  match r with
  | [] => ([], range, Value 0)
  | Value bs :: rest => (rest, copy_n bs (len bs) range 0, Value (len bs))
  | Unexpected e :: rest => (rest, range, Unexpected e)
  end.

#[export] Instance ScriptReader_Reader : Reader ScriptReader := ScriptReader_Read.

(** A writer that plays a script of answers and keeps what it accepted; with
    the script used up it accepts everything. *)
Record ScriptWriter : Type := mk_ScriptWriter {
  sw_answers : list ExpectedSize;
  sw_received : list byte
}.

Definition ScriptWriter_Write (w : ScriptWriter) (range : list byte)
    : ScriptWriter * ExpectedSize :=
  match sw_answers w with
  | [] => (mk_ScriptWriter [] (sw_received w ++ range), Value (len range))
  | Value n :: rest =>
      (mk_ScriptWriter rest (sw_received w ++ firstn (Z.to_nat n) range), Value n)
  | Unexpected e :: rest => (mk_ScriptWriter rest (sw_received w), Unexpected e)
  end.

#[export] Instance ScriptWriter_Writer : Writer ScriptWriter := ScriptWriter_Write.

(* ================================================================= *)
(** ** Asynchronous interfaces *)

(** Modelled from the spec: [==] on errors ([common/error.hpp]), which
    compares the code and the message; the code only compares against
    [NoError]. *)
Definition error_condition_eqb (a b : error_condition) : bool :=
  error_category_eqb (category a) (category b) && (value a =? value b).

Definition Error_eqb (a b : Error) : bool :=
  error_condition_eqb (code a) (code b) && String.eqb (message a) (message b).

(** What a call of [AsyncRead] or [AsyncWrite] does with its handler: the
    call returns an error and never invokes it; or it invokes it before
    returning [NoError]; or it returns [NoError] and the event loop invokes
    it later. *)
Inductive submission : Type :=
| Rejected (err : Error)
| Inline (res : ExpectedSize)
| Deferred (res : ExpectedSize).

(** [AsyncReader::AsyncRead(start, end, handler)]: the reader's new state,
    the range as the handler finds it, and what happens to the handler. *)
Class AsyncReader (R : Type) : Type :=
  AsyncRead : R -> list byte -> R * list byte * submission.

(** [AsyncWriter::AsyncWrite(start, end, handler)]. *)
Class AsyncWriter (W : Type) : Type :=
  AsyncWrite : W -> list byte -> W * submission.

(** The result a submission hands to its handler, if it does. *)
Definition handed (sub : submission) : option ExpectedSize :=
  match sub with
  | Rejected _ => None
  | Inline res | Deferred res => Some res
  end.

(* ================================================================= *)
(** ** Repeated asynchronous reads *)

Inductive Repeat : Type := Yes | No.

(** The frames of the call stack while the driver runs. *)
Inductive frame : Type :=
| F_RepeatedAsyncRead
| F_ScheduleNextRead
| F_AsyncRead
| F_Functor
| F_handler
| F_event_loop.

Section Repeated.

Context {R : Type} `{AsyncReader R}.

(** The caller's handler, a closure over state of type [Hs]. *)
Variable Hs : Type.
Variable handler : Hs -> ExpectedSize -> Hs * Repeat.

(** [Functor::ScheduleNextRead] and [Functor::operator()] of
    [AsyncReader::RepeatedAsyncRead].  [stack] is the call stack with the
    frame of [ScheduleNextRead] on top; the result lists, for each
    invocation of the caller's handler, the stack it ran on.  [fuel] bounds
    the number of submissions followed.

    - A rejected submission: the loop calls the handler with the error and
      goes round again, in the same frame.
    - An inline completion: [AsyncRead] calls the functor, which calls the
      handler and then [ScheduleNextRead] again, on top of the frames
      already there; when that returns, [AsyncRead] returns [NoError] and
      the loop breaks.
    - A deferred completion: [AsyncRead] returns [NoError], the loop breaks,
      every frame returns; the event loop later calls the functor. *)
Fixpoint ScheduleNextRead (fuel : nat) (stack : list frame) (reader : R)
    (range : list byte) (h : Hs) (repeat : Repeat) : list (list frame) :=
  match fuel with
  | O => []
  | S fuel' =>
      match repeat with
      | No => []
      | Yes =>
          let '(reader', range', sub) := AsyncRead reader range in
          match sub with
          | Rejected err =>
              if Error_eqb err NoError then []
              else
                let '(h', repeat') := handler h (Unexpected err) in
                (F_handler :: stack)
                  :: ScheduleNextRead fuel' stack reader' range' h' repeat'
          | Inline num_read =>
              let inner := F_Functor :: F_AsyncRead :: stack in
              let '(h', repeat') := handler h num_read in
              (F_handler :: inner)
                :: ScheduleNextRead fuel' (F_ScheduleNextRead :: inner)
                     reader' range' h' repeat'
          | Deferred num_read =>
              let inner := [F_Functor; F_event_loop] in
              let '(h', repeat') := handler h num_read in
              (F_handler :: inner)
                :: ScheduleNextRead fuel' (F_ScheduleNextRead :: inner)
                     reader' range' h' repeat'
          end
      end
  end.

(** [AsyncReader::RepeatedAsyncRead]. *)
Definition RepeatedAsyncRead (fuel : nat) (reader : R) (range : list byte)
    (h : Hs) : list (list frame) :=
  ScheduleNextRead fuel [F_ScheduleNextRead; F_RepeatedAsyncRead]
    reader range h Yes.

End Repeated.

Arguments ScheduleNextRead {R _ Hs} handler fuel stack reader range h repeat.
Arguments RepeatedAsyncRead {R _ Hs} handler fuel reader range h.

(** The deepest stack a handler invocation ran on. *)
Definition max_depth (stacks : list (list frame)) : nat :=
  fold_right (fun st m => Nat.max (length st) m) 0%nat stacks.

(** A reader that completes every read inline with one byte, and one that
    rejects every submission; a handler that always asks to go on. *)
Definition always_inline : AsyncReader unit :=
  fun r range => (r, range, Inline (Value 1)).

Definition always_rejecting : AsyncReader unit :=
  fun r range => (r, range, Rejected (mk_Error errc_io_error EmptyString)).

Definition always_yes (h : unit) (res : ExpectedSize) : unit * Repeat := (h, Yes).

(* ================================================================= *)
(** ** The copy engine *)

(** What the engine does, in order: a read request of [n] bytes and what
    became of it, bytes handed to the writer and what became of them, a
    functor dropping what it owns ([*this = {}]), and the call of the
    finished handler.  A synchronous call is recorded as completed inline. *)
Inductive copy_event : Type :=
| EvRead (n : Z) (sub : submission)
| EvWrite (bytes : list byte) (sub : submission)
| EvRelease
| EvFinished (err : Error).

Definition zero_write_error : Error :=
  mk_Error errc_io_error "Zero write when copying data".
Definition short_write_error : Error :=
  mk_Error errc_io_error "Short write when copying data".
Definition short_write_error_async : Error :=
  mk_Error errc_io_error "Short write in AsyncCopy".
Definition over_read_error : Error :=
  MakeError ProgrammingError
    "Read returned more bytes than requested. This is a bug in the Read function.".

Section SyncCopy.

Context {W R : Type} `{Writer W} `{Reader R}.

(** [Copy(dst, src, buffer)]: the states left behind, the events, and the
    error returned; [None] when the loop is still running after [fuel]
    rounds. *)
Fixpoint Copy (fuel : nat) (dst : W) (src : R) (buffer : list byte)
    : W * R * list byte * list copy_event * option Error :=
  match fuel with
  | O => (dst, src, buffer, [], None)
  | S fuel' =>
      let '(src1, buffer1, r_result) := Read src buffer in
      let ev_r := EvRead (len buffer) (Inline r_result) in
      match r_result with
      | Unexpected e => (dst, src1, buffer1, [ev_r], Some e)
      | Value r =>
          if r =? 0 then (dst, src1, buffer1, [ev_r], Some NoError)
          else if len buffer <? r then
            (dst, src1, buffer1, [ev_r], Some over_read_error)
          else
            let bytes := firstn (Z.to_nat r) buffer1 in
            let '(dst1, w_result) := Write dst bytes in
            let ev_w := EvWrite bytes (Inline w_result) in
            match w_result with
            | Unexpected e => (dst1, src1, buffer1, [ev_r; ev_w], Some e)
            | Value w =>
                if w =? 0 then
                  (dst1, src1, buffer1, [ev_r; ev_w], Some zero_write_error)
                else if negb (r =? w) then
                  (dst1, src1, buffer1, [ev_r; ev_w], Some short_write_error)
                else
                  let '(dst2, src2, buffer2, t, res) :=
                    Copy fuel' dst1 src1 buffer1 in
                  (dst2, src2, buffer2, ev_r :: ev_w :: t, res)
            end
      end
  end.

End SyncCopy.

(** The error an event carries when the reader or writer failed. *)
Definition event_error (ev : copy_event) : option Error :=
  match ev with
  | EvRead _ (Rejected e) | EvWrite _ (Rejected e) => Some e
  | EvRead _ (Inline (Unexpected e)) | EvRead _ (Deferred (Unexpected e)) => Some e
  | EvWrite _ (Inline (Unexpected e)) | EvWrite _ (Deferred (Unexpected e)) => Some e
  | _ => None
  end.

(** Complete rounds: a read of [r > 0] bytes within the request, and a
    write that took all [r]. *)
Fixpoint good_rounds (t : list copy_event) : Prop :=
  match t with
  | [] => True
  | EvRead n rsub :: EvWrite bytes wsub :: rest =>
      (exists r, handed rsub = Some (Value r) /\ handed wsub = Some (Value r)
                 /\ r <> 0 /\ r <= n)
      /\ good_rounds rest
  | _ => False
  end.

(** The bytes handed to the writer. *)
Fixpoint written (t : list copy_event) : list byte :=
  match t with
  | [] => []
  | EvWrite bytes _ :: rest => bytes ++ written rest
  | _ :: rest => written rest
  end.

Definition is_finished (ev : copy_event) : bool :=
  match ev with EvFinished _ => true | _ => false end.

Definition finished_count (t : list copy_event) : nat :=
  length (filter is_finished t).

(** The traces [Copy] can leave, with the result they come with. *)
Inductive Copy_shape : list copy_event -> option Error -> Prop :=
| Cs_running : Copy_shape [] None
| Cs_read_error n e :
    Copy_shape [EvRead n (Inline (Unexpected e))] (Some e)
| Cs_eof n :
    Copy_shape [EvRead n (Inline (Value 0))] (Some NoError)
| Cs_over_read n r :
    r <> 0 -> n < r ->
    Copy_shape [EvRead n (Inline (Value r))] (Some over_read_error)
| Cs_write_error n r bytes e :
    r <> 0 -> r <= n ->
    Copy_shape [EvRead n (Inline (Value r)); EvWrite bytes (Inline (Unexpected e))]
      (Some e)
| Cs_zero_write n r bytes :
    r <> 0 -> r <= n ->
    Copy_shape [EvRead n (Inline (Value r)); EvWrite bytes (Inline (Value 0))]
      (Some zero_write_error)
| Cs_short_write n r bytes w :
    r <> 0 -> r <= n -> w <> 0 -> w <> r ->
    Copy_shape [EvRead n (Inline (Value r)); EvWrite bytes (Inline (Value w))]
      (Some short_write_error)
| Cs_round n r bytes t res :
    r <> 0 -> r <= n -> Copy_shape t res ->
    Copy_shape
      (EvRead n (Inline (Value r)) :: EvWrite bytes (Inline (Value r)) :: t) res.

(** [struct CopyData]. *)
Record CopyData : Type := mk_CopyData {
  buf : list byte;
  copied : Z;
  limit : Z
}.

(** [CallFinishedHandler]: [auto handler = finished_handler; *this = {};
    handler(err);], as events: [EvRelease] is the assignment, [EvFinished]
    the call.  What the assignment empties, and what it leaves alone, is in
    [Functor_CallFinishedHandler] below, where the functors have their
    members. *)
Definition CallFinishedHandler (err : Error) : list copy_event :=
  [EvRelease; EvFinished err].

(** [static_cast<size_t>(min(data->limit - data->copied,
    static_cast<int64_t>(data->buf.size())))]. *)
Definition to_copy_of (data : CopyData) : Z :=
  to_size_t (Z.min (to_int64 (limit data - copied data)) (to_int64 (len (buf data)))).

(** The buffer after a read into its first [n] cells left [range'] there. *)
Definition buf_after_read (data : CopyData) (n : Z) (range' : list byte) : list byte :=
  range' ++ skipn (Z.to_nat n) (buf data).

(** In the three shapes below an accepted submission is followed by the
    call of its functor with the result, whether the completion is inline or
    comes from the event loop: the engine does nothing between submitting
    and being called back, so the order of its steps is the same. *)
Section AsyncCopy.

(** The configured buffer size of [common/config.h]. *)
Variable MENDER_BUFSIZE : Z.

Definition CopyData_new (limit : Z) : CopyData :=
  mk_CopyData (repeat x00 (Z.to_nat MENDER_BUFSIZE)) 0 limit.

(** *** A synchronous writer and an asynchronous reader *)

Section Writer_AsyncReader.

Context {W R : Type} `{Writer W} `{AsyncReader R}.

(** [Functor::operator()] of [AsyncCopy(WriterPtr, AsyncReaderPtr, ...)],
    called with the result of a read.  The events from here on; [fuel]
    bounds the completions followed. *)
Fixpoint AsyncCopy_Writer_AsyncReader_Functor (fuel : nat) (writer : W)
    (reader : R) (data : CopyData) (size : ExpectedSize) : list copy_event :=
  match fuel with
  | O => []
  | S fuel' =>
      match size with
      | Unexpected e => CallFinishedHandler e
      | Value sz =>
          if sz =? 0 then CallFinishedHandler NoError
          else
            let bytes := firstn (Z.to_nat sz) (buf data) in
            let '(writer', n) := Write writer bytes in
            EvWrite bytes (Inline n) ::
            match n with
            | Unexpected e => CallFinishedHandler e
            | Value n =>
                if negb (n =? sz) then CallFinishedHandler short_write_error
                else
                  let data1 := mk_CopyData (buf data)
                                 (to_int64 (copied data + n)) (limit data) in
                  let to_copy := to_copy_of data1 in
                  if to_copy =? 0 then CallFinishedHandler NoError
                  else
                    let '(reader', range', sub) :=
                      AsyncRead reader (firstn (Z.to_nat to_copy) (buf data1)) in
                    let data2 := mk_CopyData (buf_after_read data1 to_copy range')
                                   (copied data1) (limit data1) in
                    EvRead to_copy sub ::
                    match sub with
                    | Rejected err =>
                        if Error_eqb err NoError then []
                        else CallFinishedHandler err
                    | Inline res | Deferred res =>
                        AsyncCopy_Writer_AsyncReader_Functor fuel' writer'
                          reader' data2 res
                    end
            end
      end
  end.

(** [AsyncCopy(WriterPtr dst, AsyncReaderPtr src, finished_handler,
    stop_after)]. *)
Definition AsyncCopy_Writer_AsyncReader (fuel : nat) (dst : W) (src : R)
    (stop_after : Z) : list copy_event :=
  let data := CopyData_new stop_after in
  let to_copy := to_size_t (Z.min (limit data) (to_int64 (len (buf data)))) in
  let '(src', range', sub) :=
    AsyncRead src (firstn (Z.to_nat to_copy) (buf data)) in
  let data1 := mk_CopyData (buf_after_read data to_copy range')
                 (copied data) (limit data) in
  EvRead to_copy sub ::
  match sub with
  | Rejected err =>
      if Error_eqb err NoError then [] else [EvFinished err]
  | Inline res | Deferred res =>
      AsyncCopy_Writer_AsyncReader_Functor fuel dst src' data1 res
  end.

End Writer_AsyncReader.

(** *** An asynchronous writer and a synchronous reader *)

Section AsyncWriter_Reader.

Context {W R : Type} `{AsyncWriter W} `{Reader R}.

(** [Functor::operator()] of [AsyncCopy(AsyncWriterPtr, ReaderPtr, ...)],
    called with the result of a write. *)
Fixpoint AsyncCopy_AsyncWriter_Reader_Functor (fuel : nat) (writer : W)
    (reader : R) (data : CopyData) (expected_written : Z)
    (exp_written : ExpectedSize) : list copy_event :=
  match fuel with
  | O => []
  | S fuel' =>
      match exp_written with
      | Unexpected e => CallFinishedHandler e
      | Value w =>
          if negb (w =? expected_written) then
            CallFinishedHandler short_write_error
          else
            let data1 := mk_CopyData (buf data)
                           (to_int64 (copied data + w)) (limit data) in
            let to_copy := to_copy_of data1 in
            if to_copy =? 0 then CallFinishedHandler NoError
            else
              let '(reader', range', exp_read) :=
                Read reader (firstn (Z.to_nat to_copy) (buf data1)) in
              let data2 := mk_CopyData (buf_after_read data1 to_copy range')
                             (copied data1) (limit data1) in
              EvRead to_copy (Inline exp_read) ::
              match exp_read with
              | Unexpected e => CallFinishedHandler e
              | Value read =>
                  if read =? 0 then CallFinishedHandler NoError
                  else
                    let bytes := firstn (Z.to_nat read) (buf data2) in
                    let '(writer', sub) := AsyncWrite writer bytes in
                    EvWrite bytes sub ::
                    match sub with
                    | Rejected err =>
                        if Error_eqb err NoError then []
                        else CallFinishedHandler err
                    | Inline res | Deferred res =>
                        AsyncCopy_AsyncWriter_Reader_Functor fuel' writer'
                          reader' data2 read res
                    end
              end
      end
  end.

(** [AsyncCopy(AsyncWriterPtr dst, ReaderPtr src, finished_handler,
    stop_after)]: [Functor initial {dst, src, finished_handler, data, 0};
    initial(0)]. *)
Definition AsyncCopy_AsyncWriter_Reader (fuel : nat) (dst : W) (src : R)
    (stop_after : Z) : list copy_event :=
  let data := CopyData_new stop_after in
  AsyncCopy_AsyncWriter_Reader_Functor fuel dst src data 0 (Value 0).

End AsyncWriter_Reader.

(** *** An asynchronous writer and an asynchronous reader *)

Section AsyncWriter_AsyncReader.

Context {W R : Type} `{AsyncWriter W} `{AsyncReader R}.

(** [AsyncCopyReaderFunctor::operator()] and
    [AsyncCopyWriterFunctor::operator()]. *)
Fixpoint AsyncCopyReaderFunctor (fuel : nat) (writer : W) (reader : R)
    (data : CopyData) (exp_size : ExpectedSize) {struct fuel}
    : list copy_event :=
  match fuel with
  | O => []
  | S fuel' =>
      match exp_size with
      | Unexpected e => CallFinishedHandler e
      | Value sz =>
          if sz =? 0 then CallFinishedHandler NoError
          else
            let bytes := firstn (Z.to_nat sz) (buf data) in
            let '(writer', sub) := AsyncWrite writer bytes in
            EvWrite bytes sub ::
            match sub with
            | Rejected err =>
                if Error_eqb err NoError then [] else CallFinishedHandler err
            | Inline res | Deferred res =>
                AsyncCopyWriterFunctor fuel' writer' reader data sz res
            end
      end
  end
with AsyncCopyWriterFunctor (fuel : nat) (writer : W) (reader : R)
    (data : CopyData) (expected_written : Z) (exp_size : ExpectedSize)
    {struct fuel} : list copy_event :=
  match fuel with
  | O => []
  | S fuel' =>
      match exp_size with
      | Unexpected e => CallFinishedHandler e
      | Value w =>
          if negb (w =? expected_written) then
            CallFinishedHandler short_write_error_async
          else
            let data1 := mk_CopyData (buf data)
                           (to_int64 (copied data + w)) (limit data) in
            let to_copy := to_copy_of data1 in
            if to_copy =? 0 then CallFinishedHandler NoError
            else
              let '(reader', range', sub) :=
                AsyncRead reader (firstn (Z.to_nat to_copy) (buf data1)) in
              let data2 := mk_CopyData (buf_after_read data1 to_copy range')
                             (copied data1) (limit data1) in
              EvRead to_copy sub ::
              match sub with
              | Rejected err =>
                  if Error_eqb err NoError then [] else CallFinishedHandler err
              | Inline res | Deferred res =>
                  AsyncCopyReaderFunctor fuel' writer reader' data2 res
              end
      end
  end.

(** [AsyncCopy(AsyncWriterPtr dst, AsyncReaderPtr src, finished_handler,
    stop_after)]. *)
Definition AsyncCopy_AsyncWriter_AsyncReader (fuel : nat) (dst : W) (src : R)
    (stop_after : Z) : list copy_event :=
  let data := CopyData_new stop_after in
  let to_copy := to_size_t (Z.min (limit data) (to_int64 (len (buf data)))) in
  let '(src', range', sub) :=
    AsyncRead src (firstn (Z.to_nat to_copy) (buf data)) in
  let data1 := mk_CopyData (buf_after_read data to_copy range')
                 (copied data) (limit data) in
  EvRead to_copy sub ::
  match sub with
  | Rejected err =>
      if Error_eqb err NoError then [] else [EvFinished err]
  | Inline res | Deferred res =>
      AsyncCopyReaderFunctor fuel dst src' data1 res
  end.

End AsyncWriter_AsyncReader.

End AsyncCopy.

(** *** The traces of an asynchronous copy

    Where a copy chain stands: about to size the next read; a read of [n]
    bytes was submitted; [bytes] were handed to the writer. *)
Inductive copy_phase : Type :=
| AtTop
| GotRead (n : Z) (sub : submission)
| GotWrite (bytes : list byte) (sub : submission).

(** The event that led to a phase. *)
Definition phase_events (ph : copy_phase) : list copy_event :=
  match ph with
  | AtTop => []
  | GotRead n sub => [EvRead n sub]
  | GotWrite bytes sub => [EvWrite bytes sub]
  end.

(** The events that can follow, for a limit [L] and a buffer of [B] bytes,
    when [c] bytes were copied before.  A trace may stop anywhere: the chain
    was not followed further, or is waiting for a completion. *)
Inductive chain (L B : Z) : copy_phase -> Z -> list copy_event -> Prop :=
| ch_stop ph c : chain L B ph c []
| ch_limit c :
    Z.min (L - c) B = 0 ->
    chain L B AtTop c (CallFinishedHandler NoError)
| ch_read c n sub t :
    n = Z.min (L - c) B -> 0 < n ->
    chain L B (GotRead n sub) c t ->
    chain L B AtTop c (EvRead n sub :: t)
| ch_read_rejected c n e :
    e <> NoError ->
    chain L B (GotRead n (Rejected e)) c (CallFinishedHandler e)
| ch_read_error c n sub e :
    handed sub = Some (Unexpected e) ->
    chain L B (GotRead n sub) c (CallFinishedHandler e)
| ch_read_eof c n sub :
    handed sub = Some (Value 0) ->
    chain L B (GotRead n sub) c (CallFinishedHandler NoError)
| ch_write c n sub bytes wsub t :
    handed sub = Some (Value (len bytes)) -> 0 < len bytes <= n ->
    chain L B (GotWrite bytes wsub) c t ->
    chain L B (GotRead n sub) c (EvWrite bytes wsub :: t)
| ch_write_rejected c bytes e :
    e <> NoError ->
    chain L B (GotWrite bytes (Rejected e)) c (CallFinishedHandler e)
| ch_write_error c bytes wsub e :
    handed wsub = Some (Unexpected e) ->
    chain L B (GotWrite bytes wsub) c (CallFinishedHandler e)
| ch_write_short c bytes wsub w e :
    handed wsub = Some (Value w) -> w <> len bytes -> is_io_error e ->
    chain L B (GotWrite bytes wsub) c (CallFinishedHandler e)
| ch_write_full c bytes wsub t :
    handed wsub = Some (Value (len bytes)) ->
    chain L B AtTop (c + len bytes) t ->
    chain L B (GotWrite bytes wsub) c t.

(** A write that took less (or more) than it was handed. *)
Definition event_short (ev : copy_event) : bool :=
  match ev with
  | EvWrite bytes sub =>
      match handed sub with
      | Some (Value w) => negb (w =? len bytes)
      | _ => false
      end
  | _ => false
  end.

(** A read or write that neither failed nor fell short. *)
Definition event_ok (ev : copy_event) : bool :=
  match event_error ev with
  | Some _ => false
  | None => negb (event_short ev)
  end.

(** What the error handed to the finished handler has to do with the
    events before it. *)
Definition verdict (pre : list copy_event) (e : Error) : Prop :=
  (forall ev e', In ev pre -> event_error ev = Some e' -> e = e')
  /\ (forall ev, In ev pre -> event_short ev = true -> is_io_error e)
  /\ (forallb event_ok pre = true -> e = NoError).

(** Readers and writers that keep to the asynchronous interface: a rejected
    submission comes with an error, and a count is within the range. *)
Definition AsyncReader_contract {R} `{AsyncReader R} : Prop :=
  forall (r r' : R) (range range' : list byte) (sub : submission),
    AsyncRead r range = (r', range', sub) ->
    len range' = len range
    /\ (forall e, sub = Rejected e -> e <> NoError)
    /\ (forall n, handed sub = Some (Value n) -> 0 <= n <= len range).

Definition AsyncWriter_contract {W} `{AsyncWriter W} : Prop :=
  forall (w w' : W) (bytes : list byte) (sub : submission),
    AsyncWrite w bytes = (w', sub) ->
    forall e, sub = Rejected e -> e <> NoError.

(** What a phase has already handed to the writer beyond the [c] bytes
    accounted for, and what it may still hand over. *)
Definition phase_pending (ph : copy_phase) : Z :=
  match ph with
  | GotWrite bytes _ => len bytes
  | _ => 0
  end.

Definition budget_ok (L : Z) (ph : copy_phase) (c : Z) : Prop :=
  match ph with
  | AtTop => c <= L
  | GotRead n _ => c <= L /\ n <= L - c
  | GotWrite bytes _ => c + len bytes <= L
  end.

(** The copy state a chain keeps: the limit it was started with, a buffer
    of [B] bytes, and a count within the limit. *)
Definition data_ok (L B : Z) (data : CopyData) : Prop :=
  limit data = L /\ len (buf data) = B /\ 0 <= copied data <= L.

(** The finished handler was called after the functor released what it
    owned, or called directly because the first submission was rejected. *)
Definition released_before (pre : list copy_event) (e : Error) : Prop :=
  (exists pre', pre = pre' ++ [EvRelease])
  \/ (exists n, pre = [EvRead n (Rejected e)]).

(** A copy, as a function of the completions followed, calls the finished
    handler at most once, exactly once when followed far enough, as the last
    thing it does, released, and with the error the events call for. *)
Definition finishes_once (run : nat -> list copy_event) : Prop :=
  (forall fuel, (finished_count (run fuel) <= 1)%nat)
  /\ (exists fuel0, forall fuel, (fuel0 <= fuel)%nat ->
        finished_count (run fuel) = 1%nat)
  /\ (forall fuel pre e post,
        run fuel = pre ++ EvFinished e :: post ->
        post = [] /\ released_before pre e /\ verdict pre e).

(** Every read request is sized to the smaller of the buffer and what the
    limit leaves, and no more than the limit is handed to the writer. *)
Definition respects_limit (B L : Z) (run : nat -> list copy_event) : Prop :=
  (forall fuel pre n sub post,
      run fuel = pre ++ EvRead n sub :: post ->
      n = Z.min B (L - len (written pre)))
  /\ (forall fuel, len (written (run fuel)) <= L).

(** Followed far enough, the copy hands exactly [L] bytes to the writer and
    calls the finished handler once, with [NoError]. *)
Definition copies_exactly (L : Z) (run : nat -> list copy_event) : Prop :=
  exists fuel0, forall fuel, (fuel0 <= fuel)%nat ->
    len (written (run fuel)) = L
    /\ finished_count (run fuel) = 1%nat
    /\ exists pre, run fuel = pre ++ [EvRelease; EvFinished NoError].

(** A source that never fails and serves what it has: [avail] bytes are
    left, a read gets at most that and at most the range, and at least one
    byte when both allow it. *)
Definition AsyncReader_offers {R} `{AsyncReader R} (avail : R -> Z) : Prop :=
  forall (r : R) (range : list byte),
    exists r' range' sub s,
      AsyncRead r range = (r', range', sub)
      /\ handed sub = Some (Value s)
      /\ 0 <= s <= Z.min (len range) (avail r)
      /\ (0 < len range -> 0 < avail r -> 0 < s)
      /\ avail r' = avail r - s
      /\ len range' = len range.

Definition Reader_offers {R} `{Reader R} (avail : R -> Z) : Prop :=
  forall (r : R) (range : list byte),
    exists r' range' s,
      Read r range = (r', range', Value s)
      /\ 0 <= s <= Z.min (len range) (avail r)
      /\ (0 < len range -> 0 < avail r -> 0 < s)
      /\ avail r' = avail r - s
      /\ len range' = len range.

(** A sink that takes everything it is handed. *)
Definition Writer_accepts {W} `{Writer W} : Prop :=
  forall (w : W) (bytes : list byte),
    exists w', Write w bytes = (w', Value (len bytes)).

Definition AsyncWriter_accepts {W} `{AsyncWriter W} : Prop :=
  forall (w : W) (bytes : list byte),
    exists w' sub,
      AsyncWrite w bytes = (w', sub) /\ handed sub = Some (Value (len bytes)).

(* ================================================================= *)
(** ** Sample asynchronous readers and writers *)

(** The sample reader as an asynchronous source that completes inline, and
    the sample writer as an asynchronous sink whose completions come later. *)
#[export] Instance ChunkReader_AsyncReader : AsyncReader ChunkReader :=
  fun r range =>
    let '(r', range', res) := ChunkReader_Read r range in
    (r', range', Inline res).

#[export] Instance ScriptWriter_AsyncWriter : AsyncWriter ScriptWriter :=
  fun w bytes =>
    let '(w', res) := ScriptWriter_Write w bytes in
    (w', Deferred res).

(** What the sample reader still offers. *)
Definition ChunkReader_avail (r : ChunkReader) : Z :=
  match cr_chunk r with
  | O => 0
  | S _ => len (cr_data r)
  end.

(** A sink that takes everything and keeps it. *)
Definition Sink : Type := list byte.

#[export] Instance Sink_Writer : Writer Sink :=
  fun w bytes => (w ++ bytes, Value (len bytes)).

#[export] Instance Sink_AsyncWriter : AsyncWriter Sink :=
  fun w bytes => (w ++ bytes, Deferred (Value (len bytes))).

(* ================================================================= *)
(** ** Proof tools *)

(** Match a known list against [pre ++ rest], one cell of [pre] at a time. *)
Ltac peel_step :=
  match goal with
  | H : [] = ?pre ++ _ :: _ |- _ => destruct pre; discriminate H
  | H : _ :: _ = ?pre ++ _ |- _ =>
      destruct pre; cbn [app] in H; inversion H; clear H; subst
  end.

(* ================================================================= *)
(** ** Sequences of calls on the in-memory adapters *)

(** The total length of a list of ranges. *)
Definition ranges_len (ranges : list (list byte)) : Z :=
  fold_right (fun g a => len g + a) 0 ranges.

(** [Read] called once per range, in order: the reader left behind and the
    bytes the calls placed into their ranges, one after the other. *)
Fixpoint ByteReader_Read_bytes (emitter_ : list byte) (r : ByteReader)
    (ranges : list (list byte)) : option (ByteReader * list byte) :=
  match ranges with
  | [] => Some (r, [])
  | range :: rest =>
      match ByteReader_Read emitter_ r range with
      | None => None
      | Some (_, _, Unexpected _) => None
      | Some (r', range', Value n) =>
          match ByteReader_Read_bytes emitter_ r' rest with
          | None => None
          | Some (r'', bytes) => Some (r'', firstn (Z.to_nat n) range' ++ bytes)
          end
      end
  end.

(** [Write] called once per chunk, in order, as long as each call takes its
    whole chunk. *)
Fixpoint ByteWriter_Write_all (w : ByteWriter) (chunks : list (list byte))
    : option ByteWriter :=
  match chunks with
  | [] => Some w
  | chunk :: rest =>
      match ByteWriter_Write w chunk with
      | Some (w', Value n) =>
          if n =? len chunk then ByteWriter_Write_all w' rest else None
      | _ => None
      end
  end.

(* ================================================================= *)
(** ** What the rewindable reader keeps between calls *)

(** A replay is armed and not exhausted: [Read] serves from the buffer. *)
Definition replay_pending {R} (b : BufferedReader R) : bool :=
  rewind_done_ b && negb (rewind_consumed_ b).

(** While a replay is pending, [buffer_remaining_] counts the bytes of the
    buffer after the cursor of the buffer reader, and there are some. *)
Definition replay_inv {R} (b : BufferedReader R) : Prop :=
  len (buffer_ b) < two64
  /\ (replay_pending b = true ->
      0 <= bytes_read_ (buffer_reader_ b)
      /\ buffer_remaining_ b = len (buffer_ b) - bytes_read_ (buffer_reader_ b)
      /\ 0 < buffer_remaining_ b).

(** The bytes the [Read] calls of a sequence ask for, in total. *)
Fixpoint calls_len (cs : list BufferedReader_call) : Z :=
  match cs with
  | [] => 0
  | CallRead range :: rest => len range + calls_len rest
  | _ :: rest => calls_len rest
  end.

(* ================================================================= *)
(** ** The asynchronous rewindable reader *)

(** What [AsyncBufferedReader::AsyncRead] did with its handler: what any
    asynchronous read does, or (when the buffer reader reports an error)
    it called the handler with the error and returned the same error. *)
Inductive async_read_outcome : Type :=
| Submitted (sub : submission)
| HandledAndReturned (e : Error).

(** The result the handler gets, or the error returned in its place. *)
Definition outcome_result (o : async_read_outcome) : ExpectedSize :=
  match o with
  | Submitted (Rejected e) => Unexpected e
  | Submitted (Inline res) | Submitted (Deferred res) => res
  | HandledAndReturned e => Unexpected e
  end.

Section AsyncBuffered.

Context {R : Type} `{AsyncReader R}.

(** [wrapper_handler] of [AsyncBufferedReader::AsyncRead], run when the
    wrapped reader completes a read into [range] and leaves [range'] there:
    the reader's state after it ([None]: the copy into the buffer of more
    bytes than the range holds), before the caller's handler is called with
    the same result.  [stop_done_] is the flag as it is at that moment. *)
Definition wrapper_handler (b : BufferedReader R) (range range' : list byte)
    (result : ExpectedSize) : option (BufferedReader R) :=
  match result with
  | Unexpected _ => Some b
  | Value n =>
      if negb (stop_done_ b) then
        if n <=? len range then
          Some (mk_BufferedReader (wrapped_reader_ b)
                  (buffer_ b ++ firstn (Z.to_nat n) range')
                  (buffer_reader_ b) (buffer_remaining_ b) (rewind_done_ b)
                  (rewind_consumed_ b) (stop_done_ b))
        else None
      else Some b
  end.

(** [AsyncBufferedReader::AsyncRead].  [None] as for [BufferedReader::Read].
    For a deferred completion the state returned is the one the call
    leaves; [wrapper_handler] runs when the event loop delivers the
    result. *)
Definition AsyncBufferedReader_AsyncRead (b : BufferedReader R) (range : list byte)
    : option (BufferedReader R * list byte * async_read_outcome) :=
  if rewind_done_ b && negb (rewind_consumed_ b) then
    match ByteReader_Read (buffer_ b) (buffer_reader_ b) range with
    | None => None
    | Some (br, range', ex_bytes_read) =>
        let b1 := mk_BufferedReader (wrapped_reader_ b) (buffer_ b) br
                    (buffer_remaining_ b) (rewind_done_ b) (rewind_consumed_ b)
                    (stop_done_ b) in
        match ex_bytes_read with
        | Unexpected e => Some (b1, range', HandledAndReturned e)
        | Value bytes_read_buffer =>
            if negb (0 <? bytes_read_buffer) then
              Some (b1, range', Submitted (Rejected assertion_error))
            else if negb (bytes_read_buffer <=? buffer_remaining_ b) then
              Some (b1, range', Submitted (Rejected assertion_error))
            else
              let remaining := to_size_t (buffer_remaining_ b - bytes_read_buffer) in
              let out := remaining =? 0 in
              Some (mk_BufferedReader (wrapped_reader_ b)
                      (if out && stop_done_ b then [] else buffer_ b)
                      br remaining (rewind_done_ b)
                      (if out then true else rewind_consumed_ b)
                      (stop_done_ b),
                    range', Submitted (Inline (Value bytes_read_buffer)))
        end
    end
  else
    let '(wrapped', range', sub) := AsyncRead (wrapped_reader_ b) range in
    let b1 := mk_BufferedReader wrapped' (buffer_ b) (buffer_reader_ b)
                (buffer_remaining_ b) (rewind_done_ b) (rewind_consumed_ b)
                (stop_done_ b) in
    match sub with
    | Rejected err => Some (b1, range', Submitted (Rejected err))
    | Inline result =>
        match wrapper_handler b1 range range' result with
        | None => None
        | Some b2 => Some (b2, range', Submitted (Inline result))
        end
    | Deferred result => Some (b1, range', Submitted (Deferred result))
    end.

End AsyncBuffered.

(* ================================================================= *)
(** ** Sources and sinks with known content *)

(** A source that never fails and serves [rest r], the bytes it still
    holds, in order: a read puts a prefix of them at the front of the range,
    at least one byte when the range and the source allow it. *)
Definition Reader_serves {R} `{Reader R} (rest : R -> list byte) : Prop :=
  forall (r : R) (range : list byte),
    exists r' range' s,
      Read r range = (r', range', Value s)
      /\ 0 <= s <= Z.min (len range) (len (rest r))
      /\ (0 < len range -> rest r <> [] -> 0 < s)
      /\ firstn (Z.to_nat s) range' = firstn (Z.to_nat s) (rest r)
      /\ rest r' = skipn (Z.to_nat s) (rest r)
      /\ len range' = len range.

Definition AsyncReader_serves {R} `{AsyncReader R} (rest : R -> list byte) : Prop :=
  forall (r : R) (range : list byte),
    exists r' range' sub s,
      AsyncRead r range = (r', range', sub)
      /\ handed sub = Some (Value s)
      /\ 0 <= s <= Z.min (len range) (len (rest r))
      /\ (0 < len range -> rest r <> [] -> 0 < s)
      /\ firstn (Z.to_nat s) range' = firstn (Z.to_nat s) (rest r)
      /\ rest r' = skipn (Z.to_nat s) (rest r)
      /\ len range' = len range.

(** A sink that takes everything it is handed and keeps it, in order. *)
Definition Writer_keeps {W} `{Writer W} (kept : W -> list byte) : Prop :=
  forall (w : W) (bytes : list byte),
    exists w', Write w bytes = (w', Value (len bytes))
               /\ kept w' = kept w ++ bytes.

(** What the sample reader still serves. *)
Definition ChunkReader_rest (r : ChunkReader) : list byte :=
  match cr_chunk r with
  | O => []
  | S _ => cr_data r
  end.

(* ================================================================= *)
(** ** Characters read through the bridge

    The stream returned by [Reader::GetStream] owns a fresh
    [ReaderStreamBuffer] on the reader and takes its characters from it
    with [std::streambuf::sbumpc], which the bridge inherits: the byte
    under the cursor when the get area has one, else [uflow], which calls
    [underflow] and steps over the byte it returned. *)

Section BridgeChars.

Variable MENDER_BUFSIZE : Z.
Variable R : Type.
Variable Read_errno : R -> Z -> list byte -> R * Z * list byte * ExpectedSize.

(** The buffer [Reader::GetStream] creates for its stream. *)
Definition Reader_GetStream (reader : R) : ReaderStreamBuffer R :=
  ReaderStreamBuffer_new MENDER_BUFSIZE R reader.

(** [std::streambuf::gbump(1)]. *)
Definition gbump1 (sb : ReaderStreamBuffer R) : ReaderStreamBuffer R :=
  match get_area sb with
  | None => sb
  | Some (b, g, e) =>
      mk_ReaderStreamBuffer (reader_ sb) (buf_ sb) (Some (b, g + 1, e))
  end.

(** [std::streambuf::sbumpc], with the inherited [uflow]. *)
Definition sbumpc (sb : ReaderStreamBuffer R) (errno : Z)
    : ReaderStreamBuffer R * Z * Z :=
  if gptr_ge_egptr sb then
    let '(sb1, errno1, c) := underflow Read_errno sb errno in
    if c =? traits_eof then (sb1, errno1, traits_eof)
    else (gbump1 sb1, errno1, c)
  else (gbump1 sb, errno, to_int_type (deref_gptr R sb)).

(** [k] characters asked of the stream, one [sbumpc] each, up to the first
    [eof]: the characters obtained and whether [eof] was met. *)
Fixpoint stream_chars (k : nat) (sb : ReaderStreamBuffer R) (errno : Z)
    : ReaderStreamBuffer R * Z * list Z * bool :=
  match k with
  | O => (sb, errno, [], false)
  | S k' =>
      let '(sb1, errno1, c) := sbumpc sb errno in
      if c =? traits_eof then (sb1, errno1, [], true)
      else
        let '(sb2, errno2, cs, eof) := stream_chars k' sb1 errno1 in
        (sb2, errno2, c :: cs, eof)
  end.

(** The bytes of the get area from the cursor on. *)
Definition get_area_bytes (sb : ReaderStreamBuffer R) : list byte :=
  match get_area sb with
  | None => []
  | Some (_, g, e) => firstn (Z.to_nat (e - g)) (skipn (Z.to_nat g) (buf_ sb))
  end.

(** A reader, seen with its effect on [errno], that never fails and serves
    [rest r] in order. *)
Definition Read_errno_serves (rest : R -> list byte) : Prop :=
  forall (r : R) (errno : Z) (range : list byte),
    exists r' errno' range' s,
      Read_errno r errno range = (r', errno', range', Value s)
      /\ 0 <= s <= Z.min (len range) (len (rest r))
      /\ (0 < len range -> rest r <> [] -> 0 < s)
      /\ firstn (Z.to_nat s) range' = firstn (Z.to_nat s) (rest r)
      /\ rest r' = skipn (Z.to_nat s) (rest r)
      /\ len range' = len range.

(** A get area inside a buffer of the configured size. *)
Definition bridge_ok (sb : ReaderStreamBuffer R) : Prop :=
  len (buf_ sb) = MENDER_BUFSIZE
  /\ match get_area sb with
     | None => True
     | Some (b, g, e) => 0 <= g /\ e <= len (buf_ sb)
     end.

End BridgeChars.

Arguments Reader_GetStream MENDER_BUFSIZE {R} reader.
Arguments gbump1 {R} sb.
Arguments sbumpc {R} Read_errno sb errno.
Arguments stream_chars {R} Read_errno k sb errno.
Arguments get_area_bytes {R} sb.
Arguments Read_errno_serves {R} Read_errno rest.
Arguments bridge_ok MENDER_BUFSIZE {R} sb.

(* ================================================================= *)
(** ** Files *)

(** The part of [std::ifstream] the file helpers use beyond [IStream]:
    [ifstream_open path errno] is a default-constructed stream after
    [is.open(path)], and [istream_seekg_beg] is [is.seekg(0, ios::beg)];
    both with their effect on [errno]. *)
Class IFStream (S : Type) : Type := {
  ifstream_open : string -> Z -> S * Z;
  istream_seekg_beg : S -> Z -> S * Z
}.

Definition open_failed (path : string) (io_errno : Z) : Error :=
  mk_Error (default_error_condition io_errno)
    ("Failed to open '" ++ path ++ "' for reading").

Definition bad_stream : Error :=
  mk_Error errc_io_error "Bad stream, cannot rewind".

Definition seek_failed (io_errno : Z) : Error :=
  mk_Error (default_error_condition io_errno)
    "Failed to seek to the beginning of the stream".

Section Files.

Context {S : Type} `{IStream S} `{IFStream S}.

(** [OpenIfstream(path)], with [errno] threaded through. *)
Definition OpenIfstream (path : string) (errno : Z) : expected S * Z :=
  let errno := 0 in
  let '(ifs, errno) := ifstream_open path errno in
  if istream_fail ifs then
    let io_errno := errno in
    (Unexpected (open_failed path io_errno), errno)
  else (Value ifs, errno).

(** [OpenSharedIfstream(path)]: the stream behind a fresh [shared_ptr]. *)
Definition OpenSharedIfstream (path : string) (errno : Z) : expected S * Z :=
  let '(exp_is, errno) := OpenIfstream path errno in
  match exp_is with
  | Unexpected e => (Unexpected e, errno)
  | Value ifs => (Value ifs, errno)
  end.

(** [FileReader]: a [StreamReader] with the path of its file. *)
Record FileReader : Type := mk_FileReader {
  path_ : string;
  stream_reader : StreamReader S
}.

(** [FileReader::Rewind], with [errno] threaded through: the stream is
    opened when [is_] is null, then tested and sought. *)
Definition FileReader_Rewind (r : FileReader) (errno : Z)
    : FileReader * Z * Error :=
  let seek (r1 : FileReader) (ifs : S) (errno : Z) :=
    if istream_fail ifs then (r1, errno, bad_stream)
    else
      let errno := 0 in
      let '(ifs', errno) := istream_seekg_beg ifs errno in
      let io_errno := errno in
      let r2 := mk_FileReader (path_ r1) (mk_StreamReader (Some ifs')) in
      if istream_fail ifs' then (r2, errno, seek_failed io_errno)
      else (r2, errno, NoError) in
  match is_ (stream_reader r) with
  | None =>
      let '(ex_is, errno) := OpenSharedIfstream (path_ r) errno in
      match ex_is with
      | Unexpected e => (r, errno, e)
      | Value ifs =>
          seek (mk_FileReader (path_ r) (mk_StreamReader (Some ifs))) ifs errno
      end
  | Some ifs => seek r ifs errno
  end.

(** [FileReader] has the [Read] of [StreamReader], which it derives from. *)
Definition FileReader_Read (r : FileReader) (errno : Z) (range : list byte)
    : option (FileReader * Z * list byte * ExpectedSize) :=
  match StreamReader_Read (stream_reader r) errno range with
  | None => None
  | Some (sr, errno', range', res) =>
      Some (mk_FileReader (path_ r) sr, errno', range', res)
  end.

End Files.

Arguments FileReader S : clear implicits.

(** A file stream over a small file system: a position in the file's
    content; [read] transfers what is left and sets [failbit] when that is
    less than asked for, and does nothing on a failed stream; [seekg] moves
    the position unless the stream has failed; [open] fails with [ENOENT]
    for a path that names no file. *)
Record FileStream : Type := mk_FileStream {
  fs_content : list byte;
  fs_pos : Z;
  fs_failed : bool;
  fs_gcount : Z
}.

Definition ENOENT : Z := 2.

Definition sample_files (path : string) : option (list byte) :=
  if String.eqb path "data" then Some [x01; x02; x03] else None.

Definition FileStream_read (s : FileStream) (errno : Z) (range : list byte)
    : FileStream * Z * list byte :=
  if fs_failed s then (mk_FileStream (fs_content s) (fs_pos s) true 0, errno, range)
  else
    let n := Z.min (len range) (len (fs_content s) - fs_pos s) in
    (mk_FileStream (fs_content s) (fs_pos s + n) (n <? len range) n,
     errno, copy_n (skipn (Z.to_nat (fs_pos s)) (fs_content s)) n range 0).

#[export] Instance FileStream_IStream : IStream FileStream := {
  istream_read := FileStream_read;
  istream_fail := fs_failed;
  istream_gcount := fs_gcount
}.

#[export] Instance FileStream_IFStream : IFStream FileStream := {
  ifstream_open := fun path errno =>
    match sample_files path with
    | Some content => (mk_FileStream content 0 false 0, errno)
    | None => (mk_FileStream [] 0 true 0, ENOENT)
    end;
  istream_seekg_beg := fun s errno =>
    if fs_failed s then (s, errno)
    else (mk_FileStream (fs_content s) 0 false (fs_gcount s), errno)
}.

(** The calls a client can make on a file reader, run in order with
    [errno] threaded through; the errors the [Rewind] calls returned. *)
Inductive FileReader_call : Type :=
| FileRead (range : list byte)
| FileRewind.

Fixpoint FileReader_run {S} `{IStream S} `{IFStream S} (r : FileReader S)
    (errno : Z) (cs : list FileReader_call)
    : option (FileReader S * Z * list Error) :=
  match cs with
  | [] => Some (r, errno, [])
  | FileRead range :: rest =>
      match FileReader_Read r errno range with
      | None => None
      | Some (r', errno', _, _) => FileReader_run r' errno' rest
      end
  | FileRewind :: rest =>
      let '(r', errno', e) := FileReader_Rewind r errno in
      match FileReader_run r' errno' rest with
      | None => None
      | Some (r'', errno'', errs) => Some (r'', errno'', e :: errs)
      end
  end.

(* ================================================================= *)
(** ** Repeated asynchronous reads: what the handler is called with *)

Section RepeatedCalls.

Context {R : Type} `{AsyncReader R}.

(** The caller's handler, a closure over state of type [Hs] and over the
    buffer the reads go into: it finds the range as the read left it. *)
Variable Hs : Type.
Variable handler : Hs -> list byte -> ExpectedSize -> Hs * Repeat.

(** The number of frames the call stack can hold. *)
Variable limit : nat.

(** [Functor::ScheduleNextRead] and [Functor::operator()] of
    [AsyncReader::RepeatedAsyncRead], on the call stack of
    [ScheduleNextRead] above and with what the handler is called with:
    the reader, the range and the handler's state when the chain ends, for
    each invocation of the handler the stack it ran on and the result it
    was given, and whether the chain has ended (the handler answered [No],
    or a submission was accepted that never completes) within [fuel]
    submissions.  [None] is the overflow of the call stack: a call of
    [AsyncRead] or an invocation of the handler that would run deeper than
    [limit] frames.

    As in [ScheduleNextRead], an inline completion runs the functor inside
    [AsyncRead], on top of the frames already there, and the functor calls
    [ScheduleNextRead] again from there; a deferred completion runs it
    from the event loop, after every frame has returned; a rejected
    submission calls the handler from the loop, in the same frame. *)
Fixpoint ScheduleNextRead_calls (fuel : nat) (stack : list frame) (reader : R)
    (range : list byte) (h : Hs) (repeat : Repeat)
    : option (R * list byte * Hs * list (list frame * ExpectedSize) * bool) :=
  match fuel with
  | O => Some (reader, range, h, [],
               match repeat with No => true | Yes => false end)
  | S fuel' =>
      match repeat with
      | No => Some (reader, range, h, [], true)
      | Yes =>
          if (length (F_AsyncRead :: stack) <=? limit)%nat then
            let '(reader', range', sub) := AsyncRead reader range in
            match sub with
            | Rejected err =>
                if Error_eqb err NoError then Some (reader', range', h, [], true)
                else
                  let at_handler := F_handler :: stack in
                  if (length at_handler <=? limit)%nat then
                    let '(h', repeat') := handler h range' (Unexpected err) in
                    match ScheduleNextRead_calls fuel' stack reader' range' h'
                            repeat' with
                    | None => None
                    | Some (r2, g2, h2, calls, ended) =>
                        Some (r2, g2, h2, (at_handler, Unexpected err) :: calls,
                              ended)
                    end
                  else None
            | Inline num_read =>
                let inner := F_Functor :: F_AsyncRead :: stack in
                let at_handler := F_handler :: inner in
                if (length at_handler <=? limit)%nat then
                  let '(h', repeat') := handler h range' num_read in
                  match ScheduleNextRead_calls fuel' (F_ScheduleNextRead :: inner)
                          reader' range' h' repeat' with
                  | None => None
                  | Some (r2, g2, h2, calls, ended) =>
                      Some (r2, g2, h2, (at_handler, num_read) :: calls, ended)
                  end
                else None
            | Deferred num_read =>
                let inner := [F_Functor; F_event_loop] in
                let at_handler := F_handler :: inner in
                if (length at_handler <=? limit)%nat then
                  let '(h', repeat') := handler h range' num_read in
                  match ScheduleNextRead_calls fuel' (F_ScheduleNextRead :: inner)
                          reader' range' h' repeat' with
                  | None => None
                  | Some (r2, g2, h2, calls, ended) =>
                      Some (r2, g2, h2, (at_handler, num_read) :: calls, ended)
                  end
                else None
            end
          else None
      end
  end.

(** [AsyncReader::RepeatedAsyncRead]. *)
Definition RepeatedAsyncRead_calls (fuel : nat) (reader : R) (range : list byte)
    (h : Hs) : option (R * list byte * Hs * list (list frame * ExpectedSize) * bool) :=
  ScheduleNextRead_calls fuel [F_ScheduleNextRead; F_RepeatedAsyncRead]
    reader range h Yes.

End RepeatedCalls.

Arguments ScheduleNextRead_calls {R _ Hs} handler limit fuel stack reader range h
  repeat.
Arguments RepeatedAsyncRead_calls {R _ Hs} handler limit fuel reader range h.

(** A handler that keeps the bytes each read delivered and asks for more
    until a read delivers nothing or fails. *)
Definition collect (h : list byte) (range : list byte) (res : ExpectedSize)
    : list byte * Repeat :=
  match res with
  | Unexpected _ => (h, No)
  | Value n => if n =? 0 then (h, No) else (h ++ firstn (Z.to_nat n) range, Yes)
  end.

(* ================================================================= *)
(** ** What a client sees of a reader *)

(** [Read] called once per range, in order: the range as each call left it
    and the result it returned. *)
Fixpoint Reader_Read_all {R} `{Reader R} (r : R) (ranges : list (list byte))
    : R * list (list byte * ExpectedSize) :=
  match ranges with
  | [] => (r, [])
  | range :: rest =>
      let '(r', range', res) := Read r range in
      let '(r'', log) := Reader_Read_all r' rest in
      (r'', (range', res) :: log)
  end.

(** The same through a rewindable reader ([None]: a failed assertion). *)
Fixpoint BufferedReader_Read_all {R} `{Reader R} (b : BufferedReader R)
    (ranges : list (list byte))
    : option (BufferedReader R * list (list byte * ExpectedSize)) :=
  match ranges with
  | [] => Some (b, [])
  | range :: rest =>
      match BufferedReader_Read b range with
      | None => None
      | Some (b', range', res) =>
          match BufferedReader_Read_all b' rest with
          | None => None
          | Some (b'', log) => Some (b'', (range', res) :: log)
          end
      end
  end.

(** The bytes the successful calls of a log delivered. *)
Fixpoint delivered (log : list (list byte * ExpectedSize)) : list byte :=
  match log with
  | [] => []
  | (range', Value n) :: rest => firstn (Z.to_nat n) range' ++ delivered rest
  | (_, Unexpected _) :: rest => delivered rest
  end.

(* ================================================================= *)
(** ** Sources that may fail *)

(** A source that, whenever a read succeeds, has served the next bytes of
    [rest r], the content it still holds; it may fail at any time. *)
Definition Reader_faithful {R} `{Reader R} (rest : R -> list byte) : Prop :=
  forall (r r' : R) (range range' : list byte) (s : Z),
    Read r range = (r', range', Value s) ->
    0 <= s <= Z.min (len range) (len (rest r))
    /\ firstn (Z.to_nat s) range' = firstn (Z.to_nat s) (rest r)
    /\ rest r' = skipn (Z.to_nat s) (rest r)
    /\ len range' = len range.

Definition AsyncReader_faithful {R} `{AsyncReader R} (rest : R -> list byte)
    : Prop :=
  forall (r r' : R) (range range' : list byte) (sub : submission) (s : Z),
    AsyncRead r range = (r', range', sub) ->
    handed sub = Some (Value s) ->
    0 <= s <= Z.min (len range) (len (rest r))
    /\ firstn (Z.to_nat s) range' = firstn (Z.to_nat s) (rest r)
    /\ rest r' = skipn (Z.to_nat s) (rest r)
    /\ len range' = len range.

(** [a] is the beginning of [b]. *)
Definition prefix_of {A} (a b : list A) : Prop := exists tl, b = a ++ tl.

(* ================================================================= *)
(** ** Sequences of calls on the asynchronous rewindable reader *)

(** What a client and the event loop can do to an [AsyncBufferedReader]:
    the four calls, and the delivery by the event loop of one of the reads
    the wrapped reader has accepted and not yet completed (the one at
    position [k], the oldest first), which runs [wrapper_handler] on the
    reader as it is at that moment. *)
Inductive AsyncBufferedReader_call : Type :=
| AsyncCallRead (range : list byte)
| AsyncCallComplete (k : nat)
| AsyncCallRewind
| AsyncCallStopBufferingAndRewind
| AsyncCallStopBufferingAndDiscard.

Definition is_async_rewind_call (c : AsyncBufferedReader_call) : bool :=
  match c with
  | AsyncCallRewind | AsyncCallStopBufferingAndRewind => true
  | _ => false
  end.

(** A read the wrapped reader has accepted and not yet completed: the range
    it was given, the range as the completion will leave it, and the result
    the completion will carry. *)
Definition pending_read : Type := (list byte * list byte * ExpectedSize)%type.

Section AsyncBufferedCalls.

Context {R : Type} `{AsyncReader R}.

Definition AsyncBufferedReader_do
    (st : BufferedReader R * list pending_read) (c : AsyncBufferedReader_call)
    : option (BufferedReader R * list pending_read) :=
  let '(b, pending) := st in
  match c with
  | AsyncCallRead range =>
      match AsyncBufferedReader_AsyncRead b range with
      | None => None
      | Some (b', range', Submitted (Deferred result)) =>
          Some (b', pending ++ [(range, range', result)])
      | Some (b', _, _) => Some (b', pending)
      end
  | AsyncCallComplete k =>
      match nth_error pending k with
      | None => Some (b, pending)
      | Some (range, range', result) =>
          match wrapper_handler b range range' result with
          | None => None
          | Some b' => Some (b', firstn k pending ++ skipn (S k) pending)
          end
      end
  | AsyncCallRewind => Some (fst (AsyncBufferedReader_Rewind b), pending)
  | AsyncCallStopBufferingAndRewind =>
      Some (fst (AsyncBufferedReader_StopBufferingAndRewind b), pending)
  | AsyncCallStopBufferingAndDiscard =>
      Some (fst (AsyncBufferedReader_StopBufferingAndDiscard b), pending)
  end.

(** A sequence of them run in order ([None]: an assertion failed on the
    way). *)
Fixpoint AsyncBufferedReader_run
    (st : BufferedReader R * list pending_read)
    (cs : list AsyncBufferedReader_call)
    : option (BufferedReader R * list pending_read) :=
  match cs with
  | [] => Some st
  | c :: rest =>
      match AsyncBufferedReader_do st c with
      | None => None
      | Some st' => AsyncBufferedReader_run st' rest
      end
  end.

End AsyncBufferedCalls.

(** The sample reader as an asynchronous source whose completions come from
    the event loop. *)
Record DeferringReader : Type := mk_DeferringReader {
  dr_source : ChunkReader
}.

#[export] Instance DeferringReader_AsyncReader : AsyncReader DeferringReader :=
  fun r range =>
    let '(s', range', res) := ChunkReader_Read (dr_source r) range in
    (mk_DeferringReader s', range', Deferred res).

(* ================================================================= *)
(** ** Asynchronous copies: who holds the writer, the reader and the copy
    state *)

(** A [shared_ptr] or [std::function] member: empty, or holding its
    target. *)
Inductive ptr : Type :=
| null
| owning.

(** The members of the functors of [AsyncCopy] that own something:
    [WriterPtr writer; AsyncReaderPtr reader; shared_ptr<CopyData> data;
    function<void(Error)> finished_handler].  ([expected_written], a
    [size_t], is an argument of the functions below.) *)
Module Functor.
Record t : Type := mk {
  writer : ptr;
  reader : ptr;
  data : ptr;
  finished_handler : ptr
}.
End Functor.

(** [{}]: a functor with every member empty. *)
Definition Functor_empty : Functor.t := Functor.mk null null null null.

(** [Functor {dst, src, data, finished_handler}], from the arguments of
    [AsyncCopy] and its [data]. *)
Definition Functor_full : Functor.t := Functor.mk owning owning owning owning.

(** [Functor {writer, reader, data, finished_handler}] inside a functor: a
    new functor with copies of the members of [this]. *)
Definition Functor_copy (this : Functor.t) : Functor.t :=
  Functor.mk (Functor.writer this) (Functor.reader this) (Functor.data this)
    (Functor.finished_handler this).

(** The code of the engine that is running, innermost first: [AsyncCopy]
    itself, which holds [dst], [src] and [data] until it returns; an
    invocation of a functor's [operator()], with the functor's members; and
    under them the event loop, which holds nothing but the functor it
    invokes. *)
Inductive engine_frame : Type :=
| In_AsyncCopy
| In_Functor (this : Functor.t)
| In_event_loop.

(** An event of a copy with the engine code running when it happened. *)
Definition owned_event : Type := (copy_event * list engine_frame)%type.

(** [CallFinishedHandler] of the functor [this], whose [operator()] runs on
    [stack]: [auto handler = finished_handler; *this = {}; handler(err);].
    The assignment empties [this] and nothing else; an empty [handler]
    would throw instead of calling. *)
Definition Functor_CallFinishedHandler (this : Functor.t)
    (stack : list engine_frame) (err : Error) : list owned_event :=
  let handler := Functor.finished_handler this in
  let this' := Functor_empty in
  (EvRelease, In_Functor this' :: stack) ::
  match handler with
  | owning => [(EvFinished err, In_Functor this' :: stack)]
  | null => []
  end.

(** The three engines again, step for step as above, now with the functor
    objects: every submission is handed a new functor; a submission that
    completes inline calls it from inside [AsyncRead] or [AsyncWrite], on
    top of the invocation that submitted it, which goes on when the call
    returns; one that completes later calls it from the event loop, when
    the invocation that submitted it has returned. *)
Section AsyncCopy_refs.

Variable MENDER_BUFSIZE : Z.

Section Writer_AsyncReader_refs.

Context {W R : Type} `{Writer W} `{AsyncReader R}.

Fixpoint AsyncCopy_Writer_AsyncReader_Functor_refs (fuel : nat)
    (this : Functor.t) (stack : list engine_frame) (writer : W) (reader : R)
    (data : CopyData) (size : ExpectedSize) : list owned_event :=
  let here := In_Functor this :: stack in
  match fuel with
  | O => []
  | S fuel' =>
      match size with
      | Unexpected e => Functor_CallFinishedHandler this stack e
      | Value sz =>
          if sz =? 0 then Functor_CallFinishedHandler this stack NoError
          else
            let bytes := firstn (Z.to_nat sz) (buf data) in
            let '(writer', n) := Write writer bytes in
            (EvWrite bytes (Inline n), here) ::
            match n with
            | Unexpected e => Functor_CallFinishedHandler this stack e
            | Value n =>
                if negb (n =? sz) then
                  Functor_CallFinishedHandler this stack short_write_error
                else
                  let data1 := mk_CopyData (buf data)
                                 (to_int64 (copied data + n)) (limit data) in
                  let to_copy := to_copy_of data1 in
                  if to_copy =? 0 then
                    Functor_CallFinishedHandler this stack NoError
                  else
                    let next := Functor_copy this in
                    let '(reader', range', sub) :=
                      AsyncRead reader (firstn (Z.to_nat to_copy) (buf data1)) in
                    let data2 := mk_CopyData (buf_after_read data1 to_copy range')
                                   (copied data1) (limit data1) in
                    (EvRead to_copy sub, here) ::
                    match sub with
                    | Rejected err =>
                        if Error_eqb err NoError then []
                        else Functor_CallFinishedHandler this stack err
                    | Inline res =>
                        AsyncCopy_Writer_AsyncReader_Functor_refs fuel' next here
                          writer' reader' data2 res
                    | Deferred res =>
                        AsyncCopy_Writer_AsyncReader_Functor_refs fuel' next
                          [In_event_loop] writer' reader' data2 res
                    end
            end
      end
  end.

Definition AsyncCopy_Writer_AsyncReader_refs (fuel : nat) (dst : W) (src : R)
    (stop_after : Z) : list owned_event :=
  let data := CopyData_new MENDER_BUFSIZE stop_after in
  let here := [In_AsyncCopy] in
  let to_copy := to_size_t (Z.min (limit data) (to_int64 (len (buf data)))) in
  let next := Functor_full in
  let '(src', range', sub) :=
    AsyncRead src (firstn (Z.to_nat to_copy) (buf data)) in
  let data1 := mk_CopyData (buf_after_read data to_copy range')
                 (copied data) (limit data) in
  (EvRead to_copy sub, here) ::
  match sub with
  | Rejected err =>
      if Error_eqb err NoError then [] else [(EvFinished err, here)]
  | Inline res =>
      AsyncCopy_Writer_AsyncReader_Functor_refs fuel next here dst src' data1 res
  | Deferred res =>
      AsyncCopy_Writer_AsyncReader_Functor_refs fuel next [In_event_loop] dst src'
        data1 res
  end.

End Writer_AsyncReader_refs.

Section AsyncWriter_Reader_refs.

Context {W R : Type} `{AsyncWriter W} `{Reader R}.

Fixpoint AsyncCopy_AsyncWriter_Reader_Functor_refs (fuel : nat)
    (this : Functor.t) (stack : list engine_frame) (writer : W) (reader : R)
    (data : CopyData) (expected_written : Z) (exp_written : ExpectedSize)
    : list owned_event :=
  let here := In_Functor this :: stack in
  match fuel with
  | O => []
  | S fuel' =>
      match exp_written with
      | Unexpected e => Functor_CallFinishedHandler this stack e
      | Value w =>
          if negb (w =? expected_written) then
            Functor_CallFinishedHandler this stack short_write_error
          else
            let data1 := mk_CopyData (buf data)
                           (to_int64 (copied data + w)) (limit data) in
            let to_copy := to_copy_of data1 in
            if to_copy =? 0 then Functor_CallFinishedHandler this stack NoError
            else
              let '(reader', range', exp_read) :=
                Read reader (firstn (Z.to_nat to_copy) (buf data1)) in
              let data2 := mk_CopyData (buf_after_read data1 to_copy range')
                             (copied data1) (limit data1) in
              (EvRead to_copy (Inline exp_read), here) ::
              match exp_read with
              | Unexpected e => Functor_CallFinishedHandler this stack e
              | Value read =>
                  if read =? 0 then Functor_CallFinishedHandler this stack NoError
                  else
                    let bytes := firstn (Z.to_nat read) (buf data2) in
                    let next := Functor_copy this in
                    let '(writer', sub) := AsyncWrite writer bytes in
                    (EvWrite bytes sub, here) ::
                    match sub with
                    | Rejected err =>
                        if Error_eqb err NoError then []
                        else Functor_CallFinishedHandler this stack err
                    | Inline res =>
                        AsyncCopy_AsyncWriter_Reader_Functor_refs fuel' next here
                          writer' reader' data2 read res
                    | Deferred res =>
                        AsyncCopy_AsyncWriter_Reader_Functor_refs fuel' next
                          [In_event_loop] writer' reader' data2 read res
                    end
              end
      end
  end.

(** [Functor initial {dst, src, finished_handler, data, 0}; initial(0);]:
    the first functor is a local of [AsyncCopy] and is called from there. *)
Definition AsyncCopy_AsyncWriter_Reader_refs (fuel : nat) (dst : W) (src : R)
    (stop_after : Z) : list owned_event :=
  let data := CopyData_new MENDER_BUFSIZE stop_after in
  let initial := Functor_full in
  AsyncCopy_AsyncWriter_Reader_Functor_refs fuel initial [In_AsyncCopy] dst src
    data 0 (Value 0).

End AsyncWriter_Reader_refs.

Section AsyncWriter_AsyncReader_refs.

Context {W R : Type} `{AsyncWriter W} `{AsyncReader R}.

Fixpoint AsyncCopyReaderFunctor_refs (fuel : nat) (this : Functor.t)
    (stack : list engine_frame) (writer : W) (reader : R) (data : CopyData)
    (exp_size : ExpectedSize) {struct fuel} : list owned_event :=
  let here := In_Functor this :: stack in
  match fuel with
  | O => []
  | S fuel' =>
      match exp_size with
      | Unexpected e => Functor_CallFinishedHandler this stack e
      | Value sz =>
          if sz =? 0 then Functor_CallFinishedHandler this stack NoError
          else
            let bytes := firstn (Z.to_nat sz) (buf data) in
            let next := Functor_copy this in
            let '(writer', sub) := AsyncWrite writer bytes in
            (EvWrite bytes sub, here) ::
            match sub with
            | Rejected err =>
                if Error_eqb err NoError then []
                else Functor_CallFinishedHandler this stack err
            | Inline res =>
                AsyncCopyWriterFunctor_refs fuel' next here writer' reader data sz
                  res
            | Deferred res =>
                AsyncCopyWriterFunctor_refs fuel' next [In_event_loop] writer'
                  reader data sz res
            end
      end
  end
with AsyncCopyWriterFunctor_refs (fuel : nat) (this : Functor.t)
    (stack : list engine_frame) (writer : W) (reader : R) (data : CopyData)
    (expected_written : Z) (exp_size : ExpectedSize) {struct fuel}
    : list owned_event :=
  let here := In_Functor this :: stack in
  match fuel with
  | O => []
  | S fuel' =>
      match exp_size with
      | Unexpected e => Functor_CallFinishedHandler this stack e
      | Value w =>
          if negb (w =? expected_written) then
            Functor_CallFinishedHandler this stack short_write_error_async
          else
            let data1 := mk_CopyData (buf data)
                           (to_int64 (copied data + w)) (limit data) in
            let to_copy := to_copy_of data1 in
            if to_copy =? 0 then Functor_CallFinishedHandler this stack NoError
            else
              let next := Functor_copy this in
              let '(reader', range', sub) :=
                AsyncRead reader (firstn (Z.to_nat to_copy) (buf data1)) in
              let data2 := mk_CopyData (buf_after_read data1 to_copy range')
                             (copied data1) (limit data1) in
              (EvRead to_copy sub, here) ::
              match sub with
              | Rejected err =>
                  if Error_eqb err NoError then []
                  else Functor_CallFinishedHandler this stack err
              | Inline res =>
                  AsyncCopyReaderFunctor_refs fuel' next here writer reader' data2
                    res
              | Deferred res =>
                  AsyncCopyReaderFunctor_refs fuel' next [In_event_loop] writer
                    reader' data2 res
              end
      end
  end.

Definition AsyncCopy_AsyncWriter_AsyncReader_refs (fuel : nat) (dst : W)
    (src : R) (stop_after : Z) : list owned_event :=
  let data := CopyData_new MENDER_BUFSIZE stop_after in
  let here := [In_AsyncCopy] in
  let to_copy := to_size_t (Z.min (limit data) (to_int64 (len (buf data)))) in
  let next := Functor_full in
  let '(src', range', sub) :=
    AsyncRead src (firstn (Z.to_nat to_copy) (buf data)) in
  let data1 := mk_CopyData (buf_after_read data to_copy range')
                 (copied data) (limit data) in
  (EvRead to_copy sub, here) ::
  match sub with
  | Rejected err =>
      if Error_eqb err NoError then [] else [(EvFinished err, here)]
  | Inline res => AsyncCopyReaderFunctor_refs fuel next here dst src' data1 res
  | Deferred res =>
      AsyncCopyReaderFunctor_refs fuel next [In_event_loop] dst src' data1 res
  end.

End AsyncWriter_AsyncReader_refs.

End AsyncCopy_refs.

(** Which events are submissions that complete through a functor: the
    reads of a copy from an asynchronous reader, the writes of a copy into
    an asynchronous writer. *)
Definition read_submission (ev : copy_event) : option submission :=
  match ev with
  | EvRead _ sub => Some sub
  | _ => None
  end.

Definition write_submission (ev : copy_event) : option submission :=
  match ev with
  | EvWrite _ sub => Some sub
  | _ => None
  end.

Definition any_submission (ev : copy_event) : option submission :=
  match ev with
  | EvRead _ sub | EvWrite _ sub => Some sub
  | _ => None
  end.

(** The engine code running once a submission was made from [stack]:
    rejected, the code that submitted goes on; completed inline, a new
    functor with all its references runs on top of it; completed later, a
    new functor runs from the event loop. *)
Definition after_submission (stack : list engine_frame) (sub : submission)
    : list engine_frame :=
  match sub with
  | Rejected _ => stack
  | Inline _ => In_Functor Functor_full :: stack
  | Deferred _ => [In_Functor Functor_full; In_event_loop]
  end.

(** The engine code running after the events [events], from [stack]. *)
Fixpoint running (async : copy_event -> option submission)
    (stack : list engine_frame) (events : list copy_event)
    : list engine_frame :=
  match events with
  | [] => stack
  | ev :: rest =>
      running async
        (match async ev with
         | Some sub => after_submission stack sub
         | None => stack
         end) rest
  end.

(** [*this = {}] in the functor that is running. *)
Definition emptied (stack : list engine_frame) : list engine_frame :=
  match stack with
  | In_Functor _ :: below => In_Functor Functor_empty :: below
  | _ => stack
  end.

(** The latest submission among [events] that was accepted, with how it
    completed. *)
Definition latest_completion (async : copy_event -> option submission)
    (events : list copy_event) : option submission :=
  fold_left (fun latest ev =>
               match async ev with
               | Some (Inline res) => Some (Inline res)
               | Some (Deferred res) => Some (Deferred res)
               | _ => latest
               end) events None.

(** Engine code that still has every reference it was given. *)
Definition keeps_references (f : engine_frame) : Prop :=
  f = In_AsyncCopy \/ f = In_Functor Functor_full.

(** Engine code that [*this = {}] has not touched. *)
Definition untouched (f : engine_frame) : Prop :=
  match f with
  | In_Functor this => this = Functor_full
  | _ => True
  end.

(** The engine code running when the finished handler is called, in a copy
    that starts from [base]: the functor that calls it has emptied itself;
    what runs beneath it is as the submissions left it.
    - The latest accepted submission completed later: the functor was
      called by the event loop, and nothing beneath it belongs to the
      engine.
    - It completed inline: the code that submitted it is beneath, with all
      its references, and so is everything beneath that.
    - No submission was accepted: the handler is called from [base], by
      [AsyncCopy] itself or by its first functor. *)
Definition handler_finds (async : copy_event -> option submission)
    (base : list engine_frame) (run : nat -> list owned_event) : Prop :=
  forall fuel pre e st post,
    run fuel = pre ++ (EvFinished e, st) :: post ->
    st = emptied (running async base (map fst pre))
    /\ Forall untouched (tl st)
    /\ match latest_completion async (map fst pre) with
       | Some (Deferred _) => st = [In_Functor Functor_empty; In_event_loop]
       | Some (Inline _) =>
           exists f below,
             st = In_Functor Functor_empty :: f :: below /\ keeps_references f
       | _ => st = emptied base
       end.

(** The engine code running at an event: the finished handler is called,
    and [*this = {}] has happened, with the running functor emptied. *)
Definition snapshot_at (ev : copy_event) (stack : list engine_frame)
    : list engine_frame :=
  match ev with
  | EvRelease | EvFinished _ => emptied stack
  | _ => stack
  end.

(** The events of a copy, each with the engine code running then. *)
Fixpoint with_engine (async : copy_event -> option submission)
    (stack : list engine_frame) (events : list copy_event)
    : list owned_event :=
  match events with
  | [] => []
  | ev :: rest =>
      (ev, snapshot_at ev stack) ::
      with_engine async
        (match async ev with
         | Some sub => after_submission stack sub
         | None => stack
         end) rest
  end.

(** The engine code a copy can start from: something that has all its
    references, on top of code that has not been emptied. *)
Definition engine_start (base : list engine_frame) : Prop :=
  exists f below, base = f :: below /\ keeps_references f
                  /\ Forall untouched below.

(** Where [running] stands, by the latest accepted submission. *)
Definition stack_for (base : list engine_frame) (latest : option submission)
    (stack : list engine_frame) : Prop :=
  match latest with
  | Some (Deferred _) => stack = [In_Functor Functor_full; In_event_loop]
  | Some (Inline _) =>
      exists f below,
        stack = In_Functor Functor_full :: f :: below /\ keeps_references f
  | _ => stack = base
  end.

(* ================================================================= *)
(** * Properties *)

(** ** Sizes *)

Lemma to_size_t_small (z : Z) : 0 <= z < two64 -> to_size_t z = z.
Proof. intros H. unfold to_size_t. apply Z.mod_small. exact H. Qed.

Lemma len_nonneg {A} (l : list A) : 0 <= len l.
Proof. unfold len. lia. Qed.

Lemma len_pos_of_nonempty {A} (l : list A) : l <> [] -> 0 < len l.
Proof. destruct l; [congruence | unfold len; simpl; lia]. Qed.

Lemma len_app {A} (l1 l2 : list A) : len (l1 ++ l2) = len l1 + len l2.
Proof. unfold len. rewrite length_app. lia. Qed.

(** ** ByteReader *)

Lemma ByteReader_Read_eq (emitter : list byte) (r : ByteReader) (range : list byte) :
  ByteReader_wf emitter r -> range <> [] -> len range < two64 ->
  ByteReader_Read emitter r range
  = Some (mk_ByteReader (bytes_read_ r + Z.min (len range) (len emitter - bytes_read_ r)),
          copy_n (skipn (Z.to_nat (bytes_read_ r)) emitter)
                 (Z.min (len range) (len emitter - bytes_read_ r)) range 0,
          Value (Z.min (len range) (len emitter - bytes_read_ r))).
Proof.
  intros [Hc Hs] Hne Hlt. pose proof (len_pos_of_nonempty range Hne) as Hpos.
  unfold ByteReader_Read.
  destruct (0 <? len range) eqn:E; [| apply Z.ltb_ge in E; lia].
  rewrite (to_size_t_small (len emitter - bytes_read_ r)) by lia.
  rewrite (to_size_t_small (len range)) by lia.
  rewrite to_size_t_small by lia.
  reflexivity.
Qed.

Lemma ByteReader_Read_wf (emitter : list byte) (r r' : ByteReader)
    (range range' : list byte) (res : ExpectedSize) :
  ByteReader_wf emitter r -> range <> [] -> len range < two64 ->
  ByteReader_Read emitter r range = Some (r', range', res) ->
  ByteReader_wf emitter r'.
Proof.
  intros Hwf Hne Hlt H. rewrite (ByteReader_Read_eq _ _ _ Hwf Hne Hlt) in H.
  injection H as <- _ _. destruct Hwf as [Hc Hs].
  pose proof (len_nonneg range). split; simpl; lia.
Qed.

Lemma ByteReader_drained_stays (emitter : list byte) (ranges : list (list byte)) :
  forall r, ByteReader_wf emitter r -> bytes_read_ r = len emitter ->
  Forall (fun g => g <> [] /\ len g < two64) ranges ->
  ByteReader_Read_all emitter r ranges = Some (map (fun _ => Value 0) ranges).
Proof.
  induction ranges as [| g rest IH]; intros r Hwf Hend Hall; [reflexivity |].
  inversion Hall as [| ? ? [Hne Hlt] Hrest]; subst. simpl.
  rewrite (ByteReader_Read_eq _ _ _ Hwf Hne Hlt).
  pose proof (len_pos_of_nonempty g Hne) as Hpos.
  replace (Z.min (len g) (len emitter - bytes_read_ r)) with 0 by lia.
  rewrite IH; [reflexivity | | | assumption].
  - destruct Hwf as [Hc Hs]. split; simpl; lia.
  - simpl. lia.
Qed.

(** C9: a [ByteReader] over a fixed container answers every [Read] of a
    non-empty range with the count [min (range length) (bytes left past the
    cursor)], never with an error; and once a [Read] has returned 0, every
    later [Read] (no [Rewind] in between) returns 0 as well. *)
Theorem C9_ByteReader_Read_count (emitter : list byte) (r : ByteReader)
    (range : list byte) :
  ByteReader_wf emitter r -> range <> [] -> len range < two64 ->
  (exists r' range',
      ByteReader_Read emitter r range
      = Some (r', range', Value (Z.min (len range) (len emitter - bytes_read_ r)))
      /\ ByteReader_wf emitter r')
  /\ (forall r' range',
        ByteReader_Read emitter r range = Some (r', range', Value 0) ->
        forall ranges, Forall (fun g => g <> [] /\ len g < two64) ranges ->
        ByteReader_Read_all emitter r' ranges
        = Some (map (fun _ => Value 0) ranges)).
Proof.
  intros Hwf Hne Hlt. split.
  - eexists _, _. split; [apply ByteReader_Read_eq; assumption |].
    destruct Hwf as [Hc Hs]. pose proof (len_nonneg range).
    split; simpl; lia.
  - intros r' range' H ranges Hall.
    pose proof (ByteReader_Read_wf _ _ _ _ _ _ Hwf Hne Hlt H) as Hwf'.
    rewrite (ByteReader_Read_eq _ _ _ Hwf Hne Hlt) in H.
    injection H as <- _ Hv.
    pose proof (len_pos_of_nonempty range Hne) as Hpos.
    apply ByteReader_drained_stays; [assumption | simpl; lia | assumption].
Qed.

(** C9 on a three-byte container read through a two-byte range. *)
Lemma C9_ByteReader_Read_count_witness :
  ByteReader_Read_all [x01; x02; x03] ByteReader_new
    [[x00; x00]; [x00; x00]; [x00; x00]; [x00; x00]]
  = Some [Value 2; Value 1; Value 0; Value 0]
  /\ (exists r' range',
        ByteReader_Read [x01; x02; x03] (mk_ByteReader 3) [x00; x00]
        = Some (r', range', Value (Z.min 2 (3 - 3)))
        /\ ByteReader_wf [x01; x02; x03] r').
Proof.
  split; [reflexivity |].
  assert (Hwf : ByteReader_wf [x01; x02; x03] (mk_ByteReader 3))
    by (unfold ByteReader_wf, two64; simpl; unfold len; simpl; lia).
  assert (Hne : [x00; x00] <> @nil byte) by discriminate.
  assert (Hlt : len [x00; x00] < two64) by (unfold len, two64; simpl; lia).
  exact (proj1 (C9_ByteReader_Read_count _ _ _ Hwf Hne Hlt)).
Defined.

(** ** ByteWriter *)

(** C10: a bounded [ByteWriter] whose remaining capacity is non-zero but
    smaller than the non-empty range writes what fits and returns that count
    as a success; the no-space error comes back only from a call made with
    no capacity left (in bounded mode), and then always. *)
Theorem C10_ByteWriter_short_write (w : ByteWriter) (range : list byte) :
  ByteWriter_wf w -> range <> [] -> len range < two64 ->
  (unlimited_ w = false -> 0 < remaining_capacity w < len range ->
   exists w',
     ByteWriter_Write w range
     = Some (w', Value (Z.min (len range) (remaining_capacity w)))
     /\ Z.min (len range) (remaining_capacity w) = remaining_capacity w
     /\ remaining_capacity w' = 0)
  /\ (forall w' e,
        ByteWriter_Write w range = Some (w', Unexpected e) ->
        is_no_space_error e /\ remaining_capacity w = 0 /\ unlimited_ w = false)
  /\ (unlimited_ w = false -> remaining_capacity w = 0 ->
      exists e, ByteWriter_Write w range = Some (w, Unexpected e)
                /\ is_no_space_error e).
Proof.
  intros [Hc Hs] Hne Hlt. pose proof (len_pos_of_nonempty range Hne) as Hpos.
  unfold remaining_capacity, ByteWriter_Write.
  destruct (0 <? len range) eqn:E; [| apply Z.ltb_ge in E; lia].
  rewrite (to_size_t_small (len (receiver_ w) - bytes_written_ w)) by lia.
  rewrite (to_size_t_small (len range)) by lia.
  split; [| split].
  - intros Hb [Hlo Hhi]. rewrite Hb. simpl negb. rewrite andb_true_r.
    destruct (len (receiver_ w) - bytes_written_ w =? 0) eqn:E0;
      [apply Z.eqb_eq in E0; lia |].
    eexists. split; [reflexivity |]. split; [lia |].
    simpl. rewrite to_size_t_small by lia.
    unfold copy_n, len. rewrite !length_app, !length_firstn, length_skipn.
    unfold len in *. lia.
  - intros w' e H.
    destruct ((len (receiver_ w) - bytes_written_ w =? 0) && negb (unlimited_ w)) eqn:E0.
    + injection H as _ <-. apply andb_true_iff in E0 as [E1 E2].
      apply Z.eqb_eq in E1. apply negb_true_iff in E2.
      split; [reflexivity | split; assumption].
    + destruct (unlimited_ w);
        [destruct (len (receiver_ w) - bytes_written_ w <? len range) |];
        discriminate H.
  - intros Hb H0. rewrite Hb, H0. simpl. eexists. split; reflexivity.
Qed.

(** C10 on a two-byte container offered three bytes, and on a full one. *)
Lemma C10_ByteWriter_short_write_witness :
  ByteWriter_Write (ByteWriter_new [x00; x00]) [x0a; x0b; x0c]
  = Some (mk_ByteWriter [x0a; x0b] 2 false, Value 2)
  /\ (exists e, ByteWriter_Write (mk_ByteWriter [x0a; x0b] 2 false) [x0c]
                = Some (mk_ByteWriter [x0a; x0b] 2 false, Unexpected e)
                /\ is_no_space_error e).
Proof.
  split; [reflexivity |].
  assert (Hwf : ByteWriter_wf (mk_ByteWriter [x0a; x0b] 2 false))
    by (unfold ByteWriter_wf, two64, len; simpl; lia).
  assert (Hne : [x0c] <> @nil byte) by discriminate.
  assert (Hlt : len [x0c] < two64) by (unfold len, two64; simpl; lia).
  exact (proj2 (proj2 (C10_ByteWriter_short_write _ _ Hwf Hne Hlt))
           eq_refl eq_refl).
Defined.

(** ** StreamReader *)

(** Whatever the stream did, a [StreamReader] with a stream answers with
    the stream's [gcount]: the test after the read is on the pointer. *)
Lemma StreamReader_Read_value {S} `{IStream S} (s : S) (errno : Z)
    (range : list byte) :
  StreamReader_Read (mk_StreamReader (Some s)) errno range
  = Some (mk_StreamReader (Some (fst (fst (istream_read s errno range)))),
          snd (fst (istream_read s errno range)),
          snd (istream_read s errno range),
          Value (istream_gcount (fst (fst (istream_read s errno range))))).
Proof.
  unfold StreamReader_Read. simpl.
  destruct (istream_read s errno range) as [[s' errno'] range']. reflexivity.
Qed.

(** The sibling [StreamWriter::Write] does report a failed stream. *)
Lemma StreamWriter_Write_failed {S} `{OStream S} (s : S) (range : list byte) :
  ostream_fail (ostream_write s range) = true ->
  exists w' e,
    StreamWriter_Write (mk_StreamWriter (Some s)) range = Some (w', Unexpected e)
    /\ is_io_error e.
Proof.
  intros Hfail. unfold StreamWriter_Write. simpl. rewrite Hfail.
  eexists _, _. split; reflexivity.
Qed.

(** C2 on the code: for every stream, a [StreamReader] that has one
    answers with the stream's [gcount] as a success, whatever state the read
    left the stream in.  At a stream whose device is broken the read
    transfers nothing, the stream is in a failed state with [errno = EIO],
    and [StreamReader::Read] still answers with the count 0, not with an
    error. *)
Theorem C2_StreamReader_Read_on_failed_stream :
  (forall (S : Type) (I : IStream S) (s : S) (errno : Z) (range : list byte),
      exists s' errno' range',
        istream_read s errno range = (s', errno', range')
        /\ StreamReader_Read (mk_StreamReader (Some s)) errno range
           = Some (mk_StreamReader (Some s'), errno', range',
                   Value (istream_gcount s')))
  /\ (let s := mk_MemStream true [x01; x02] false 0 in
      exists s',
        istream_read s 0 [x00; x00] = (s', EIO, [x00; x00])
        /\ istream_fail s' = true
        /\ StreamReader_Read (mk_StreamReader (Some s)) 0 [x00; x00]
           = Some (mk_StreamReader (Some s'), EIO, [x00; x00], Value 0)).
Proof.
  split.
  - intros S I s errno range. rewrite StreamReader_Read_value.
    destruct (istream_read s errno range) as [[s' errno'] range'].
    exists s', errno', range'. split; reflexivity.
  - simpl. eexists. split; [reflexivity |]. split; reflexivity.
Qed.

(** ** Blocking-stream bridge *)

(** C8: when the get area is used up and the refill [Read] fails, [underflow]
    returns [eof] with an empty get area, and leaves in [errno] the code the
    failing [Read] put there, or else the value of the error's code when it
    is of the generic category, or else [EIO]. *)
Theorem C8_underflow_error_is_eof (R : Type)
    (Read_errno : R -> Z -> list byte -> R * Z * list byte * ExpectedSize)
    (sb : ReaderStreamBuffer R) (errno : Z)
    (reader' : R) (errno_read : Z) (buf' : list byte) (e : Error) :
  gptr_ge_egptr sb = true ->
  Read_errno (reader_ sb) 0 (buf_ sb) = (reader', errno_read, buf', Unexpected e) ->
  exists sb' errno',
    underflow Read_errno sb errno = (sb', errno', traits_eof)
    /\ gptr_eq_egptr sb' = true
    /\ (errno_read <> 0 -> errno' = errno_read)
    /\ (errno_read = 0 -> category (code e) = generic_category ->
        errno' = value (code e))
    /\ (errno_read = 0 -> category (code e) <> generic_category -> errno' = EIO).
Proof.
  intros Hge Hread. unfold underflow. rewrite Hge, Hread.
  eexists _, _. split; [reflexivity |]. split; [reflexivity |].
  repeat split.
  - intros Hnz. destruct (errno_read =? 0) eqn:E; [apply Z.eqb_eq in E; lia | reflexivity].
  - intros -> Hcat. simpl. rewrite Hcat. reflexivity.
  - intros -> Hcat. simpl.
    destruct (category (code e)) eqn:Ec; simpl; congruence.
Qed.

(** C8 on a fresh bridge over a reader that fails with [ENOSPC] in the
    generic category without touching [errno]. *)
Lemma C8_underflow_error_is_eof_witness :
  let rd := fun (r : unit) (errno : Z) (range : list byte) =>
              (r, errno, range,
               @Unexpected Z (mk_Error errc_no_space_on_device EmptyString)) in
  exists sb' errno',
    underflow rd (ReaderStreamBuffer_new 4 unit tt) 7 = (sb', errno', traits_eof)
    /\ errno' = ENOSPC.
Proof.
  intros rd.
  destruct (C8_underflow_error_is_eof unit rd (ReaderStreamBuffer_new 4 unit tt) 7
              tt 0 (repeat x00 4) (mk_Error errc_no_space_on_device EmptyString)
              eq_refl eq_refl)
    as (sb' & errno' & Hu & _ & _ & Hgen & _).
  exists sb', errno'. split; [exact Hu |]. exact (Hgen eq_refl eq_refl).
Defined.

(** ** Rewind after the recording was stopped *)

Lemma BufferedReader_Rewind_denied_iff {R} (b : BufferedReader R) :
  (exists e, snd (BufferedReader_Rewind b) = Unexpected e)
  <-> stop_done_ b = true /\ rewind_done_ b = true.
Proof.
  unfold BufferedReader_Rewind.
  destruct (stop_done_ b), (rewind_done_ b); simpl; split;
    try (intros [e He]; discriminate He);
    try (intros [H1 H2]; discriminate);
    try (intros _; split; reflexivity);
    try (intros _; eexists; reflexivity).
Qed.

Lemma AsyncBufferedReader_Rewind_denied_iff {R} (b : BufferedReader R) :
  (exists e, snd (AsyncBufferedReader_Rewind b) = Unexpected e)
  <-> stop_done_ b = true /\ rewind_done_ b = true.
Proof.
  unfold AsyncBufferedReader_Rewind.
  destruct (stop_done_ b), (rewind_done_ b); simpl; split;
    try (intros [e He]; discriminate He);
    try (intros [H1 H2]; discriminate);
    try (intros _; split; reflexivity);
    try (intros _; eexists; reflexivity).
Qed.

Section StoppedReader.

Context {R : Type} `{Reader R}.

Lemma BufferedReader_do_stopped (armed : bool) (b b' : BufferedReader R)
    (c : BufferedReader_call) :
  stopped_inv armed b -> BufferedReader_do b c = Some b' ->
  stopped_inv (armed || is_rewind_call c) b'.
Proof.
  intros (Hs & Hr & He) Hdo. destruct c as [range | | |]; simpl in Hdo.
  - unfold BufferedReader_Read in Hdo. rewrite Hr, Hs in Hdo.
    rewrite orb_false_r.
    destruct armed; simpl in Hdo.
    + destruct (rewind_consumed_ b); simpl in Hdo.
      * destruct (Read (wrapped_reader_ b) range) as [[wr rg] [n | e]];
          injection Hdo as <-; repeat split; simpl; auto; discriminate.
      * destruct (ByteReader_Read (buffer_ b) (buffer_reader_ b) range)
          as [[[br rg] [n | e]] |]; [| | discriminate Hdo].
        -- destruct (negb (0 <? n));
             [| destruct (negb (n <=? buffer_remaining_ b))];
             injection Hdo as <-; repeat split; simpl; auto; discriminate.
        -- injection Hdo as <-; repeat split; simpl; auto; discriminate.
    + destruct (He eq_refl) as [Hb Hc].
      destruct (Read (wrapped_reader_ b) range) as [[wr rg] [n | e]];
        injection Hdo as <-; repeat split; simpl; auto.
  - injection Hdo as <-. rewrite orb_true_r.
    unfold BufferedReader_Rewind. rewrite Hs, Hr.
    destruct armed; simpl; repeat split; simpl; auto; discriminate.
  - injection Hdo as <-. rewrite orb_true_r.
    unfold BufferedReader_StopBufferingAndRewind, BufferedReader_Rewind.
    rewrite Hs, Hr.
    destruct armed; simpl; repeat split; simpl; auto; discriminate.
  - injection Hdo as <-. rewrite orb_false_r.
    unfold BufferedReader_StopBufferingAndDiscard. rewrite Hr.
    destruct armed; simpl.
    + destruct (rewind_consumed_ b); simpl; repeat split; simpl; auto; discriminate.
    + repeat split; simpl; auto.
Qed.

Lemma BufferedReader_run_stopped (cs : list BufferedReader_call) :
  forall (armed : bool) (b b' : BufferedReader R),
    stopped_inv armed b -> BufferedReader_run b cs = Some b' ->
    stopped_inv (armed || existsb is_rewind_call cs) b'.
Proof.
  induction cs as [| c rest IH]; intros armed b b' Hinv Hrun; simpl in *.
  - injection Hrun as <-. rewrite orb_false_r. exact Hinv.
  - destruct (BufferedReader_do b c) as [b1 |] eqn:Hdo; [| discriminate].
    rewrite orb_assoc. eapply IH; [| exact Hrun].
    eapply BufferedReader_do_stopped; eassumption.
Qed.

Lemma discard_stopped (b b' : BufferedReader R) :
  BufferedReader_StopBufferingAndDiscard b = (b', NoError) ->
  stopped_inv (rewind_done_ b) b'.
Proof.
  unfold BufferedReader_StopBufferingAndDiscard.
  destruct (rewind_done_ b && negb (rewind_consumed_ b)) eqn:E; intros Hd.
  - discriminate Hd.
  - injection Hd as <-. repeat split; simpl; auto.
Qed.

End StoppedReader.

Section StoppedAsyncReader.

Context {R : Type} `{AsyncReader R}.

Lemma wrapper_handler_stopped (b : BufferedReader R) (range range' : list byte)
    (result : ExpectedSize) :
  stop_done_ b = true -> wrapper_handler b range range' result = Some b.
Proof.
  intros Hs. unfold wrapper_handler. rewrite Hs. destruct result; reflexivity.
Qed.

Lemma AsyncBufferedReader_AsyncRead_stopped (armed : bool)
    (b b' : BufferedReader R) (range range' : list byte)
    (o : async_read_outcome) :
  stopped_inv armed b ->
  AsyncBufferedReader_AsyncRead b range = Some (b', range', o) ->
  stopped_inv armed b'.
Proof.
  intros (Hs & Hr & He) Hread. unfold AsyncBufferedReader_AsyncRead in Hread.
  destruct (rewind_done_ b && negb (rewind_consumed_ b)) eqn:Hp.
  - assert (Ha : armed = true)
      by (rewrite <- Hr; apply andb_true_iff in Hp; tauto).
    destruct (ByteReader_Read (buffer_ b) (buffer_reader_ b) range)
      as [[[br rg] [n | e]] |]; [| | discriminate Hread].
    + destruct (negb (0 <? n));
        [| destruct (negb (n <=? buffer_remaining_ b))];
        injection Hread as <- _ _; (split; [| split]); cbn; auto;
        rewrite Ha; discriminate.
    + injection Hread as <- _ _; (split; [| split]); cbn; auto;
        rewrite Ha; discriminate.
  - destruct (AsyncRead (wrapped_reader_ b) range) as [[wr rg] [err | res | res]].
    + injection Hread as <- _ _. (split; [| split]); cbn; auto.
    + rewrite wrapper_handler_stopped in Hread by exact Hs.
      injection Hread as <- _ _. (split; [| split]); cbn; auto.
    + injection Hread as <- _ _. (split; [| split]); cbn; auto.
Qed.

Lemma AsyncBufferedReader_do_stopped (armed : bool)
    (st st' : BufferedReader R * list pending_read)
    (c : AsyncBufferedReader_call) :
  stopped_inv armed (fst st) -> AsyncBufferedReader_do st c = Some st' ->
  stopped_inv (armed || is_async_rewind_call c) (fst st').
Proof.
  destruct st as [b pending]. cbn [fst]. intros Hinv Hdo.
  destruct c as [range | k | | |]; cbn [AsyncBufferedReader_do is_async_rewind_call]
    in Hdo |- *; rewrite ?orb_false_r, ?orb_true_r.
  - destruct (AsyncBufferedReader_AsyncRead b range) as [[[b1 rg] o] |] eqn:Hread;
      [| discriminate Hdo].
    pose proof (AsyncBufferedReader_AsyncRead_stopped _ _ _ _ _ _ Hinv Hread)
      as Hinv1.
    destruct o as [[err | res | res] | e]; injection Hdo as <-; exact Hinv1.
  - destruct (nth_error pending k) as [[[range range'] result] |].
    + rewrite wrapper_handler_stopped in Hdo by (apply Hinv).
      injection Hdo as <-. exact Hinv.
    + injection Hdo as <-. exact Hinv.
  - injection Hdo as <-. destruct Hinv as (Hs & Hr & He). cbn [fst].
    unfold AsyncBufferedReader_Rewind. rewrite Hs, Hr.
    destruct armed; simpl; repeat split; simpl; auto; try discriminate.
  - injection Hdo as <-. destruct Hinv as (Hs & Hr & He). cbn [fst].
    unfold AsyncBufferedReader_StopBufferingAndRewind, AsyncBufferedReader_Rewind.
    rewrite Hs, Hr.
    destruct armed; simpl; repeat split; simpl; auto; try discriminate.
  - injection Hdo as <-. destruct Hinv as (Hs & Hr & He). cbn [fst].
    unfold AsyncBufferedReader_StopBufferingAndDiscard. rewrite Hr.
    destruct armed; simpl.
    + destruct (rewind_consumed_ b); simpl; repeat split; simpl; auto; discriminate.
    + repeat split; simpl; auto.
Qed.

Lemma AsyncBufferedReader_run_stopped (cs : list AsyncBufferedReader_call) :
  forall (armed : bool) (st st' : BufferedReader R * list pending_read),
    stopped_inv armed (fst st) -> AsyncBufferedReader_run st cs = Some st' ->
    stopped_inv (armed || existsb is_async_rewind_call cs) (fst st').
Proof.
  induction cs as [| c rest IH]; intros armed st st' Hinv Hrun;
    cbn [AsyncBufferedReader_run existsb] in *.
  - injection Hrun as <-. rewrite orb_false_r. exact Hinv.
  - destruct (AsyncBufferedReader_do st c) as [st1 |] eqn:Hdo; [| discriminate].
    rewrite orb_assoc. eapply IH; [| exact Hrun].
    eapply AsyncBufferedReader_do_stopped; eassumption.
Qed.

End StoppedAsyncReader.

Lemma async_discard_stopped {R} (b b' : BufferedReader R) :
  AsyncBufferedReader_StopBufferingAndDiscard b = (b', NoError) ->
  stopped_inv (rewind_done_ b) b'.
Proof.
  unfold AsyncBufferedReader_StopBufferingAndDiscard.
  destruct (rewind_done_ b && negb (rewind_consumed_ b)) eqn:E; intros Hd.
  - discriminate Hd.
  - injection Hd as <-. repeat split; simpl; auto.
Qed.

(** C1 as the code has it: [Rewind] is refused exactly when the recording
    was stopped and a rewind was already performed (whether or not its
    replay was read to the end), for both reader classes.  After a
    successful [StopBufferingAndDiscard] and any further calls, [Rewind] is
    refused exactly when a rewind was performed before the discard or since;
    if none was, it succeeds and reports 0 bytes.  For [BufferedReader] the
    further calls are any sequence of its four calls over any wrapped
    reader; for [AsyncBufferedReader] any sequence of its four calls and of
    completions delivered by the event loop, in any order, over any wrapped
    reader and with any reads still outstanding at the discard. *)
Theorem C1_Rewind_denied_after_stop {R} (b : BufferedReader R) :
  ((exists e, snd (BufferedReader_Rewind b) = Unexpected e)
   <-> stop_done_ b = true /\ rewind_done_ b = true)
  /\ ((exists e, snd (AsyncBufferedReader_Rewind b) = Unexpected e)
      <-> stop_done_ b = true /\ rewind_done_ b = true)
  /\ (forall (HR : Reader R) (b' b'' : BufferedReader R)
             (cs : list BufferedReader_call),
        BufferedReader_StopBufferingAndDiscard b = (b', NoError) ->
        BufferedReader_run b' cs = Some b'' ->
        (rewind_done_ b || existsb is_rewind_call cs = true ->
         BufferedReader_Rewind b'' = (b'', Unexpected rewind_denied))
        /\ (rewind_done_ b || existsb is_rewind_call cs = false ->
            snd (BufferedReader_Rewind b'') = Value 0))
  /\ (forall (HA : AsyncReader R) (b' b'' : BufferedReader R)
             (pending pending'' : list pending_read)
             (cs : list AsyncBufferedReader_call),
        AsyncBufferedReader_StopBufferingAndDiscard b = (b', NoError) ->
        AsyncBufferedReader_run (b', pending) cs = Some (b'', pending'') ->
        (rewind_done_ b || existsb is_async_rewind_call cs = true ->
         AsyncBufferedReader_Rewind b'' = (b'', Unexpected rewind_denied))
        /\ (rewind_done_ b || existsb is_async_rewind_call cs = false ->
            snd (AsyncBufferedReader_Rewind b'') = Value 0)).
Proof.
  split; [apply BufferedReader_Rewind_denied_iff |].
  split; [apply AsyncBufferedReader_Rewind_denied_iff |].
  split.
  - intros HR b' b'' cs Hd Hrun.
    pose proof (BufferedReader_run_stopped cs _ _ _ (discard_stopped _ _ Hd) Hrun)
      as (Hs & Hr & He).
    unfold BufferedReader_Rewind. rewrite Hs, Hr. split; intros Ha; rewrite Ha in *.
    + reflexivity.
    + destruct (He eq_refl) as [Hb _]. simpl. rewrite Hb. reflexivity.
  - intros HA b' b'' pending pending'' cs Hd Hrun.
    pose proof (AsyncBufferedReader_run_stopped cs _ (b', pending) _
                  (async_discard_stopped _ _ Hd) Hrun) as (Hs & Hr & He).
    cbn [fst] in Hs, Hr, He.
    unfold AsyncBufferedReader_Rewind. rewrite Hs, Hr. split; intros Ha; rewrite Ha in *.
    + reflexivity.
    + destruct (He eq_refl) as [Hb _]. simpl. rewrite Hb. reflexivity.
Qed.

(** C1 on a reader that recorded one byte: discard, read again, rewind
    (0 bytes), and from then on every rewind is refused; the same on the
    asynchronous reader over a source whose completions come from the event
    loop, with a read still outstanding at the discard. *)
Lemma C1_Rewind_denied_after_stop_witness :
  (exists b range' b' b1 b2,
      BufferedReader_Read (BufferedReader_new (mk_ChunkReader [x01; x02] 1)) [x00]
      = Some (b, range', Value 1)
      /\ buffer_ b = [x01]
      /\ BufferedReader_StopBufferingAndDiscard b = (b', NoError)
      /\ BufferedReader_run b' [CallRead [x00]] = Some b1
      /\ snd (BufferedReader_Rewind b1) = Value 0
      /\ BufferedReader_run b' [CallRead [x00]; CallRewind] = Some b2
      /\ BufferedReader_Rewind b2 = (b2, Unexpected rewind_denied))
  /\ (exists a outstanding a' a1 a2,
        AsyncBufferedReader_run
          (BufferedReader_new (mk_DeferringReader (mk_ChunkReader [x01; x02; x03] 1)),
           [])
          [AsyncCallRead [x00]; AsyncCallComplete 0; AsyncCallRead [x00]]
        = Some (a, outstanding)
        /\ buffer_ a = [x01] /\ length outstanding = 1%nat
        /\ AsyncBufferedReader_StopBufferingAndDiscard a = (a', NoError)
        /\ AsyncBufferedReader_run (a', outstanding)
             [AsyncCallComplete 0; AsyncCallRead [x00]; AsyncCallComplete 0]
           = Some (a1, [])
        /\ buffer_ a1 = []
        /\ snd (AsyncBufferedReader_Rewind a1) = Value 0
        /\ AsyncBufferedReader_run (a', outstanding)
             [AsyncCallComplete 0; AsyncCallRewind; AsyncCallRead [x00];
              AsyncCallComplete 0]
           = Some (a2, [])
        /\ AsyncBufferedReader_Rewind a2 = (a2, Unexpected rewind_denied)).
Proof.
  split.
  - pose (b := mk_BufferedReader (mk_ChunkReader [x02] 1) [x01] ByteReader_new
                 0 false false false).
    pose (b' := mk_BufferedReader (mk_ChunkReader [x02] 1) [] ByteReader_new
                  0 false true true).
    pose (b1 := mk_BufferedReader (mk_ChunkReader [] 1) [] ByteReader_new
                  0 false true true).
    pose (b2 := mk_BufferedReader (mk_ChunkReader [] 1) [] ByteReader_new
                  0 true true true).
    exists b, [x01], b', b1, b2.
    split; [reflexivity |]. split; [reflexivity |].
    split; [reflexivity |]. split; [reflexivity |].
    split; [| split; [reflexivity |]].
    + exact (proj2 (proj1 (proj2 (proj2 (C1_Rewind_denied_after_stop b)))
                      ChunkReader_Reader b' b1 [CallRead [x00]] eq_refl eq_refl)
               eq_refl).
    + exact (proj1 (proj1 (proj2 (proj2 (C1_Rewind_denied_after_stop b)))
                      ChunkReader_Reader b' b2 [CallRead [x00]; CallRewind]
                      eq_refl eq_refl) eq_refl).
  - pose (src := fun data => mk_DeferringReader (mk_ChunkReader data 1)).
    pose (a := mk_BufferedReader (src [x03]) [x01] ByteReader_new
                 0 false false false).
    pose (outstanding := [([x00], [x02], @Value Z 1)] : list pending_read).
    pose (a' := mk_BufferedReader (src [x03]) [] ByteReader_new 0 false true true).
    pose (a1 := mk_BufferedReader (src []) [] ByteReader_new 0 false true true).
    pose (a2 := mk_BufferedReader (src []) [] ByteReader_new 0 true true true).
    exists a, outstanding, a', a1, a2.
    split; [reflexivity |]. split; [reflexivity |]. split; [reflexivity |].
    split; [reflexivity |]. split; [reflexivity |]. split; [reflexivity |].
    split; [| split; [reflexivity |]].
    + exact (proj2 (proj2 (proj2 (proj2 (C1_Rewind_denied_after_stop a)))
                      DeferringReader_AsyncReader a' a1 outstanding []
                      [AsyncCallComplete 0; AsyncCallRead [x00]; AsyncCallComplete 0]
                      eq_refl eq_refl) eq_refl).
    + exact (proj1 (proj2 (proj2 (proj2 (C1_Rewind_denied_after_stop a)))
                      DeferringReader_AsyncReader a' a2 outstanding []
                      [AsyncCallComplete 0; AsyncCallRewind; AsyncCallRead [x00];
                       AsyncCallComplete 0]
                      eq_refl eq_refl) eq_refl).
Defined.

(** C1 as stated fails on the code: on a fresh reader, the discard succeeds
    and the [Rewind] after it succeeds as well (0 bytes), in both classes;
    and a [Rewind] is refused while the replay armed by
    [StopBufferingAndRewind] has not been read at all. *)
Lemma C1_Rewind_succeeds_after_discard :
  let b := BufferedReader_new (mk_ChunkReader [x01; x02] 1) in
  let b' := fst (BufferedReader_StopBufferingAndDiscard b) in
  let a' := fst (AsyncBufferedReader_StopBufferingAndDiscard b) in
  snd (BufferedReader_StopBufferingAndDiscard b) = NoError
  /\ snd (BufferedReader_Rewind b') = Value 0
  /\ snd (AsyncBufferedReader_StopBufferingAndDiscard b) = NoError
  /\ snd (AsyncBufferedReader_Rewind a') = Value 0
  /\ (exists b1 range' b2,
        BufferedReader_Read b [x00] = Some (b1, range', Value 1)
        /\ BufferedReader_StopBufferingAndRewind b1 = (b2, Value 1)
        /\ rewind_consumed_ b2 = false
        /\ snd (BufferedReader_Rewind b2) = Unexpected rewind_denied).
Proof.
  simpl. repeat split. eexists _, _, _. repeat split.
Qed.

(** ** Rewind and replay *)

Lemma firstn_copy_n_0 {A} (src range : list A) (k : Z) :
  0 <= k <= len src ->
  firstn (Z.to_nat k) (copy_n src k range 0) = firstn (Z.to_nat k) src.
Proof.
  intros Hk. unfold copy_n, len in *. simpl.
  rewrite firstn_app, length_firstn.
  replace (Z.to_nat k - Nat.min (Z.to_nat k) (length src))%nat with 0%nat by lia.
  simpl. rewrite app_nil_r, firstn_firstn, Nat.min_id. reflexivity.
Qed.

Lemma firstn_skipn_chain {A} (l : list A) (p k : nat) :
  firstn k (skipn p l) ++ skipn (p + k) l = skipn p l.
Proof.
  rewrite Nat.add_comm, <- skipn_skipn. apply firstn_skipn.
Qed.

Section Replay.

Context {R : Type} `{Reader R}.

(** While nothing was rewound or stopped, every successful [Read] appends
    what it delivered to the buffer. *)
Lemma Read_pass_records (ranges : list (list byte)) :
  forall (b b1 : BufferedReader R) (S : list byte) (eof : bool),
    rewind_done_ b = false -> stop_done_ b = false ->
    BufferedReader_Read_pass b ranges = Some (b1, S, eof) ->
    buffer_ b1 = buffer_ b ++ S
    /\ rewind_done_ b1 = false /\ stop_done_ b1 = false.
Proof.
  induction ranges as [| g rest IH]; intros b b1 S eof Hr Hs Hp; simpl in Hp.
  - injection Hp as <- <- _. rewrite app_nil_r. auto.
  - unfold BufferedReader_Read in Hp. rewrite Hr, Hs in Hp. simpl in Hp.
    destruct (Read (wrapped_reader_ b) g) as [[wr rg] [n | e]]; [| discriminate Hp].
    destruct (n <=? len g); [| discriminate Hp].
    destruct (n =? 0) eqn:En.
    + injection Hp as <- <- _. simpl. apply Z.eqb_eq in En. subst n.
      simpl. auto.
    + match type of Hp with
      | match BufferedReader_Read_pass ?b' rest with _ => _ end = _ =>
          destruct (BufferedReader_Read_pass b' rest) as [[[b2 bytes] eof2] |] eqn:Hrest;
          [| discriminate Hp]
      end.
      injection Hp as <- <- _.
      apply IH in Hrest; [| reflexivity | reflexivity].
      destruct Hrest as (Hb & Hr2 & Hs2). simpl in Hb.
      rewrite Hb, <- app_assoc. auto.
Qed.

(** An armed replay over the recorded bytes [S], with the cursor at [p],
    serves the rest of [S] and then is exhausted. *)
Lemma Replay_serves (S : list byte) (ranges : list (list byte)) :
  len S < two64 ->
  forall b : BufferedReader R,
    buffer_ b = S -> rewind_done_ b = true -> stop_done_ b = false ->
    0 <= bytes_read_ (buffer_reader_ b) <= len S ->
    buffer_remaining_ b = len S - bytes_read_ (buffer_reader_ b) ->
    rewind_consumed_ b = (buffer_remaining_ b =? 0) ->
    Forall (fun g => g <> [] /\ len g < two64) ranges ->
    (Z.to_nat (buffer_remaining_ b) <= length ranges)%nat ->
    exists b3,
      BufferedReader_Replay b ranges
      = Some (b3, skipn (Z.to_nat (bytes_read_ (buffer_reader_ b))) S,
              buffer_remaining_ b)
      /\ rewind_consumed_ b3 = true.
Proof.
  intros HS. induction ranges as [| g rest IH];
    intros b Hb Hr Hs Hp Hrem Hc Hall Hlen; simpl in Hlen.
  - assert (H0 : buffer_remaining_ b = 0) by lia.
    exists b. simpl. rewrite H0 in *. split; [| exact Hc].
    rewrite skipn_all2 by (unfold len in *; lia). reflexivity.
  - destruct (Z.eq_dec (buffer_remaining_ b) 0) as [H0 | Hpos].
    + exists b. simpl. rewrite Hr, Hc, H0. simpl. split; [| reflexivity].
      rewrite skipn_all2 by (unfold len in *; lia). reflexivity.
    + apply Forall_cons_iff in Hall as [[Hne Hlt] Hrest].
      pose proof (len_pos_of_nonempty _ Hne) as Hg.
      assert (Hwf : ByteReader_wf (buffer_ b) (buffer_reader_ b))
        by (rewrite Hb; split; assumption).
      simpl. unfold BufferedReader_Read. rewrite Hr, Hc.
      destruct (buffer_remaining_ b =? 0) eqn:E0; [apply Z.eqb_eq in E0; lia |].
      simpl. rewrite (ByteReader_Read_eq _ _ _ Hwf Hne Hlt). rewrite Hb.
      set (p := bytes_read_ (buffer_reader_ b)) in *.
      set (k := Z.min (len g) (len S - p)).
      assert (Hk : 1 <= k <= len S - p) by (unfold k; lia).
      destruct (0 <? k) eqn:E1; [| apply Z.ltb_ge in E1; lia].
      destruct (k <=? buffer_remaining_ b) eqn:E2; [| apply Z.leb_gt in E2; lia].
      simpl. rewrite Hs, andb_false_r.
      rewrite (to_size_t_small (buffer_remaining_ b - k)) by lia.
      match goal with
      | |- context [BufferedReader_Replay ?b' rest] =>
          destruct (IH b') as (b3 & Hrep & Hc3); simpl;
          [ reflexivity | reflexivity | reflexivity | lia | lia
          | destruct (buffer_remaining_ b - k =? 0); reflexivity
          | assumption | lia | ]
      end.
      rewrite Hrep. exists b3. split; [| exact Hc3]. simpl.
      f_equal. f_equal; [| lia]. f_equal.
      rewrite firstn_copy_n_0.
      * replace (Z.to_nat (p + k)) with (Z.to_nat p + Z.to_nat k)%nat by lia.
        apply firstn_skipn_chain.
      * unfold len in *. rewrite length_skipn. lia.
Qed.

End Replay.

(** C7: read a fresh [BufferedReader] over any reader until the reader is
    exhausted (or for any number of successful reads), and let [S] be the
    bytes delivered; then [Rewind] reports [len S] bytes, and reading again
    through any non-empty ranges until the replay is exhausted serves
    exactly [S], [len S] bytes in total. *)
Theorem C7_Rewind_replays_what_was_read {R} `{Reader R}
    (wrapped : R) (ranges1 : list (list byte)) (b1 : BufferedReader R)
    (S : list byte) (eof : bool) :
  BufferedReader_Read_pass (BufferedReader_new wrapped) ranges1 = Some (b1, S, eof) ->
  len S < two64 ->
  exists b2,
    BufferedReader_Rewind b1 = (b2, Value (len S))
    /\ forall ranges2 : list (list byte),
         Forall (fun g => g <> [] /\ len g < two64) ranges2 ->
         (length S <= length ranges2)%nat ->
         exists b3,
           BufferedReader_Replay b2 ranges2 = Some (b3, S, len S)
           /\ rewind_consumed_ b3 = true.
Proof.
  intros Hpass HS.
  apply Read_pass_records in Hpass; [| reflexivity | reflexivity].
  destruct Hpass as (Hb & Hr & Hs). simpl in Hb.
  unfold BufferedReader_Rewind. rewrite Hs, Hb. simpl.
  eexists. split; [reflexivity |].
  intros ranges2 Hall Hlen.
  match goal with
  | |- context [BufferedReader_Replay ?b' ranges2] =>
      destruct (Replay_serves S ranges2 HS b') as (b3 & Hrep & Hc3); simpl;
      [ reflexivity | reflexivity | reflexivity | pose proof (len_nonneg S); lia
      | lia | reflexivity | assumption | unfold len; lia | ]
  end.
  simpl in Hrep. exists b3. split; [exact Hrep | exact Hc3].
Qed.

Lemma len_copy_n_0 {A} (src range : list A) (k : Z) :
  0 <= k <= len src -> k <= len range -> len (copy_n src k range 0) = len range.
Proof.
  intros Hk Hr. unfold copy_n, len in *. simpl.
  rewrite length_app, length_firstn, length_skipn. lia.
Qed.

Lemma ChunkReader_contract : @Reader_contract ChunkReader _.
Proof.
  intros r r' range range' n Hread.
  unfold Read, ChunkReader_Reader, ChunkReader_Read in Hread.
  injection Hread as _ <- <-.
  pose proof (len_nonneg range). pose proof (len_nonneg (cr_data r)).
  split; [lia |]. apply len_copy_n_0; lia.
Qed.

(** C7 on three bytes served two at a time and replayed through ranges of
    two, one and two bytes. *)
Lemma C7_Rewind_replays_what_was_read_witness :
  exists b1 b2 b3,
    BufferedReader_Read_pass
      (BufferedReader_new (mk_ChunkReader [x01; x02; x03] 2))
      [[x00; x00]; [x00; x00]; [x00; x00]]
    = Some (b1, [x01; x02; x03], true)
    /\ BufferedReader_Rewind b1 = (b2, Value 3)
    /\ BufferedReader_Replay b2 [[x00; x00]; [x00]; [x00; x00]]
       = Some (b3, [x01; x02; x03], 3)
    /\ rewind_consumed_ b3 = true.
Proof.
  pose (b1 := mk_BufferedReader (mk_ChunkReader [] 2) [x01; x02; x03]
                ByteReader_new 0 false false false).
  assert (Hpass : BufferedReader_Read_pass
                    (BufferedReader_new (mk_ChunkReader [x01; x02; x03] 2))
                    [[x00; x00]; [x00; x00]; [x00; x00]]
                  = Some (b1, [x01; x02; x03], true)) by reflexivity.
  assert (HS : len [x01; x02; x03] < two64) by (unfold len, two64; simpl; lia).
  destruct (C7_Rewind_replays_what_was_read _ _ _ _ _ Hpass HS)
    as (b2 & Hrew & Hreplay).
  assert (Hall : Forall (fun g : list byte => g <> [] /\ len g < two64)
                   [[x00; x00]; [x00]; [x00; x00]])
    by (repeat constructor; try discriminate; unfold len, two64; simpl; lia).
  destruct (Hreplay _ Hall (le_n 3)) as (b3 & Hrep & Hc).
  exists b1, b2, b3. repeat split; assumption.
Defined.

(** ** Repeated asynchronous reads: the depth of the call stack *)

Lemma Error_eqb_eq (a b : Error) : Error_eqb a b = true <-> a = b.
Proof.
  destruct a as [[ca va] ma], b as [[cb vb] mb].
  unfold Error_eqb, error_condition_eqb. simpl. split.
  - intros Heq. apply andb_true_iff in Heq as [Hc Hm].
    apply andb_true_iff in Hc as [Hc Hv].
    apply Z.eqb_eq in Hv. apply String.eqb_eq in Hm. subst.
    destruct ca, cb; simpl in Hc; try discriminate; try reflexivity.
    apply Nat.eqb_eq in Hc. subst. reflexivity.
  - intros Heq. injection Heq as -> -> ->.
    rewrite Z.eqb_refl, String.eqb_refl.
    destruct cb; simpl; try reflexivity. rewrite Nat.eqb_refl. reflexivity.
Qed.

Lemma Error_eqb_neq (a b : Error) : Error_eqb a b = false <-> a <> b.
Proof.
  split.
  - intros Hf Heq. apply Error_eqb_eq in Heq. congruence.
  - intros Hne. destruct (Error_eqb a b) eqn:E; [| reflexivity].
    apply Error_eqb_eq in E. contradiction.
Qed.

Lemma max_depth_ge (stacks : list (list frame)) (st : list frame) :
  In st stacks -> (length st <= max_depth stacks)%nat.
Proof.
  induction stacks as [| s rest IH]; simpl; [contradiction |].
  intros [<- | Hin]; [lia | specialize (IH Hin); lia].
Qed.

Section RepeatedDepth.

Context {R : Type} `{AsyncReader R}.
Variable Hs : Type.
Variable handler : Hs -> ExpectedSize -> Hs * Repeat.

(** Every inline completion puts three more frames under the next one. *)
Lemma ScheduleNextRead_inline_depths :
  (forall r range, exists r' range' res,
      AsyncRead r range = (r', range', Inline res)) ->
  (forall h res, snd (handler h res) = Yes) ->
  forall fuel stack r range h,
    map (@length frame) (ScheduleNextRead handler fuel stack r range h Yes)
    = map (fun k => (length stack + 3 * (k + 1))%nat) (seq 0 fuel).
Proof.
  intros Hin Hyes. induction fuel as [| fuel IH]; intros stack r range h;
    [reflexivity |].
  cbn [ScheduleNextRead seq map].
  destruct (Hin r range) as (r' & range' & res & ->).
  pose proof (Hyes h res) as Hy.
  destruct (handler h res) as [h' rep]. simpl in Hy. subst rep.
  cbn [map]. f_equal; [simpl; lia |].
  rewrite IH, <- seq_shift, map_map.
  apply map_ext. intros k. simpl. lia.
Qed.

(** Without inline completions the driver stays in its loop, or is resumed
    from the event loop: the stack stays flat. *)
Lemma ScheduleNextRead_flat :
  (forall r range r' range' sub,
      AsyncRead r range = (r', range', sub) -> forall res, sub <> Inline res) ->
  forall fuel stack r range h repeat,
    (length stack <= 3)%nat ->
    Forall (fun st => (length st <= 4)%nat)
      (ScheduleNextRead handler fuel stack r range h repeat).
Proof.
  intros Hno. induction fuel as [| fuel IH]; intros stack r range h repeat Hlen;
    [constructor |].
  cbn [ScheduleNextRead]. destruct repeat; [| constructor].
  destruct (AsyncRead r range) as [[r' range'] sub] eqn:Hread.
  destruct sub as [err | res | res].
  - destruct (Error_eqb err NoError); [constructor |].
    destruct (handler h (Unexpected err)) as [h' rep].
    constructor; [simpl; lia | apply IH; assumption].
  - exfalso. exact (Hno _ _ _ _ _ Hread res eq_refl).
  - destruct (handler h res) as [h' rep].
    constructor; [simpl; lia | apply IH; simpl; lia].
Qed.

End RepeatedDepth.

(** C3 as the code has it: while no submission completes inline (rejected
    submissions are retried in the driver's loop, deferred completions come
    from the event loop), every handler invocation runs at most 4 frames
    deep, however many there are; when every submission completes inline
    and the handler always asks to go on, each completion re-enters the
    driver from within [AsyncRead], and invocation number [k] (from 0) runs
    [3 * k + 5] frames deep. *)
Theorem C3_RepeatedAsyncRead_stack_depth {R} `{AsyncReader R} (Hs : Type)
    (handler : Hs -> ExpectedSize -> Hs * Repeat) :
  ((forall r range r' range' sub,
       AsyncRead r range = (r', range', sub) -> forall res, sub <> Inline res) ->
   forall fuel r range h,
     Forall (fun st => (length st <= 4)%nat)
       (RepeatedAsyncRead handler fuel r range h))
  /\ ((forall r range, exists r' range' res,
          AsyncRead r range = (r', range', Inline res)) ->
      (forall h res, snd (handler h res) = Yes) ->
      forall fuel r range h,
        map (@length frame) (RepeatedAsyncRead handler fuel r range h)
        = map (fun k => (3 * k + 5)%nat) (seq 0 fuel)).
Proof.
  split.
  - intros Hno fuel r range h. unfold RepeatedAsyncRead.
    apply ScheduleNextRead_flat; [exact Hno | simpl; lia].
  - intros Hin Hyes fuel r range h. unfold RepeatedAsyncRead.
    rewrite (ScheduleNextRead_inline_depths Hs handler Hin Hyes).
    apply map_ext. intros k. simpl. lia.
Qed.

(** C3 on a reader that rejects every submission and on one that completes
    every read inline, four submissions each. *)
Lemma C3_RepeatedAsyncRead_stack_depth_witness :
  map (@length frame)
    (@RepeatedAsyncRead unit always_rejecting unit always_yes 4 tt [x00] tt)
  = [3; 3; 3; 3]%nat
  /\ Forall (fun st => (length st <= 4)%nat)
       (@RepeatedAsyncRead unit always_rejecting unit always_yes 4 tt [x00] tt)
  /\ map (@length frame)
       (@RepeatedAsyncRead unit always_inline unit always_yes 4 tt [x00] tt)
     = [5; 8; 11; 14]%nat.
Proof.
  split; [reflexivity |]. split.
  - apply (proj1 (@C3_RepeatedAsyncRead_stack_depth unit always_rejecting unit always_yes)).
    intros r range r' range' sub Hread res Heq.
    unfold AsyncRead, always_rejecting in Hread.
    injection Hread as _ _ <-. discriminate Heq.
  - apply (proj2 (@C3_RepeatedAsyncRead_stack_depth unit always_inline unit always_yes)).
    + intros r range. exists r, range, (Value 1). reflexivity.
    + intros h res. reflexivity.
Defined.

(** A thousand inline completions in a row: the last handler invocation
    runs 3002 frames deep. *)
Example RepeatedAsyncRead_inline_1000 :
  max_depth (@RepeatedAsyncRead unit always_inline unit always_yes
               1000 tt [x00] tt) = 3002%nat.
Proof. vm_compute. reflexivity. Qed.

(** C3 as stated fails on the code: with every read completing inline and a
    handler that always asks to go on, no constant bounds the depth of the
    stack over all numbers of iterations. *)
Lemma C3_inline_completions_nest :
  ~ (exists c : nat, forall N : nat,
        (max_depth (@RepeatedAsyncRead unit always_inline unit always_yes
                      N tt [x00] tt) <= c)%nat).
Proof.
  intros [c Hc]. specialize (Hc (S c)).
  assert (Hin : In (3 * c + 5)%nat
                  (map (@length frame)
                     (@RepeatedAsyncRead unit always_inline unit always_yes
                        (S c) tt [x00] tt))).
  { unfold RepeatedAsyncRead.
    rewrite (@ScheduleNextRead_inline_depths unit always_inline unit always_yes).
    - apply in_map_iff. exists c. split; [simpl; lia |].
      apply in_seq. lia.
    - intros r range. exists r, range, (Value 1). reflexivity.
    - intros h res. reflexivity. }
  apply in_map_iff in Hin as (st & Hlen & Hst).
  apply max_depth_ge in Hst. lia.
Qed.

(** ** Copy *)

Section CopyFacts.

Context {W R : Type} `{Writer W} `{Reader R}.

Lemma Copy_has_shape (fuel : nat) :
  forall (dst : W) (src : R) (buffer : list byte),
    Copy_shape (snd (fst (Copy fuel dst src buffer)))
               (snd (Copy fuel dst src buffer)).
Proof.
  induction fuel as [| fuel IH]; intros dst src buffer; cbn [Copy].
  - constructor.
  - destruct (Read src buffer) as [[src1 buffer1] [r | e]]; [| constructor].
    destruct (r =? 0) eqn:Er; [apply Z.eqb_eq in Er; subst; constructor |].
    apply Z.eqb_neq in Er.
    destruct (len buffer <? r) eqn:Eo;
      [apply Z.ltb_lt in Eo; constructor; assumption |].
    apply Z.ltb_ge in Eo.
    destruct (Write dst (firstn (Z.to_nat r) buffer1)) as [dst1 [w | e]];
      [| constructor; assumption].
    destruct (w =? 0) eqn:Ew; [apply Z.eqb_eq in Ew; subst; constructor; assumption |].
    apply Z.eqb_neq in Ew.
    destruct (r =? w) eqn:Erw; cbn [negb].
    + apply Z.eqb_eq in Erw. subst w.
      specialize (IH dst1 src1 buffer1).
      destruct (Copy fuel dst1 src1 buffer1) as [[[[dst2 src2] buffer2] t] res].
      cbn [fst snd] in *. constructor; assumption.
    + apply Z.eqb_neq in Erw. constructor; try assumption. congruence.
Qed.

(** Once the result is there, more fuel changes nothing. *)
Lemma Copy_fuel_stable (fuel : nat) :
  forall (dst : W) (src : R) (buffer : list byte) (e : Error) (k : nat),
    snd (Copy fuel dst src buffer) = Some e ->
    Copy (fuel + k) dst src buffer = Copy fuel dst src buffer.
Proof.
  induction fuel as [| fuel IH]; intros dst src buffer e k Hres;
    [discriminate Hres |].
  cbn [Copy Nat.add] in *.
  destruct (Read src buffer) as [[src1 buffer1] [r | e1]]; [| reflexivity].
  destruct (r =? 0); [reflexivity |].
  destruct (len buffer <? r); [reflexivity |].
  destruct (Write dst (firstn (Z.to_nat r) buffer1)) as [dst1 [w | e1]];
    [| reflexivity].
  destruct (w =? 0); [reflexivity |].
  destruct (negb (r =? w)); [reflexivity |].
  specialize (IH dst1 src1 buffer1 e k).
  destruct (Copy fuel dst1 src1 buffer1) as [[[[dst2 src2] buffer2] t] res].
  cbn [snd] in Hres. rewrite (IH Hres). reflexivity.
Qed.

End CopyFacts.

Lemma Copy_shape_error_last (t : list copy_event) (res : option Error) :
  Copy_shape t res ->
  forall pre ev post e,
    t = pre ++ ev :: post -> event_error ev = Some e ->
    res = Some e /\ post = [].
Proof.
  induction 1 as [| n e0 | n | n r Hr Hn | n r bytes e0 Hr Hn | n r bytes Hr Hn
                 | n r bytes w Hr Hn Hw Hwr | n r bytes t res Hr Hn Hsh IH];
    intros pre ev post e Heq Hev; repeat peel_step;
    try discriminate Hev;
    try (injection Hev as <-; split; reflexivity).
  eapply IH; [reflexivity | exact Hev].
Qed.

Lemma Copy_shape_short_write_last (t : list copy_event) (res : option Error) :
  Copy_shape t res ->
  forall pre n r bytes w post,
    t = pre ++ EvRead n (Inline (Value r)) :: EvWrite bytes (Inline (Value w)) :: post ->
    w = 0 \/ w < r ->
    (exists e, res = Some e /\ is_io_error e) /\ post = [].
Proof.
  induction 1 as [| n0 e0 | n0 | n0 r0 Hr Hn | n0 r0 bytes0 e0 Hr Hn
                 | n0 r0 bytes0 Hr Hn | n0 r0 bytes0 w0 Hr Hn Hw Hwr
                 | n0 r0 bytes0 t res Hr Hn Hsh IH];
    intros pre n r bytes w post Heq Hshort; repeat peel_step;
    try lia;
    try (split; [eexists; split; reflexivity | reflexivity]).
  eapply IH; [reflexivity | exact Hshort].
Qed.

Lemma Copy_shape_NoError (t : list copy_event) (res : option Error) :
  Copy_shape t res ->
  (forall ev, In ev t -> event_error ev <> Some NoError) ->
  (res = Some NoError
   <-> exists pre n, t = pre ++ [EvRead n (Inline (Value 0))] /\ good_rounds pre).
Proof.
  induction 1 as [| n e0 | n | n r Hr Hn | n r bytes e0 Hr Hn | n r bytes Hr Hn
                 | n r bytes w Hr Hn Hw Hwr | n r bytes t res Hr Hn Hsh IH];
    intros Herr.
  - split; [discriminate |]. intros (pre & n & Heq & _). peel_step.
  - split.
    + intros Hres. injection Hres as ->.
      exfalso. apply (Herr _ (or_introl eq_refl)). reflexivity.
    + intros (pre & n0 & Heq & _). repeat peel_step.
  - split; [| reflexivity]. intros _. exists [], n. split; [reflexivity | exact I].
  - split; [discriminate |]. intros (pre & n0 & Heq & _). repeat peel_step.
    congruence.
  - split.
    + intros Hres. injection Hres as ->.
      exfalso. apply (Herr _ (or_intror (or_introl eq_refl))). reflexivity.
    + intros (pre & n0 & Heq & _). repeat peel_step.
  - split; [discriminate |]. intros (pre & n0 & Heq & _). repeat peel_step.
  - split; [discriminate |]. intros (pre & n0 & Heq & _). repeat peel_step.
  - assert (Herr' : forall ev, In ev t -> event_error ev <> Some NoError)
      by (intros ev Hin; apply Herr; right; right; exact Hin).
    specialize (IH Herr'). split.
    + intros Hres. apply IH in Hres as (pre & n0 & -> & Hgood).
      exists (EvRead n (Inline (Value r)) :: EvWrite bytes (Inline (Value r)) :: pre), n0.
      split; [reflexivity |]. cbn [good_rounds handed]. split; [| exact Hgood].
      exists r. auto.
    + intros (pre & n0 & Heq & Hgood). repeat peel_step.
      apply IH. cbn [good_rounds] in Hgood. destruct Hgood as [_ Hgood].
      eexists _, _. split; [reflexivity | exact Hgood].
Qed.

Lemma Copy_shape_running (t : list copy_event) :
  Copy_shape t None -> good_rounds t.
Proof.
  remember None as res eqn:Hres. induction 1; try discriminate Hres.
  - exact I.
  - cbn [good_rounds handed]. split; [| auto]. exists r. auto.
Qed.

Section CopyLength.

Context {W R : Type} `{Writer W} `{Reader R}.

Lemma Copy_running_length (fuel : nat) :
  forall (dst : W) (src : R) (buffer : list byte),
    snd (Copy fuel dst src buffer) = None ->
    length (snd (fst (Copy fuel dst src buffer))) = (2 * fuel)%nat.
Proof.
  induction fuel as [| fuel IH]; intros dst src buffer; cbn [Copy];
    [reflexivity |].
  destruct (Read src buffer) as [[src1 buffer1] [r | e]]; [| discriminate].
  destruct (r =? 0); [discriminate |].
  destruct (len buffer <? r); [discriminate |].
  destruct (Write dst (firstn (Z.to_nat r) buffer1)) as [dst1 [w | e]];
    [| discriminate].
  destruct (w =? 0); [discriminate |].
  destruct (negb (r =? w)); [discriminate |].
  specialize (IH dst1 src1 buffer1).
  destruct (Copy fuel dst1 src1 buffer1) as [[[[dst2 src2] buffer2] t] res].
  cbn [fst snd] in *. intros Hres. cbn [length]. rewrite (IH Hres). lia.
Qed.

End CopyLength.

(** C6: for any writer, reader and buffer, with [t] the reads and writes
    [Copy] performed and [res] what it returned:
    - (unless the reader or writer reports [NoError] itself as its error)
      [res] is [NoError] exactly when the last thing done was a read that
      returned 0, after complete rounds only;
    - an error of the reader or writer is returned as it is, and nothing is
      read or written after it;
    - a write that returns 0, or less than was just read, makes [Copy]
      return an I/O error, and nothing is read or written after it;
    - [Copy] is still running after [fuel] rounds only when all of them
      were complete; once it has returned, more fuel changes nothing. *)
Theorem C6_Copy_result {W R} `{Writer W} `{Reader R} (fuel : nat) (dst : W)
    (src : R) (buffer : list byte) :
  let t := snd (fst (Copy fuel dst src buffer)) in
  let res := snd (Copy fuel dst src buffer) in
  ((forall ev, In ev t -> event_error ev <> Some NoError) ->
   (res = Some NoError
    <-> exists pre n, t = pre ++ [EvRead n (Inline (Value 0))] /\ good_rounds pre))
  /\ (forall pre ev post e,
        t = pre ++ ev :: post -> event_error ev = Some e ->
        res = Some e /\ post = [])
  /\ (forall pre n r bytes w post,
        t = pre ++ EvRead n (Inline (Value r))
                :: EvWrite bytes (Inline (Value w)) :: post ->
        w = 0 \/ w < r ->
        (exists e, res = Some e /\ is_io_error e) /\ post = [])
  /\ (res = None -> good_rounds t /\ length t = (2 * fuel)%nat)
  /\ (forall e k, res = Some e ->
        Copy (fuel + k) dst src buffer = Copy fuel dst src buffer).
Proof.
  intros t res. pose proof (Copy_has_shape fuel dst src buffer) as Hshape.
  fold t res in Hshape.
  split; [apply Copy_shape_NoError; exact Hshape |].
  split; [apply Copy_shape_error_last; exact Hshape |].
  split; [apply Copy_shape_short_write_last; exact Hshape |].
  split.
  - intros Hnone. split.
    + apply Copy_shape_running. rewrite <- Hnone. exact Hshape.
    + apply Copy_running_length. exact Hnone.
  - intros e k Hres. apply Copy_fuel_stable with (e := e). exact Hres.
Qed.

(** A reader that reports more bytes than the buffer holds is answered
    with the programming error, before anything is written. *)
Example Copy_over_read :
  Copy 3 ([] : Sink) ([Value [x01; x02; x03]] : ScriptReader) [x00; x00]
  = ([], [], [x01; x02; x03], [EvRead 2 (Inline (Value 3))], Some over_read_error).
Proof. reflexivity. Qed.

(** C6 on a source of three bytes served two at a time: a writer that takes
    everything, and one that takes only one byte of the second write. *)
Lemma C6_Copy_result_witness :
  Copy 5 (mk_ScriptWriter [] []) (mk_ChunkReader [x01; x02; x03] 2) [x00; x00]
  = (mk_ScriptWriter [] [x01; x02; x03], mk_ChunkReader [] 2, [x03; x02],
     [EvRead 2 (Inline (Value 2)); EvWrite [x01; x02] (Inline (Value 2));
      EvRead 2 (Inline (Value 1)); EvWrite [x03] (Inline (Value 1));
      EvRead 2 (Inline (Value 0))],
     Some NoError)
  /\ (snd (Copy 5 (mk_ScriptWriter [Value 2; Value 0] [])
             (mk_ChunkReader [x01; x02; x03] 2) [x00; x00])
      = Some zero_write_error)
  /\ (exists e,
        snd (Copy 5 (mk_ScriptWriter [Value 2; Value 0] [])
               (mk_ChunkReader [x01; x02; x03] 2) [x00; x00]) = Some e
        /\ is_io_error e).
Proof.
  split; [reflexivity |]. split; [reflexivity |].
  exact (proj1 (proj1 (proj2 (proj2
           (C6_Copy_result 5 (mk_ScriptWriter [Value 2; Value 0] [])
              (mk_ChunkReader [x01; x02; x03] 2) [x00; x00])))
           [EvRead 2 (Inline (Value 2)); EvWrite [x01; x02] (Inline (Value 2))]
           2 1 [x03] 0 [] eq_refl (or_introl eq_refl))).
Defined.

(** ** AsyncCopy: what every trace of a copy chain satisfies *)

Lemma to_int64_small (z : Z) : - 2 ^ 63 <= z < 2 ^ 63 -> to_int64 z = z.
Proof.
  intros Hz. unfold to_int64, two64.
  rewrite Z.mod_small; [lia |].
  change (2 ^ 64) with (2 * 2 ^ 63). lia.
Qed.

Lemma finished_count_cons (ev : copy_event) (t : list copy_event) :
  finished_count (ev :: t)
  = ((if is_finished ev then 1 else 0) + finished_count t)%nat.
Proof. unfold finished_count. simpl. destruct (is_finished ev); reflexivity. Qed.

Lemma finished_count_app (t1 t2 : list copy_event) :
  finished_count (t1 ++ t2) = (finished_count t1 + finished_count t2)%nat.
Proof. unfold finished_count. rewrite filter_app, length_app. reflexivity. Qed.

Lemma chain_finished_count (L B : Z) (ph : copy_phase) (c : Z)
    (t : list copy_event) :
  chain L B ph c t -> (finished_count t <= 1)%nat.
Proof.
  induction 1; try assumption; try (unfold finished_count; simpl; lia);
    rewrite finished_count_cons; simpl; assumption.
Qed.

Lemma verdict_cons_ok (ev : copy_event) (l : list copy_event) (e : Error) :
  event_ok ev = true -> verdict l e -> verdict (ev :: l) e.
Proof.
  intros Hok (Herr & Hshort & Hall). unfold event_ok in Hok.
  destruct (event_error ev) eqn:Ee; [discriminate Hok |].
  apply negb_true_iff in Hok.
  split; [| split].
  - intros ev' e' [<- | Hin] He; [congruence | eauto].
  - intros ev' [<- | Hin] Hs; [congruence | eauto].
  - intros Hf. cbn [forallb] in Hf. apply andb_true_iff in Hf as [_ Hf]. auto.
Qed.

Lemma event_ok_read (n : Z) (sub : submission) (s : Z) :
  handed sub = Some (Value s) -> event_ok (EvRead n sub) = true.
Proof.
  destruct sub as [e | [v | e] | [v | e]]; simpl; intros Hh;
    try discriminate Hh; reflexivity.
Qed.

Lemma event_ok_write (bytes : list byte) (sub : submission) :
  handed sub = Some (Value (len bytes)) -> event_ok (EvWrite bytes sub) = true.
Proof.
  destruct sub as [e | [v | e] | [v | e]]; cbn; intros Hh; try congruence;
    injection Hh as ->; rewrite Z.eqb_refl; reflexivity.
Qed.

Lemma event_error_handed (ev : copy_event) (sub : submission) (e : Error) :
  (exists n, ev = EvRead n sub) \/ (exists bytes, ev = EvWrite bytes sub) ->
  handed sub = Some (Unexpected e) -> event_error ev = Some e.
Proof.
  intros [[n ->] | [bytes ->]];
    destruct sub as [e0 | [v | e0] | [v | e0]]; simpl; intros Hh; congruence.
Qed.

(** The verdict on a chain that ends right after the event of its phase. *)
Lemma verdict_terminal (ev : copy_event) (e : Error) :
  (event_error ev = Some e
   \/ (event_error ev = None /\ event_short ev = true /\ is_io_error e)
   \/ (event_ok ev = true /\ e = NoError)) ->
  verdict [ev; EvRelease] e.
Proof.
  intros Hcase. split; [| split].
  - intros ev' e' [<- | [<- | []]] He; [| discriminate He].
    destruct Hcase as [Hc | [(Hc & _) | (Hc & _)]]; try congruence.
    unfold event_ok in Hc. rewrite He in Hc. discriminate Hc.
  - intros ev' [<- | [<- | []]] Hs; [| discriminate Hs].
    destruct Hcase as [Hc | [(_ & _ & Hc) | (Hc & _)]]; try assumption.
    + destruct ev as [n [e0 | [v | e0] | [v | e0]] | b [e0 | [v | e0] | [v | e0]] | | e0];
        cbn in Hs, Hc; congruence.
    + unfold event_ok in Hc. destruct (event_error ev); [discriminate Hc |].
      rewrite Hs in Hc. discriminate Hc.
  - cbn [forallb]. intros Hf. apply andb_true_iff in Hf as [Hok _].
    destruct Hcase as [Hc | [(Hn & Hc & _) | (_ & Hc)]]; try assumption.
    + unfold event_ok in Hok. rewrite Hc in Hok. discriminate Hok.
    + unfold event_ok in Hok. rewrite Hn, Hc in Hok. discriminate Hok.
Qed.

(** In a chain the finished handler is called last, right after the functor
    released what it owned, and with the error the events before call for. *)
Lemma chain_finished_last (L B : Z) (ph : copy_phase) (c : Z)
    (t : list copy_event) :
  chain L B ph c t ->
  forall pre e post,
    t = pre ++ EvFinished e :: post ->
    post = []
    /\ (exists pre', pre = pre' ++ [EvRelease])
    /\ verdict (phase_events ph ++ pre) e.
Proof.
  induction 1 as [ph c | c Hmin | c n sub t Hn Hpos Hch IH | c n e0 Hne
                 | c n sub e0 Hh | c n sub Hh
                 | c n sub bytes wsub t Hh Hlen Hch IH | c bytes e0 Hne
                 | c bytes wsub e0 Hh | c bytes wsub w e0 Hh Hw Hio
                 | c bytes wsub t Hh Hch IH];
    intros pre e post Heq; unfold CallFinishedHandler in *.
  - peel_step.
  - repeat peel_step. split; [reflexivity |]. split; [exists []; reflexivity |].
    repeat split; try reflexivity; intros ev; intros; simpl in *;
      intuition (subst; simpl in *; congruence).
  - repeat peel_step. destruct (IH _ _ _ eq_refl) as (Hp & Hr & Hv).
    split; [exact Hp |]. split; [| exact Hv].
    destruct Hr as [pre' ->]. exists (EvRead (Z.min (L - c) B) sub :: pre').
    reflexivity.
  - repeat peel_step. split; [reflexivity |]. split; [exists []; reflexivity |].
    apply verdict_terminal. left. reflexivity.
  - repeat peel_step. split; [reflexivity |]. split; [exists []; reflexivity |].
    apply verdict_terminal. left.
    apply event_error_handed with (sub := sub); [left; eauto | assumption].
  - repeat peel_step. split; [reflexivity |]. split; [exists []; reflexivity |].
    apply verdict_terminal. right. right. split; [| reflexivity].
    eapply event_ok_read; eassumption.
  - repeat peel_step. destruct (IH _ _ _ eq_refl) as (Hp & Hr & Hv).
    split; [exact Hp |]. split.
    + destruct Hr as [pre' ->]. exists (EvWrite bytes wsub :: pre'). reflexivity.
    + cbn [phase_events app] in *. apply verdict_cons_ok; [| exact Hv].
      eapply event_ok_read; eassumption.
  - repeat peel_step. split; [reflexivity |]. split; [exists []; reflexivity |].
    apply verdict_terminal. left. reflexivity.
  - repeat peel_step. split; [reflexivity |]. split; [exists []; reflexivity |].
    apply verdict_terminal. left.
    apply event_error_handed with (sub := wsub); [right; eauto | assumption].
  - repeat peel_step. split; [reflexivity |]. split; [exists []; reflexivity |].
    apply verdict_terminal. right. left.
    destruct wsub as [e1 | [v | e1] | [v | e1]]; cbn in Hh |- *; try discriminate Hh;
      injection Hh as ->; (split; [reflexivity |]); (split; [| assumption]);
      apply negb_true_iff, Z.eqb_neq; assumption.
  - destruct (IH _ _ _ Heq) as (Hp & Hr & Hv).
    split; [exact Hp |]. split; [exact Hr |].
    cbn [phase_events app] in *. apply verdict_cons_ok; [| exact Hv].
    apply event_ok_write; assumption.
Qed.

Lemma written_app (t1 t2 : list copy_event) :
  written (t1 ++ t2) = written t1 ++ written t2.
Proof.
  induction t1 as [| ev t1 IH]; [reflexivity |].
  destruct ev; cbn [app written]; rewrite IH; try reflexivity.
  apply app_assoc.
Qed.

(** Every read request of a chain is sized to the smaller of the buffer
    and what the limit leaves after the bytes handed over so far. *)
Lemma chain_read_sizes (L B : Z) (ph : copy_phase) (c : Z)
    (t : list copy_event) :
  chain L B ph c t ->
  forall pre n sub post,
    t = pre ++ EvRead n sub :: post ->
    n = Z.min (L - (c + phase_pending ph + len (written pre))) B.
Proof.
  induction 1 as [ph c | c Hmin | c n0 sub0 t Hn Hpos Hch IH | c n0 e0 Hne
                 | c n0 sub0 e0 Hh | c n0 sub0 Hh
                 | c n0 sub0 bytes wsub t Hh Hlen Hch IH | c bytes e0 Hne
                 | c bytes wsub e0 Hh | c bytes wsub w e0 Hh Hw Hio
                 | c bytes wsub t Hh Hch IH];
    intros pre n sub post Heq; unfold CallFinishedHandler in *;
    try (repeat peel_step; fail).
  - peel_step.
    + cbn. f_equal. unfold len. simpl. lia.
    + rewrite (IH _ _ _ _ eq_refl). cbn [phase_pending written]. reflexivity.
  - peel_step. rewrite (IH _ _ _ _ eq_refl).
    cbn [phase_pending written]. rewrite len_app. f_equal. lia.
  - rewrite (IH _ _ _ _ Heq). cbn [phase_pending]. f_equal. lia.
Qed.

(** A chain never hands the writer more than the limit leaves. *)
Lemma chain_written_bound (L B : Z) (ph : copy_phase) (c : Z)
    (t : list copy_event) :
  chain L B ph c t -> budget_ok L ph c ->
  len (written t) <= L - c - phase_pending ph.
Proof.
  induction 1 as [ph c | c Hmin | c n0 sub0 t Hn Hpos Hch IH | c n0 e0 Hne
                 | c n0 sub0 e0 Hh | c n0 sub0 Hh
                 | c n0 sub0 bytes wsub t Hh Hlen Hch IH | c bytes e0 Hne
                 | c bytes wsub e0 Hh | c bytes wsub w e0 Hh Hw Hio
                 | c bytes wsub t Hh Hch IH];
    intros Hb; cbn [budget_ok phase_pending CallFinishedHandler written] in *;
    try (replace (len (@nil byte)) with 0 by reflexivity; lia).
  - replace (len (@nil byte)) with 0 by reflexivity. destruct ph; cbn in *; lia.
  - rewrite len_app.
    assert (len (written t) <= L - c - len bytes) by (apply IH; lia). lia.
Qed.

(** ** AsyncCopy: the three engines produce chains *)

Lemma len_firstn_le {A} (l : list A) (k : Z) :
  0 <= k <= len l -> len (firstn (Z.to_nat k) l) = k.
Proof. intros Hk. unfold len in *. rewrite length_firstn. lia. Qed.

Lemma len_skipn {A} (l : list A) (k : Z) :
  0 <= k <= len l -> len (skipn (Z.to_nat k) l) = len l - k.
Proof. intros Hk. unfold len in *. rewrite length_skipn. lia. Qed.

Lemma to_copy_of_ok (L B : Z) (data : CopyData) :
  0 < B < 2 ^ 63 -> 0 <= L < 2 ^ 63 -> data_ok L B data ->
  to_copy_of data = Z.min (L - copied data) B.
Proof.
  intros HB HL (Hl & Hb & Hc). unfold to_copy_of. rewrite Hl, Hb.
  rewrite !to_int64_small by lia.
  apply to_size_t_small. unfold two64.
  change (2 ^ 64) with (2 * 2 ^ 63). lia.
Qed.

Lemma data_ok_after_write (L B : Z) (data : CopyData) (s : Z) :
  0 <= L < 2 ^ 63 -> data_ok L B data -> 0 <= s <= L - copied data ->
  to_int64 (copied data + s) = copied data + s
  /\ data_ok L B (mk_CopyData (buf data) (to_int64 (copied data + s)) (limit data)).
Proof.
  intros HL (Hl & Hb & Hc) Hs.
  assert (Heq : to_int64 (copied data + s) = copied data + s)
    by (apply to_int64_small; lia).
  split; [exact Heq |]. unfold data_ok. cbn. rewrite Heq. repeat split; lia || assumption.
Qed.

Lemma data_ok_after_read (L B : Z) (data : CopyData) (n : Z) (range' : list byte) :
  data_ok L B data -> 0 <= n <= B -> len range' = n ->
  data_ok L B (mk_CopyData (buf_after_read data n range') (copied data) (limit data)).
Proof.
  intros (Hl & Hb & Hc) Hn Hr. unfold data_ok, buf_after_read. cbn.
  rewrite len_app, len_skipn by lia. repeat split; lia || assumption.
Qed.

Lemma finished_count_CallFinishedHandler (e : Error) :
  finished_count (CallFinishedHandler e) = 1%nat.
Proof. reflexivity. Qed.

Section ChainOfEngines.

Variables L B : Z.
Hypothesis HB : 0 < B < 2 ^ 63.
Hypothesis HL : 0 <= L < 2 ^ 63.

Section Writer_AsyncReader_chain.

Context {W R : Type} `{Writer W} `{AsyncReader R}.
Hypothesis Hreader : AsyncReader_contract.

Lemma AsyncCopy_Writer_AsyncReader_Functor_chain (fuel : nat) :
  forall (writer : W) (reader : R) (data : CopyData) (size : ExpectedSize)
         (n : Z) (sub : submission),
    data_ok L B data -> handed sub = Some size ->
    (forall s, size = Value s -> 0 <= s <= n) ->
    n <= B -> n <= L - copied data ->
    chain L B (GotRead n sub) (copied data)
      (AsyncCopy_Writer_AsyncReader_Functor fuel writer reader data size)
    /\ ((Z.to_nat (L - copied data) < fuel)%nat ->
        (1 <= finished_count
                (AsyncCopy_Writer_AsyncReader_Functor fuel writer reader data size))%nat).
Proof.
  induction fuel as [| fuel IH];
    intros writer reader data size n sub Hdata Hsub Hsize HnB HnL.
  { split; [constructor | lia]. }
  cbn [AsyncCopy_Writer_AsyncReader_Functor].
  destruct size as [sz | e].
  2:{ split; [apply ch_read_error; exact Hsub | rewrite finished_count_CallFinishedHandler; lia]. }
  specialize (Hsize sz eq_refl).
  destruct (sz =? 0) eqn:Ez.
  { apply Z.eqb_eq in Ez. subst sz.
    split; [apply ch_read_eof; exact Hsub | rewrite finished_count_CallFinishedHandler; lia]. }
  apply Z.eqb_neq in Ez.
  pose proof Hdata as (Hl & Hb & Hc).
  set (bytes := firstn (Z.to_nat sz) (buf data)).
  assert (Hbytes : len bytes = sz) by (apply len_firstn_le; lia).
  destruct (Write writer bytes) as [writer' nres].
  rewrite finished_count_cons. cbn [is_finished Nat.add].
  assert (Hwrite_ev : forall t,
             chain L B (GotWrite bytes (Inline nres)) (copied data) t ->
             chain L B (GotRead n sub) (copied data)
               (EvWrite bytes (Inline nres) :: t)).
  { intros t Ht. apply ch_write; [rewrite Hbytes; exact Hsub | lia | exact Ht]. }
  destruct nres as [w | e].
  2:{ split; [apply Hwrite_ev, ch_write_error; reflexivity
             | rewrite finished_count_CallFinishedHandler; lia]. }
  destruct (w =? sz) eqn:Ew; cbn [negb].
  2:{ apply Z.eqb_neq in Ew.
      split; [| rewrite finished_count_CallFinishedHandler; lia].
      apply Hwrite_ev. eapply ch_write_short; [reflexivity | lia | reflexivity]. }
  apply Z.eqb_eq in Ew. subst w.
  destruct (data_ok_after_write L B data sz HL Hdata) as [Hcopied Hdata1]; [lia |].
  set (data1 := mk_CopyData (buf data) (to_int64 (copied data + sz)) (limit data)) in *.
  assert (Hfull : forall t,
             chain L B AtTop (copied data + sz) t ->
             chain L B (GotRead n sub) (copied data)
               (EvWrite bytes (Inline (Value sz)) :: t)).
  { intros t Ht. apply Hwrite_ev, ch_write_full; [rewrite Hbytes; reflexivity |].
    rewrite Hbytes. exact Ht. }
  assert (Hc1 : copied data1 = copied data + sz) by exact Hcopied.
  set (to_copy := Z.min (L - (copied data + sz)) B).
  assert (Htc : to_copy_of data1 = to_copy)
    by (rewrite (to_copy_of_ok L B data1 HB HL Hdata1), Hc1; reflexivity).
  rewrite Htc.
  destruct (to_copy =? 0) eqn:Et.
  { apply Z.eqb_eq in Et.
    split; [apply Hfull, ch_limit; exact Et
           | rewrite finished_count_CallFinishedHandler; lia]. }
  apply Z.eqb_neq in Et.
  assert (Hto : 0 < to_copy <= B) by (unfold to_copy in *; lia).
  assert (Hrange : len (firstn (Z.to_nat to_copy) (buf data1)) = to_copy)
    by (apply len_firstn_le; cbn; lia).
  destruct (AsyncRead reader (firstn (Z.to_nat to_copy) (buf data1)))
    as [[reader' range'] sub'] eqn:Hread.
  destruct (Hreader _ _ _ _ _ Hread) as (Hlen' & Hrej & Hcount).
  rewrite Hrange in Hlen', Hcount.
  rewrite finished_count_cons. cbn [is_finished Nat.add].
  assert (Hread_ev : forall t,
             chain L B (GotRead to_copy sub') (copied data + sz) t ->
             chain L B (GotRead n sub) (copied data)
               (EvWrite bytes (Inline (Value sz)) :: EvRead to_copy sub' :: t)).
  { intros t Ht. apply Hfull, ch_read; [reflexivity | lia | exact Ht]. }
  assert (Hnext : forall res, handed sub' = Some res ->
            chain L B (GotRead n sub) (copied data)
              (EvWrite bytes (Inline (Value sz)) :: EvRead to_copy sub'
                 :: AsyncCopy_Writer_AsyncReader_Functor fuel writer' reader'
                      (mk_CopyData (buf_after_read data1 to_copy range')
                         (copied data1) (limit data1)) res)
            /\ ((Z.to_nat (L - copied data) < S fuel)%nat ->
                (1 <= finished_count
                        (AsyncCopy_Writer_AsyncReader_Functor fuel writer' reader'
                           (mk_CopyData (buf_after_read data1 to_copy range')
                              (copied data1) (limit data1)) res))%nat)).
  { intros res Hres.
    remember (mk_CopyData (buf_after_read data1 to_copy range')
                (copied data1) (limit data1)) as data2 eqn:Hdata2.
    assert (Hc2 : copied data2 = copied data + sz) by (subst data2; exact Hc1).
    destruct (IH writer' reader' data2 res to_copy sub') as [Hch Hfin].
    - subst data2. apply data_ok_after_read; [exact Hdata1 | lia | exact Hlen'].
    - exact Hres.
    - intros s ->. apply Hcount. exact Hres.
    - lia.
    - rewrite Hc2. unfold to_copy. lia.
    - rewrite Hc2 in Hch, Hfin.
      split; [apply Hread_ev; exact Hch | intros Hfuel; apply Hfin; lia]. }
  destruct sub' as [err | res | res].
  - specialize (Hrej err eq_refl). apply Error_eqb_neq in Hrej. rewrite Hrej.
    split; [| rewrite finished_count_CallFinishedHandler; lia].
    apply Hread_ev, ch_read_rejected. apply Error_eqb_neq. exact Hrej.
  - apply Hnext. reflexivity.
  - apply Hnext. reflexivity.
Qed.

End Writer_AsyncReader_chain.

Section AsyncWriter_Reader_chain.

Context {W R : Type} `{AsyncWriter W} `{Reader R}.
Hypothesis Hreader : Reader_contract.
Hypothesis Hwriter : AsyncWriter_contract.

Lemma AsyncCopy_AsyncWriter_Reader_Functor_chain (fuel : nat) :
  forall (writer : W) (reader : R) (data : CopyData) (bytes : list byte)
         (wsub : submission) (exp_written : ExpectedSize),
    data_ok L B data -> handed wsub = Some exp_written ->
    copied data + len bytes <= L ->
    chain L B (GotWrite bytes wsub) (copied data)
      (AsyncCopy_AsyncWriter_Reader_Functor fuel writer reader data
         (len bytes) exp_written)
    /\ ((Z.to_nat (L - copied data - len bytes) < fuel)%nat ->
        (1 <= finished_count
                (AsyncCopy_AsyncWriter_Reader_Functor fuel writer reader data
                   (len bytes) exp_written))%nat).
Proof.
  induction fuel as [| fuel IH];
    intros writer reader data bytes wsub exp_written Hdata Hsub Hbudget.
  { split; [constructor | lia]. }
  cbn [AsyncCopy_AsyncWriter_Reader_Functor].
  pose proof (len_nonneg bytes) as Hbytes0.
  destruct exp_written as [w | e].
  2:{ split; [apply ch_write_error; exact Hsub
             | rewrite finished_count_CallFinishedHandler; lia]. }
  destruct (w =? len bytes) eqn:Ew; cbn [negb].
  2:{ apply Z.eqb_neq in Ew.
      split; [| rewrite finished_count_CallFinishedHandler; lia].
      eapply ch_write_short; [exact Hsub | exact Ew | reflexivity]. }
  apply Z.eqb_eq in Ew. subst w.
  pose proof Hdata as (Hl & Hb & Hc).
  destruct (data_ok_after_write L B data (len bytes) HL Hdata) as [Hcopied Hdata1];
    [lia |].
  set (data1 := mk_CopyData (buf data) (to_int64 (copied data + len bytes))
                  (limit data)) in *.
  assert (Hc1 : copied data1 = copied data + len bytes) by exact Hcopied.
  set (to_copy := Z.min (L - (copied data + len bytes)) B).
  assert (Htc : to_copy_of data1 = to_copy)
    by (rewrite (to_copy_of_ok L B data1 HB HL Hdata1), Hc1; reflexivity).
  rewrite Htc.
  assert (Hfull : forall t,
             chain L B AtTop (copied data + len bytes) t ->
             chain L B (GotWrite bytes wsub) (copied data) t).
  { intros t Ht. apply ch_write_full; assumption. }
  destruct (to_copy =? 0) eqn:Et.
  { apply Z.eqb_eq in Et.
    split; [apply Hfull, ch_limit; exact Et
           | rewrite finished_count_CallFinishedHandler; lia]. }
  apply Z.eqb_neq in Et.
  assert (Hto : 0 < to_copy <= B) by (unfold to_copy in *; lia).
  assert (Hrange : len (firstn (Z.to_nat to_copy) (buf data1)) = to_copy)
    by (apply len_firstn_le; cbn; lia).
  destruct (Read reader (firstn (Z.to_nat to_copy) (buf data1)))
    as [[reader' range'] exp_read] eqn:Hread.
  rewrite finished_count_cons. cbn [is_finished Nat.add].
  assert (Hread_ev : forall t,
             chain L B (GotRead to_copy (Inline exp_read))
               (copied data + len bytes) t ->
             chain L B (GotWrite bytes wsub) (copied data)
               (EvRead to_copy (Inline exp_read) :: t)).
  { intros t Ht. apply Hfull, ch_read; [reflexivity | lia | exact Ht]. }
  destruct exp_read as [read | e].
  2:{ split; [apply Hread_ev, ch_read_error; reflexivity
             | rewrite finished_count_CallFinishedHandler; lia]. }
  destruct (Hreader _ _ _ _ _ Hread) as (Hcount & Hlen').
  rewrite Hrange in Hlen', Hcount.
  destruct (read =? 0) eqn:Er.
  { apply Z.eqb_eq in Er. subst read.
    split; [apply Hread_ev, ch_read_eof; reflexivity
           | rewrite finished_count_CallFinishedHandler; lia]. }
  apply Z.eqb_neq in Er.
  remember (mk_CopyData (buf_after_read data1 to_copy range')
              (copied data1) (limit data1)) as data2 eqn:Hdata2.
  assert (Hc2 : copied data2 = copied data + len bytes) by (subst data2; exact Hc1).
  assert (Hok2 : data_ok L B data2)
    by (subst data2; apply data_ok_after_read; [exact Hdata1 | lia | exact Hlen']).
  set (bytes' := firstn (Z.to_nat read) (buf data2)).
  assert (Hbytes' : len bytes' = read).
  { apply len_firstn_le. destruct Hok2 as (_ & Hb2 & _). lia. }
  destruct (AsyncWrite writer bytes') as [writer' sub'] eqn:Hwrite.
  rewrite finished_count_cons. cbn [is_finished Nat.add].
  assert (Hwrite_ev : forall t,
             chain L B (GotWrite bytes' sub') (copied data + len bytes) t ->
             chain L B (GotWrite bytes wsub) (copied data)
               (EvRead to_copy (Inline (Value read)) :: EvWrite bytes' sub' :: t)).
  { intros t Ht. apply Hread_ev, ch_write;
      [rewrite Hbytes'; reflexivity | lia | exact Ht]. }
  assert (Hnext : forall res, handed sub' = Some res ->
            chain L B (GotWrite bytes wsub) (copied data)
              (EvRead to_copy (Inline (Value read)) :: EvWrite bytes' sub'
                 :: AsyncCopy_AsyncWriter_Reader_Functor fuel writer' reader'
                      data2 read res)
            /\ ((Z.to_nat (L - copied data - len bytes) < S fuel)%nat ->
                (1 <= finished_count
                        (AsyncCopy_AsyncWriter_Reader_Functor fuel writer' reader'
                           data2 read res))%nat)).
  { intros res Hres.
    destruct (IH writer' reader' data2 bytes' sub' res) as [Hch Hfin].
    - exact Hok2.
    - exact Hres.
    - rewrite Hc2, Hbytes'. unfold to_copy in *. lia.
    - rewrite Hc2 in Hch, Hfin. rewrite Hbytes' in Hch, Hfin.
      split; [apply Hwrite_ev; exact Hch |].
      intros Hfuel. apply Hfin. unfold to_copy in *. lia. }
  destruct sub' as [err | res | res].
  - pose proof (Hwriter _ _ _ _ Hwrite err eq_refl) as Hrej.
    apply Error_eqb_neq in Hrej. rewrite Hrej.
    split; [| rewrite finished_count_CallFinishedHandler; lia].
    apply Hwrite_ev, ch_write_rejected. apply Error_eqb_neq. exact Hrej.
  - apply Hnext. reflexivity.
  - apply Hnext. reflexivity.
Qed.

End AsyncWriter_Reader_chain.

Section AsyncWriter_AsyncReader_chain.

Context {W R : Type} `{AsyncWriter W} `{AsyncReader R}.
Hypothesis Hreader : AsyncReader_contract.
Hypothesis Hwriter : AsyncWriter_contract.

Lemma AsyncCopy_Functors_chain (fuel : nat) :
  (forall (writer : W) (reader : R) (data : CopyData) (size : ExpectedSize)
          (n : Z) (sub : submission),
      data_ok L B data -> handed sub = Some size ->
      (forall s, size = Value s -> 0 <= s <= n) ->
      n <= B -> n <= L - copied data ->
      chain L B (GotRead n sub) (copied data)
        (AsyncCopyReaderFunctor fuel writer reader data size)
      /\ ((2 * Z.to_nat (L - copied data) < fuel)%nat ->
          (1 <= finished_count
                  (AsyncCopyReaderFunctor fuel writer reader data size))%nat))
  /\ (forall (writer : W) (reader : R) (data : CopyData) (bytes : list byte)
             (wsub : submission) (exp_size : ExpectedSize),
         data_ok L B data -> handed wsub = Some exp_size ->
         copied data + len bytes <= L ->
         chain L B (GotWrite bytes wsub) (copied data)
           (AsyncCopyWriterFunctor fuel writer reader data (len bytes) exp_size)
         /\ ((2 * Z.to_nat (L - copied data - len bytes) + 1 < fuel)%nat ->
             (1 <= finished_count
                     (AsyncCopyWriterFunctor fuel writer reader data
                        (len bytes) exp_size))%nat)).
Proof.
  induction fuel as [| fuel [IHR IHW]].
  { split; intros; (split; [constructor | lia]). }
  split.
  - intros writer reader data size n sub Hdata Hsub Hsize HnB HnL.
    cbn [AsyncCopyReaderFunctor].
    destruct size as [sz | e].
    2:{ split; [apply ch_read_error; exact Hsub
               | rewrite finished_count_CallFinishedHandler; lia]. }
    specialize (Hsize sz eq_refl).
    destruct (sz =? 0) eqn:Ez.
    { apply Z.eqb_eq in Ez. subst sz.
      split; [apply ch_read_eof; exact Hsub
             | rewrite finished_count_CallFinishedHandler; lia]. }
    apply Z.eqb_neq in Ez.
    pose proof Hdata as (Hl & Hb & Hc).
    set (bytes := firstn (Z.to_nat sz) (buf data)).
    assert (Hbytes : len bytes = sz) by (apply len_firstn_le; lia).
    destruct (AsyncWrite writer bytes) as [writer' wsub] eqn:Hwrite.
    rewrite finished_count_cons. cbn [is_finished Nat.add].
    assert (Hwrite_ev : forall t,
               chain L B (GotWrite bytes wsub) (copied data) t ->
               chain L B (GotRead n sub) (copied data) (EvWrite bytes wsub :: t)).
    { intros t Ht. apply ch_write; [rewrite Hbytes; exact Hsub | lia | exact Ht]. }
    assert (Hnext : forall res, handed wsub = Some res ->
              chain L B (GotRead n sub) (copied data)
                (EvWrite bytes wsub
                   :: AsyncCopyWriterFunctor fuel writer' reader data sz res)
              /\ ((2 * Z.to_nat (L - copied data) < S fuel)%nat ->
                  (1 <= finished_count
                          (AsyncCopyWriterFunctor fuel writer' reader data sz res))%nat)).
    { intros res Hres.
      destruct (IHW writer' reader data bytes wsub res Hdata Hres) as [Hch Hfin];
        [lia |].
      rewrite Hbytes in Hch, Hfin.
      split; [apply Hwrite_ev; exact Hch | intros Hfuel; apply Hfin; lia]. }
    destruct wsub as [err | res | res].
    + pose proof (Hwriter _ _ _ _ Hwrite err eq_refl) as Hrej.
      apply Error_eqb_neq in Hrej. rewrite Hrej.
      split; [| rewrite finished_count_CallFinishedHandler; lia].
      apply Hwrite_ev, ch_write_rejected. apply Error_eqb_neq. exact Hrej.
    + apply Hnext. reflexivity.
    + apply Hnext. reflexivity.
  - intros writer reader data bytes wsub exp_size Hdata Hsub Hbudget.
    cbn [AsyncCopyWriterFunctor].
    pose proof (len_nonneg bytes) as Hbytes0.
    destruct exp_size as [w | e].
    2:{ split; [apply ch_write_error; exact Hsub
               | rewrite finished_count_CallFinishedHandler; lia]. }
    destruct (w =? len bytes) eqn:Ew; cbn [negb].
    2:{ apply Z.eqb_neq in Ew.
        split; [| rewrite finished_count_CallFinishedHandler; lia].
        eapply ch_write_short; [exact Hsub | exact Ew | reflexivity]. }
    apply Z.eqb_eq in Ew. subst w.
    pose proof Hdata as (Hl & Hb & Hc).
    destruct (data_ok_after_write L B data (len bytes) HL Hdata)
      as [Hcopied Hdata1]; [lia |].
    set (data1 := mk_CopyData (buf data) (to_int64 (copied data + len bytes))
                    (limit data)) in *.
    assert (Hc1 : copied data1 = copied data + len bytes) by exact Hcopied.
    set (to_copy := Z.min (L - (copied data + len bytes)) B).
    assert (Htc : to_copy_of data1 = to_copy)
      by (rewrite (to_copy_of_ok L B data1 HB HL Hdata1), Hc1; reflexivity).
    rewrite Htc.
    assert (Hfull : forall t,
               chain L B AtTop (copied data + len bytes) t ->
               chain L B (GotWrite bytes wsub) (copied data) t).
    { intros t Ht. apply ch_write_full; assumption. }
    destruct (to_copy =? 0) eqn:Et.
    { apply Z.eqb_eq in Et.
      split; [apply Hfull, ch_limit; exact Et
             | rewrite finished_count_CallFinishedHandler; lia]. }
    apply Z.eqb_neq in Et.
    assert (Hto : 0 < to_copy <= B) by (unfold to_copy in *; lia).
    assert (Hrange : len (firstn (Z.to_nat to_copy) (buf data1)) = to_copy)
      by (apply len_firstn_le; cbn; lia).
    destruct (AsyncRead reader (firstn (Z.to_nat to_copy) (buf data1)))
      as [[reader' range'] sub'] eqn:Hread.
    destruct (Hreader _ _ _ _ _ Hread) as (Hlen' & Hrej & Hcount).
    rewrite Hrange in Hlen', Hcount.
    rewrite finished_count_cons. cbn [is_finished Nat.add].
    assert (Hread_ev : forall t,
               chain L B (GotRead to_copy sub') (copied data + len bytes) t ->
               chain L B (GotWrite bytes wsub) (copied data)
                 (EvRead to_copy sub' :: t)).
    { intros t Ht. apply Hfull, ch_read; [reflexivity | lia | exact Ht]. }
    remember (mk_CopyData (buf_after_read data1 to_copy range')
                (copied data1) (limit data1)) as data2 eqn:Hdata2.
    assert (Hc2 : copied data2 = copied data + len bytes)
      by (subst data2; exact Hc1).
    assert (Hok2 : data_ok L B data2)
      by (subst data2; apply data_ok_after_read; [exact Hdata1 | lia | exact Hlen']).
    assert (Hnext : forall res, handed sub' = Some res ->
              chain L B (GotWrite bytes wsub) (copied data)
                (EvRead to_copy sub'
                   :: AsyncCopyReaderFunctor fuel writer reader' data2 res)
              /\ ((2 * Z.to_nat (L - copied data - len bytes) + 1 < S fuel)%nat ->
                  (1 <= finished_count
                          (AsyncCopyReaderFunctor fuel writer reader' data2 res))%nat)).
    { intros res Hres.
      destruct (IHR writer reader' data2 res to_copy sub') as [Hch Hfin].
      - exact Hok2.
      - exact Hres.
      - intros s ->. apply Hcount. exact Hres.
      - lia.
      - rewrite Hc2. unfold to_copy. lia.
      - rewrite Hc2 in Hch, Hfin.
        split; [apply Hread_ev; exact Hch | intros Hfuel; apply Hfin; lia]. }
    destruct sub' as [err | res | res].
    + specialize (Hrej err eq_refl). apply Error_eqb_neq in Hrej. rewrite Hrej.
      split; [| rewrite finished_count_CallFinishedHandler; lia].
      apply Hread_ev, ch_read_rejected. apply Error_eqb_neq. exact Hrej.
    + apply Hnext. reflexivity.
    + apply Hnext. reflexivity.
Qed.

End AsyncWriter_AsyncReader_chain.

End ChainOfEngines.

(** ** AsyncCopy: the whole run *)

Lemma finishes_once_ext (run run' : nat -> list copy_event) :
  (forall fuel, run fuel = run' fuel) -> finishes_once run' -> finishes_once run.
Proof.
  intros Heq (H1 & [fuel0 H2] & H3). split; [| split].
  - intros fuel. rewrite Heq. apply H1.
  - exists fuel0. intros fuel Hf. rewrite Heq. apply H2. exact Hf.
  - intros fuel pre e post Hrun. rewrite Heq in Hrun. eapply H3. exact Hrun.
Qed.

Lemma respects_limit_ext (B L : Z) (run run' : nat -> list copy_event) :
  (forall fuel, run fuel = run' fuel) ->
  respects_limit B L run' -> respects_limit B L run.
Proof.
  intros Heq (H1 & H2). split.
  - intros fuel pre n sub post Hrun. rewrite Heq in Hrun. eapply H1. exact Hrun.
  - intros fuel. rewrite Heq. apply H2.
Qed.

Lemma chain_GotWrite_full (L B : Z) (bytes : list byte) (wsub : submission)
    (c : Z) (t : list copy_event) :
  chain L B (GotWrite bytes wsub) c t ->
  handed wsub = Some (Value (len bytes)) ->
  chain L B AtTop (c + len bytes) t.
Proof.
  intros Hch Hh. inversion Hch; subst; try constructor; try assumption;
    try (cbn in Hh; congruence).
Qed.

Lemma verdict_rejected_first (n : Z) (e : Error) :
  verdict [EvRead n (Rejected e)] e.
Proof.
  split; [| split].
  - intros ev e' [<- | []] He. cbn in He. congruence.
  - intros ev [<- | []] Hs. discriminate Hs.
  - cbn. discriminate.
Qed.

(** A run that is a chain from the top. *)
Lemma top_run (L B : Z) (run : nat -> list copy_event) (k : nat) :
  0 <= L ->
  (forall fuel,
      chain L B AtTop 0 (run fuel)
      /\ ((k < fuel)%nat -> (1 <= finished_count (run fuel))%nat)) ->
  finishes_once run /\ respects_limit B L run.
Proof.
  intros HL Hrun. split; [split; [| split] | split].
  - intros fuel. eapply chain_finished_count. apply Hrun.
  - exists (S k). intros fuel Hf. destruct (Hrun fuel) as [Hch Hfin].
    pose proof (chain_finished_count _ _ _ _ _ Hch). specialize (Hfin Hf). lia.
  - intros fuel pre e post Heq. destruct (Hrun fuel) as [Hch _].
    destruct (chain_finished_last _ _ _ _ _ Hch _ _ _ Heq) as (Hp & Hr & Hv).
    split; [exact Hp |]. split; [left; exact Hr | exact Hv].
  - intros fuel pre n sub post Heq. destruct (Hrun fuel) as [Hch _].
    rewrite (chain_read_sizes _ _ _ _ _ Hch _ _ _ _ Heq).
    cbn [phase_pending]. rewrite Z.min_comm. f_equal; lia.
  - intros fuel. destruct (Hrun fuel) as [Hch _].
    pose proof (chain_written_bound _ _ _ _ _ Hch) as Hw.
    cbn [budget_ok phase_pending] in Hw. specialize (Hw HL). lia.
Qed.

(** A run that starts with a read of [min L B] bytes, and either was
    rejected there or goes on as a chain. *)
Lemma headed_run (L B n0 : Z) (sub : submission)
    (rest : nat -> list copy_event) (k : nat) :
  0 <= L -> n0 = Z.min L B ->
  ((exists e, sub = Rejected e /\ e <> NoError
              /\ forall fuel, rest fuel = [EvFinished e])
   \/ (forall fuel,
         chain L B (GotRead n0 sub) 0 (rest fuel)
         /\ ((k < fuel)%nat -> (1 <= finished_count (rest fuel))%nat))) ->
  finishes_once (fun fuel => EvRead n0 sub :: rest fuel)
  /\ respects_limit B L (fun fuel => EvRead n0 sub :: rest fuel).
Proof.
  intros HL Hn0 [(e0 & -> & Hne & Hrest) | Hrun].
  - split; [split; [| split] | split].
    + intros fuel. rewrite Hrest. cbn. lia.
    + exists 0%nat. intros fuel _. rewrite Hrest. reflexivity.
    + intros fuel pre e post Heq. rewrite Hrest in Heq.
      repeat peel_step. split; [reflexivity |].
      split; [right; eexists; reflexivity | apply verdict_rejected_first].
    + intros fuel pre n sub post Heq. rewrite Hrest in Heq.
      repeat peel_step. cbn [written]. rewrite Z.min_comm. f_equal;
      unfold len; simpl; lia.
    + intros fuel. rewrite Hrest. cbn [written]. unfold len. simpl. exact HL.
  - split; [split; [| split] | split].
    + intros fuel. rewrite finished_count_cons. cbn [is_finished Nat.add].
      eapply chain_finished_count. apply Hrun.
    + exists (S k). intros fuel Hf. destruct (Hrun fuel) as [Hch Hfin].
      rewrite finished_count_cons. cbn [is_finished Nat.add].
      pose proof (chain_finished_count _ _ _ _ _ Hch). specialize (Hfin Hf). lia.
    + intros fuel pre e post Heq. destruct (Hrun fuel) as [Hch _].
      peel_step.
      match goal with
      | Hrest : rest fuel = _ |- _ =>
          destruct (chain_finished_last _ _ _ _ _ Hch _ _ _ Hrest) as (Hp & Hr & Hv)
      end.
      split; [exact Hp |]. split; [| exact Hv].
      left. destruct Hr as [pre' ->].
      exists (EvRead (Z.min L B) sub :: pre'). reflexivity.
    + intros fuel pre n sub' post Heq. destruct (Hrun fuel) as [Hch _].
      peel_step.
      * cbn [written]. rewrite Z.min_comm. f_equal; unfold len; simpl; lia.
      * match goal with
        | Hr : rest fuel = _ |- _ =>
            rewrite (chain_read_sizes _ _ _ _ _ Hch _ _ _ _ Hr)
        end.
        cbn [phase_pending written]. rewrite Z.min_comm. f_equal; lia.
    + intros fuel. destruct (Hrun fuel) as [Hch _]. cbn [written].
      pose proof (chain_written_bound _ _ _ _ _ Hch) as Hw.
      cbn [budget_ok phase_pending] in Hw.
      assert (len (written (rest fuel)) <= L - 0 - 0) by (apply Hw; lia). lia.
Qed.

Lemma len_repeat_x00 (B : Z) : 0 <= B -> len (repeat x00 (Z.to_nat B)) = B.
Proof. intros HB. unfold len. rewrite repeat_length. lia. Qed.

Lemma CopyData_new_ok (L B : Z) :
  0 < B -> 0 <= L -> data_ok L B (CopyData_new B L).
Proof.
  intros HB HL. unfold data_ok, CopyData_new. cbn.
  rewrite len_repeat_x00 by lia. repeat split; lia.
Qed.

Lemma first_to_copy (L B : Z) :
  0 < B < 2 ^ 63 -> 0 <= L < 2 ^ 63 ->
  to_size_t (Z.min (limit (CopyData_new B L)) (to_int64 (len (buf (CopyData_new B L)))))
  = Z.min L B.
Proof.
  intros HB HL. cbn [CopyData_new limit buf].
  rewrite len_repeat_x00 by lia. rewrite to_int64_small by lia.
  apply to_size_t_small. unfold two64. change (2 ^ 64) with (2 * 2 ^ 63). lia.
Qed.

Section Runs.

Variables L B : Z.
Hypothesis HB : 0 < B < 2 ^ 63.
Hypothesis HL : 0 <= L < 2 ^ 63.

Lemma AsyncCopy_Writer_AsyncReader_run {W R} `{Writer W} `{AsyncReader R}
    (dst : W) (src : R) :
  AsyncReader_contract ->
  finishes_once (fun fuel => AsyncCopy_Writer_AsyncReader B fuel dst src L)
  /\ respects_limit B L (fun fuel => AsyncCopy_Writer_AsyncReader B fuel dst src L).
Proof.
  intros Hreader. unfold AsyncCopy_Writer_AsyncReader.
  rewrite (first_to_copy L B HB HL).
  pose proof (CopyData_new_ok L B (proj1 HB) (proj1 HL)) as Hdata.
  set (data := CopyData_new B L) in *.
  set (n0 := Z.min L B).
  assert (Hrange : len (firstn (Z.to_nat n0) (buf data)) = n0).
  { apply len_firstn_le. destruct Hdata as (_ & Hb & _). unfold n0. lia. }
  destruct (AsyncRead src (firstn (Z.to_nat n0) (buf data)))
    as [[src' range'] sub] eqn:Hread.
  destruct (Hreader _ _ _ _ _ Hread) as (Hlen' & Hrej & Hcount).
  rewrite Hrange in Hlen', Hcount.
  apply (headed_run L B n0 sub _ (Z.to_nat L)); [lia | reflexivity |].
  assert (Hnext : forall res, handed sub = Some res -> forall fuel,
            chain L B (GotRead n0 sub) 0
              (AsyncCopy_Writer_AsyncReader_Functor fuel dst src'
                 (mk_CopyData (buf_after_read data n0 range') (copied data)
                    (limit data)) res)
            /\ ((Z.to_nat L < fuel)%nat ->
                (1 <= finished_count
                        (AsyncCopy_Writer_AsyncReader_Functor fuel dst src'
                           (mk_CopyData (buf_after_read data n0 range')
                              (copied data) (limit data)) res))%nat)).
  { intros res Hres fuel.
    destruct (AsyncCopy_Writer_AsyncReader_Functor_chain L B HB HL Hreader fuel
                dst src'
                (mk_CopyData (buf_after_read data n0 range') (copied data)
                   (limit data)) res n0 sub) as [Hch Hfin].
    - apply data_ok_after_read; [exact Hdata | unfold n0; lia | exact Hlen'].
    - exact Hres.
    - intros s ->. apply Hcount. exact Hres.
    - unfold n0. lia.
    - cbn. unfold n0. lia.
    - cbn [copied data CopyData_new] in Hch, Hfin.
      rewrite Z.sub_0_r in Hfin. split; assumption. }
  destruct sub as [err | res | res].
  - left. exists err. split; [reflexivity |].
    specialize (Hrej err eq_refl). split; [exact Hrej |].
    intros fuel. apply Error_eqb_neq in Hrej. rewrite Hrej. reflexivity.
  - right. apply Hnext. reflexivity.
  - right. apply Hnext. reflexivity.
Qed.

Lemma AsyncCopy_AsyncWriter_Reader_run {W R} `{AsyncWriter W} `{Reader R}
    (dst : W) (src : R) :
  Reader_contract -> AsyncWriter_contract ->
  finishes_once (fun fuel => AsyncCopy_AsyncWriter_Reader B fuel dst src L)
  /\ respects_limit B L (fun fuel => AsyncCopy_AsyncWriter_Reader B fuel dst src L).
Proof.
  intros Hreader Hwriter. unfold AsyncCopy_AsyncWriter_Reader.
  pose proof (CopyData_new_ok L B (proj1 HB) (proj1 HL)) as Hdata.
  set (data := CopyData_new B L) in *.
  apply (top_run L B _ (Z.to_nat L)); [lia |].
  intros fuel.
  destruct (AsyncCopy_AsyncWriter_Reader_Functor_chain L B HB HL Hreader Hwriter
              fuel dst src data [] (Inline (Value 0)) (Value 0) Hdata eq_refl)
    as [Hch Hfin].
  - cbn. lia.
  - change (len (@nil byte)) with 0 in Hch, Hfin.
    split.
    + apply (chain_GotWrite_full L B [] (Inline (Value 0)) 0 _) in Hch;
        [| reflexivity].
      exact Hch.
    + intros Hf. apply Hfin. cbn [copied data CopyData_new]. lia.
Qed.

Lemma AsyncCopy_AsyncWriter_AsyncReader_run {W R} `{AsyncWriter W}
    `{AsyncReader R} (dst : W) (src : R) :
  AsyncReader_contract -> AsyncWriter_contract ->
  finishes_once (fun fuel => AsyncCopy_AsyncWriter_AsyncReader B fuel dst src L)
  /\ respects_limit B L
       (fun fuel => AsyncCopy_AsyncWriter_AsyncReader B fuel dst src L).
Proof.
  intros Hreader Hwriter. unfold AsyncCopy_AsyncWriter_AsyncReader.
  rewrite (first_to_copy L B HB HL).
  pose proof (CopyData_new_ok L B (proj1 HB) (proj1 HL)) as Hdata.
  set (data := CopyData_new B L) in *.
  set (n0 := Z.min L B).
  assert (Hrange : len (firstn (Z.to_nat n0) (buf data)) = n0).
  { apply len_firstn_le. destruct Hdata as (_ & Hb & _). unfold n0. lia. }
  destruct (AsyncRead src (firstn (Z.to_nat n0) (buf data)))
    as [[src' range'] sub] eqn:Hread.
  destruct (Hreader _ _ _ _ _ Hread) as (Hlen' & Hrej & Hcount).
  rewrite Hrange in Hlen', Hcount.
  apply (headed_run L B n0 sub _ (2 * Z.to_nat L)); [lia | reflexivity |].
  assert (Hnext : forall res, handed sub = Some res -> forall fuel,
            chain L B (GotRead n0 sub) 0
              (AsyncCopyReaderFunctor fuel dst src'
                 (mk_CopyData (buf_after_read data n0 range') (copied data)
                    (limit data)) res)
            /\ ((2 * Z.to_nat L < fuel)%nat ->
                (1 <= finished_count
                        (AsyncCopyReaderFunctor fuel dst src'
                           (mk_CopyData (buf_after_read data n0 range')
                              (copied data) (limit data)) res))%nat)).
  { intros res Hres fuel.
    destruct (proj1 (AsyncCopy_Functors_chain L B HB HL Hreader Hwriter fuel)
                dst src'
                (mk_CopyData (buf_after_read data n0 range') (copied data)
                   (limit data)) res n0 sub) as [Hch Hfin].
    - apply data_ok_after_read; [exact Hdata | unfold n0; lia | exact Hlen'].
    - exact Hres.
    - intros s ->. apply Hcount. exact Hres.
    - unfold n0. lia.
    - cbn. unfold n0. lia.
    - cbn [copied data CopyData_new] in Hch, Hfin.
      rewrite Z.sub_0_r in Hfin. split; assumption. }
  destruct sub as [err | res | res].
  - left. exists err. split; [reflexivity |].
    specialize (Hrej err eq_refl). split; [exact Hrej |].
    intros fuel. apply Error_eqb_neq in Hrej. rewrite Hrej. reflexivity.
  - right. apply Hnext. reflexivity.
  - right. apply Hnext. reflexivity.
Qed.

End Runs.

(** ** AsyncCopy: a source that offers enough *)

Lemma handed_value_cases (sub : submission) (s : Z) :
  handed sub = Some (Value s) -> sub = Inline (Value s) \/ sub = Deferred (Value s).
Proof.
  destruct sub as [e | res | res]; cbn; intros Hh;
    [discriminate Hh | left | right]; congruence.
Qed.

Section Exact.

Variables L B : Z.
Hypothesis HB : 0 < B < 2 ^ 63.
Hypothesis HL : 0 <= L < 2 ^ 63.

Section Writer_AsyncReader_exact.

Context {W R : Type} `{Writer W} `{AsyncReader R}.
Variable avail : R -> Z.
Hypothesis Hsrc : AsyncReader_offers avail.
Hypothesis Hsink : Writer_accepts.

Lemma AsyncCopy_Writer_AsyncReader_Functor_exact (fuel : nat) :
  forall (writer : W) (reader : R) (data : CopyData) (s : Z),
    data_ok L B data -> 0 <= s <= Z.min (L - copied data) B ->
    (s = 0 -> L - copied data = 0) ->
    L - copied data - s <= avail reader ->
    (Z.to_nat (L - copied data) < fuel)%nat ->
    len (written (AsyncCopy_Writer_AsyncReader_Functor fuel writer reader data
                    (Value s)))
    = L - copied data
    /\ exists pre,
         AsyncCopy_Writer_AsyncReader_Functor fuel writer reader data (Value s)
         = pre ++ [EvRelease; EvFinished NoError].
Proof.
  induction fuel as [| fuel IH]; intros writer reader data s Hdata Hs Hs0 Hav Hfuel;
    [lia |].
  cbn [AsyncCopy_Writer_AsyncReader_Functor].
  pose proof Hdata as (Hl & Hb & Hc).
  destruct (s =? 0) eqn:Ez.
  { apply Z.eqb_eq in Ez. specialize (Hs0 Ez).
    split; [cbn; unfold len; simpl; lia | exists []; reflexivity]. }
  apply Z.eqb_neq in Ez.
  set (bytes := firstn (Z.to_nat s) (buf data)).
  assert (Hbytes : len bytes = s) by (apply len_firstn_le; lia).
  destruct (Hsink writer bytes) as [writer' ->].
  rewrite Hbytes, Z.eqb_refl. cbn [negb].
  destruct (data_ok_after_write L B data s HL Hdata) as [Hcopied Hdata1]; [lia |].
  set (data1 := mk_CopyData (buf data) (to_int64 (copied data + s)) (limit data)) in *.
  assert (Hc1 : copied data1 = copied data + s) by exact Hcopied.
  set (to_copy := Z.min (L - (copied data + s)) B).
  assert (Htc : to_copy_of data1 = to_copy)
    by (rewrite (to_copy_of_ok L B data1 HB HL Hdata1), Hc1; reflexivity).
  rewrite Htc.
  destruct (to_copy =? 0) eqn:Et.
  { apply Z.eqb_eq in Et. split.
    - cbn [written CallFinishedHandler]. rewrite app_nil_r, Hbytes.
      unfold to_copy in Et. lia.
    - exists [EvWrite bytes (Inline (Value s))]. reflexivity. }
  apply Z.eqb_neq in Et.
  assert (Hto : 0 < to_copy <= B) by (unfold to_copy in *; lia).
  assert (Hrange : len (firstn (Z.to_nat to_copy) (buf data1)) = to_copy)
    by (apply len_firstn_le; cbn; lia).
  destruct (Hsrc reader (firstn (Z.to_nat to_copy) (buf data1)))
    as (reader' & range' & sub' & s' & Hread & Hh & Hs' & Hpos & Hav' & Hlen').
  rewrite Hread. rewrite Hrange in Hs', Hpos, Hlen'.
  remember (mk_CopyData (buf_after_read data1 to_copy range')
              (copied data1) (limit data1)) as data2 eqn:Hdata2.
  assert (Hc2 : copied data2 = copied data + s) by (subst data2; exact Hc1).
  assert (Hok2 : data_ok L B data2)
    by (subst data2; apply data_ok_after_read; [exact Hdata1 | lia | exact Hlen']).
  assert (Hs'pos : 0 < s') by (apply Hpos; unfold to_copy in *; lia).
  destruct (IH writer' reader' data2 s' Hok2) as [Hlen [pre Hpre]];
    try (rewrite ?Hc2; unfold to_copy in *; lia).
  assert (Hgoal : forall sub0, sub0 = Inline (Value s') \/ sub0 = Deferred (Value s') ->
            len (written (EvWrite bytes (Inline (Value s)) :: EvRead to_copy sub0
                            :: AsyncCopy_Writer_AsyncReader_Functor fuel writer'
                                 reader' data2 (Value s')))
            = L - copied data
            /\ exists pre0,
                 EvWrite bytes (Inline (Value s)) :: EvRead to_copy sub0
                   :: AsyncCopy_Writer_AsyncReader_Functor fuel writer' reader'
                        data2 (Value s')
                 = pre0 ++ [EvRelease; EvFinished NoError]).
  { intros sub0 _. split.
    - cbn [written]. rewrite len_app, Hbytes, Hlen, Hc2. lia.
    - exists (EvWrite bytes (Inline (Value s)) :: EvRead to_copy sub0 :: pre).
      rewrite Hpre. reflexivity. }
  destruct (handed_value_cases _ _ Hh) as [-> | ->]; apply Hgoal; auto.
Qed.

Lemma AsyncCopy_Writer_AsyncReader_exact (dst : W) (src : R) :
  L <= avail src ->
  forall fuel, (Z.to_nat L < fuel)%nat ->
    len (written (AsyncCopy_Writer_AsyncReader B fuel dst src L)) = L
    /\ exists pre,
         AsyncCopy_Writer_AsyncReader B fuel dst src L
         = pre ++ [EvRelease; EvFinished NoError].
Proof.
  intros Hav fuel Hfuel. unfold AsyncCopy_Writer_AsyncReader.
  rewrite (first_to_copy L B HB HL).
  pose proof (CopyData_new_ok L B (proj1 HB) (proj1 HL)) as Hdata.
  set (data := CopyData_new B L) in *.
  set (n0 := Z.min L B).
  assert (Hrange : len (firstn (Z.to_nat n0) (buf data)) = n0).
  { apply len_firstn_le. destruct Hdata as (_ & Hb & _). unfold n0. lia. }
  destruct (Hsrc src (firstn (Z.to_nat n0) (buf data)))
    as (src' & range' & sub & s & Hread & Hh & Hs & Hpos & Hav' & Hlen').
  rewrite Hread. rewrite Hrange in Hs, Hpos, Hlen'.
  remember (mk_CopyData (buf_after_read data n0 range') (copied data) (limit data))
    as data1 eqn:Hdata1.
  assert (Hc1 : copied data1 = 0) by (subst data1; reflexivity).
  assert (Hok1 : data_ok L B data1)
    by (subst data1; apply data_ok_after_read;
        [exact Hdata | unfold n0; lia | exact Hlen']).
  destruct (AsyncCopy_Writer_AsyncReader_Functor_exact fuel dst src' data1 s Hok1)
    as [Hlen [pre Hpre]]; try (rewrite ?Hc1; unfold n0 in *; lia).
  assert (Hgoal : forall sub0,
            len (written (EvRead n0 sub0
                            :: AsyncCopy_Writer_AsyncReader_Functor fuel dst src'
                                 data1 (Value s))) = L
            /\ exists pre0,
                 EvRead n0 sub0
                   :: AsyncCopy_Writer_AsyncReader_Functor fuel dst src' data1
                        (Value s)
                 = pre0 ++ [EvRelease; EvFinished NoError]).
  { intros sub0. split.
    - cbn [written]. rewrite Hlen, Hc1. lia.
    - exists (EvRead n0 sub0 :: pre). rewrite Hpre. reflexivity. }
  destruct (handed_value_cases _ _ Hh) as [-> | ->]; apply Hgoal.
Qed.

End Writer_AsyncReader_exact.

Section AsyncWriter_Reader_exact.

Context {W R : Type} `{AsyncWriter W} `{Reader R}.
Variable avail : R -> Z.
Hypothesis Hsrc : Reader_offers avail.
Hypothesis Hsink : AsyncWriter_accepts.

Lemma AsyncCopy_AsyncWriter_Reader_Functor_exact (fuel : nat) :
  forall (writer : W) (reader : R) (data : CopyData) (e : Z),
    data_ok L B data -> 0 <= e -> copied data + e <= L ->
    L - copied data - e <= avail reader ->
    (Z.to_nat (L - copied data - e) < fuel)%nat ->
    len (written (AsyncCopy_AsyncWriter_Reader_Functor fuel writer reader data
                    e (Value e)))
    = L - copied data - e
    /\ exists pre,
         AsyncCopy_AsyncWriter_Reader_Functor fuel writer reader data e (Value e)
         = pre ++ [EvRelease; EvFinished NoError].
Proof.
  induction fuel as [| fuel IH]; intros writer reader data e Hdata He Hbudget Hav Hfuel;
    [lia |].
  cbn [AsyncCopy_AsyncWriter_Reader_Functor].
  pose proof Hdata as (Hl & Hb & Hc).
  rewrite Z.eqb_refl. cbn [negb].
  destruct (data_ok_after_write L B data e HL Hdata) as [Hcopied Hdata1]; [lia |].
  set (data1 := mk_CopyData (buf data) (to_int64 (copied data + e)) (limit data)) in *.
  assert (Hc1 : copied data1 = copied data + e) by exact Hcopied.
  set (to_copy := Z.min (L - (copied data + e)) B).
  assert (Htc : to_copy_of data1 = to_copy)
    by (rewrite (to_copy_of_ok L B data1 HB HL Hdata1), Hc1; reflexivity).
  rewrite Htc.
  destruct (to_copy =? 0) eqn:Et.
  { apply Z.eqb_eq in Et. split.
    - cbn [written CallFinishedHandler]. unfold to_copy in Et.
      unfold len. simpl. lia.
    - exists []. reflexivity. }
  apply Z.eqb_neq in Et.
  assert (Hto : 0 < to_copy <= B) by (unfold to_copy in *; lia).
  assert (Hrange : len (firstn (Z.to_nat to_copy) (buf data1)) = to_copy)
    by (apply len_firstn_le; cbn; lia).
  destruct (Hsrc reader (firstn (Z.to_nat to_copy) (buf data1)))
    as (reader' & range' & s' & Hread & Hs' & Hpos & Hav' & Hlen').
  rewrite Hread. rewrite Hrange in Hs', Hpos, Hlen'.
  remember (mk_CopyData (buf_after_read data1 to_copy range')
              (copied data1) (limit data1)) as data2 eqn:Hdata2.
  assert (Hc2 : copied data2 = copied data + e) by (subst data2; exact Hc1).
  assert (Hok2 : data_ok L B data2)
    by (subst data2; apply data_ok_after_read; [exact Hdata1 | lia | exact Hlen']).
  assert (Hs'pos : 0 < s') by (apply Hpos; unfold to_copy in *; lia).
  destruct (s' =? 0) eqn:Es; [apply Z.eqb_eq in Es; lia |].
  set (bytes' := firstn (Z.to_nat s') (buf data2)).
  assert (Hbytes' : len bytes' = s').
  { apply len_firstn_le. destruct Hok2 as (_ & Hb2 & _). lia. }
  destruct (Hsink writer bytes') as (writer' & sub' & Hwrite & Hh).
  rewrite Hwrite. rewrite Hbytes' in Hh.
  destruct (IH writer' reader' data2 s' Hok2) as [Hlen [pre Hpre]];
    try (rewrite ?Hc2; unfold to_copy in *; lia).
  assert (Hgoal : forall sub0,
            len (written (EvRead to_copy (Inline (Value s')) :: EvWrite bytes' sub0
                            :: AsyncCopy_AsyncWriter_Reader_Functor fuel writer'
                                 reader' data2 s' (Value s')))
            = L - copied data - e
            /\ exists pre0,
                 EvRead to_copy (Inline (Value s')) :: EvWrite bytes' sub0
                   :: AsyncCopy_AsyncWriter_Reader_Functor fuel writer' reader'
                        data2 s' (Value s')
                 = pre0 ++ [EvRelease; EvFinished NoError]).
  { intros sub0. split.
    - cbn [written]. rewrite len_app, Hbytes', Hlen, Hc2. lia.
    - exists (EvRead to_copy (Inline (Value s')) :: EvWrite bytes' sub0 :: pre).
      rewrite Hpre. reflexivity. }
  destruct (handed_value_cases _ _ Hh) as [-> | ->]; apply Hgoal.
Qed.

Lemma AsyncCopy_AsyncWriter_Reader_exact (dst : W) (src : R) :
  L <= avail src ->
  forall fuel, (Z.to_nat L < fuel)%nat ->
    len (written (AsyncCopy_AsyncWriter_Reader B fuel dst src L)) = L
    /\ exists pre,
         AsyncCopy_AsyncWriter_Reader B fuel dst src L
         = pre ++ [EvRelease; EvFinished NoError].
Proof.
  intros Hav fuel Hfuel. unfold AsyncCopy_AsyncWriter_Reader.
  pose proof (CopyData_new_ok L B (proj1 HB) (proj1 HL)) as Hdata.
  destruct (AsyncCopy_AsyncWriter_Reader_Functor_exact fuel dst src
              (CopyData_new B L) 0 Hdata) as [Hlen Hpre];
    try (cbn [copied CopyData_new]; lia).
  cbn [copied CopyData_new] in Hlen. split; [lia | exact Hpre].
Qed.

End AsyncWriter_Reader_exact.

Section AsyncWriter_AsyncReader_exact.

Context {W R : Type} `{AsyncWriter W} `{AsyncReader R}.
Variable avail : R -> Z.
Hypothesis Hsrc : AsyncReader_offers avail.
Hypothesis Hsink : AsyncWriter_accepts.

Lemma AsyncCopy_Functors_exact (fuel : nat) :
  (forall (writer : W) (reader : R) (data : CopyData) (s : Z),
      data_ok L B data -> 0 <= s <= Z.min (L - copied data) B ->
      (s = 0 -> L - copied data = 0) ->
      L - copied data - s <= avail reader ->
      (2 * Z.to_nat (L - copied data) < fuel)%nat ->
      len (written (AsyncCopyReaderFunctor fuel writer reader data (Value s)))
      = L - copied data
      /\ exists pre,
           AsyncCopyReaderFunctor fuel writer reader data (Value s)
           = pre ++ [EvRelease; EvFinished NoError])
  /\ (forall (writer : W) (reader : R) (data : CopyData) (e : Z),
         data_ok L B data -> 0 <= e -> copied data + e <= L ->
         L - copied data - e <= avail reader ->
         (2 * Z.to_nat (L - copied data - e) + 1 < fuel)%nat ->
         len (written (AsyncCopyWriterFunctor fuel writer reader data e (Value e)))
         = L - copied data - e
         /\ exists pre,
              AsyncCopyWriterFunctor fuel writer reader data e (Value e)
              = pre ++ [EvRelease; EvFinished NoError]).
Proof.
  induction fuel as [| fuel [IHR IHW]]; [split; intros; lia |].
  split.
  - intros writer reader data s Hdata Hs Hs0 Hav Hfuel.
    cbn [AsyncCopyReaderFunctor].
    pose proof Hdata as (Hl & Hb & Hc).
    destruct (s =? 0) eqn:Ez.
    { apply Z.eqb_eq in Ez. specialize (Hs0 Ez).
      split; [cbn; unfold len; simpl; lia | exists []; reflexivity]. }
    apply Z.eqb_neq in Ez.
    set (bytes := firstn (Z.to_nat s) (buf data)).
    assert (Hbytes : len bytes = s) by (apply len_firstn_le; lia).
    destruct (Hsink writer bytes) as (writer' & wsub & Hwrite & Hh).
    rewrite Hwrite. rewrite Hbytes in Hh.
    destruct (IHW writer' reader data s Hdata) as [Hlen [pre Hpre]]; try lia.
    assert (Hgoal : forall sub0,
              len (written (EvWrite bytes sub0
                              :: AsyncCopyWriterFunctor fuel writer' reader data s
                                   (Value s)))
              = L - copied data
              /\ exists pre0,
                   EvWrite bytes sub0
                     :: AsyncCopyWriterFunctor fuel writer' reader data s (Value s)
                   = pre0 ++ [EvRelease; EvFinished NoError]).
    { intros sub0. split.
      - cbn [written]. rewrite len_app, Hbytes, Hlen. lia.
      - exists (EvWrite bytes sub0 :: pre). rewrite Hpre. reflexivity. }
    destruct (handed_value_cases _ _ Hh) as [-> | ->]; apply Hgoal.
  - intros writer reader data e Hdata He Hbudget Hav Hfuel.
    cbn [AsyncCopyWriterFunctor].
    pose proof Hdata as (Hl & Hb & Hc).
    rewrite Z.eqb_refl. cbn [negb].
    destruct (data_ok_after_write L B data e HL Hdata) as [Hcopied Hdata1]; [lia |].
    set (data1 := mk_CopyData (buf data) (to_int64 (copied data + e)) (limit data)) in *.
    assert (Hc1 : copied data1 = copied data + e) by exact Hcopied.
    set (to_copy := Z.min (L - (copied data + e)) B).
    assert (Htc : to_copy_of data1 = to_copy)
      by (rewrite (to_copy_of_ok L B data1 HB HL Hdata1), Hc1; reflexivity).
    rewrite Htc.
    destruct (to_copy =? 0) eqn:Et.
    { apply Z.eqb_eq in Et. split.
      - cbn [written CallFinishedHandler]. unfold to_copy in Et.
        unfold len. simpl. lia.
      - exists []. reflexivity. }
    apply Z.eqb_neq in Et.
    assert (Hto : 0 < to_copy <= B) by (unfold to_copy in *; lia).
    assert (Hrange : len (firstn (Z.to_nat to_copy) (buf data1)) = to_copy)
      by (apply len_firstn_le; cbn; lia).
    destruct (Hsrc reader (firstn (Z.to_nat to_copy) (buf data1)))
      as (reader' & range' & sub' & s' & Hread & Hh & Hs' & Hpos & Hav' & Hlen').
    rewrite Hread. rewrite Hrange in Hs', Hpos, Hlen'.
    remember (mk_CopyData (buf_after_read data1 to_copy range')
                (copied data1) (limit data1)) as data2 eqn:Hdata2.
    assert (Hc2 : copied data2 = copied data + e) by (subst data2; exact Hc1).
    assert (Hok2 : data_ok L B data2)
      by (subst data2; apply data_ok_after_read; [exact Hdata1 | lia | exact Hlen']).
    assert (Hs'pos : 0 < s') by (apply Hpos; unfold to_copy in *; lia).
    destruct (IHR writer reader' data2 s' Hok2) as [Hlen [pre Hpre]];
      try (rewrite ?Hc2; unfold to_copy in *; lia).
    assert (Hgoal : forall sub0,
              len (written (EvRead to_copy sub0
                              :: AsyncCopyReaderFunctor fuel writer reader' data2
                                   (Value s')))
              = L - copied data - e
              /\ exists pre0,
                   EvRead to_copy sub0
                     :: AsyncCopyReaderFunctor fuel writer reader' data2 (Value s')
                   = pre0 ++ [EvRelease; EvFinished NoError]).
    { intros sub0. split.
      - cbn [written]. rewrite Hlen, Hc2. lia.
      - exists (EvRead to_copy sub0 :: pre). rewrite Hpre. reflexivity. }
    destruct (handed_value_cases _ _ Hh) as [-> | ->]; apply Hgoal.
Qed.

Lemma AsyncCopy_AsyncWriter_AsyncReader_exact (dst : W) (src : R) :
  L <= avail src ->
  forall fuel, (2 * Z.to_nat L < fuel)%nat ->
    len (written (AsyncCopy_AsyncWriter_AsyncReader B fuel dst src L)) = L
    /\ exists pre,
         AsyncCopy_AsyncWriter_AsyncReader B fuel dst src L
         = pre ++ [EvRelease; EvFinished NoError].
Proof.
  intros Hav fuel Hfuel. unfold AsyncCopy_AsyncWriter_AsyncReader.
  rewrite (first_to_copy L B HB HL).
  pose proof (CopyData_new_ok L B (proj1 HB) (proj1 HL)) as Hdata.
  set (data := CopyData_new B L) in *.
  set (n0 := Z.min L B).
  assert (Hrange : len (firstn (Z.to_nat n0) (buf data)) = n0).
  { apply len_firstn_le. destruct Hdata as (_ & Hb & _). unfold n0. lia. }
  destruct (Hsrc src (firstn (Z.to_nat n0) (buf data)))
    as (src' & range' & sub & s & Hread & Hh & Hs & Hpos & Hav' & Hlen').
  rewrite Hread. rewrite Hrange in Hs, Hpos, Hlen'.
  remember (mk_CopyData (buf_after_read data n0 range') (copied data) (limit data))
    as data1 eqn:Hdata1.
  assert (Hc1 : copied data1 = 0) by (subst data1; reflexivity).
  assert (Hok1 : data_ok L B data1)
    by (subst data1; apply data_ok_after_read;
        [exact Hdata | unfold n0; lia | exact Hlen']).
  destruct (proj1 (AsyncCopy_Functors_exact fuel) dst src' data1 s Hok1)
    as [Hlen [pre Hpre]]; try (rewrite ?Hc1; unfold n0 in *; lia).
  assert (Hgoal : forall sub0,
            len (written (EvRead n0 sub0
                            :: AsyncCopyReaderFunctor fuel dst src' data1 (Value s)))
            = L
            /\ exists pre0,
                 EvRead n0 sub0 :: AsyncCopyReaderFunctor fuel dst src' data1 (Value s)
                 = pre0 ++ [EvRelease; EvFinished NoError]).
  { intros sub0. split.
    - cbn [written]. rewrite Hlen, Hc1. lia.
    - exists (EvRead n0 sub0 :: pre). rewrite Hpre. reflexivity. }
  destruct (handed_value_cases _ _ Hh) as [-> | ->]; apply Hgoal.
Qed.

End AsyncWriter_AsyncReader_exact.

End Exact.

(** ** AsyncCopy: the claims *)

Lemma AsyncReader_offers_contract {R} `{AsyncReader R} (avail : R -> Z) :
  AsyncReader_offers avail -> AsyncReader_contract.
Proof.
  intros Hsrc r r' range range' sub Hread.
  destruct (Hsrc r range) as (r1 & range1 & sub1 & s & Hread1 & Hh & Hs & _ & _ & Hlen).
  rewrite Hread in Hread1. injection Hread1 as <- <- <-.
  split; [exact Hlen |]. split.
  - intros e ->. discriminate Hh.
  - intros n Hn. rewrite Hh in Hn. injection Hn as <-. lia.
Qed.

Lemma Reader_offers_contract {R} `{Reader R} (avail : R -> Z) :
  Reader_offers avail -> Reader_contract.
Proof.
  intros Hsrc r r' range range' n Hread.
  destruct (Hsrc r range) as (r1 & range1 & s & Hread1 & Hs & _ & _ & Hlen).
  rewrite Hread in Hread1. injection Hread1 as <- <- <-.
  split; [lia | exact Hlen].
Qed.

Lemma AsyncWriter_accepts_contract {W} `{AsyncWriter W} :
  AsyncWriter_accepts -> AsyncWriter_contract.
Proof.
  intros Hsink w w' bytes sub Hwrite e ->.
  destruct (Hsink w bytes) as (w1 & sub1 & Hwrite1 & Hh).
  rewrite Hwrite in Hwrite1. injection Hwrite1 as <- <-. discriminate Hh.
Qed.

Lemma copies_exactly_of (L : Z) (run : nat -> list copy_event) (fuel0 : nat) :
  finishes_once run ->
  (forall fuel, (fuel0 < fuel)%nat ->
     len (written (run fuel)) = L
     /\ exists pre, run fuel = pre ++ [EvRelease; EvFinished NoError]) ->
  copies_exactly L run.
Proof.
  intros (Hle & _ & _) Hrun. exists (S fuel0). intros fuel Hf.
  destruct (Hrun fuel Hf) as [Hlen [pre Hpre]].
  split; [exact Hlen |]. split; [| exists pre; exact Hpre].
  specialize (Hle fuel). rewrite Hpre in Hle |- *.
  rewrite finished_count_app in *. cbn in *. lia.
Qed.

(** ** AsyncCopy: the functors and what they hold *)

Lemma with_engine_fst (async : copy_event -> option submission)
    (events : list copy_event) :
  forall stack, map fst (with_engine async stack events) = events.
Proof.
  induction events as [| ev events IH]; intros stack; [reflexivity |].
  cbn [with_engine map fst]. rewrite IH. reflexivity.
Qed.

Lemma with_engine_at (async : copy_event -> option submission)
    (events : list copy_event) :
  forall stack pre ev st post,
    with_engine async stack events = pre ++ (ev, st) :: post ->
    st = snapshot_at ev (running async stack (map fst pre)).
Proof.
  induction events as [| ev0 events IH]; intros stack pre ev st post Heq;
    cbn [with_engine] in Heq.
  - destruct pre; discriminate Heq.
  - destruct pre as [| [ev1 st1] pre]; cbn [app] in Heq.
    + injection Heq as <- <- _. reflexivity.
    + injection Heq as <- _ Heq. cbn [map fst running].
      apply (IH _ _ _ _ _ Heq).
Qed.

Lemma running_untouched (async : copy_event -> option submission)
    (events : list copy_event) :
  forall stack, Forall untouched stack ->
                Forall untouched (running async stack events).
Proof.
  induction events as [| ev events IH]; intros stack Hs; [exact Hs |].
  cbn [running]. apply IH.
  destruct (async ev) as [[e | res | res] |]; cbn [after_submission];
    [exact Hs | constructor; [reflexivity | exact Hs]
     | repeat constructor | exact Hs].
Qed.

Lemma tl_emptied_untouched (stack : list engine_frame) :
  Forall untouched stack -> Forall untouched (tl (emptied stack)).
Proof.
  intros Hs. destruct Hs as [| f below Hf Hbelow]; [constructor |].
  destruct f; cbn [emptied tl]; exact Hbelow.
Qed.

Lemma keeps_references_untouched (f : engine_frame) :
  keeps_references f -> untouched f.
Proof. intros [-> | ->]; reflexivity. Qed.

Lemma engine_start_untouched (base : list engine_frame) :
  engine_start base -> Forall untouched base.
Proof.
  intros (f & below & -> & Hf & Hbelow).
  constructor; [apply keeps_references_untouched; exact Hf | exact Hbelow].
Qed.

Lemma stack_for_head (base : list engine_frame) (latest : option submission)
    (stack : list engine_frame) :
  engine_start base -> stack_for base latest stack ->
  exists f below, stack = f :: below /\ keeps_references f.
Proof.
  intros (f0 & below0 & -> & Hf0 & _) Hs.
  destruct latest as [[e | res | res] |]; cbn [stack_for] in Hs.
  - subst stack. eexists _, _. split; [reflexivity | exact Hf0].
  - destruct Hs as (f & below & -> & _). eexists _, _.
    split; [reflexivity | right; reflexivity].
  - subst stack. eexists _, _. split; [reflexivity | right; reflexivity].
  - subst stack. eexists _, _. split; [reflexivity | exact Hf0].
Qed.

Lemma running_stack_for (async : copy_event -> option submission)
    (base : list engine_frame) (events : list copy_event) :
  engine_start base ->
  forall latest stack,
    stack_for base latest stack ->
    stack_for base
      (fold_left (fun latest ev =>
                    match async ev with
                    | Some (Inline res) => Some (Inline res)
                    | Some (Deferred res) => Some (Deferred res)
                    | _ => latest
                    end) events latest)
      (running async stack events).
Proof.
  intros Hbase. induction events as [| ev events IH]; intros latest stack Hs;
    [exact Hs |].
  cbn [fold_left running]. apply IH.
  destruct (async ev) as [[e | res | res] |]; cbn [after_submission stack_for].
  - exact Hs.
  - destruct (stack_for_head _ _ _ Hbase Hs) as (f & below & -> & Hf).
    eexists _, _. split; [reflexivity | exact Hf].
  - reflexivity.
  - exact Hs.
Qed.

(** It is enough that the events of a copy come with the engine code
    [running] gives. *)
Lemma handler_finds_of (async : copy_event -> option submission)
    (base : list engine_frame) (run : nat -> list copy_event)
    (run_refs : nat -> list owned_event) :
  engine_start base ->
  (forall fuel, run_refs fuel = with_engine async base (run fuel)) ->
  handler_finds async base run_refs.
Proof.
  intros Hbase Hrun fuel pre e st post Heq. rewrite Hrun in Heq.
  pose proof (with_engine_at _ _ _ _ _ _ _ Heq) as Hst.
  cbn [snapshot_at] in Hst. split; [exact Hst |].
  split.
  - rewrite Hst. apply tl_emptied_untouched, running_untouched,
      engine_start_untouched, Hbase.
  - pose proof (running_stack_for async base (map fst pre) Hbase None base
                  eq_refl) as Hfor.
    unfold latest_completion.
    destruct (fold_left _ (map fst pre) None) as [[e0 | res | res] |];
      cbn [stack_for] in Hfor.
    + rewrite Hst, Hfor. reflexivity.
    + destruct Hfor as (f & below & Hfor & Hf). exists f, below.
      split; [rewrite Hst, Hfor; reflexivity | exact Hf].
    + rewrite Hst, Hfor. reflexivity.
    + rewrite Hst, Hfor. reflexivity.
Qed.

Lemma AsyncCopy_Writer_AsyncReader_Functor_refs_eq {W R} `{Writer W}
    `{AsyncReader R} (fuel : nat) :
  forall (stack : list engine_frame) (writer : W) (reader : R)
         (data : CopyData) (size : ExpectedSize),
    AsyncCopy_Writer_AsyncReader_Functor_refs fuel Functor_full stack writer
      reader data size
    = with_engine read_submission (In_Functor Functor_full :: stack)
        (AsyncCopy_Writer_AsyncReader_Functor fuel writer reader data size).
Proof.
  induction fuel as [| fuel IH]; intros stack writer reader data size;
    [reflexivity |].
  cbn [AsyncCopy_Writer_AsyncReader_Functor_refs
       AsyncCopy_Writer_AsyncReader_Functor].
  destruct size as [sz | e]; [| reflexivity].
  destruct (sz =? 0); [reflexivity |].
  destruct (Write writer (firstn (Z.to_nat sz) (buf data))) as [writer' n].
  cbn [with_engine snapshot_at read_submission]. f_equal.
  destruct n as [n | e]; [| reflexivity].
  destruct (negb (n =? sz)); [reflexivity |].
  destruct (to_copy_of _ =? 0); [reflexivity |].
  destruct (AsyncRead reader _) as [[reader' range'] sub].
  cbn [with_engine snapshot_at read_submission]. f_equal.
  destruct sub as [err | res | res]; cbn [after_submission].
  - destruct (Error_eqb err NoError); reflexivity.
  - apply IH.
  - apply IH.
Qed.

Lemma AsyncCopy_Writer_AsyncReader_refs_eq {W R} `{Writer W} `{AsyncReader R}
    (B : Z) (fuel : nat) (dst : W) (src : R) (L : Z) :
  AsyncCopy_Writer_AsyncReader_refs B fuel dst src L
  = with_engine read_submission [In_AsyncCopy]
      (AsyncCopy_Writer_AsyncReader B fuel dst src L).
Proof.
  unfold AsyncCopy_Writer_AsyncReader_refs, AsyncCopy_Writer_AsyncReader.
  cbv zeta.
  destruct (AsyncRead src _) as [[src' range'] sub].
  cbn [with_engine snapshot_at read_submission]. f_equal.
  destruct sub as [err | res | res]; cbn [after_submission].
  - destruct (Error_eqb err NoError); reflexivity.
  - apply AsyncCopy_Writer_AsyncReader_Functor_refs_eq.
  - apply AsyncCopy_Writer_AsyncReader_Functor_refs_eq.
Qed.

Lemma AsyncCopy_AsyncWriter_Reader_Functor_refs_eq {W R} `{AsyncWriter W}
    `{Reader R} (fuel : nat) :
  forall (stack : list engine_frame) (writer : W) (reader : R)
         (data : CopyData) (expected_written : Z) (exp_written : ExpectedSize),
    AsyncCopy_AsyncWriter_Reader_Functor_refs fuel Functor_full stack writer
      reader data expected_written exp_written
    = with_engine write_submission (In_Functor Functor_full :: stack)
        (AsyncCopy_AsyncWriter_Reader_Functor fuel writer reader data
           expected_written exp_written).
Proof.
  induction fuel as [| fuel IH];
    intros stack writer reader data expected_written exp_written;
    [reflexivity |].
  cbn [AsyncCopy_AsyncWriter_Reader_Functor_refs
       AsyncCopy_AsyncWriter_Reader_Functor].
  destruct exp_written as [w | e]; [| reflexivity].
  destruct (negb (w =? expected_written)); [reflexivity |].
  destruct (to_copy_of _ =? 0); [reflexivity |].
  destruct (Read reader _) as [[reader' range'] exp_read].
  cbn [with_engine snapshot_at write_submission]. f_equal.
  destruct exp_read as [read | e]; [| reflexivity].
  destruct (read =? 0); [reflexivity |].
  destruct (AsyncWrite writer _) as [writer' sub].
  cbn [with_engine snapshot_at write_submission]. f_equal.
  destruct sub as [err | res | res]; cbn [after_submission].
  - destruct (Error_eqb err NoError); reflexivity.
  - apply IH.
  - apply IH.
Qed.

Lemma AsyncCopy_AsyncWriter_Reader_refs_eq {W R} `{AsyncWriter W} `{Reader R}
    (B : Z) (fuel : nat) (dst : W) (src : R) (L : Z) :
  AsyncCopy_AsyncWriter_Reader_refs B fuel dst src L
  = with_engine write_submission [In_Functor Functor_full; In_AsyncCopy]
      (AsyncCopy_AsyncWriter_Reader B fuel dst src L).
Proof. apply AsyncCopy_AsyncWriter_Reader_Functor_refs_eq. Qed.

Lemma AsyncCopy_Functors_refs_eq {W R} `{AsyncWriter W} `{AsyncReader R}
    (fuel : nat) :
  (forall (stack : list engine_frame) (writer : W) (reader : R)
          (data : CopyData) (exp_size : ExpectedSize),
      AsyncCopyReaderFunctor_refs fuel Functor_full stack writer reader data
        exp_size
      = with_engine any_submission (In_Functor Functor_full :: stack)
          (AsyncCopyReaderFunctor fuel writer reader data exp_size))
  /\ (forall (stack : list engine_frame) (writer : W) (reader : R)
             (data : CopyData) (expected_written : Z) (exp_size : ExpectedSize),
        AsyncCopyWriterFunctor_refs fuel Functor_full stack writer reader data
          expected_written exp_size
        = with_engine any_submission (In_Functor Functor_full :: stack)
            (AsyncCopyWriterFunctor fuel writer reader data expected_written
               exp_size)).
Proof.
  induction fuel as [| fuel [IHr IHw]]; [split; reflexivity |].
  split.
  - intros stack writer reader data exp_size.
    cbn [AsyncCopyReaderFunctor_refs AsyncCopyReaderFunctor].
    destruct exp_size as [sz | e]; [| reflexivity].
    destruct (sz =? 0); [reflexivity |].
    destruct (AsyncWrite writer _) as [writer' sub].
    cbn [with_engine snapshot_at any_submission]. f_equal.
    destruct sub as [err | res | res]; cbn [after_submission].
    + destruct (Error_eqb err NoError); reflexivity.
    + apply IHw.
    + apply IHw.
  - intros stack writer reader data expected_written exp_size.
    cbn [AsyncCopyWriterFunctor_refs AsyncCopyWriterFunctor].
    destruct exp_size as [w | e]; [| reflexivity].
    destruct (negb (w =? expected_written)); [reflexivity |].
    destruct (to_copy_of _ =? 0); [reflexivity |].
    destruct (AsyncRead reader _) as [[reader' range'] sub].
    cbn [with_engine snapshot_at any_submission]. f_equal.
    destruct sub as [err | res | res]; cbn [after_submission].
    + destruct (Error_eqb err NoError); reflexivity.
    + apply IHr.
    + apply IHr.
Qed.

Lemma AsyncCopy_AsyncWriter_AsyncReader_refs_eq {W R} `{AsyncWriter W}
    `{AsyncReader R} (B : Z) (fuel : nat) (dst : W) (src : R) (L : Z) :
  AsyncCopy_AsyncWriter_AsyncReader_refs B fuel dst src L
  = with_engine any_submission [In_AsyncCopy]
      (AsyncCopy_AsyncWriter_AsyncReader B fuel dst src L).
Proof.
  unfold AsyncCopy_AsyncWriter_AsyncReader_refs,
    AsyncCopy_AsyncWriter_AsyncReader.
  cbv zeta.
  destruct (AsyncRead src _) as [[src' range'] sub].
  cbn [with_engine snapshot_at any_submission]. f_equal.
  destruct sub as [err | res | res]; cbn [after_submission].
  - destruct (Error_eqb err NoError); reflexivity.
  - apply AsyncCopy_Functors_refs_eq.
  - apply AsyncCopy_Functors_refs_eq.
Qed.

Lemma engine_start_AsyncCopy : engine_start [In_AsyncCopy].
Proof.
  exists In_AsyncCopy, []. split; [reflexivity |].
  split; [left; reflexivity | constructor].
Qed.

Lemma engine_start_initial :
  engine_start [In_Functor Functor_full; In_AsyncCopy].
Proof.
  exists (In_Functor Functor_full), [In_AsyncCopy]. split; [reflexivity |].
  split; [right; reflexivity | repeat constructor].
Qed.

(** C4: each of the three [AsyncCopy] shapes, with any reader and writer
    that keep to their interfaces, calls the finished handler at most once
    however far the chain is followed, and exactly once when it is followed
    far enough; the call is the last thing the copy does; and its argument
    is the error of the read or write that failed, an I/O error after a
    short write, and [NoError] when nothing failed.

    The events are those of the functors with their members, and when the
    handler is called through a functor, that functor has emptied itself:
    its writer, its reader, its copy state and its handler are null.  The
    engine code that is still running beneath it has not: when the latest
    accepted submission completed from the event loop, nothing beneath
    belongs to the engine; when it completed inline, the invocation that
    submitted it is beneath, with all its references; and when no
    submission was accepted, the handler is called by [AsyncCopy] itself
    (its first submission was rejected) or by the first functor of the
    shape with a synchronous reader, on top of [AsyncCopy]. *)
Theorem C4_AsyncCopy_finished_once (B L : Z) :
  0 < B < 2 ^ 63 -> 0 <= L < 2 ^ 63 ->
  (forall (W R : Type) (HW : Writer W) (HR : AsyncReader R) (dst : W) (src : R),
      AsyncReader_contract ->
      finishes_once (fun fuel => AsyncCopy_Writer_AsyncReader B fuel dst src L)
      /\ (forall fuel,
            map fst (AsyncCopy_Writer_AsyncReader_refs B fuel dst src L)
            = AsyncCopy_Writer_AsyncReader B fuel dst src L)
      /\ handler_finds read_submission [In_AsyncCopy]
           (fun fuel => AsyncCopy_Writer_AsyncReader_refs B fuel dst src L))
  /\ (forall (W R : Type) (HW : AsyncWriter W) (HR : Reader R) (dst : W) (src : R),
        Reader_contract -> AsyncWriter_contract ->
        finishes_once (fun fuel => AsyncCopy_AsyncWriter_Reader B fuel dst src L)
        /\ (forall fuel,
              map fst (AsyncCopy_AsyncWriter_Reader_refs B fuel dst src L)
              = AsyncCopy_AsyncWriter_Reader B fuel dst src L)
        /\ handler_finds write_submission
             [In_Functor Functor_full; In_AsyncCopy]
             (fun fuel => AsyncCopy_AsyncWriter_Reader_refs B fuel dst src L))
  /\ (forall (W R : Type) (HW : AsyncWriter W) (HR : AsyncReader R)
             (dst : W) (src : R),
        AsyncReader_contract -> AsyncWriter_contract ->
        finishes_once
          (fun fuel => AsyncCopy_AsyncWriter_AsyncReader B fuel dst src L)
        /\ (forall fuel,
              map fst (AsyncCopy_AsyncWriter_AsyncReader_refs B fuel dst src L)
              = AsyncCopy_AsyncWriter_AsyncReader B fuel dst src L)
        /\ handler_finds any_submission [In_AsyncCopy]
             (fun fuel =>
                AsyncCopy_AsyncWriter_AsyncReader_refs B fuel dst src L)).
Proof.
  intros HB HL. split; [| split].
  - intros W R HW HR dst src Hr.
    split; [apply (AsyncCopy_Writer_AsyncReader_run L B HB HL dst src Hr) |].
    split.
    + intros fuel. rewrite AsyncCopy_Writer_AsyncReader_refs_eq.
      apply with_engine_fst.
    + apply handler_finds_of
        with (run := fun fuel => AsyncCopy_Writer_AsyncReader B fuel dst src L);
        [exact engine_start_AsyncCopy |].
      intros fuel. apply AsyncCopy_Writer_AsyncReader_refs_eq.
  - intros W R HW HR dst src Hr Hw.
    split; [apply (AsyncCopy_AsyncWriter_Reader_run L B HB HL dst src Hr Hw) |].
    split.
    + intros fuel. rewrite AsyncCopy_AsyncWriter_Reader_refs_eq.
      apply with_engine_fst.
    + apply handler_finds_of
        with (run := fun fuel => AsyncCopy_AsyncWriter_Reader B fuel dst src L);
        [exact engine_start_initial |].
      intros fuel. apply AsyncCopy_AsyncWriter_Reader_refs_eq.
  - intros W R HW HR dst src Hr Hw.
    split;
      [apply (AsyncCopy_AsyncWriter_AsyncReader_run L B HB HL dst src Hr Hw) |].
    split.
    + intros fuel. rewrite AsyncCopy_AsyncWriter_AsyncReader_refs_eq.
      apply with_engine_fst.
    + apply handler_finds_of
        with (run := fun fuel =>
                       AsyncCopy_AsyncWriter_AsyncReader B fuel dst src L);
        [exact engine_start_AsyncCopy |].
      intros fuel. apply AsyncCopy_AsyncWriter_AsyncReader_refs_eq.
Qed.

(** C4 as stated fails on the code.  Three bytes, a buffer of four and a
    limit of five, from a reader that completes inline.
    - Into a writer that completes from the event loop: the read that
      finds the source empty completes inline, inside the writer functor
      that submitted it and that the event loop is running.  The reader
      functor empties itself and calls the handler; the writer functor
      beneath it still holds the writer, the reader and the copy state.
    - Into a synchronous writer: no completion comes from the event loop,
      and the handler is called inside the functor that submitted the last
      read and inside [AsyncCopy], which both hold all three. *)
Lemma C4_handler_called_inside_full_functor :
  let src := mk_ChunkReader [x01; x02; x03] 3 in
  AsyncCopy_AsyncWriter_AsyncReader_refs 4 10 ([] : Sink) src 5
  = [(EvRead 4 (Inline (Value 3)), [In_AsyncCopy]);
     (EvWrite [x01; x02; x03] (Deferred (Value 3)),
      [In_Functor Functor_full; In_AsyncCopy]);
     (EvRead 2 (Inline (Value 0)), [In_Functor Functor_full; In_event_loop]);
     (EvRelease,
      [In_Functor Functor_empty; In_Functor Functor_full; In_event_loop]);
     (EvFinished NoError,
      [In_Functor Functor_empty; In_Functor Functor_full; In_event_loop])]
  /\ AsyncCopy_Writer_AsyncReader_refs 4 10 ([] : Sink) src 5
     = [(EvRead 4 (Inline (Value 3)), [In_AsyncCopy]);
        (EvWrite [x01; x02; x03] (Inline (Value 3)),
         [In_Functor Functor_full; In_AsyncCopy]);
        (EvRead 2 (Inline (Value 0)), [In_Functor Functor_full; In_AsyncCopy]);
        (EvRelease,
         [In_Functor Functor_empty; In_Functor Functor_full; In_AsyncCopy]);
        (EvFinished NoError,
         [In_Functor Functor_empty; In_Functor Functor_full; In_AsyncCopy])]
  /\ Functor.writer Functor_full = owning
  /\ Functor.reader Functor_full = owning
  /\ Functor.data Functor_full = owning.
Proof.
  cbv zeta. repeat split.
Qed.

(** C5: each of the three [AsyncCopy] shapes with a limit [L], with any
    reader and writer that keep to their interfaces, sizes every read
    request to the smaller of the buffer and [L] less the bytes handed to
    the writer so far, and hands the writer at most [L] bytes; and from a
    source that does not fail and has at least [L] bytes to offer (so also
    one with [2 * L]), into a writer that takes everything, it hands over
    exactly [L] bytes and calls the finished handler once, with [NoError]. *)
Theorem C5_AsyncCopy_limit (B L : Z) :
  0 < B < 2 ^ 63 -> 0 <= L < 2 ^ 63 ->
  (forall (W R : Type) (HW : Writer W) (HR : AsyncReader R) (dst : W) (src : R),
      (AsyncReader_contract ->
       respects_limit B L (fun fuel => AsyncCopy_Writer_AsyncReader B fuel dst src L))
      /\ (forall avail : R -> Z,
            AsyncReader_offers avail -> Writer_accepts -> L <= avail src ->
            copies_exactly L
              (fun fuel => AsyncCopy_Writer_AsyncReader B fuel dst src L)))
  /\ (forall (W R : Type) (HW : AsyncWriter W) (HR : Reader R) (dst : W) (src : R),
        (Reader_contract -> AsyncWriter_contract ->
         respects_limit B L
           (fun fuel => AsyncCopy_AsyncWriter_Reader B fuel dst src L))
        /\ (forall avail : R -> Z,
              Reader_offers avail -> AsyncWriter_accepts -> L <= avail src ->
              copies_exactly L
                (fun fuel => AsyncCopy_AsyncWriter_Reader B fuel dst src L)))
  /\ (forall (W R : Type) (HW : AsyncWriter W) (HR : AsyncReader R)
             (dst : W) (src : R),
        (AsyncReader_contract -> AsyncWriter_contract ->
         respects_limit B L
           (fun fuel => AsyncCopy_AsyncWriter_AsyncReader B fuel dst src L))
        /\ (forall avail : R -> Z,
              AsyncReader_offers avail -> AsyncWriter_accepts -> L <= avail src ->
              copies_exactly L
                (fun fuel => AsyncCopy_AsyncWriter_AsyncReader B fuel dst src L))).
Proof.
  intros HB HL. split; [| split]; intros W R HW HR dst src; split.
  - intros Hr. apply (AsyncCopy_Writer_AsyncReader_run L B HB HL dst src Hr).
  - intros avail Hsrc Hsink Hav.
    apply copies_exactly_of with (fuel0 := Z.to_nat L).
    + apply (AsyncCopy_Writer_AsyncReader_run L B HB HL dst src).
      exact (AsyncReader_offers_contract avail Hsrc).
    + apply (AsyncCopy_Writer_AsyncReader_exact L B HB HL avail Hsrc Hsink dst src Hav).
  - intros Hr Hw. apply (AsyncCopy_AsyncWriter_Reader_run L B HB HL dst src Hr Hw).
  - intros avail Hsrc Hsink Hav.
    apply copies_exactly_of with (fuel0 := Z.to_nat L).
    + apply (AsyncCopy_AsyncWriter_Reader_run L B HB HL dst src).
      * exact (Reader_offers_contract avail Hsrc).
      * exact (AsyncWriter_accepts_contract Hsink).
    + apply (AsyncCopy_AsyncWriter_Reader_exact L B HB HL avail Hsrc Hsink dst src Hav).
  - intros Hr Hw.
    apply (AsyncCopy_AsyncWriter_AsyncReader_run L B HB HL dst src Hr Hw).
  - intros avail Hsrc Hsink Hav.
    apply copies_exactly_of with (fuel0 := (2 * Z.to_nat L)%nat).
    + apply (AsyncCopy_AsyncWriter_AsyncReader_run L B HB HL dst src).
      * exact (AsyncReader_offers_contract avail Hsrc).
      * exact (AsyncWriter_accepts_contract Hsink).
    + apply (AsyncCopy_AsyncWriter_AsyncReader_exact L B HB HL avail Hsrc Hsink
               dst src Hav).
Qed.

(** ** AsyncCopy on the sample readers and writers *)

Lemma ChunkReader_offers : @Reader_offers ChunkReader _ ChunkReader_avail.
Proof.
  intros r range. unfold Read, ChunkReader_Reader, ChunkReader_Read.
  eexists _, _, _. split; [reflexivity |].
  pose proof (len_nonneg range). pose proof (len_nonneg (cr_data r)).
  unfold ChunkReader_avail. cbn [cr_chunk cr_data].
  destruct (cr_chunk r) as [| k] eqn:Ek.
  - cbn [Z.of_nat].
    replace (Z.min (len range) (Z.min 0 (len (cr_data r)))) with 0 by lia.
    repeat split; try lia; apply len_copy_n_0; lia.
  - repeat split; try lia; [rewrite len_skipn; lia | apply len_copy_n_0; lia].
Qed.

Lemma ChunkReader_async_offers :
  @AsyncReader_offers ChunkReader _ ChunkReader_avail.
Proof.
  intros r range.
  destruct (ChunkReader_offers r range) as (r' & range' & s & Hread & Hrest).
  unfold Read, ChunkReader_Reader in Hread.
  exists r', range', (Inline (Value s)), s.
  unfold AsyncRead, ChunkReader_AsyncReader. rewrite Hread.
  split; [reflexivity |]. split; [reflexivity | exact Hrest].
Qed.

Lemma Sink_accepts : @Writer_accepts Sink _.
Proof. intros w bytes. eexists. reflexivity. Qed.

Lemma Sink_async_accepts : @AsyncWriter_accepts Sink _.
Proof. intros w bytes. eexists _, _. split; reflexivity. Qed.

Lemma ScriptWriter_async_contract : @AsyncWriter_contract ScriptWriter _.
Proof.
  intros w w' bytes sub Hwrite e ->.
  unfold AsyncWrite, ScriptWriter_AsyncWriter in Hwrite.
  destruct (ScriptWriter_Write w bytes). discriminate Hwrite.
Qed.

(** C4 on ten bytes served three at a time, a buffer of four and a limit of
    five: into a writer that takes one byte less the second time, and into
    sinks that take everything.  The writer completes from the event loop,
    and the functor that reports the short write is the only engine code
    running then. *)
Lemma C4_AsyncCopy_finished_once_witness :
  let src := mk_ChunkReader [x01; x02; x03; x04; x05; x06; x07; x08; x09; x0a] 3 in
  AsyncCopy_AsyncWriter_Reader 4 10 (mk_ScriptWriter [Value 3; Value 1] []) src 5
  = [EvRead 4 (Inline (Value 3));
     EvWrite [x01; x02; x03] (Deferred (Value 3));
     EvRead 2 (Inline (Value 2));
     EvWrite [x04; x05] (Deferred (Value 1));
     EvRelease; EvFinished short_write_error]
  /\ finishes_once
       (fun fuel => AsyncCopy_AsyncWriter_Reader 4 fuel
                      (mk_ScriptWriter [Value 3; Value 1] []) src 5)
  /\ finishes_once
       (fun fuel => AsyncCopy_Writer_AsyncReader 4 fuel ([] : Sink) src 5)
  /\ finishes_once
       (fun fuel => AsyncCopy_AsyncWriter_AsyncReader 4 fuel ([] : Sink) src 5)
  /\ AsyncCopy_AsyncWriter_Reader_refs 4 10
       (mk_ScriptWriter [Value 3; Value 1] []) src 5
     = [(EvRead 4 (Inline (Value 3)), [In_Functor Functor_full; In_AsyncCopy]);
        (EvWrite [x01; x02; x03] (Deferred (Value 3)),
         [In_Functor Functor_full; In_AsyncCopy]);
        (EvRead 2 (Inline (Value 2)), [In_Functor Functor_full; In_event_loop]);
        (EvWrite [x04; x05] (Deferred (Value 1)),
         [In_Functor Functor_full; In_event_loop]);
        (EvRelease, [In_Functor Functor_empty; In_event_loop]);
        (EvFinished short_write_error,
         [In_Functor Functor_empty; In_event_loop])]
  /\ handler_finds write_submission [In_Functor Functor_full; In_AsyncCopy]
       (fun fuel => AsyncCopy_AsyncWriter_Reader_refs 4 fuel
                      (mk_ScriptWriter [Value 3; Value 1] []) src 5)
  /\ handler_finds read_submission [In_AsyncCopy]
       (fun fuel => AsyncCopy_Writer_AsyncReader_refs 4 fuel ([] : Sink) src 5)
  /\ handler_finds any_submission [In_AsyncCopy]
       (fun fuel =>
          AsyncCopy_AsyncWriter_AsyncReader_refs 4 fuel ([] : Sink) src 5).
Proof.
  intros src. split; [reflexivity |].
  assert (HB : 0 < 4 < 2 ^ 63) by lia.
  assert (HL : 0 <= 5 < 2 ^ 63) by lia.
  destruct (C4_AsyncCopy_finished_once 4 5 HB HL) as (H1 & H2 & H3).
  destruct (H2 ScriptWriter ChunkReader _ _
              (mk_ScriptWriter [Value 3; Value 1] []) src
              ChunkReader_contract ScriptWriter_async_contract)
    as (Hs2 & _ & Hf2).
  destruct (H1 Sink ChunkReader _ _ [] src
              (AsyncReader_offers_contract _ ChunkReader_async_offers))
    as (Hs1 & _ & Hf1).
  destruct (H3 Sink ChunkReader _ _ [] src
              (AsyncReader_offers_contract _ ChunkReader_async_offers)
              (AsyncWriter_accepts_contract Sink_async_accepts))
    as (Hs3 & _ & Hf3).
  split; [exact Hs2 |]. split; [exact Hs1 |]. split; [exact Hs3 |].
  split; [reflexivity |]. split; [exact Hf2 |]. split; [exact Hf1 | exact Hf3].
Defined.

(** C5 on the same source, buffer and limit, into sinks that take
    everything: read requests of 4 and then 2 bytes, 5 bytes handed over. *)
Lemma C5_AsyncCopy_limit_witness :
  let src := mk_ChunkReader [x01; x02; x03; x04; x05; x06; x07; x08; x09; x0a] 3 in
  AsyncCopy_AsyncWriter_AsyncReader 4 20 ([] : Sink) src 5
  = [EvRead 4 (Inline (Value 3));
     EvWrite [x01; x02; x03] (Deferred (Value 3));
     EvRead 2 (Inline (Value 2));
     EvWrite [x04; x05] (Deferred (Value 2));
     EvRelease; EvFinished NoError]
  /\ respects_limit 4 5
       (fun fuel => AsyncCopy_AsyncWriter_AsyncReader 4 fuel ([] : Sink) src 5)
  /\ copies_exactly 5
       (fun fuel => AsyncCopy_AsyncWriter_AsyncReader 4 fuel ([] : Sink) src 5)
  /\ copies_exactly 5
       (fun fuel => AsyncCopy_Writer_AsyncReader 4 fuel ([] : Sink) src 5)
  /\ copies_exactly 5
       (fun fuel => AsyncCopy_AsyncWriter_Reader 4 fuel ([] : Sink) src 5).
Proof.
  intros src. split; [reflexivity |].
  assert (HB : 0 < 4 < 2 ^ 63) by lia.
  assert (HL : 0 <= 5 < 2 ^ 63) by lia.
  assert (Hav : 5 <= ChunkReader_avail src) by (cbn; unfold len; simpl; lia).
  destruct (C5_AsyncCopy_limit 4 5 HB HL) as (H1 & H2 & H3).
  split; [| split; [| split]].
  - apply (proj1 (H3 Sink ChunkReader _ _ [] src));
      [exact (AsyncReader_offers_contract _ ChunkReader_async_offers)
      | exact (AsyncWriter_accepts_contract Sink_async_accepts)].
  - exact (proj2 (H3 Sink ChunkReader _ _ [] src) ChunkReader_avail
             ChunkReader_async_offers Sink_async_accepts Hav).
  - exact (proj2 (H1 Sink ChunkReader _ _ [] src) ChunkReader_avail
             ChunkReader_async_offers Sink_accepts Hav).
  - exact (proj2 (H2 Sink ChunkReader _ _ [] src) ChunkReader_avail
             ChunkReader_offers Sink_async_accepts Hav).
Defined.

(* ================================================================= *)
(** * Further properties of the code *)

(** ** ByteReader: the bytes it delivers *)

Lemma firstn_add_skipn {A} (l : list A) (a b : nat) :
  firstn (a + b) l = firstn a l ++ firstn b (skipn a l).
Proof.
  revert l. induction a as [| a IH]; intros l; [reflexivity |].
  destruct l as [| x l]; simpl.
  - rewrite firstn_nil. reflexivity.
  - rewrite IH. reflexivity.
Qed.

Lemma ranges_len_nonneg (ranges : list (list byte)) : 0 <= ranges_len ranges.
Proof.
  induction ranges as [| g rest IH]; simpl; [lia |].
  pose proof (len_nonneg g). lia.
Qed.

Lemma ByteReader_Read_bytes_eq (emitter : list byte) (ranges : list (list byte)) :
  forall r : ByteReader,
    ByteReader_wf emitter r ->
    Forall (fun g => g <> [] /\ len g < two64) ranges ->
    ByteReader_Read_bytes emitter r ranges
    = Some (mk_ByteReader
              (bytes_read_ r
               + Z.min (ranges_len ranges) (len emitter - bytes_read_ r)),
            firstn (Z.to_nat (Z.min (ranges_len ranges)
                                (len emitter - bytes_read_ r)))
              (skipn (Z.to_nat (bytes_read_ r)) emitter)).
Proof.
  induction ranges as [| g rest IH]; intros r Hwf Hall.
  - destruct Hwf as [Hc Hs]. destruct r as [p]. simpl in *.
    replace (Z.min 0 (len emitter - p)) with 0 by lia.
    rewrite Z.add_0_r. reflexivity.
  - apply Forall_cons_iff in Hall as [[Hne Hlt] Hrest].
    pose proof (len_pos_of_nonempty g Hne) as Hg.
    pose proof (ranges_len_nonneg rest) as Hr0.
    cbn [ByteReader_Read_bytes ranges_len fold_right].
    fold (ranges_len rest).
    rewrite (ByteReader_Read_eq _ _ _ Hwf Hne Hlt).
    destruct Hwf as [Hc Hs].
    set (p := bytes_read_ r) in *.
    set (k := Z.min (len g) (len emitter - p)).
    assert (Hk : 0 <= k <= len emitter - p) by (unfold k; lia).
    rewrite IH; [| split; simpl; lia | assumption].
    cbn [bytes_read_].
    set (m := Z.min (ranges_len rest) (len emitter - (p + k))).
    assert (Hm : 0 <= m) by (unfold m; lia).
    assert (Hkm : Z.min (len g + ranges_len rest) (len emitter - p) = k + m)
      by (unfold k, m; lia).
    rewrite Hkm. f_equal. f_equal; [f_equal; lia |].
    rewrite firstn_copy_n_0
      by (unfold len in *; rewrite length_skipn; lia).
    replace (Z.to_nat (k + m)) with (Z.to_nat k + Z.to_nat m)%nat by lia.
    rewrite firstn_add_skipn, skipn_skipn.
    replace (Z.to_nat k + Z.to_nat p)%nat with (Z.to_nat (p + k)) by lia.
    reflexivity.
Qed.

(** X1: through any non-empty ranges a [ByteReader] delivers the bytes of
    its container from the cursor on, in order and without gaps, as many as
    the ranges hold or the container has left, and its cursor ends right
    after them; after [Rewind] it delivers the container from its first
    byte again, whatever was read before. *)
Theorem X1_ByteReader_delivers_container (emitter : list byte) (r : ByteReader)
    (ranges : list (list byte)) :
  ByteReader_wf emitter r ->
  Forall (fun g => g <> [] /\ len g < two64) ranges ->
  ByteReader_Read_bytes emitter r ranges
  = Some (mk_ByteReader
            (bytes_read_ r + Z.min (ranges_len ranges) (len emitter - bytes_read_ r)),
          firstn (Z.to_nat (Z.min (ranges_len ranges) (len emitter - bytes_read_ r)))
            (skipn (Z.to_nat (bytes_read_ r)) emitter))
  /\ ByteReader_Read_bytes emitter (ByteReader_Rewind r) ranges
     = Some (mk_ByteReader (Z.min (ranges_len ranges) (len emitter)),
             firstn (Z.to_nat (Z.min (ranges_len ranges) (len emitter))) emitter)
  /\ (len emitter <= ranges_len ranges ->
      ByteReader_Read_bytes emitter (ByteReader_Rewind r) ranges
      = Some (mk_ByteReader (len emitter), emitter)).
Proof.
  intros Hwf Hall.
  assert (Hwf0 : ByteReader_wf emitter (ByteReader_Rewind r)).
  { destruct Hwf as [Hc Hs]. split; simpl; [lia | exact Hs]. }
  split; [apply ByteReader_Read_bytes_eq; assumption |].
  pose proof (ByteReader_Read_bytes_eq emitter ranges _ Hwf0 Hall) as H0.
  cbn [ByteReader_Rewind bytes_read_] in H0.
  rewrite Z.sub_0_r, Z.add_0_l in H0. cbn [Z.to_nat skipn] in H0.
  split; [exact H0 |].
  intros Hlen. rewrite H0.
  replace (Z.min (ranges_len ranges) (len emitter)) with (len emitter) by lia.
  unfold len. rewrite Nat2Z.id, firstn_all. reflexivity.
Qed.

(** X1 on a five-byte container read through ranges of two bytes. *)
Lemma X1_ByteReader_delivers_container_witness :
  ByteReader_Read_bytes [x01; x02; x03; x04; x05] (mk_ByteReader 1)
    [[x00; x00]; [x00; x00]; [x00; x00]]
  = Some (mk_ByteReader 5, [x02; x03; x04; x05])
  /\ ByteReader_Read_bytes [x01; x02; x03; x04; x05]
       (ByteReader_Rewind (mk_ByteReader 1)) [[x00; x00]; [x00; x00]; [x00; x00]]
     = Some (mk_ByteReader 5, [x01; x02; x03; x04; x05]).
Proof.
  assert (Hwf : ByteReader_wf [x01; x02; x03; x04; x05] (mk_ByteReader 1))
    by (unfold ByteReader_wf, two64, len; simpl; lia).
  assert (Hall : Forall (fun g : list byte => g <> [] /\ len g < two64)
                   [[x00; x00]; [x00; x00]; [x00; x00]])
    by (repeat constructor; try discriminate; unfold len, two64; simpl; lia).
  destruct (X1_ByteReader_delivers_container _ _ _ Hwf Hall) as (H1 & _ & H3).
  split; [exact H1 |].
  apply H3. unfold len. simpl. lia.
Defined.

(** ** ByteWriter: what a write stores *)

Lemma len_firstn_min {A} (l : list A) (k : Z) :
  0 <= k -> len (firstn (Z.to_nat k) l) = Z.min k (len l).
Proof. intros Hk. unfold len. rewrite length_firstn. lia. Qed.

Lemma len_skipn_max {A} (l : list A) (k : Z) :
  0 <= k -> len (skipn (Z.to_nat k) l) = Z.max 0 (len l - k).
Proof. intros Hk. unfold len. rewrite length_skipn. lia. Qed.

(** Writing [k] cells at offset [off] into a container grown by [resize]
    to end right after them is the same as writing them over the end. *)
Lemma copy_n_resize (range recv : list byte) (off n : Z) :
  0 <= off <= len recv -> 0 <= n <= len range -> len recv < off + n ->
  copy_n range n (resize (off + n) recv) off
  = firstn (Z.to_nat off) recv ++ firstn (Z.to_nat n) range
      ++ skipn (Z.to_nat (off + n)) recv.
Proof.
  intros Hoff Hn Hgrow. unfold copy_n, resize, len in *.
  rewrite (firstn_all2 (n := Z.to_nat (off + n)) recv) by lia.
  rewrite firstn_app.
  replace (Z.to_nat off - length recv)%nat with 0%nat by lia.
  rewrite firstn_0, app_nil_r.
  rewrite (skipn_all2 (n := Z.to_nat (off + n)) recv) by lia.
  rewrite skipn_all2 by (rewrite length_app, repeat_length; lia).
  reflexivity.
Qed.

Lemma ByteWriter_Write_eq (w : ByteWriter) (range : list byte) :
  ByteWriter_wf w -> range <> [] -> len range < two64 ->
  (unlimited_ w = true -> bytes_written_ w + len range < two64) ->
  (unlimited_ w = false -> remaining_capacity w <> 0) ->
  ByteWriter_Write w range
  = let k := if unlimited_ w then len range
             else Z.min (len range) (remaining_capacity w) in
    Some (mk_ByteWriter
            (firstn (Z.to_nat (bytes_written_ w)) (receiver_ w)
               ++ firstn (Z.to_nat k) range
               ++ skipn (Z.to_nat (bytes_written_ w + k)) (receiver_ w))
            (bytes_written_ w + k) (unlimited_ w),
          Value k).
Proof.
  intros [Hc Hs] Hne Hlt Hun Hbd.
  pose proof (len_pos_of_nonempty range Hne) as Hpos.
  unfold ByteWriter_Write, remaining_capacity in *.
  destruct (0 <? len range) eqn:E; [| apply Z.ltb_ge in E; lia].
  rewrite (to_size_t_small (len (receiver_ w) - bytes_written_ w)) by lia.
  rewrite (to_size_t_small (len range)) by lia.
  destruct (unlimited_ w) eqn:Eu.
  - specialize (Hun eq_refl). rewrite andb_false_r.
    rewrite (to_size_t_small (bytes_written_ w + len range)) by lia.
    destruct (len (receiver_ w) - bytes_written_ w <? len range) eqn:Eg.
    + apply Z.ltb_lt in Eg. cbv zeta.
      rewrite copy_n_resize by lia.
      rewrite (to_size_t_small (bytes_written_ w + len range)) by lia.
      reflexivity.
    + cbv zeta.
      rewrite (to_size_t_small (bytes_written_ w + len range)) by lia.
      reflexivity.
  - specialize (Hbd eq_refl). cbn [negb]. rewrite andb_true_r.
    destruct (len (receiver_ w) - bytes_written_ w =? 0) eqn:E0;
      [apply Z.eqb_eq in E0; lia |].
    cbv zeta. rewrite to_size_t_small by lia. reflexivity.
Qed.

(** X2: a [Write] that is not refused stores the bytes it reports at the
    cursor and nowhere else: the container keeps what was before the
    cursor and what lies after the bytes written.  Bounded, it takes what
    fits and the container keeps its length; unlimited, it takes the whole
    range and the container grows exactly to the end of the bytes written
    when it was shorter, and never shrinks.  The cursor stays inside the
    container. *)
Theorem X2_ByteWriter_Write_stores (w : ByteWriter) (range : list byte) :
  ByteWriter_wf w -> range <> [] -> len range < two64 ->
  (unlimited_ w = true -> bytes_written_ w + len range < two64) ->
  (unlimited_ w = false -> remaining_capacity w <> 0) ->
  exists w' k,
    ByteWriter_Write w range = Some (w', Value k)
    /\ k = (if unlimited_ w then len range
            else Z.min (len range) (remaining_capacity w))
    /\ receiver_ w'
       = firstn (Z.to_nat (bytes_written_ w)) (receiver_ w)
           ++ firstn (Z.to_nat k) range
           ++ skipn (Z.to_nat (bytes_written_ w + k)) (receiver_ w)
    /\ bytes_written_ w' = bytes_written_ w + k
    /\ unlimited_ w' = unlimited_ w
    /\ ByteWriter_wf w'
    /\ len (receiver_ w') = Z.max (len (receiver_ w)) (bytes_written_ w + k)
    /\ (unlimited_ w = false -> len (receiver_ w') = len (receiver_ w)).
Proof.
  intros Hwf Hne Hlt Hun Hbd.
  rewrite (ByteWriter_Write_eq w range Hwf Hne Hlt Hun Hbd). cbv zeta.
  destruct Hwf as [Hc Hs].
  pose proof (len_pos_of_nonempty range Hne) as Hpos.
  set (k := if unlimited_ w then len range
            else Z.min (len range) (remaining_capacity w)).
  assert (Hk : 0 < k <= len range).
  { unfold k, remaining_capacity in *. destruct (unlimited_ w); [lia |].
    specialize (Hbd eq_refl). lia. }
  assert (Hkb : unlimited_ w = false -> bytes_written_ w + k <= len (receiver_ w)).
  { intros Hu. unfold k, remaining_capacity. rewrite Hu. lia. }
  assert (Hku : bytes_written_ w + k < two64).
  { destruct (unlimited_ w) eqn:Eu; [specialize (Hun eq_refl); lia |].
    specialize (Hkb eq_refl). lia. }
  assert (Hlen : len (firstn (Z.to_nat (bytes_written_ w)) (receiver_ w)
                      ++ firstn (Z.to_nat k) range
                      ++ skipn (Z.to_nat (bytes_written_ w + k)) (receiver_ w))
                 = Z.max (len (receiver_ w)) (bytes_written_ w + k)).
  { rewrite !len_app, !len_firstn_min, len_skipn_max by lia. lia. }
  eexists _, k. split; [reflexivity |]. split; [reflexivity |].
  cbn [receiver_ bytes_written_ unlimited_].
  split; [reflexivity |]. split; [reflexivity |]. split; [reflexivity |].
  split; [| split].
  - unfold ByteWriter_wf. cbn [receiver_ bytes_written_]. rewrite Hlen. lia.
  - exact Hlen.
  - intros Hu. rewrite Hlen. specialize (Hkb Hu). lia.
Qed.

(** X2 on a two-byte container: bounded, three bytes offered and two taken;
    unlimited, three bytes taken and the container grown to three. *)
Lemma X2_ByteWriter_Write_stores_witness :
  (exists w',
      ByteWriter_Write (ByteWriter_new [x00; x00]) [x0a; x0b; x0c] = Some (w', Value 2)
      /\ receiver_ w' = [x0a; x0b])
  /\ (exists w',
        ByteWriter_Write (ByteWriter_SetUnlimited (ByteWriter_new [x00; x00]) true)
          [x0a; x0b; x0c] = Some (w', Value 3)
        /\ receiver_ w' = [x0a; x0b; x0c]).
Proof.
  assert (Hne : [x0a; x0b; x0c] <> @nil byte) by discriminate.
  assert (Hlt : len [x0a; x0b; x0c] < two64) by (unfold len, two64; simpl; lia).
  split.
  - assert (Hwf : ByteWriter_wf (ByteWriter_new [x00; x00]))
      by (unfold ByteWriter_wf, two64, len; simpl; lia).
    destruct (X2_ByteWriter_Write_stores _ _ Hwf Hne Hlt) as (w' & k & Hw & Hk & Hr & _).
    + discriminate.
    + intros _. discriminate.
    + exists w'. subst k. split; [exact Hw | exact Hr].
  - assert (Hwf : ByteWriter_wf (ByteWriter_SetUnlimited (ByteWriter_new [x00; x00]) true))
      by (unfold ByteWriter_wf, two64, len; simpl; lia).
    destruct (X2_ByteWriter_Write_stores _ _ Hwf Hne Hlt) as (w' & k & Hw & Hk & Hr & _).
    + intros _. unfold len, two64. simpl. lia.
    + discriminate.
    + exists w'. subst k. split; [exact Hw | exact Hr].
Defined.

(** ** Writing into a container and reading it back *)

(** A [Write] of a range that fits: all of it is taken. *)
Lemma ByteWriter_Write_full (w : ByteWriter) (c : list byte) :
  ByteWriter_wf w -> c <> [] -> len c < two64 ->
  bytes_written_ w + len c < two64 ->
  (unlimited_ w = false -> bytes_written_ w + len c <= len (receiver_ w)) ->
  let w' := mk_ByteWriter
              (firstn (Z.to_nat (bytes_written_ w)) (receiver_ w)
                 ++ c ++ skipn (Z.to_nat (bytes_written_ w + len c)) (receiver_ w))
              (bytes_written_ w + len c) (unlimited_ w) in
  ByteWriter_Write w c = Some (w', Value (len c))
  /\ ByteWriter_wf w'
  /\ (unlimited_ w = false -> len (receiver_ w') = len (receiver_ w)).
Proof.
  intros Hwf Hne Hlt Htot Hcap. cbv zeta.
  pose proof (len_pos_of_nonempty c Hne) as Hpos.
  pose proof Hwf as [Hc Hs].
  assert (Hbd : unlimited_ w = false -> remaining_capacity w <> 0)
    by (intros Hu; specialize (Hcap Hu); unfold remaining_capacity; lia).
  rewrite (ByteWriter_Write_eq w c Hwf Hne Hlt (fun _ => Htot) Hbd). cbv zeta.
  assert (Hk : (if unlimited_ w then len c
                else Z.min (len c) (remaining_capacity w)) = len c).
  { destruct (unlimited_ w) eqn:Eu; [reflexivity |].
    specialize (Hcap eq_refl). unfold remaining_capacity. lia. }
  rewrite Hk.
  assert (Hfull : firstn (Z.to_nat (len c)) c = c)
    by (unfold len; rewrite Nat2Z.id; apply firstn_all).
  rewrite Hfull.
  assert (Hlen : len (firstn (Z.to_nat (bytes_written_ w)) (receiver_ w)
                      ++ c ++ skipn (Z.to_nat (bytes_written_ w + len c)) (receiver_ w))
                 = Z.max (len (receiver_ w)) (bytes_written_ w + len c)).
  { rewrite !len_app, len_firstn_min, len_skipn_max by lia. lia. }
  split; [reflexivity |]. split.
  - unfold ByteWriter_wf. cbn [receiver_ bytes_written_]. rewrite Hlen. lia.
  - intros Hu. cbn [receiver_]. rewrite Hlen. specialize (Hcap Hu). lia.
Qed.

Lemma ByteWriter_Write_all_eq (chunks : list (list byte)) :
  forall w : ByteWriter,
    ByteWriter_wf w ->
    Forall (fun c => c <> [] /\ len c < two64) chunks ->
    bytes_written_ w + len (concat chunks) < two64 ->
    (unlimited_ w = false ->
     bytes_written_ w + len (concat chunks) <= len (receiver_ w)) ->
    ByteWriter_Write_all w chunks
    = Some (mk_ByteWriter
              (firstn (Z.to_nat (bytes_written_ w)) (receiver_ w)
                 ++ concat chunks
                 ++ skipn (Z.to_nat (bytes_written_ w + len (concat chunks)))
                      (receiver_ w))
              (bytes_written_ w + len (concat chunks)) (unlimited_ w)).
Proof.
  induction chunks as [| c rest IH]; intros w Hwf Hall Htot Hcap.
  - destruct w as [recv bw un]. destruct Hwf as [Hc Hs].
    cbn [ByteWriter_Write_all concat receiver_ bytes_written_ unlimited_ app] in *.
    change (len (@nil byte)) with 0. rewrite Z.add_0_r, firstn_skipn. reflexivity.
  - apply Forall_cons_iff in Hall as [[Hne Hlt] Hrest].
    pose proof (len_pos_of_nonempty c Hne) as Hpos.
    pose proof (len_nonneg (concat rest)) as Hrest0.
    cbn [concat] in *. rewrite len_app in *.
    pose proof Hwf as [Hc Hs].
    destruct (ByteWriter_Write_full w c Hwf Hne Hlt) as (Hw & Hwf' & Hsame);
      [lia | intros Hu; specialize (Hcap Hu); lia |].
    cbn [ByteWriter_Write_all]. rewrite Hw, Z.eqb_refl.
    rewrite IH; [| exact Hwf' | exact Hrest
                 | cbn [bytes_written_]; lia |].
    2:{ cbn [bytes_written_ unlimited_ receiver_] in *. intros Hu.
        rewrite (Hsame Hu). specialize (Hcap Hu). lia. }
    cbn [bytes_written_ unlimited_ receiver_].
    f_equal. f_equal; [| lia].
    unfold len in *.
    set (A := firstn (Z.to_nat (bytes_written_ w)) (receiver_ w)).
    assert (HA : length A = Z.to_nat (bytes_written_ w))
      by (unfold A; rewrite length_firstn; lia).
    replace (A ++ c ++ skipn (Z.to_nat (bytes_written_ w + Z.of_nat (length c)))
                        (receiver_ w))
      with ((A ++ c) ++ skipn (Z.to_nat (bytes_written_ w + Z.of_nat (length c)))
                          (receiver_ w))
      by (rewrite <- app_assoc; reflexivity).
    rewrite firstn_app, skipn_app, length_app.
    rewrite (firstn_all2 (A ++ c)) by (rewrite length_app; lia).
    rewrite (skipn_all2 (A ++ c)) by (rewrite length_app; lia).
    replace (Z.to_nat (bytes_written_ w + Z.of_nat (length c))
             - (length A + length c))%nat with 0%nat by lia.
    rewrite firstn_0, app_nil_r. cbn [app].
    rewrite skipn_skipn, <- !app_assoc.
    do 4 f_equal. lia.
Qed.

(** X3: what a [ByteWriter] wrote into a container, a [ByteReader] on that
    container reads back.  Chunks written one after the other from the
    start land at the front of the container in order, followed by what
    the container held beyond them; reading as many bytes as were written
    returns the chunks' concatenation, however the reads are cut; and when
    the container held no more than was written, reading to the end
    returns exactly the chunks. *)
Theorem X3_ByteWriter_ByteReader_round_trip
    (receiver : list byte) (enabled : bool) (chunks ranges : list (list byte)) :
  len receiver < two64 ->
  len (concat chunks) < two64 ->
  Forall (fun c => c <> [] /\ len c < two64) chunks ->
  Forall (fun g => g <> [] /\ len g < two64) ranges ->
  (enabled = false -> len (concat chunks) <= len receiver) ->
  exists w',
    ByteWriter_Write_all (ByteWriter_SetUnlimited (ByteWriter_new receiver) enabled)
      chunks = Some w'
    /\ receiver_ w'
       = concat chunks ++ skipn (Z.to_nat (len (concat chunks))) receiver
    /\ bytes_written_ w' = len (concat chunks)
    /\ (ranges_len ranges = len (concat chunks) ->
        ByteReader_Read_bytes (receiver_ w') ByteReader_new ranges
        = Some (mk_ByteReader (len (concat chunks)), concat chunks))
    /\ (len receiver <= len (concat chunks) ->
        len (concat chunks) <= ranges_len ranges ->
        ByteReader_Read_bytes (receiver_ w') ByteReader_new ranges
        = Some (mk_ByteReader (len (concat chunks)), concat chunks)).
Proof.
  intros Hrecv Htot Hchunks Hranges Hcap.
  pose proof (len_nonneg receiver) as Hr0.
  pose proof (len_nonneg (concat chunks)) as Hc0.
  assert (Hwf : ByteWriter_wf
                  (ByteWriter_SetUnlimited (ByteWriter_new receiver) enabled))
    by (unfold ByteWriter_wf; cbn [ByteWriter_SetUnlimited ByteWriter_new
                                    receiver_ bytes_written_]; lia).
  pose proof (ByteWriter_Write_all_eq chunks _ Hwf Hchunks) as Hall.
  cbn [ByteWriter_SetUnlimited ByteWriter_new receiver_ bytes_written_ unlimited_]
    in Hall.
  rewrite Z.add_0_l in Hall. cbn [Z.to_nat firstn app] in Hall.
  specialize (Hall Htot Hcap).
  set (out := concat chunks ++ skipn (Z.to_nat (len (concat chunks))) receiver) in *.
  assert (Hout : len out = Z.max (len receiver) (len (concat chunks))).
  { unfold out. rewrite len_app, len_skipn_max by lia. lia. }
  assert (Hrwf : ByteReader_wf out ByteReader_new)
    by (unfold ByteReader_wf, ByteReader_new; cbn [bytes_read_]; lia).
  pose proof (ByteReader_Read_bytes_eq out ranges ByteReader_new Hrwf Hranges) as Hrd.
  change (bytes_read_ ByteReader_new) with 0 in Hrd.
  rewrite Z.add_0_l, Z.sub_0_r in Hrd. cbn [Z.to_nat skipn] in Hrd.
  assert (Hfront : firstn (Z.to_nat (len (concat chunks))) out = concat chunks).
  { unfold out, len. rewrite Nat2Z.id, firstn_app, Nat.sub_diag, firstn_0,
      app_nil_r, firstn_all. reflexivity. }
  eexists. split; [exact Hall |]. cbn [receiver_ bytes_written_].
  split; [reflexivity |]. split; [reflexivity |]. split.
  - intros Heq. rewrite Hrd.
    replace (Z.min (ranges_len ranges) (len out)) with (len (concat chunks)) by lia.
    rewrite Hfront. reflexivity.
  - intros Hsmall Hlong. rewrite Hrd.
    replace (Z.min (ranges_len ranges) (len out)) with (len (concat chunks)) by lia.
    rewrite Hfront. reflexivity.
Qed.

(** X3 on an empty container in unlimited mode: two chunks written, read
    back through ranges of two bytes. *)
Lemma X3_ByteWriter_ByteReader_round_trip_witness :
  exists w',
    ByteWriter_Write_all (ByteWriter_SetUnlimited (ByteWriter_new []) true)
      [[x01; x02; x03]; [x04]] = Some w'
    /\ receiver_ w' = [x01; x02; x03; x04]
    /\ ByteReader_Read_bytes (receiver_ w') ByteReader_new
         [[x00; x00]; [x00; x00]; [x00; x00]]
       = Some (mk_ByteReader 4, [x01; x02; x03; x04]).
Proof.
  destruct (X3_ByteWriter_ByteReader_round_trip [] true
              [[x01; x02; x03]; [x04]] [[x00; x00]; [x00; x00]; [x00; x00]])
    as (w' & Hw & Hr & _ & _ & Hread).
  - unfold len, two64. simpl. lia.
  - unfold len, two64. simpl. lia.
  - repeat constructor; try discriminate; unfold len, two64; simpl; lia.
  - repeat constructor; try discriminate; unfold len, two64; simpl; lia.
  - discriminate.
  - exists w'. split; [exact Hw |]. split; [exact Hr |].
    apply Hread; unfold len, ranges_len; simpl; lia.
Defined.

(** ** The rewindable reader: reads served from the buffer *)

Lemma calls_len_nonneg (cs : list BufferedReader_call) : 0 <= calls_len cs.
Proof.
  induction cs as [| [g | | |] rest IH]; simpl; try lia.
  pose proof (len_nonneg g). lia.
Qed.

Section ReplayInvariant.

Context {R : Type} `{Reader R}.

(** A [Read] while a replay is pending, in a consistent state. *)
Lemma BufferedReader_Read_replay (b : BufferedReader R) (range : list byte) :
  replay_inv b -> replay_pending b = true -> range <> [] -> len range < two64 ->
  let n := Z.min (len range) (buffer_remaining_ b) in
  let p := bytes_read_ (buffer_reader_ b) in
  let out := buffer_remaining_ b - n =? 0 in
  BufferedReader_Read b range
  = Some (mk_BufferedReader (wrapped_reader_ b)
            (if out && stop_done_ b then [] else buffer_ b)
            (mk_ByteReader (p + n)) (buffer_remaining_ b - n)
            (rewind_done_ b) (if out then true else rewind_consumed_ b)
            (stop_done_ b),
          copy_n (skipn (Z.to_nat p) (buffer_ b)) n range 0,
          Value n)
  /\ 0 < n.
Proof.
  intros [Hlen Hinv] Hp Hne Hlt. specialize (Hinv Hp) as (Hp0 & Hrem & Hpos).
  pose proof (len_pos_of_nonempty range Hne) as Hg. cbv zeta.
  assert (Hwf : ByteReader_wf (buffer_ b) (buffer_reader_ b))
    by (split; [lia | exact Hlen]).
  unfold BufferedReader_Read. unfold replay_pending in Hp. rewrite Hp.
  rewrite (ByteReader_Read_eq _ _ _ Hwf Hne Hlt), <- Hrem.
  set (n := Z.min (len range) (buffer_remaining_ b)).
  assert (Hn : 0 < n <= buffer_remaining_ b) by (unfold n; lia).
  destruct (0 <? n) eqn:E1; [| apply Z.ltb_ge in E1; lia].
  destruct (n <=? buffer_remaining_ b) eqn:E2; [| apply Z.leb_gt in E2; lia].
  cbn [negb]. rewrite (to_size_t_small (buffer_remaining_ b - n)) by lia.
  split; [reflexivity | lia].
Qed.

Lemma replay_inv_do (b b' : BufferedReader R) (c : BufferedReader_call) :
  replay_inv b -> len (buffer_ b) + calls_len [c] < two64 ->
  BufferedReader_do b c = Some b' ->
  replay_inv b' /\ len (buffer_ b') <= len (buffer_ b) + calls_len [c].
Proof.
  intros Hinv Hb Hdo.
  pose proof Hinv as [Hlen Hrep].
  pose proof (len_nonneg (buffer_ b)) as Hb0.
  destruct c as [range | | |]; cbn [BufferedReader_do calls_len] in *.
  - pose proof (len_nonneg range) as Hr0. rewrite Z.add_0_r in *.
    destruct (replay_pending b) eqn:Hp.
    + destruct range as [| x range'] eqn:Erange.
      { unfold BufferedReader_Read in Hdo. unfold replay_pending in Hp.
        rewrite Hp in Hdo. unfold ByteReader_Read in Hdo. simpl in Hdo.
        discriminate Hdo. }
      rewrite <- Erange in *.
      assert (Hne : range <> []) by (rewrite Erange; discriminate).
      destruct (BufferedReader_Read_replay b range Hinv Hp Hne) as [Hread Hn];
        [lia |].
      cbv zeta in Hread, Hn. rewrite Hread in Hdo. injection Hdo as <-.
      specialize (Hrep eq_refl) as (Hp0 & Hrem & Hpos).
      set (n := Z.min (len range) (buffer_remaining_ b)) in *.
      assert (Hbuf : len (if (buffer_remaining_ b - n =? 0) && stop_done_ b
                          then [] else buffer_ b) <= len (buffer_ b)).
      { destruct ((buffer_remaining_ b - n =? 0) && stop_done_ b);
          [change (len (@nil byte)) with 0; lia | lia]. }
      split; [| cbn [buffer_]; lia].
      split; cbn [buffer_]; [lia |].
      unfold replay_pending. cbn [rewind_done_ rewind_consumed_ buffer_reader_
                                   buffer_remaining_ buffer_ bytes_read_].
      destruct (buffer_remaining_ b - n =? 0) eqn:E0.
      * rewrite andb_false_r. discriminate.
      * apply Z.eqb_neq in E0. intros _. cbn [andb]. lia.
    + unfold BufferedReader_Read in Hdo. unfold replay_pending in Hp.
      rewrite Hp in Hdo.
      destruct (Read (wrapped_reader_ b) range) as [[wr rg] [n | e]].
      * destruct (stop_done_ b) eqn:Es; cbn [negb] in Hdo.
        -- injection Hdo as <-. cbn [buffer_].
           split; [| cbn [buffer_]; lia].
           split; cbn [buffer_]; [exact Hlen |].
           unfold replay_pending.
           cbn [rewind_done_ rewind_consumed_]. rewrite Hp. discriminate.
        -- destruct (n <=? len range) eqn:En; [| discriminate Hdo].
           apply Z.leb_le in En. injection Hdo as <-. cbn [buffer_].
           assert (Hadd : len (buffer_ b ++ firstn (Z.to_nat n) rg)
                          <= len (buffer_ b) + len range).
           { rewrite len_app. unfold len in *. rewrite length_firstn. lia. }
           split; [| cbn [buffer_]; lia].
           split; cbn [buffer_]; [lia |].
           unfold replay_pending.
           cbn [rewind_done_ rewind_consumed_]. rewrite Hp. discriminate.
      * injection Hdo as <-. cbn [buffer_].
        split; [| cbn [buffer_]; lia].
        split; cbn [buffer_]; [exact Hlen |].
        unfold replay_pending.
        cbn [rewind_done_ rewind_consumed_]. rewrite Hp. discriminate.
  - injection Hdo as <-. unfold BufferedReader_Rewind.
    destruct (stop_done_ b && rewind_done_ b); cbn [fst].
    + split; [exact Hinv | lia].
    + cbn [buffer_]. split; [| cbn [buffer_]; lia].
      split; cbn [buffer_]; [exact Hlen |].
      unfold replay_pending.
      cbn [rewind_done_ rewind_consumed_ buffer_reader_ buffer_remaining_
           buffer_ bytes_read_ ByteReader_Rewind andb].
      destruct (len (buffer_ b) =? 0) eqn:E0; [discriminate |].
      apply Z.eqb_neq in E0. intros _. lia.
  - injection Hdo as <-.
    unfold BufferedReader_StopBufferingAndRewind, BufferedReader_Rewind.
    destruct (stop_done_ b && rewind_done_ b); cbn [fst].
    + cbn [buffer_]. split; [| cbn [buffer_]; lia].
      split; cbn [buffer_]; [exact Hlen |].
      unfold replay_pending.
      cbn [rewind_done_ rewind_consumed_ buffer_reader_ buffer_remaining_ buffer_].
      exact Hrep.
    + cbn [buffer_]. split; [| cbn [buffer_]; lia].
      split; cbn [buffer_]; [exact Hlen |].
      unfold replay_pending.
      cbn [rewind_done_ rewind_consumed_ buffer_reader_ buffer_remaining_
           buffer_ bytes_read_ ByteReader_Rewind andb].
      destruct (len (buffer_ b) =? 0) eqn:E0; [discriminate |].
      apply Z.eqb_neq in E0. intros _. lia.
  - injection Hdo as <-. unfold BufferedReader_StopBufferingAndDiscard.
    fold (replay_pending b).
    destruct (replay_pending b) eqn:Hp; cbn [fst].
    + split; [exact Hinv | lia].
    + cbn [buffer_]. change (len (@nil byte)) with 0.
      split; [| cbn [buffer_]; lia].
      split; cbn [buffer_]; [unfold two64; change (len (@nil byte)) with 0; lia |].
      unfold replay_pending. cbn [rewind_done_ rewind_consumed_].
      rewrite andb_false_r. discriminate.
Qed.

Lemma replay_inv_run (cs : list BufferedReader_call) :
  forall b b' : BufferedReader R,
    replay_inv b -> len (buffer_ b) + calls_len cs < two64 ->
    BufferedReader_run b cs = Some b' ->
    replay_inv b' /\ len (buffer_ b') <= len (buffer_ b) + calls_len cs.
Proof.
  induction cs as [| c rest IH]; intros b b' Hinv Hb Hrun.
  - injection Hrun as <-. cbn [calls_len]. split; [exact Hinv | lia].
  - cbn [BufferedReader_run] in Hrun.
    destruct (BufferedReader_do b c) as [b1 |] eqn:Hdo; [| discriminate Hrun].
    assert (Hsplit : calls_len (c :: rest) = calls_len [c] + calls_len rest)
      by (destruct c; cbn [calls_len]; lia).
    pose proof (calls_len_nonneg rest) as Hrest0.
    pose proof (calls_len_nonneg [c]) as Hc0.
    destruct (replay_inv_do b b1 c Hinv) as [Hinv1 Hlen1]; [lia | exact Hdo |].
    destruct (IH b1 b' Hinv1) as [Hinv' Hlen']; [lia | exact Hrun |].
    split; [exact Hinv' | lia].
Qed.

Lemma replay_inv_new (wrapped : R) : replay_inv (BufferedReader_new wrapped).
Proof.
  split; [unfold two64; cbn; lia | discriminate].
Qed.

End ReplayInvariant.

(** X4: in whatever state a sequence of calls leaves a rewindable reader
    (created fresh, asked for less than [2^64] bytes in total), a [Read]
    while a replay is pending is served from the buffer: it returns
    [min(range, buffer_remaining_)] bytes, at least one (never the end of
    data, never an assertion error), they are the bytes of the buffer at
    the cursor, the wrapped reader is not called, and the replay ends
    exactly when [buffer_remaining_], which counts the bytes of the buffer
    after the cursor, reaches 0. *)
Theorem X4_BufferedReader_replay_is_served {R} `{Reader R}
    (wrapped : R) (cs : list BufferedReader_call) (b : BufferedReader R)
    (range : list byte) :
  calls_len cs < two64 ->
  BufferedReader_run (BufferedReader_new wrapped) cs = Some b ->
  replay_pending b = true -> range <> [] -> len range < two64 ->
  exists b' range' n,
    BufferedReader_Read b range = Some (b', range', Value n)
    /\ n = Z.min (len range) (buffer_remaining_ b) /\ 0 < n
    /\ buffer_remaining_ b = len (buffer_ b) - bytes_read_ (buffer_reader_ b)
    /\ firstn (Z.to_nat n) range'
       = firstn (Z.to_nat n)
           (skipn (Z.to_nat (bytes_read_ (buffer_reader_ b))) (buffer_ b))
    /\ wrapped_reader_ b' = wrapped_reader_ b
    /\ buffer_remaining_ b' = buffer_remaining_ b - n
    /\ replay_pending b' = negb (buffer_remaining_ b' =? 0).
Proof.
  intros Hcs Hrun Hp Hne Hlt.
  destruct (replay_inv_run cs (BufferedReader_new wrapped) b
              (replay_inv_new wrapped)) as [Hinv _]; [cbn; exact Hcs | exact Hrun |].
  destruct (BufferedReader_Read_replay b range Hinv Hp Hne Hlt) as [Hread Hn].
  cbv zeta in Hread, Hn.
  destruct Hinv as [Hlen Hrep]. specialize (Hrep Hp) as (Hp0 & Hrem & Hpos).
  eexists _, _, _. split; [exact Hread |].
  cbn [wrapped_reader_ buffer_remaining_].
  split; [reflexivity |]. split; [exact Hn |]. split; [exact Hrem |].
  split; [| split; [reflexivity |]; split; [reflexivity |]].
  - apply firstn_copy_n_0. unfold len in *. rewrite length_skipn. lia.
  - unfold replay_pending in *. cbn [rewind_done_ rewind_consumed_].
    apply andb_true_iff in Hp as [Hd Hc]. rewrite Hd.
    apply negb_true_iff in Hc. rewrite Hc.
    destruct (buffer_remaining_ b - Z.min (len range) (buffer_remaining_ b) =? 0);
      reflexivity.
Qed.

(** X4 after two bytes were read and a rewind armed: one byte asked for,
    one byte served from the buffer, one left. *)
Lemma X4_BufferedReader_replay_is_served_witness :
  exists b b' range',
    BufferedReader_run (BufferedReader_new (mk_ChunkReader [x01; x02; x03] 2))
      [CallRead [x00; x00]; CallRewind] = Some b
    /\ BufferedReader_Read b [x00] = Some (b', range', Value 1)
    /\ firstn 1 range' = [x01]
    /\ replay_pending b' = true.
Proof.
  pose (b := mk_BufferedReader (mk_ChunkReader [x03] 2) [x01; x02]
               (mk_ByteReader 0) 2 true false false).
  assert (Hrun : BufferedReader_run
                   (BufferedReader_new (mk_ChunkReader [x01; x02; x03] 2))
                   [CallRead [x00; x00]; CallRewind] = Some b) by reflexivity.
  destruct (X4_BufferedReader_replay_is_served
              (mk_ChunkReader [x01; x02; x03] 2)
              [CallRead [x00; x00]; CallRewind] b [x00])
    as (b' & range' & n & Hread & Hn & _ & _ & Hbytes & _ & Hrem & Hpend).
  - unfold two64. cbn. lia.
  - exact Hrun.
  - reflexivity.
  - discriminate.
  - unfold len, two64. simpl. lia.
  - exists b, b', range'. split; [exact Hrun |].
    assert (Hn1 : n = 1) by (rewrite Hn; reflexivity). subst n.
    split; [rewrite Hread, Hn1; reflexivity |].
    split; [rewrite Hn1 in Hbytes; exact Hbytes |].
    rewrite Hpend, Hrem, Hn1. reflexivity.
Defined.

(** ** The rewindable reader: replays in any consistent state *)

Section ReplayAnyState.

Context {R : Type} `{Reader R}.

(** A pending replay read to its end serves what is left of the buffer and
    does not call the wrapped reader; the buffer is dropped at the end when
    the recording was stopped, and kept otherwise. *)
Lemma Replay_serves_pending (ranges : list (list byte)) :
  forall b : BufferedReader R,
    replay_inv b -> replay_pending b = true ->
    Forall (fun g => g <> [] /\ len g < two64) ranges ->
    (Z.to_nat (buffer_remaining_ b) <= length ranges)%nat ->
    exists b3,
      BufferedReader_Replay b ranges
      = Some (b3, skipn (Z.to_nat (bytes_read_ (buffer_reader_ b))) (buffer_ b),
              buffer_remaining_ b)
      /\ rewind_consumed_ b3 = true /\ rewind_done_ b3 = true
      /\ stop_done_ b3 = stop_done_ b
      /\ wrapped_reader_ b3 = wrapped_reader_ b
      /\ buffer_ b3 = (if stop_done_ b then [] else buffer_ b).
Proof.
  induction ranges as [| g rest IH]; intros b Hinv Hp Hall Hlen.
  - destruct Hinv as [_ Hrep]. specialize (Hrep Hp) as (_ & _ & Hpos).
    simpl in Hlen. lia.
  - apply Forall_cons_iff in Hall as [[Hne Hlt] Hrest].
    destruct (BufferedReader_Read_replay b g Hinv Hp Hne Hlt) as [Hread Hn].
    cbv zeta in Hread, Hn.
    pose proof Hinv as [Hbuf Hrep]. specialize (Hrep Hp) as (Hp0 & Hrem & Hpos).
    pose proof Hp as Hp'. unfold replay_pending in Hp'.
    apply andb_true_iff in Hp' as [Hd Hc]. apply negb_true_iff in Hc.
    cbn [BufferedReader_Replay]. fold (replay_pending b). rewrite Hp, Hread.
    set (n := Z.min (len g) (buffer_remaining_ b)) in *.
    set (p := bytes_read_ (buffer_reader_ b)) in *.
    assert (Hserved : firstn (Z.to_nat n)
                        (copy_n (skipn (Z.to_nat p) (buffer_ b)) n g 0)
                      = firstn (Z.to_nat n) (skipn (Z.to_nat p) (buffer_ b))).
    { apply firstn_copy_n_0. unfold len in *. rewrite length_skipn. lia. }
    rewrite Hserved.
    destruct (buffer_remaining_ b - n =? 0) eqn:E0.
    + apply Z.eqb_eq in E0.
      match goal with
      | |- context [BufferedReader_Replay ?b1 rest] =>
          assert (Hdone : BufferedReader_Replay b1 rest = Some (b1, [], 0))
            by (destruct rest; cbn [BufferedReader_Replay rewind_done_
                                     rewind_consumed_ negb andb];
                rewrite ?andb_false_r; reflexivity);
          rewrite Hdone; exists b1
      end.
      cbn [rewind_consumed_ rewind_done_ stop_done_ wrapped_reader_ buffer_ andb].
      split; [| repeat split; try assumption; destruct (stop_done_ b); reflexivity].
      rewrite app_nil_r, Z.add_0_r. f_equal. f_equal; [f_equal | lia].
      apply firstn_all2. unfold len in *. rewrite length_skipn. lia.
    + apply Z.eqb_neq in E0. cbn [andb].
      match goal with
      | |- context [BufferedReader_Replay ?b1 rest] =>
          destruct (IH b1) as (b3 & Hrep3 & Hc3 & Hd3 & Hs3 & Hw3 & Hb3)
      end.
      * split; cbn [buffer_]; [exact Hbuf |]. intros _.
        cbn [buffer_reader_ bytes_read_ buffer_remaining_]. lia.
      * unfold replay_pending. cbn [rewind_done_ rewind_consumed_].
        rewrite Hd, Hc. reflexivity.
      * exact Hrest.
      * cbn [buffer_remaining_]. simpl in Hlen. lia.
      * rewrite Hrep3. exists b3.
        cbn [buffer_ buffer_reader_ bytes_read_ buffer_remaining_ stop_done_
             wrapped_reader_] in *.
        split; [| repeat split; assumption].
        f_equal. f_equal; [| lia]. f_equal.
        replace (Z.to_nat (p + n)) with (Z.to_nat p + Z.to_nat n)%nat by lia.
        apply firstn_skipn_chain.
Qed.

(** With the recording stopped no replay pending, [Read] is the wrapped
    reader's [Read]: same result, same range, nothing kept. *)
Lemma BufferedReader_Read_passthrough (b : BufferedReader R) (range : list byte) :
  replay_pending b = false -> stop_done_ b = true ->
  BufferedReader_Read b range
  = let '(wrapped', range', res) := Read (wrapped_reader_ b) range in
    Some (mk_BufferedReader wrapped' (buffer_ b) (buffer_reader_ b)
            (buffer_remaining_ b) (rewind_done_ b) (rewind_consumed_ b)
            (stop_done_ b),
          range', res).
Proof.
  intros Hp Hs. unfold BufferedReader_Read. unfold replay_pending in Hp.
  rewrite Hp, Hs. cbn [negb].
  destruct (Read (wrapped_reader_ b) range) as [[wr rg] [n | e]]; reflexivity.
Qed.

(** While recording with no replay pending, every successful [Read] appends
    what it delivered to the buffer. *)
Lemma Read_pass_appends (ranges : list (list byte)) :
  forall (b b1 : BufferedReader R) (S : list byte) (eof : bool),
    replay_pending b = false -> stop_done_ b = false ->
    BufferedReader_Read_pass b ranges = Some (b1, S, eof) ->
    buffer_ b1 = buffer_ b ++ S
    /\ replay_pending b1 = false /\ stop_done_ b1 = false.
Proof.
  induction ranges as [| g rest IH]; intros b b1 S eof Hp Hs Hpass;
    cbn [BufferedReader_Read_pass] in Hpass.
  - injection Hpass as <- <- _. rewrite app_nil_r. auto.
  - unfold BufferedReader_Read in Hpass. pose proof Hp as Hp'.
    unfold replay_pending in Hp'. rewrite Hp', Hs in Hpass. cbn [negb] in Hpass.
    destruct (Read (wrapped_reader_ b) g) as [[wr rg] [n | e]]; [| discriminate Hpass].
    destruct (n <=? len g); [| discriminate Hpass].
    destruct (n =? 0) eqn:En.
    + injection Hpass as <- <- _. apply Z.eqb_eq in En. subst n.
      cbn [buffer_ stop_done_ Z.to_nat firstn]. auto.
    + match type of Hpass with
      | match BufferedReader_Read_pass ?b' rest with _ => _ end = _ =>
          destruct (BufferedReader_Read_pass b' rest) as [[[b2 bytes] eof2] |] eqn:Hrest;
          [| discriminate Hpass]
      end.
      injection Hpass as <- <- _.
      apply IH in Hrest; [| exact Hp | reflexivity].
      destruct Hrest as (Hb & Hp2 & Hs2). cbn [buffer_] in Hb.
      rewrite Hb, <- app_assoc. auto.
Qed.

(** A replay leaves the buffer alone while the recording is on. *)
Lemma Replay_keeps_buffer (ranges : list (list byte)) :
  forall (b b3 : BufferedReader R) (S : list byte) (total : Z),
    stop_done_ b = false ->
    BufferedReader_Replay b ranges = Some (b3, S, total) ->
    buffer_ b3 = buffer_ b /\ stop_done_ b3 = false.
Proof.
  induction ranges as [| g rest IH]; intros b b3 S total Hs Hrep;
    cbn [BufferedReader_Replay] in Hrep.
  - injection Hrep as <- _ _. auto.
  - destruct (rewind_done_ b && negb (rewind_consumed_ b)) eqn:Hp.
    + unfold BufferedReader_Read in Hrep. rewrite Hp in Hrep.
      destruct (ByteReader_Read (buffer_ b) (buffer_reader_ b) g)
        as [[[br rg] [n | e]] |]; [| discriminate Hrep | discriminate Hrep].
      destruct (negb (0 <? n)); [discriminate Hrep |].
      destruct (negb (n <=? buffer_remaining_ b)); [discriminate Hrep |].
      rewrite Hs, andb_false_r in Hrep.
      match type of Hrep with
      | match BufferedReader_Replay ?b' rest with _ => _ end = _ =>
          destruct (BufferedReader_Replay b' rest) as [[[b2 bytes] tot] |] eqn:Hrest;
          [| discriminate Hrep]
      end.
      injection Hrep as <- _ _.
      apply IH in Hrest; [| reflexivity]. exact Hrest.
    + injection Hrep as <- _ _. auto.
Qed.

End ReplayAnyState.

(** X5: read a fresh rewindable reader for a while and let [S] be the bytes
    delivered; [StopBufferingAndRewind] then reports [len S] bytes, and
    reading again through non-empty ranges serves exactly [S] without
    calling the wrapped reader.  At the end of that replay the buffer is
    dropped, any further rewind is refused, and every further [Read] is the
    wrapped reader's [Read], with nothing kept. *)
Theorem X5_StopBufferingAndRewind_last_replay {R} `{Reader R}
    (wrapped : R) (ranges1 : list (list byte)) (b1 : BufferedReader R)
    (S : list byte) (eof : bool) :
  BufferedReader_Read_pass (BufferedReader_new wrapped) ranges1 = Some (b1, S, eof) ->
  len S < two64 ->
  exists b2,
    BufferedReader_StopBufferingAndRewind b1 = (b2, Value (len S))
    /\ forall ranges2 : list (list byte),
         Forall (fun g => g <> [] /\ len g < two64) ranges2 ->
         (length S <= length ranges2)%nat ->
         exists b3,
           BufferedReader_Replay b2 ranges2 = Some (b3, S, len S)
           /\ buffer_ b3 = []
           /\ wrapped_reader_ b3 = wrapped_reader_ b1
           /\ BufferedReader_Rewind b3 = (b3, Unexpected rewind_denied)
           /\ snd (BufferedReader_StopBufferingAndRewind b3)
              = Unexpected rewind_denied
           /\ forall range : list byte,
                exists b4,
                  BufferedReader_Read b3 range
                  = Some (b4, snd (fst (Read (wrapped_reader_ b3) range)),
                          snd (Read (wrapped_reader_ b3) range))
                  /\ wrapped_reader_ b4 = fst (fst (Read (wrapped_reader_ b3) range))
                  /\ buffer_ b4 = [].
Proof.
  intros Hpass HS.
  apply Read_pass_records in Hpass; [| reflexivity | reflexivity].
  destruct Hpass as (Hb & Hr & Hs). cbn [BufferedReader_new buffer_ app] in Hb.
  unfold BufferedReader_StopBufferingAndRewind, BufferedReader_Rewind.
  rewrite Hs, Hb. cbn [andb].
  eexists. split; [reflexivity |].
  cbn [wrapped_reader_ buffer_ buffer_reader_ buffer_remaining_ rewind_done_
       rewind_consumed_].
  intros ranges2 Hall Hlen.
  pose proof (len_nonneg S) as HS0.
  set (b2 := mk_BufferedReader (wrapped_reader_ b1) S
               (ByteReader_Rewind (buffer_reader_ b1)) (len S) true
               (len S =? 0) true).
  assert (Hafter : forall b3 : BufferedReader R,
             buffer_ b3 = [] -> rewind_consumed_ b3 = true ->
             rewind_done_ b3 = true -> stop_done_ b3 = true ->
             BufferedReader_Rewind b3 = (b3, Unexpected rewind_denied)
             /\ snd (BufferedReader_StopBufferingAndRewind b3)
                = Unexpected rewind_denied
             /\ forall range : list byte,
                  exists b4,
                    BufferedReader_Read b3 range
                    = Some (b4, snd (fst (Read (wrapped_reader_ b3) range)),
                            snd (Read (wrapped_reader_ b3) range))
                    /\ wrapped_reader_ b4 = fst (fst (Read (wrapped_reader_ b3) range))
                    /\ buffer_ b4 = []).
  { intros b3 Hb3 Hc3 Hd3 Hs3.
    unfold BufferedReader_StopBufferingAndRewind, BufferedReader_Rewind.
    rewrite Hs3, Hd3. cbn [andb snd].
    split; [reflexivity |]. split; [reflexivity |].
    intros range. rewrite BufferedReader_Read_passthrough;
      [| unfold replay_pending; rewrite Hd3, Hc3; reflexivity | exact Hs3].
    destruct (Read (wrapped_reader_ b3) range) as [[wr rg] res].
    eexists. split; [reflexivity |]. cbn [wrapped_reader_ buffer_ fst].
    split; [reflexivity | exact Hb3]. }
  destruct (len S =? 0) eqn:E0.
  - apply Z.eqb_eq in E0.
    assert (HSnil : S = []) by (destruct S; [reflexivity | discriminate E0]).
    exists b2.
    assert (Hrep : BufferedReader_Replay b2 ranges2 = Some (b2, [], 0))
      by (destruct ranges2; reflexivity).
    rewrite Hrep, E0, HSnil. split; [reflexivity |].
    split; [unfold b2; cbn [buffer_]; exact HSnil |].
    split; [reflexivity |].
    apply Hafter; unfold b2; cbn; auto.
  - apply Z.eqb_neq in E0.
    destruct (Replay_serves_pending ranges2 b2)
      as (b3 & Hrep & Hc3 & Hd3 & Hs3 & Hw3 & Hb3).
    + split; unfold b2; cbn [buffer_]; [exact HS |]. intros _.
      cbn [buffer_reader_ ByteReader_Rewind bytes_read_ buffer_remaining_]. lia.
    + reflexivity.
    + exact Hall.
    + unfold b2; cbn [buffer_remaining_]. unfold len. lia.
    + exists b3. unfold b2 in Hrep at 2 3 4. unfold b2 in Hs3, Hw3, Hb3.
      cbn [buffer_ buffer_reader_ ByteReader_Rewind bytes_read_
           buffer_remaining_ stop_done_ wrapped_reader_ Z.to_nat skipn]
        in Hrep, Hs3, Hw3, Hb3.
      split; [exact Hrep |]. split; [exact Hb3 |]. split; [exact Hw3 |].
      apply Hafter; assumption.
Qed.

(** X5 on a source of three bytes read two at a time: two bytes read,
    recording stopped with a rewind, the two bytes replayed, then the third
    byte comes from the source and no rewind is possible. *)
Lemma X5_StopBufferingAndRewind_last_replay_witness :
  exists b1 b2 b3 b4,
    BufferedReader_Read_pass (BufferedReader_new (mk_ChunkReader [x01; x02; x03] 2))
      [[x00; x00]] = Some (b1, [x01; x02], false)
    /\ BufferedReader_StopBufferingAndRewind b1 = (b2, Value 2)
    /\ BufferedReader_Replay b2 [[x00]; [x00]] = Some (b3, [x01; x02], 2)
    /\ buffer_ b3 = []
    /\ BufferedReader_Rewind b3 = (b3, Unexpected rewind_denied)
    /\ BufferedReader_Read b3 [x00; x00] = Some (b4, [x03; x00], Value 1).
Proof.
  pose (b1 := mk_BufferedReader (mk_ChunkReader [x03] 2) [x01; x02]
                ByteReader_new 0 false false false).
  assert (Hpass : BufferedReader_Read_pass
                    (BufferedReader_new (mk_ChunkReader [x01; x02; x03] 2))
                    [[x00; x00]] = Some (b1, [x01; x02], false)) by reflexivity.
  destruct (X5_StopBufferingAndRewind_last_replay _ _ _ _ _ Hpass)
    as (b2 & Hstop & Hrest); [unfold len, two64; simpl; lia |].
  destruct (Hrest [[x00]; [x00]]) as (b3 & Hrep & Hb3 & Hw3 & Hrew & _ & Hread).
  - repeat constructor; try discriminate; unfold len, two64; simpl; lia.
  - simpl. lia.
  - destruct (Hread [x00; x00]) as (b4 & Hr4 & _).
    exists b1, b2, b3, b4. split; [exact Hpass |]. split; [exact Hstop |].
    split; [exact Hrep |]. split; [exact Hb3 |]. split; [exact Hrew |].
    rewrite Hr4, Hw3. reflexivity.
Defined.

Section Discarded.

Context {R : Type} `{Reader R}.

(** After a discard: the recording is off, no replay is pending and the
    buffer is empty; every call keeps it so, and none fails. *)
Lemma discarded_do (b : BufferedReader R) (c : BufferedReader_call) :
  stop_done_ b = true -> rewind_consumed_ b = true -> buffer_ b = [] ->
  exists b',
    BufferedReader_do b c = Some b'
    /\ stop_done_ b' = true /\ rewind_consumed_ b' = true /\ buffer_ b' = [].
Proof.
  intros Hs Hc Hb. destruct c as [range | | |]; cbn [BufferedReader_do].
  - rewrite BufferedReader_Read_passthrough;
      [| unfold replay_pending; rewrite Hc, andb_false_r; reflexivity | exact Hs].
    destruct (Read (wrapped_reader_ b) range) as [[wr rg] res].
    eexists. split; [reflexivity |]. cbn. auto.
  - unfold BufferedReader_Rewind. rewrite Hs, Hb.
    destruct (rewind_done_ b); cbn; eexists; (split; [reflexivity |]); cbn; auto.
  - unfold BufferedReader_StopBufferingAndRewind, BufferedReader_Rewind.
    rewrite Hs, Hb.
    destruct (rewind_done_ b); cbn; eexists; (split; [reflexivity |]); cbn; auto.
  - unfold BufferedReader_StopBufferingAndDiscard. rewrite Hc, andb_false_r.
    eexists. split; [reflexivity |]. cbn. auto.
Qed.

Lemma discarded_run (cs : list BufferedReader_call) :
  forall b : BufferedReader R,
    stop_done_ b = true -> rewind_consumed_ b = true -> buffer_ b = [] ->
    exists b',
      BufferedReader_run b cs = Some b'
      /\ stop_done_ b' = true /\ rewind_consumed_ b' = true /\ buffer_ b' = [].
Proof.
  induction cs as [| c rest IH]; intros b Hs Hc Hb; cbn [BufferedReader_run].
  - exists b. auto.
  - destruct (discarded_do b c Hs Hc Hb) as (b1 & Hdo & Hs1 & Hc1 & Hb1).
    rewrite Hdo. apply IH; assumption.
Qed.

End Discarded.

(** X6: [StopBufferingAndDiscard] is refused, with an I/O error and the
    reader left as it was, exactly while a replay is pending.  Otherwise it
    succeeds, and from then on, whatever is called and in whatever order,
    no call fails an assertion, the buffer stays empty, and every [Read]
    is the wrapped reader's [Read] with nothing kept. *)
Theorem X6_StopBufferingAndDiscard_stops_recording {R} `{Reader R}
    (b : BufferedReader R) :
  (replay_pending b = true ->
   BufferedReader_StopBufferingAndDiscard b = (b, discard_denied)
   /\ AsyncBufferedReader_StopBufferingAndDiscard b = (b, discard_denied)
   /\ is_io_error discard_denied)
  /\ (replay_pending b = false ->
      exists b',
        BufferedReader_StopBufferingAndDiscard b = (b', NoError)
        /\ AsyncBufferedReader_StopBufferingAndDiscard b = (b', NoError)
        /\ forall cs : list BufferedReader_call,
             exists b'',
               BufferedReader_run b' cs = Some b''
               /\ buffer_ b'' = []
               /\ forall range : list byte,
                    exists b3,
                      BufferedReader_Read b'' range
                      = Some (b3, snd (fst (Read (wrapped_reader_ b'') range)),
                              snd (Read (wrapped_reader_ b'') range))
                      /\ buffer_ b3 = []).
Proof.
  unfold BufferedReader_StopBufferingAndDiscard,
    AsyncBufferedReader_StopBufferingAndDiscard.
  fold (replay_pending b). split; intros Hp; rewrite Hp.
  - repeat split.
  - eexists. split; [reflexivity |]. split; [reflexivity |].
    intros cs.
    match goal with
    | |- context [BufferedReader_run ?b' cs] =>
        destruct (discarded_run cs b' eq_refl eq_refl eq_refl)
          as (b'' & Hrun & Hs & Hc & Hb)
    end.
    exists b''. split; [exact Hrun |]. split; [exact Hb |].
    intros range. rewrite BufferedReader_Read_passthrough;
      [| unfold replay_pending; rewrite Hc, andb_false_r; reflexivity | exact Hs].
    destruct (Read (wrapped_reader_ b'') range) as [[wr rg] res].
    eexists. split; [reflexivity |]. exact Hb.
Qed.

(** X6 on a reader that recorded two bytes: with a replay pending the
    discard is refused; without, it empties the buffer for good. *)
Lemma X6_StopBufferingAndDiscard_stops_recording_witness :
  let b := mk_BufferedReader (mk_ChunkReader [x03] 2) [x01; x02]
             ByteReader_new 0 false false false in
  snd (BufferedReader_StopBufferingAndDiscard (fst (BufferedReader_Rewind b)))
  = discard_denied
  /\ exists b' b'',
       BufferedReader_StopBufferingAndDiscard b = (b', NoError)
       /\ BufferedReader_run b' [CallRead [x00]; CallRewind; CallRead [x00]]
          = Some b''
       /\ buffer_ b'' = [].
Proof.
  intros b. split.
  - destruct (X6_StopBufferingAndDiscard_stops_recording
                (fst (BufferedReader_Rewind b))) as [Hden _].
    destruct (Hden eq_refl) as [Hd _]. rewrite Hd. reflexivity.
  - destruct (X6_StopBufferingAndDiscard_stops_recording b) as [_ Hok].
    destruct (Hok eq_refl) as (b' & Hd & _ & Hrun).
    destruct (Hrun [CallRead [x00]; CallRewind; CallRead [x00]])
      as (b'' & Hr & Hb & _).
    exists b', b''. split; [exact Hd |]. split; [exact Hr | exact Hb].
Defined.

(** X7: the recording goes on after a replay.  Read a fresh rewindable
    reader (bytes [S1]), rewind and read the replay to its end, read on
    (bytes [S2], from the wrapped reader): the next [Rewind] reports
    [len S1 + len S2] bytes and its replay serves [S1 ++ S2]. *)
Theorem X7_Rewind_replays_every_pass {R} `{Reader R}
    (wrapped : R) (ranges1 ranges2 ranges3 : list (list byte))
    (b1 b3 b4 : BufferedReader R) (S1 S1' S2 : list byte) (t : Z)
    (eof1 eof2 : bool) :
  BufferedReader_Read_pass (BufferedReader_new wrapped) ranges1 = Some (b1, S1, eof1) ->
  BufferedReader_Replay (fst (BufferedReader_Rewind b1)) ranges2 = Some (b3, S1', t) ->
  replay_pending b3 = false ->
  BufferedReader_Read_pass b3 ranges3 = Some (b4, S2, eof2) ->
  len (S1 ++ S2) < two64 ->
  exists b5,
    BufferedReader_Rewind b4 = (b5, Value (len S1 + len S2))
    /\ forall ranges4 : list (list byte),
         Forall (fun g => g <> [] /\ len g < two64) ranges4 ->
         (length (S1 ++ S2) <= length ranges4)%nat ->
         exists b6,
           BufferedReader_Replay b5 ranges4
           = Some (b6, S1 ++ S2, len S1 + len S2)
           /\ rewind_consumed_ b6 = true.
Proof.
  intros Hpass1 Hrep Hp3 Hpass2 HS.
  apply Read_pass_records in Hpass1; [| reflexivity | reflexivity].
  destruct Hpass1 as (Hb1 & Hr1 & Hs1). cbn [BufferedReader_new buffer_ app] in Hb1.
  unfold BufferedReader_Rewind in Hrep. rewrite Hs1 in Hrep. cbn [andb fst] in Hrep.
  apply Replay_keeps_buffer in Hrep; [| reflexivity].
  destruct Hrep as [Hb3 Hs3]. cbn [buffer_] in Hb3.
  apply Read_pass_appends in Hpass2; [| exact Hp3 | exact Hs3].
  destruct Hpass2 as (Hb4 & Hp4 & Hs4). rewrite Hb3, Hb1 in Hb4.
  unfold BufferedReader_Rewind. rewrite Hs4, Hb4. cbn [andb].
  rewrite <- len_app.
  eexists. split; [reflexivity |].
  intros ranges4 Hall Hlen.
  pose proof (len_nonneg (S1 ++ S2)) as H0.
  match goal with
  | |- context [BufferedReader_Replay ?b' ranges4] =>
      destruct (Replay_serves (S1 ++ S2) ranges4 HS b') as (b6 & Hrep6 & Hc6);
      cbn [buffer_ rewind_done_ stop_done_ buffer_reader_ ByteReader_Rewind
           bytes_read_ buffer_remaining_ rewind_consumed_];
      [ reflexivity | reflexivity | reflexivity | lia | lia | reflexivity
      | exact Hall | unfold len; lia | ]
  end.
  cbn [buffer_reader_ ByteReader_Rewind bytes_read_ buffer_remaining_ Z.to_nat
       skipn] in Hrep6.
  exists b6. split; [exact Hrep6 | exact Hc6].
Qed.

(** X7 on a source of three bytes read two at a time: two bytes, a rewind
    and its replay, the third byte, and a rewind that replays all three. *)
Lemma X7_Rewind_replays_every_pass_witness :
  exists b4 b5 b6,
    BufferedReader_run (BufferedReader_new (mk_ChunkReader [x01; x02; x03] 2))
      [CallRead [x00; x00]; CallRewind; CallRead [x00; x00]; CallRead [x00; x00]]
    = Some b4
    /\ BufferedReader_Rewind b4 = (b5, Value 3)
    /\ BufferedReader_Replay b5 [[x00; x00]; [x00; x00]; [x00; x00]]
       = Some (b6, [x01; x02; x03], 3).
Proof.
  pose (w := mk_ChunkReader [x01; x02; x03] 2).
  pose (b1 := mk_BufferedReader (mk_ChunkReader [x03] 2) [x01; x02]
                ByteReader_new 0 false false false).
  pose (b3 := mk_BufferedReader (mk_ChunkReader [x03] 2) [x01; x02]
                (mk_ByteReader 2) 0 true true false).
  pose (b4 := mk_BufferedReader (mk_ChunkReader [] 2) [x01; x02; x03]
                (mk_ByteReader 2) 0 true true false).
  assert (H1 : BufferedReader_Read_pass (BufferedReader_new w) [[x00; x00]]
               = Some (b1, [x01; x02], false)) by reflexivity.
  assert (H2 : BufferedReader_Replay (fst (BufferedReader_Rewind b1)) [[x00; x00]]
               = Some (b3, [x01; x02], 2)) by reflexivity.
  assert (H3 : BufferedReader_Read_pass b3 [[x00; x00]] = Some (b4, [x03], false))
    by reflexivity.
  destruct (X7_Rewind_replays_every_pass w _ _ _ _ _ _ _ _ _ _ _ _ H1 H2 eq_refl H3)
    as (b5 & Hrew & Hrest); [unfold len, two64; simpl; lia |].
  destruct (Hrest [[x00; x00]; [x00; x00]; [x00; x00]]) as (b6 & Hrep & _).
  - repeat constructor; try discriminate; unfold len, two64; simpl; lia.
  - simpl. lia.
  - exists b4, b5, b6. split; [reflexivity |]. split; [exact Hrew | exact Hrep].
Defined.

(** ** The asynchronous rewindable reader *)

(** X8: [AsyncBufferedReader::AsyncRead] over a wrapped reader that
    completes every read before returning does what [BufferedReader::Read]
    does over the same reader read synchronously: the same state is left,
    the same bytes are in the range, and the handler gets (or, for a failed
    assertion, the call returns) the result [Read] returns; the completion
    is never deferred.  And whatever the wrapped reader, while a replay is
    pending in a consistent state the read completes before returning, with
    at least one byte, and the wrapped reader is not called. *)
Theorem X8_AsyncRead_agrees_with_Read {R} {HR : Reader R} {HA : AsyncReader R}
    (b : BufferedReader R) (range : list byte) :
  ((forall r g, AsyncRead r g
                = let '(r', g', res) := Read r g in (r', g', Inline res)) ->
   option_map (fun x => (fst (fst x), snd (fst x), outcome_result (snd x)))
     (AsyncBufferedReader_AsyncRead b range)
   = BufferedReader_Read b range
   /\ forall b' g' o,
        AsyncBufferedReader_AsyncRead b range = Some (b', g', o) ->
        forall res, o <> Submitted (Deferred res))
  /\ (replay_inv b -> replay_pending b = true ->
      range <> [] -> len range < two64 ->
      exists b' g' n,
        AsyncBufferedReader_AsyncRead b range
        = Some (b', g', Submitted (Inline (Value n)))
        /\ n = Z.min (len range) (buffer_remaining_ b) /\ 0 < n
        /\ wrapped_reader_ b' = wrapped_reader_ b
        /\ firstn (Z.to_nat n) g'
           = firstn (Z.to_nat n)
               (skipn (Z.to_nat (bytes_read_ (buffer_reader_ b))) (buffer_ b))).
Proof.
  split.
  - intros Hsync.
    unfold AsyncBufferedReader_AsyncRead, BufferedReader_Read, wrapper_handler.
    destruct (rewind_done_ b && negb (rewind_consumed_ b)).
    + destruct (ByteReader_Read (buffer_ b) (buffer_reader_ b) range)
        as [[[br rg] [n | e]] |]; cbn [option_map].
      * destruct (negb (0 <? n));
          [| destruct (negb (n <=? buffer_remaining_ b))]; cbn [option_map fst snd];
          (split; [reflexivity |]);
          intros b' g' o Ho res; injection Ho as _ _ <-; discriminate.
      * split; [reflexivity |].
        intros b' g' o Ho res; injection Ho as _ _ <-; discriminate.
      * split; [reflexivity | discriminate].
    + rewrite Hsync.
      destruct (Read (wrapped_reader_ b) range) as [[wr rg] [n | e]];
        cbn [stop_done_ wrapped_reader_ buffer_ buffer_reader_ buffer_remaining_
             rewind_done_ rewind_consumed_].
      * destruct (negb (stop_done_ b)); [destruct (n <=? len range) |];
          cbn [option_map fst snd outcome_result];
          (split; [reflexivity |]);
          intros b' g' o Ho res; try discriminate Ho;
          injection Ho as _ _ <-; discriminate.
      * cbn [option_map fst snd outcome_result]. split; [reflexivity |].
        intros b' g' o Ho res; injection Ho as _ _ <-; discriminate.
  - intros [Hlen Hinv] Hp Hne Hlt.
    specialize (Hinv Hp) as (Hp0 & Hrem & Hpos).
    pose proof (len_pos_of_nonempty range Hne) as Hg.
    assert (Hwf : ByteReader_wf (buffer_ b) (buffer_reader_ b))
      by (split; [lia | exact Hlen]).
    unfold AsyncBufferedReader_AsyncRead. unfold replay_pending in Hp. rewrite Hp.
    rewrite (ByteReader_Read_eq _ _ _ Hwf Hne Hlt), <- Hrem.
    set (n := Z.min (len range) (buffer_remaining_ b)).
    assert (Hn : 0 < n <= buffer_remaining_ b) by (unfold n; lia).
    destruct (0 <? n) eqn:E1; [| apply Z.ltb_ge in E1; lia].
    destruct (n <=? buffer_remaining_ b) eqn:E2; [| apply Z.leb_gt in E2; lia].
    cbn [negb]. eexists _, _, n. split; [reflexivity |].
    split; [reflexivity |]. split; [lia |]. split; [reflexivity |].
    apply firstn_copy_n_0. unfold len in *. rewrite length_skipn. lia.
Qed.

(** X8 on the sample reader, which completes inline: a recording read and a
    replayed read of the asynchronous reader against the synchronous one. *)
Lemma X8_AsyncRead_agrees_with_Read_witness :
  let b := BufferedReader_new (mk_ChunkReader [x01; x02; x03] 2) in
  let b1 := mk_BufferedReader (mk_ChunkReader [x03] 2) [x01; x02]
              (mk_ByteReader 0) 2 true false false in
  option_map (fun x => (fst (fst x), snd (fst x), outcome_result (snd x)))
    (AsyncBufferedReader_AsyncRead b [x00; x00])
  = BufferedReader_Read b [x00; x00]
  /\ exists b' g',
       AsyncBufferedReader_AsyncRead b1 [x00]
       = Some (b', g', Submitted (Inline (Value 1)))
       /\ firstn 1 g' = [x01].
Proof.
  intros b b1. split.
  - apply (X8_AsyncRead_agrees_with_Read b [x00; x00]).
    intros r g. reflexivity.
  - destruct (proj2 (X8_AsyncRead_agrees_with_Read b1 [x00]))
      as (b' & g' & n & Hread & Hn & _ & _ & Hbytes).
    + split; [unfold len, two64; simpl; lia |]. intros _.
      unfold len. simpl. lia.
    + reflexivity.
    + discriminate.
    + unfold len, two64. simpl. lia.
    + assert (Hn1 : n = 1) by (rewrite Hn; reflexivity). subst n.
      exists b', g'. rewrite Hn1 in Hread, Hbytes.
      split; [exact Hread | exact Hbytes].
Defined.

(** ** Copy: what arrives in the writer *)

Section CopyContent.

Context {W R : Type} `{Writer W} `{Reader R}.
Variable rest : R -> list byte.
Variable kept : W -> list byte.
Hypothesis Hsrc : Reader_serves rest.
Hypothesis Hsink : Writer_keeps kept.

Lemma Copy_transfers (fuel : nat) :
  forall (dst : W) (src : R) (buffer : list byte),
    buffer <> [] -> (length (rest src) < fuel)%nat ->
    exists dst' src' buffer' t,
      Copy fuel dst src buffer = (dst', src', buffer', t, Some NoError)
      /\ kept dst' = kept dst ++ rest src
      /\ rest src' = []
      /\ written t = rest src.
Proof.
  induction fuel as [| fuel IH]; intros dst src buffer Hne Hfuel; [lia |].
  pose proof (len_pos_of_nonempty buffer Hne) as Hbuf.
  cbn [Copy].
  destruct (Hsrc src buffer) as (src1 & buffer1 & s & Hread & Hs & Hpos & Hbytes
                                 & Hrest & Hlen).
  rewrite Hread.
  destruct (s =? 0) eqn:Ez.
  - apply Z.eqb_eq in Ez. subst s.
    assert (Hnil : rest src = []).
    { destruct (rest src) eqn:E; [reflexivity |].
      assert (0 < 0) by (apply Hpos; [lia | discriminate]). lia. }
    exists dst, src1, buffer1, [EvRead (len buffer) (Inline (Value 0))].
    split; [reflexivity |]. rewrite Hnil, app_nil_r.
    split; [reflexivity |]. split; [rewrite Hrest, Hnil; reflexivity |].
    reflexivity.
  - apply Z.eqb_neq in Ez.
    destruct (len buffer <? s) eqn:El; [apply Z.ltb_lt in El; lia |].
    set (bytes := firstn (Z.to_nat s) buffer1).
    assert (Hlb : len bytes = s) by (apply len_firstn_le; lia).
    destruct (Hsink dst bytes) as (dst1 & Hwrite & Hkept).
    assert (Ez' : (s =? 0) = false) by (apply Z.eqb_neq; exact Ez).
    rewrite Hwrite, Hlb, Ez', Z.eqb_refl. cbn [negb].
    assert (Hne1 : buffer1 <> []).
    { intros E. rewrite E in Hlen. change (len (@nil byte)) with 0 in Hlen. lia. }
    destruct (IH dst1 src1 buffer1 Hne1) as (dst2 & src2 & buffer2 & t & Hcopy
                                            & Hk2 & Hr2 & Hw2).
    { rewrite Hrest, length_skipn. unfold len in *. lia. }
    rewrite Hcopy.
    exists dst2, src2, buffer2,
      (EvRead (len buffer) (Inline (Value s)) :: EvWrite bytes (Inline (Value s)) :: t).
    split; [reflexivity |].
    assert (Hjoin : bytes ++ rest src1 = rest src).
    { unfold bytes. rewrite Hbytes, Hrest. apply firstn_skipn. }
    split; [rewrite Hk2, Hkept, <- app_assoc, Hjoin; reflexivity |].
    split; [exact Hr2 |].
    cbn [written]. rewrite Hw2. exact Hjoin.
Qed.

End CopyContent.

Lemma ChunkReader_serves : @Reader_serves ChunkReader _ ChunkReader_rest.
Proof.
  intros r range. unfold Read, ChunkReader_Reader, ChunkReader_Read, ChunkReader_rest.
  pose proof (len_nonneg range) as Hr. pose proof (len_nonneg (cr_data r)) as Hd.
  set (n := Z.min (len range) (Z.min (Z.of_nat (cr_chunk r)) (len (cr_data r)))).
  eexists _, _, n. split; [reflexivity |]. cbn [cr_chunk cr_data].
  destruct (cr_chunk r) as [| k] eqn:Ek.
  - assert (Hn : n = 0) by (unfold n; lia). rewrite Hn.
    change (len (@nil byte)) with 0.
    split; [lia |]. split; [intros _ Hne; congruence |].
    split; [reflexivity |]. split; [reflexivity |].
    apply len_copy_n_0; lia.
  - assert (Hn : 0 <= n <= len (cr_data r)) by (unfold n; lia).
    split; [unfold n; lia |].
    split.
    { intros Hpos Hne. pose proof (len_pos_of_nonempty _ Hne). unfold n. lia. }
    split; [apply firstn_copy_n_0; lia |].
    split; [reflexivity |].
    apply len_copy_n_0; [lia | unfold n; lia].
Qed.

Lemma Sink_keeps : @Writer_keeps Sink _ (fun w => w).
Proof.
  intros w bytes. exists (w ++ bytes). split; reflexivity.
Qed.

(** X9: [Copy] from a source that does not fail and serves its content in
    order, into a writer that takes and keeps all it is handed, with a
    buffer of at least one byte: [Copy] returns [NoError], the writer has
    been handed exactly the source's content, in order, whatever the buffer
    size and however short the reads, and the source is used up. *)
Theorem X9_Copy_transfers_content {W R} `{Writer W} `{Reader R}
    (rest : R -> list byte) (kept : W -> list byte)
    (dst : W) (src : R) (buffer : list byte) (fuel : nat) :
  Reader_serves rest -> Writer_keeps kept ->
  buffer <> [] -> (length (rest src) < fuel)%nat ->
  exists dst' src' buffer' t,
    Copy fuel dst src buffer = (dst', src', buffer', t, Some NoError)
    /\ kept dst' = kept dst ++ rest src
    /\ rest src' = []
    /\ written t = rest src.
Proof.
  intros Hsrc Hsink Hne Hfuel.
  destruct (Copy_transfers rest kept Hsrc Hsink fuel dst src buffer Hne Hfuel)
    as (dst' & src' & buffer' & t & Hcopy & Hk & Hr & Hw).
  exists dst', src', buffer', t. auto.
Qed.

(** X9 on five bytes served two at a time through a buffer of three. *)
Lemma X9_Copy_transfers_content_witness :
  exists src' buffer' t,
    Copy 6 ([] : Sink) (mk_ChunkReader [x01; x02; x03; x04; x05] 2)
      [x00; x00; x00]
    = ([x01; x02; x03; x04; x05], src', buffer', t, Some NoError).
Proof.
  destruct (X9_Copy_transfers_content ChunkReader_rest (fun w : Sink => w)
              ([] : Sink) (mk_ChunkReader [x01; x02; x03; x04; x05] 2)
              [x00; x00; x00] 6 ChunkReader_serves Sink_keeps)
    as (dst' & src' & buffer' & t & Hcopy & Hk & _).
  - discriminate.
  - simpl. lia.
  - exists src', buffer', t. rewrite Hcopy. cbn in Hk. rewrite Hk. reflexivity.
Defined.

(** ** Blocking-stream bridge: refills *)

Lemma to_int_type_range (x : byte) : 0 <= to_int_type x < 256.
Proof.
  unfold to_int_type. pose proof (Byte.to_N_bounded x) as Hb. lia.
Qed.

(** X10: [underflow] with bytes left in the get area calls nothing and
    returns the byte under the cursor.  With the get area used up it clears
    [errno] and reads once into the whole buffer: [n > 0] bytes read make
    the first [n] bytes of the buffer the new get area and the first of
    them the result; 0 bytes read give an empty get area and [eof], with
    [errno] as the read left it.  The result for a byte is never [eof]. *)
Theorem X10_underflow_refills (R : Type)
    (Read_errno : R -> Z -> list byte -> R * Z * list byte * ExpectedSize)
    (sb : ReaderStreamBuffer R) (errno : Z) :
  (gptr_ge_egptr sb = false ->
   underflow Read_errno sb errno = (sb, errno, to_int_type (deref_gptr R sb)))
  /\ (forall reader' errno_read buf' n,
        gptr_ge_egptr sb = true ->
        Read_errno (reader_ sb) 0 (buf_ sb) = (reader', errno_read, buf', Value n) ->
        0 <= n < 2 ^ 63 ->
        underflow Read_errno sb errno
        = (mk_ReaderStreamBuffer reader' buf' (Some (0, 0, n)), errno_read,
           if n =? 0 then traits_eof else to_int_type (nth 0 buf' x00)))
  /\ (forall x : byte, to_int_type x <> traits_eof).
Proof.
  split; [| split].
  - intros Hge. unfold underflow. rewrite Hge.
    unfold gptr_ge_egptr, gptr_eq_egptr in *.
    destruct (get_area sb) as [[[b g] e] |]; [| discriminate Hge].
    apply Z.leb_gt in Hge.
    destruct (g =? e) eqn:E; [apply Z.eqb_eq in E; lia | reflexivity].
  - intros reader' errno_read buf' n Hge Hread Hn.
    unfold underflow. rewrite Hge, Hread.
    rewrite to_int64_small by lia.
    unfold gptr_eq_egptr, deref_gptr. cbn [get_area buf_ Z.add Z.to_nat].
    destruct (0 =? n) eqn:E1; destruct (n =? 0) eqn:E2; try reflexivity;
      [apply Z.eqb_eq in E1; apply Z.eqb_neq in E2
      | apply Z.eqb_neq in E1; apply Z.eqb_eq in E2]; lia.
  - intros x. pose proof (to_int_type_range x). unfold traits_eof. lia.
Qed.

(** X10 on a fresh bridge with a buffer of four bytes over a reader that
    puts two bytes in the range. *)
Lemma X10_underflow_refills_witness :
  let rd := fun (r : unit) (errno : Z) (range : list byte) =>
              (r, errno, copy_n [x41; x42] 2 range 0, @Value Z 2) in
  underflow rd (ReaderStreamBuffer_new 4 unit tt) 7
  = (mk_ReaderStreamBuffer tt [x41; x42; x00; x00] (Some (0, 0, 2)), 0, 65).
Proof.
  intros rd.
  apply (proj1 (proj2 (X10_underflow_refills unit rd
                         (ReaderStreamBuffer_new 4 unit tt) 7))
           tt 0 [x41; x42; x00; x00] 2).
  - reflexivity.
  - reflexivity.
  - lia.
Defined.

(** ** Blocking-stream bridge: the characters of the stream *)

Lemma skipn_nth_cons {A} (l : list A) (g : nat) (d : A) :
  (g < length l)%nat -> skipn g l = nth g l d :: skipn (S g) l.
Proof.
  revert g. induction l as [| x l IH]; intros g Hg; simpl in Hg; [lia |].
  destruct g as [| g]; [reflexivity |].
  cbn [skipn nth]. apply IH. lia.
Qed.

Section BridgeStream.

Variable B : Z.
Hypothesis HB : 0 < B < 2 ^ 63.
Variable R : Type.
Variable Read_errno : R -> Z -> list byte -> R * Z * list byte * ExpectedSize.
Variable rest : R -> list byte.
Hypothesis Hsrv : Read_errno_serves Read_errno rest.

(** One [sbumpc]: the next byte of what the get area and the reader still
    hold, or [eof] when they hold nothing. *)
Lemma sbumpc_next (sb : ReaderStreamBuffer R) (errno : Z) :
  bridge_ok B sb ->
  exists sb' errno',
    bridge_ok B sb'
    /\ match get_area_bytes sb ++ rest (reader_ sb) with
       | [] =>
           sbumpc Read_errno sb errno = (sb', errno', traits_eof)
           /\ get_area_bytes sb' ++ rest (reader_ sb') = []
       | x :: tl =>
           sbumpc Read_errno sb errno = (sb', errno', to_int_type x)
           /\ get_area_bytes sb' ++ rest (reader_ sb') = tl
       end.
Proof.
  intros [Hlen Harea]. unfold sbumpc.
  destruct (gptr_ge_egptr sb) eqn:Hge.
  - assert (Hnone : get_area_bytes sb = []).
    { unfold get_area_bytes, gptr_ge_egptr in *.
      destruct (get_area sb) as [[[b g] e] |]; [| reflexivity].
      apply Z.leb_le in Hge.
      replace (Z.to_nat (e - g)) with 0%nat by lia. reflexivity. }
    rewrite Hnone. cbn [app].
    unfold underflow. rewrite Hge.
    destruct (Hsrv (reader_ sb) 0 (buf_ sb))
      as (r' & errno' & buf' & s & Hread & Hs & Hpos & Hbytes & Hrest & Hlen').
    rewrite Hread. rewrite Hlen in Hs, Hpos, Hlen'.
    rewrite to_int64_small by lia.
    unfold gptr_eq_egptr, deref_gptr. cbn [get_area buf_ Z.add Z.to_nat].
    destruct (rest (reader_ sb)) as [| x tl] eqn:Erest.
    + change (len (@nil byte)) with 0 in Hs.
      assert (Hs0 : s = 0) by lia. subst s.
      cbn [Z.eqb]. eexists _, _. split; [| split; [reflexivity |]].
      * split; cbn [buf_ get_area]; [exact Hlen' | lia].
      * unfold get_area_bytes. cbn [get_area reader_]. rewrite Hrest. reflexivity.
    + assert (Hs1 : 0 < s) by (apply Hpos; [lia | discriminate]).
      destruct (0 =? s) eqn:E0; [apply Z.eqb_eq in E0; lia |].
      destruct buf' as [| y buf''].
      { change (len (@nil byte)) with 0 in Hlen'. lia. }
      assert (Hsplit : Z.to_nat s = S (Z.to_nat (s - 1))) by lia.
      rewrite Hsplit in Hbytes. cbn [firstn] in Hbytes.
      injection Hbytes as Hy Hbytes. subst y.
      cbn [nth].
      destruct (to_int_type x =? traits_eof) eqn:Eeof.
      { apply Z.eqb_eq in Eeof. pose proof (to_int_type_range x).
        unfold traits_eof in Eeof. lia. }
      eexists _, _. split; [| split; [reflexivity |]].
      * unfold gbump1. cbn [get_area buf_ reader_].
        split; cbn [buf_ get_area]; [exact Hlen' | lia].
      * unfold gbump1, get_area_bytes. cbn [get_area buf_ reader_].
        rewrite Hrest, Hsplit.
        change (Z.to_nat (0 + 1)) with 1%nat.
        replace (Z.to_nat (s - (0 + 1))) with (Z.to_nat (s - 1)) by lia.
        cbn [skipn]. rewrite Hbytes. apply firstn_skipn.
  - unfold gptr_ge_egptr, get_area_bytes, deref_gptr, gbump1 in *.
    destruct (get_area sb) as [[[b g] e] |] eqn:Ea; [| discriminate Hge].
    apply Z.leb_gt in Hge. destruct Harea as [Hg He].
    assert (Hnth : skipn (Z.to_nat g) (buf_ sb)
                   = nth (Z.to_nat g) (buf_ sb) x00
                       :: skipn (S (Z.to_nat g)) (buf_ sb))
      by (apply skipn_nth_cons; unfold len in *; lia).
    rewrite Hnth.
    assert (Hsplit : Z.to_nat (e - g) = S (Z.to_nat (e - (g + 1)))) by lia.
    rewrite Hsplit. cbn [firstn app].
    eexists _, _. split; [| split; [reflexivity |]].
    + split; cbn [buf_ get_area]; [exact Hlen | lia].
    + cbn [get_area buf_ reader_].
      replace (Z.to_nat (g + 1)) with (S (Z.to_nat g)) by lia. reflexivity.
Qed.

Lemma stream_chars_serves (k : nat) :
  forall (sb : ReaderStreamBuffer R) (errno : Z),
    bridge_ok B sb ->
    exists sb' errno',
      stream_chars Read_errno k sb errno
      = (sb', errno',
         map to_int_type (firstn k (get_area_bytes sb ++ rest (reader_ sb))),
         (length (get_area_bytes sb ++ rest (reader_ sb)) <? k)%nat).
Proof.
  induction k as [| k IH]; intros sb errno Hok.
  - eexists _, _. reflexivity.
  - cbn [stream_chars].
    destruct (sbumpc_next sb errno Hok) as (sb1 & errno1 & Hok1 & Hnext).
    destruct (get_area_bytes sb ++ rest (reader_ sb)) as [| x tl].
    + destruct Hnext as [Hs _]. rewrite Hs. cbn [Z.eqb traits_eof].
      eexists _, _. reflexivity.
    + destruct Hnext as [Hs Htl]. rewrite Hs.
      destruct (to_int_type x =? traits_eof) eqn:Eeof.
      { apply Z.eqb_eq in Eeof. pose proof (to_int_type_range x).
        unfold traits_eof in Eeof. lia. }
      destruct (IH sb1 errno1 Hok1) as (sb2 & errno2 & Hrec).
      rewrite Hrec, Htl. eexists _, _. reflexivity.
Qed.

End BridgeStream.

(** X11: the stream of [Reader::GetStream] over a reader that does not fail
    and serves its content in order, with a buffer of at least one byte:
    [k] characters asked for one after the other are the first [k] bytes of
    the reader's content, in order, whatever the buffer size and however
    short the reads, and [eof] is met exactly when [k] exceeds the
    content. *)
Theorem X11_GetStream_serves_content (B : Z) (R : Type)
    (Read_errno : R -> Z -> list byte -> R * Z * list byte * ExpectedSize)
    (rest : R -> list byte) (reader : R) (errno : Z) (k : nat) :
  0 < B < 2 ^ 63 -> Read_errno_serves Read_errno rest ->
  exists sb' errno',
    stream_chars Read_errno k (Reader_GetStream B reader) errno
    = (sb', errno', map to_int_type (firstn k (rest reader)),
       (length (rest reader) <? k)%nat).
Proof.
  intros HB Hsrv.
  apply (stream_chars_serves B HB R Read_errno rest Hsrv k
           (Reader_GetStream B reader) errno).
  unfold bridge_ok, Reader_GetStream, ReaderStreamBuffer_new.
  cbn [buf_ get_area]. split; [| exact I].
  unfold len. rewrite repeat_length. lia.
Qed.

(** X11 on three bytes served two at a time through a buffer of two: four
    characters asked for, three obtained, then [eof]. *)
Lemma X11_GetStream_serves_content_witness :
  let rd := fun (r : ChunkReader) (errno : Z) (range : list byte) =>
              let '(r', range', res) := ChunkReader_Read r range in
              (r', errno, range', res) in
  exists sb' errno',
    stream_chars rd 4 (Reader_GetStream 2 (mk_ChunkReader [x41; x42; x43] 2)) 0
    = (sb', errno', [65; 66; 67], true).
Proof.
  intros rd.
  apply (X11_GetStream_serves_content 2 ChunkReader rd ChunkReader_rest
           (mk_ChunkReader [x41; x42; x43] 2) 0 4).
  - lia.
  - intros r errno range.
    destruct (ChunkReader_serves r range) as (r' & range' & s & Hread & Hrest).
    unfold Read, ChunkReader_Reader in Hread. unfold rd. rewrite Hread.
    exists r', errno, range', s. split; [reflexivity | exact Hrest].
Defined.

(** ** Files *)

Section FileFacts.

Context {S : Type} `{IStream S} `{IFStream S}.

Lemma FileReader_Rewind_failed (r : FileReader S) (errno : Z) (s : S) :
  is_ (stream_reader r) = Some s -> istream_fail s = true ->
  FileReader_Rewind r errno = (r, errno, bad_stream).
Proof.
  intros Hs Hf. unfold FileReader_Rewind. rewrite Hs, Hf. reflexivity.
Qed.

(** [std::istream::read] on a stream that has failed leaves it failed. *)
Hypothesis read_keeps_failed :
  forall (s : S) (errno : Z) (range : list byte),
    istream_fail s = true ->
    istream_fail (fst (fst (istream_read s errno range))) = true.

Lemma FileReader_run_failed (cs : list FileReader_call) :
  forall (r : FileReader S) (errno : Z) (s : S),
    is_ (stream_reader r) = Some s -> istream_fail s = true ->
    exists r' errno' errs s',
      FileReader_run r errno cs = Some (r', errno', errs)
      /\ is_ (stream_reader r') = Some s' /\ istream_fail s' = true
      /\ Forall (fun e => e = bad_stream) errs.
Proof.
  induction cs as [| [range |] rest IH]; intros r errno s Hs Hf;
    cbn [FileReader_run].
  - exists r, errno, [], s. auto.
  - unfold FileReader_Read. destruct r as [path [st]]. cbn [stream_reader is_] in *.
    subst st. rewrite StreamReader_Read_value.
    pose proof (read_keeps_failed s errno range Hf) as Hf'.
    destruct (istream_read s errno range) as [[s1 errno1] range1].
    cbn [fst snd] in *.
    apply (IH _ errno1 s1); [reflexivity | exact Hf'].
  - rewrite (FileReader_Rewind_failed r errno s Hs Hf).
    destruct (IH r errno s Hs Hf) as (r' & errno' & errs & s' & Hrun & Hs' & Hf' & Hall).
    rewrite Hrun. exists r', errno', (bad_stream :: errs), s'.
    split; [reflexivity |]. split; [exact Hs' |]. split; [exact Hf' |].
    constructor; [reflexivity | exact Hall].
Qed.

End FileFacts.

(** X12: a file reader whose [Read] came short (fewer bytes than the range
    holds, as at the end of the file) cannot be rewound any more: given
    that, as for [std::istream::read], a short read leaves the stream
    failed and a read on a failed stream leaves it failed, after such a
    [Read] and whatever [Read] and [Rewind] calls follow, every [Rewind]
    returns the I/O error [Bad stream, cannot rewind], without seeking and
    without touching [errno]. *)
Theorem X12_FileReader_Rewind_after_short_read {S} `{IStream S} `{IFStream S}
    (r r1 : FileReader S) (errno errno1 : Z) (range range1 : list byte) (n : Z) :
  (forall (s s' : S) (e e' : Z) (g g' : list byte),
      istream_read s e g = (s', e', g') ->
      istream_gcount s' < len g -> istream_fail s' = true) ->
  (forall (s : S) (e : Z) (g : list byte),
      istream_fail s = true ->
      istream_fail (fst (fst (istream_read s e g))) = true) ->
  FileReader_Read r errno range = Some (r1, errno1, range1, Value n) ->
  n < len range ->
  forall (cs : list FileReader_call) (errno2 : Z),
    exists r2 errno3 errs,
      FileReader_run r1 errno1 cs = Some (r2, errno3, errs)
      /\ Forall (fun e => e = bad_stream) errs
      /\ FileReader_Rewind r2 errno2 = (r2, errno2, bad_stream)
      /\ is_io_error bad_stream.
Proof.
  intros Hshort Hkeep Hread Hn cs errno2.
  unfold FileReader_Read in Hread. destruct r as [path [[s |]]];
    cbn [stream_reader] in Hread; [| discriminate Hread].
  rewrite StreamReader_Read_value in Hread.
  destruct (istream_read s errno range) as [[s1 e1] g1] eqn:Hrd.
  cbn [fst snd] in Hread. injection Hread as <- <- <- <-.
  pose proof (Hshort _ _ _ _ _ _ Hrd Hn) as Hf.
  destruct (FileReader_run_failed Hkeep cs
              (mk_FileReader path (mk_StreamReader (Some s1))) e1 s1 eq_refl Hf)
    as (r2 & errno3 & errs & s2 & Hrun & Hs2 & Hf2 & Hall).
  exists r2, errno3, errs. split; [exact Hrun |]. split; [exact Hall |].
  split; [apply (FileReader_Rewind_failed r2 errno2 s2 Hs2 Hf2) | reflexivity].
Qed.

Lemma FileStream_short_read_fails (s s' : FileStream) (e e' : Z)
    (g g' : list byte) :
  istream_read s e g = (s', e', g') ->
  istream_gcount s' < len g -> istream_fail s' = true.
Proof.
  cbn [istream_read istream_gcount istream_fail FileStream_IStream].
  unfold FileStream_read. destruct (fs_failed s).
  - intros Hr _. injection Hr as <- _ _. reflexivity.
  - intros Hr Hlt. injection Hr as <- _ _. cbn [fs_gcount fs_failed] in *.
    apply Z.ltb_lt. exact Hlt.
Qed.

Lemma FileStream_read_keeps_failed (s : FileStream) (e : Z) (g : list byte) :
  istream_fail s = true ->
  istream_fail (fst (fst (istream_read s e g))) = true.
Proof.
  cbn [istream_read istream_fail FileStream_IStream]. unfold FileStream_read.
  intros ->. reflexivity.
Qed.

(** X12 on the file [data] of three bytes: opened by the first [Rewind],
    two bytes read, rewound, the same two bytes read, then a read of two
    that gets one; from there every [Rewind] is refused. *)
Lemma X12_FileReader_Rewind_after_short_read_witness :
  let r0 := mk_FileReader "data" (mk_StreamReader (@None FileStream)) in
  exists r1 r2 r1' r3 r4,
    FileReader_Rewind r0 0 = (r1, 0, NoError)
    /\ FileReader_Read r1 0 [x00; x00] = Some (r2, 0, [x01; x02], Value 2)
    /\ FileReader_Rewind r2 0 = (r1', 0, NoError)
    /\ FileReader_Read r1' 0 [x00; x00] = Some (r2, 0, [x01; x02], Value 2)
    /\ FileReader_Read r2 0 [x00; x00] = Some (r3, 0, [x03; x00], Value 1)
    /\ FileReader_run r3 0 [FileRewind; FileRead [x00]; FileRewind]
       = Some (r4, 0, [bad_stream; bad_stream])
    /\ FileReader_Rewind r4 7 = (r4, 7, bad_stream).
Proof.
  intros r0.
  pose (r1 := mk_FileReader "data"
                (mk_StreamReader (Some (mk_FileStream [x01; x02; x03] 0 false 0)))).
  pose (r2 := mk_FileReader "data"
                (mk_StreamReader (Some (mk_FileStream [x01; x02; x03] 2 false 2)))).
  pose (r1' := mk_FileReader "data"
                 (mk_StreamReader (Some (mk_FileStream [x01; x02; x03] 0 false 2)))).
  pose (r3 := mk_FileReader "data"
                (mk_StreamReader (Some (mk_FileStream [x01; x02; x03] 3 true 1)))).
  assert (Hread : FileReader_Read r2 0 [x00; x00]
                  = Some (r3, 0, [x03; x00], Value 1)) by reflexivity.
  destruct (X12_FileReader_Rewind_after_short_read r2 r3 0 0 [x00; x00]
              [x03; x00] 1 FileStream_short_read_fails
              FileStream_read_keeps_failed Hread)
    with (cs := [FileRewind; FileRead [x00]; FileRewind]) (errno2 := 7)
    as (r4 & errno3 & errs & Hrun & Hall & Hrew & _).
  - unfold len. simpl. lia.
  - exists r1, r2, r1', r3, r4.
    split; [reflexivity |]. split; [reflexivity |]. split; [reflexivity |].
    split; [reflexivity |].
    split; [exact Hread |]. split; [| exact Hrew].
    assert (Hrun' : exists r4', FileReader_run r3 0 [FileRewind; FileRead [x00]; FileRewind]
                    = Some (r4', 0, [bad_stream; bad_stream]))
      by (eexists; reflexivity).
    destruct Hrun' as [r4' Hrun']. rewrite Hrun' in Hrun |- *.
    injection Hrun as -> _ _. reflexivity.
Defined.

Lemma file_errors_not_NoError (path : string) (io_errno : Z) :
  open_failed path io_errno <> NoError
  /\ bad_stream <> NoError
  /\ seek_failed io_errno <> NoError.
Proof.
  unfold open_failed, bad_stream, seek_failed, NoError.
  repeat split; intros E; cbn in E; discriminate E.
Qed.

(** X13: [FileReader::Rewind] returns [NoError] exactly when it leaves an
    open stream that has not failed; the stream is then the one it had (or,
    if it had none, the one just opened for its path) after the seek to the
    start, and [errno] is what the seek left of a cleared [errno].  When it
    had no stream and the open fails, the reader stays without a stream (a
    later [Rewind] opens again) and the error carries the [errno] of the
    open in the generic category and names the path. *)
Theorem X13_FileReader_Rewind_result {S} `{IStream S} `{IFStream S}
    (r : FileReader S) (errno : Z) :
  let r' := fst (fst (FileReader_Rewind r errno)) in
  let errno' := snd (fst (FileReader_Rewind r errno)) in
  let e := snd (FileReader_Rewind r errno) in
  (e = NoError
   <-> exists s', is_ (stream_reader r') = Some s' /\ istream_fail s' = false)
  /\ path_ r' = path_ r
  /\ (e = NoError ->
      exists s0,
        (is_ (stream_reader r) = Some s0
         \/ (is_ (stream_reader r) = None
             /\ s0 = fst (ifstream_open (path_ r) 0)))
        /\ is_ (stream_reader r') = Some (fst (istream_seekg_beg s0 0))
        /\ errno' = snd (istream_seekg_beg s0 0))
  /\ (is_ (stream_reader r) = None ->
      istream_fail (fst (ifstream_open (path_ r) 0)) = true ->
      r' = r
      /\ errno' = snd (ifstream_open (path_ r) 0)
      /\ e = open_failed (path_ r) (snd (ifstream_open (path_ r) 0))).
Proof.
  cbv zeta. unfold FileReader_Rewind, OpenSharedIfstream, OpenIfstream.
  destruct r as [path [st]]. cbn [stream_reader is_ path_].
  destruct (file_errors_not_NoError path 0) as (_ & Hbad & _).
  destruct st as [s |].
  - destruct (istream_fail s) eqn:Hf; cbn [fst snd stream_reader is_ path_].
    + split; [| split; [reflexivity |]; split; [| discriminate]].
      * split; [intros E; contradiction | ].
        intros (s' & Hs' & Hf'). injection Hs' as <-. congruence.
      * intros E. contradiction.
    + destruct (istream_seekg_beg s 0) as [s' e'] eqn:Hseek.
      destruct (istream_fail s') eqn:Hf'; cbn [fst snd stream_reader is_ path_].
      * destruct (file_errors_not_NoError path e') as (_ & _ & Hseekerr).
        split; [| split; [reflexivity |]; split; [| discriminate]].
        -- split; [intros E; contradiction |].
           intros (s'' & Hs'' & Hf''). injection Hs'' as <-. congruence.
        -- intros E. contradiction.
      * split; [| split; [reflexivity |]; split; [| discriminate]].
        -- split; [intros _; exists s'; auto | reflexivity].
        -- intros _. exists s. split; [left; reflexivity |].
           rewrite Hseek. split; reflexivity.
  - destruct (ifstream_open path 0) as [s0 e0] eqn:Hopen.
    destruct (istream_fail s0) eqn:Hf0; cbn [fst snd stream_reader is_ path_].
    + destruct (file_errors_not_NoError path e0) as (Hopenerr & _ & _).
      split; [| split; [reflexivity |]; split].
      * split; [intros E; contradiction |].
        intros (s' & Hs' & _). discriminate Hs'.
      * intros E. contradiction.
      * intros _ _. auto.
    + rewrite Hf0.
      destruct (istream_seekg_beg s0 0) as [s' e'] eqn:Hseek.
      destruct (istream_fail s') eqn:Hf'; cbn [fst snd stream_reader is_ path_].
      * destruct (file_errors_not_NoError path e') as (_ & _ & Hseekerr).
        split; [| split; [reflexivity |]; split; [| discriminate]].
        -- split; [intros E; contradiction |].
           intros (s'' & Hs'' & Hf''). injection Hs'' as <-. congruence.
        -- intros E. contradiction.
      * split; [| split; [reflexivity |]; split; [| discriminate]].
        -- split; [intros _; exists s'; auto | reflexivity].
        -- intros _. exists s0. split; [right; split; reflexivity |].
           rewrite Hseek. split; reflexivity.
Qed.

(** X13 on a path that names no file: the open fails with [ENOENT], the
    reader stays without a stream, and the next [Rewind] fails the same
    way. *)
Lemma X13_FileReader_Rewind_result_witness :
  let r := mk_FileReader "none" (mk_StreamReader (@None FileStream)) in
  FileReader_Rewind r 0 = (r, ENOENT, open_failed "none" ENOENT)
  /\ code (open_failed "none" ENOENT) = default_error_condition ENOENT
  /\ FileReader_run r 0 [FileRewind; FileRewind]
     = Some (r, ENOENT, [open_failed "none" ENOENT; open_failed "none" ENOENT]).
Proof.
  intros r.
  destruct (X13_FileReader_Rewind_result r 0) as (_ & _ & _ & Hfail).
  destruct (Hfail eq_refl eq_refl) as (Hr & He & Herr).
  split; [| split; reflexivity].
  rewrite (surjective_pairing (FileReader_Rewind r 0)).
  rewrite (surjective_pairing (fst (FileReader_Rewind r 0))).
  rewrite Hr, He, Herr. reflexivity.
Defined.

(** ** AsyncCopy: what is handed to the writer *)

Lemma firstn_app_ge {A} (l1 l2 : list A) (n : nat) :
  (length l1 <= n)%nat -> firstn n (l1 ++ l2) = l1 ++ firstn (n - length l1) l2.
Proof.
  intros Hn. rewrite firstn_app, firstn_all2 by exact Hn. reflexivity.
Qed.

Lemma firstn_app_le {A} (l1 l2 : list A) (n : nat) :
  (n <= length l1)%nat -> firstn n (l1 ++ l2) = firstn n l1.
Proof.
  intros Hn. rewrite firstn_app.
  replace (n - length l1)%nat with 0%nat by lia.
  rewrite firstn_0, app_nil_r. reflexivity.
Qed.

(** What a functor finds at the front of the buffer after a read of [s]
    bytes that served the source's content, joined with what the source
    still holds, is what the source held before the read. *)
Lemma served_join (data : CopyData) (n s : Z) (range' content : list byte) :
  0 <= s <= n -> len range' = n ->
  firstn (Z.to_nat s) range' = firstn (Z.to_nat s) content ->
  firstn (Z.to_nat s) (buf_after_read data n range')
    ++ skipn (Z.to_nat s) content
  = content.
Proof.
  intros Hs Hlen Hbytes. unfold buf_after_read.
  rewrite firstn_app_le by (unfold len in *; lia).
  rewrite Hbytes. apply firstn_skipn.
Qed.

Section Content.

Variables L B : Z.
Hypothesis HB : 0 < B < 2 ^ 63.
Hypothesis HL : 0 <= L < 2 ^ 63.

Section Writer_AsyncReader_content.

Context {W R : Type} `{Writer W} `{AsyncReader R}.
Variable rest : R -> list byte.
Hypothesis Hsrc : AsyncReader_serves rest.
Hypothesis Hsink : Writer_accepts.

Lemma AsyncCopy_Writer_AsyncReader_Functor_content (fuel : nat) :
  forall (writer : W) (reader : R) (data : CopyData) (s : Z),
    data_ok L B data -> 0 <= s <= Z.min (L - copied data) B ->
    (s = 0 -> L - copied data = 0 \/ rest reader = []) ->
    (Z.to_nat (Z.min (L - copied data) (s + len (rest reader))) < fuel)%nat ->
    written (AsyncCopy_Writer_AsyncReader_Functor fuel writer reader data (Value s))
    = firstn (Z.to_nat (L - copied data))
        (firstn (Z.to_nat s) (buf data) ++ rest reader)
    /\ exists pre,
         AsyncCopy_Writer_AsyncReader_Functor fuel writer reader data (Value s)
         = pre ++ [EvRelease; EvFinished NoError].
Proof.
  induction fuel as [| fuel IH]; intros writer reader data s Hdata Hs Hs0 Hfuel;
    [lia |].
  cbn [AsyncCopy_Writer_AsyncReader_Functor].
  pose proof Hdata as (Hl & Hb & Hc).
  pose proof (len_nonneg (rest reader)) as Hrest0.
  destruct (s =? 0) eqn:Ez.
  { apply Z.eqb_eq in Ez. subst s. split; [| exists []; reflexivity].
    cbn [written CallFinishedHandler Z.to_nat firstn app].
    destruct (Hs0 eq_refl) as [Hzero | Hnil].
    - rewrite Hzero. reflexivity.
    - rewrite Hnil. rewrite firstn_nil. reflexivity. }
  apply Z.eqb_neq in Ez.
  set (bytes := firstn (Z.to_nat s) (buf data)).
  assert (Hbytes : len bytes = s) by (apply len_firstn_le; lia).
  destruct (Hsink writer bytes) as [writer' ->].
  rewrite Hbytes, Z.eqb_refl. cbn [negb].
  destruct (data_ok_after_write L B data s HL Hdata) as [Hcopied Hdata1]; [lia |].
  set (data1 := mk_CopyData (buf data) (to_int64 (copied data + s)) (limit data)) in *.
  assert (Hc1 : copied data1 = copied data + s) by exact Hcopied.
  set (to_copy := Z.min (L - (copied data + s)) B).
  assert (Htc : to_copy_of data1 = to_copy)
    by (rewrite (to_copy_of_ok L B data1 HB HL Hdata1), Hc1; reflexivity).
  rewrite Htc.
  assert (Hfront : firstn (Z.to_nat (L - copied data)) (bytes ++ rest reader)
                   = bytes ++ firstn (Z.to_nat (L - copied data - s)) (rest reader)).
  { rewrite firstn_app_ge by (unfold len in Hbytes; lia).
    f_equal. f_equal. unfold len in Hbytes. lia. }
  rewrite Hfront.
  destruct (to_copy =? 0) eqn:Et.
  { apply Z.eqb_eq in Et. split.
    - cbn [written CallFinishedHandler].
      replace (L - copied data - s) with 0 by (unfold to_copy in Et; lia).
      reflexivity.
    - exists [EvWrite bytes (Inline (Value s))]. reflexivity. }
  apply Z.eqb_neq in Et.
  assert (Hto : 0 < to_copy <= B) by (unfold to_copy in *; lia).
  assert (Hrange : len (firstn (Z.to_nat to_copy) (buf data1)) = to_copy)
    by (apply len_firstn_le; cbn; lia).
  destruct (Hsrc reader (firstn (Z.to_nat to_copy) (buf data1)))
    as (reader' & range' & sub' & s' & Hread & Hh & Hs' & Hpos & Hserved & Hrest'
        & Hlen').
  rewrite Hread. rewrite Hrange in Hs', Hpos, Hlen'.
  remember (mk_CopyData (buf_after_read data1 to_copy range')
              (copied data1) (limit data1)) as data2 eqn:Hdata2.
  assert (Hc2 : copied data2 = copied data + s) by (subst data2; exact Hc1).
  assert (Hb2 : buf data2 = buf_after_read data1 to_copy range')
    by (subst data2; reflexivity).
  assert (Hok2 : data_ok L B data2)
    by (subst data2; apply data_ok_after_read; [exact Hdata1 | lia | exact Hlen']).
  assert (Hlen2 : len (rest reader') = len (rest reader) - s')
    by (rewrite Hrest'; apply len_skipn; lia).
  destruct (IH writer' reader' data2 s' Hok2) as [Hw [pre Hpre]].
  { rewrite Hc2. unfold to_copy in *. lia. }
  { intros E0. right. subst s'.
    destruct (rest reader) as [| x tl] eqn:Er; [rewrite Hrest'; reflexivity |].
    assert (0 < 0) by (apply Hpos; [lia | discriminate]). lia. }
  { rewrite Hc2, Hlen2. lia. }
  assert (Hjoin : firstn (Z.to_nat s') (buf data2) ++ rest reader' = rest reader).
  { rewrite Hb2, Hrest'. apply served_join; [lia | exact Hlen' | exact Hserved]. }
  rewrite Hjoin, Hc2 in Hw.
  replace (L - (copied data + s)) with (L - copied data - s) in Hw by lia.
  assert (Hgoal : forall sub0,
            written (EvWrite bytes (Inline (Value s)) :: EvRead to_copy sub0
                       :: AsyncCopy_Writer_AsyncReader_Functor fuel writer'
                            reader' data2 (Value s'))
            = bytes ++ firstn (Z.to_nat (L - copied data - s)) (rest reader)
            /\ exists pre0,
                 EvWrite bytes (Inline (Value s)) :: EvRead to_copy sub0
                   :: AsyncCopy_Writer_AsyncReader_Functor fuel writer' reader'
                        data2 (Value s')
                 = pre0 ++ [EvRelease; EvFinished NoError]).
  { intros sub0. split.
    - cbn [written]. rewrite Hw. reflexivity.
    - exists (EvWrite bytes (Inline (Value s)) :: EvRead to_copy sub0 :: pre).
      rewrite Hpre. reflexivity. }
  destruct (handed_value_cases _ _ Hh) as [-> | ->]; apply Hgoal.
Qed.

Lemma AsyncCopy_Writer_AsyncReader_content (dst : W) (src : R) (fuel : nat) :
  (Z.to_nat (Z.min L (len (rest src))) < fuel)%nat ->
  written (AsyncCopy_Writer_AsyncReader B fuel dst src L)
  = firstn (Z.to_nat L) (rest src)
  /\ exists pre,
       AsyncCopy_Writer_AsyncReader B fuel dst src L
       = pre ++ [EvRelease; EvFinished NoError].
Proof.
  intros Hfuel. unfold AsyncCopy_Writer_AsyncReader.
  rewrite (first_to_copy L B HB HL).
  pose proof (CopyData_new_ok L B (proj1 HB) (proj1 HL)) as Hdata.
  set (data := CopyData_new B L) in *.
  set (n0 := Z.min L B).
  assert (Hrange : len (firstn (Z.to_nat n0) (buf data)) = n0).
  { apply len_firstn_le. destruct Hdata as (_ & Hb & _). unfold n0. lia. }
  destruct (Hsrc src (firstn (Z.to_nat n0) (buf data)))
    as (src' & range' & sub & s & Hread & Hh & Hs & Hpos & Hserved & Hrest'
        & Hlen').
  rewrite Hread. rewrite Hrange in Hs, Hpos, Hlen'.
  pose proof (len_nonneg (rest src)) as Hrest0.
  remember (mk_CopyData (buf_after_read data n0 range') (copied data) (limit data))
    as data1 eqn:Hdata1.
  assert (Hc1 : copied data1 = 0) by (subst data1; reflexivity).
  assert (Hb1 : buf data1 = buf_after_read data n0 range')
    by (subst data1; reflexivity).
  assert (Hok1 : data_ok L B data1)
    by (subst data1; apply data_ok_after_read;
        [exact Hdata | unfold n0; lia | exact Hlen']).
  assert (Hlen1 : len (rest src') = len (rest src) - s)
    by (rewrite Hrest'; apply len_skipn; lia).
  destruct (AsyncCopy_Writer_AsyncReader_Functor_content fuel dst src' data1 s Hok1)
    as [Hw [pre Hpre]].
  { rewrite Hc1. unfold n0 in *. lia. }
  { intros E0. subst s. rewrite Hc1.
    destruct (Z.eq_dec L 0) as [HL0 | HL0]; [left; lia | right].
    destruct (rest src) as [| x tl] eqn:Er; [rewrite Hrest'; reflexivity |].
    assert (0 < 0) by (apply Hpos; [unfold n0; lia | discriminate]). lia. }
  { rewrite Hc1, Hlen1. replace (s + (len (rest src) - s)) with (len (rest src)) by lia.
    rewrite Z.sub_0_r. exact Hfuel. }
  assert (Hjoin : firstn (Z.to_nat s) (buf data1) ++ rest src' = rest src).
  { rewrite Hb1, Hrest'. apply served_join; [lia | exact Hlen' | exact Hserved]. }
  rewrite Hjoin, Hc1, Z.sub_0_r in Hw.
  assert (Hgoal : forall sub0,
            written (EvRead n0 sub0
                       :: AsyncCopy_Writer_AsyncReader_Functor fuel dst src'
                            data1 (Value s))
            = firstn (Z.to_nat L) (rest src)
            /\ exists pre0,
                 EvRead n0 sub0
                   :: AsyncCopy_Writer_AsyncReader_Functor fuel dst src' data1
                        (Value s)
                 = pre0 ++ [EvRelease; EvFinished NoError]).
  { intros sub0. split.
    - cbn [written]. exact Hw.
    - exists (EvRead n0 sub0 :: pre). rewrite Hpre. reflexivity. }
  destruct (handed_value_cases _ _ Hh) as [-> | ->]; apply Hgoal.
Qed.

End Writer_AsyncReader_content.

Section AsyncWriter_Reader_content.

Context {W R : Type} `{AsyncWriter W} `{Reader R}.
Variable rest : R -> list byte.
Hypothesis Hsrc : Reader_serves rest.
Hypothesis Hsink : AsyncWriter_accepts.

Lemma AsyncCopy_AsyncWriter_Reader_Functor_content (fuel : nat) :
  forall (writer : W) (reader : R) (data : CopyData) (e : Z),
    data_ok L B data -> 0 <= e -> copied data + e <= L ->
    (Z.to_nat (Z.min (L - copied data - e) (len (rest reader))) < fuel)%nat ->
    written (AsyncCopy_AsyncWriter_Reader_Functor fuel writer reader data e (Value e))
    = firstn (Z.to_nat (L - copied data - e)) (rest reader)
    /\ exists pre,
         AsyncCopy_AsyncWriter_Reader_Functor fuel writer reader data e (Value e)
         = pre ++ [EvRelease; EvFinished NoError].
Proof.
  induction fuel as [| fuel IH]; intros writer reader data e Hdata He Hbudget Hfuel;
    [lia |].
  cbn [AsyncCopy_AsyncWriter_Reader_Functor].
  pose proof Hdata as (Hl & Hb & Hc).
  pose proof (len_nonneg (rest reader)) as Hrest0.
  rewrite Z.eqb_refl. cbn [negb].
  destruct (data_ok_after_write L B data e HL Hdata) as [Hcopied Hdata1]; [lia |].
  set (data1 := mk_CopyData (buf data) (to_int64 (copied data + e)) (limit data)) in *.
  assert (Hc1 : copied data1 = copied data + e) by exact Hcopied.
  set (to_copy := Z.min (L - (copied data + e)) B).
  assert (Htc : to_copy_of data1 = to_copy)
    by (rewrite (to_copy_of_ok L B data1 HB HL Hdata1), Hc1; reflexivity).
  rewrite Htc.
  destruct (to_copy =? 0) eqn:Et.
  { apply Z.eqb_eq in Et. split; [| exists []; reflexivity].
    cbn [written CallFinishedHandler].
    replace (L - copied data - e) with 0 by (unfold to_copy in Et; lia).
    reflexivity. }
  apply Z.eqb_neq in Et.
  assert (Hto : 0 < to_copy <= B) by (unfold to_copy in *; lia).
  assert (Hrange : len (firstn (Z.to_nat to_copy) (buf data1)) = to_copy)
    by (apply len_firstn_le; cbn; lia).
  destruct (Hsrc reader (firstn (Z.to_nat to_copy) (buf data1)))
    as (reader' & range' & s' & Hread & Hs' & Hpos & Hserved & Hrest' & Hlen').
  rewrite Hread. rewrite Hrange in Hs', Hpos, Hlen'.
  remember (mk_CopyData (buf_after_read data1 to_copy range')
              (copied data1) (limit data1)) as data2 eqn:Hdata2.
  assert (Hc2 : copied data2 = copied data + e) by (subst data2; exact Hc1).
  assert (Hb2 : buf data2 = buf_after_read data1 to_copy range')
    by (subst data2; reflexivity).
  assert (Hok2 : data_ok L B data2)
    by (subst data2; apply data_ok_after_read; [exact Hdata1 | lia | exact Hlen']).
  destruct (s' =? 0) eqn:Es.
  { apply Z.eqb_eq in Es. subst s'.
    assert (Hnil : rest reader = []).
    { destruct (rest reader) as [| x tl] eqn:Er; [reflexivity |].
      assert (0 < 0) by (apply Hpos; [lia | discriminate]). lia. }
    split.
    - cbn [written CallFinishedHandler]. rewrite Hnil, firstn_nil. reflexivity.
    - exists [EvRead to_copy (Inline (Value 0))]. reflexivity. }
  apply Z.eqb_neq in Es.
  set (bytes' := firstn (Z.to_nat s') (buf data2)).
  assert (Hbytes' : len bytes' = s').
  { apply len_firstn_le. destruct Hok2 as (_ & Hb2' & _). lia. }
  assert (Hcontent : bytes' = firstn (Z.to_nat s') (rest reader)).
  { unfold bytes'. rewrite Hb2. unfold buf_after_read.
    rewrite firstn_app_le by (unfold len in *; lia). exact Hserved. }
  destruct (Hsink writer bytes') as (writer' & sub' & Hwrite & Hh).
  rewrite Hwrite. rewrite Hbytes' in Hh.
  assert (Hlen2 : len (rest reader') = len (rest reader) - s')
    by (rewrite Hrest'; apply len_skipn; lia).
  destruct (IH writer' reader' data2 s' Hok2) as [Hw [pre Hpre]].
  { lia. }
  { rewrite Hc2. unfold to_copy in *. lia. }
  { rewrite Hc2, Hlen2. lia. }
  rewrite Hc2, Hrest' in Hw.
  assert (Hsplit : firstn (Z.to_nat (L - copied data - e)) (rest reader)
                   = bytes' ++ firstn (Z.to_nat (L - (copied data + e) - s'))
                                 (skipn (Z.to_nat s') (rest reader))).
  { rewrite Hcontent.
    replace (Z.to_nat (L - copied data - e))
      with (Z.to_nat s' + Z.to_nat (L - (copied data + e) - s'))%nat
      by (unfold to_copy in *; lia).
    apply firstn_add_skipn. }
  assert (Hgoal : forall sub0,
            written (EvRead to_copy (Inline (Value s')) :: EvWrite bytes' sub0
                       :: AsyncCopy_AsyncWriter_Reader_Functor fuel writer'
                            reader' data2 s' (Value s'))
            = firstn (Z.to_nat (L - copied data - e)) (rest reader)
            /\ exists pre0,
                 EvRead to_copy (Inline (Value s')) :: EvWrite bytes' sub0
                   :: AsyncCopy_AsyncWriter_Reader_Functor fuel writer' reader'
                        data2 s' (Value s')
                 = pre0 ++ [EvRelease; EvFinished NoError]).
  { intros sub0. split.
    - cbn [written]. rewrite Hw, Hsplit. reflexivity.
    - exists (EvRead to_copy (Inline (Value s')) :: EvWrite bytes' sub0 :: pre).
      rewrite Hpre. reflexivity. }
  destruct (handed_value_cases _ _ Hh) as [-> | ->]; apply Hgoal.
Qed.

Lemma AsyncCopy_AsyncWriter_Reader_content (dst : W) (src : R) (fuel : nat) :
  (Z.to_nat (Z.min L (len (rest src))) < fuel)%nat ->
  written (AsyncCopy_AsyncWriter_Reader B fuel dst src L)
  = firstn (Z.to_nat L) (rest src)
  /\ exists pre,
       AsyncCopy_AsyncWriter_Reader B fuel dst src L
       = pre ++ [EvRelease; EvFinished NoError].
Proof.
  intros Hfuel. unfold AsyncCopy_AsyncWriter_Reader.
  pose proof (CopyData_new_ok L B (proj1 HB) (proj1 HL)) as Hdata.
  destruct (AsyncCopy_AsyncWriter_Reader_Functor_content fuel dst src
              (CopyData_new B L) 0 Hdata) as [Hw Hpre];
    try (cbn [copied CopyData_new]; lia).
  cbn [copied CopyData_new] in Hw. rewrite !Z.sub_0_r in Hw.
  split; [exact Hw | exact Hpre].
Qed.

End AsyncWriter_Reader_content.

Section AsyncWriter_AsyncReader_content.

Context {W R : Type} `{AsyncWriter W} `{AsyncReader R}.
Variable rest : R -> list byte.
Hypothesis Hsrc : AsyncReader_serves rest.
Hypothesis Hsink : AsyncWriter_accepts.

Lemma AsyncCopy_Functors_content (fuel : nat) :
  (forall (writer : W) (reader : R) (data : CopyData) (s : Z),
      data_ok L B data -> 0 <= s <= Z.min (L - copied data) B ->
      (s = 0 -> L - copied data = 0 \/ rest reader = []) ->
      (2 * Z.to_nat (Z.min (L - copied data) (s + len (rest reader))) < fuel)%nat ->
      written (AsyncCopyReaderFunctor fuel writer reader data (Value s))
      = firstn (Z.to_nat (L - copied data))
          (firstn (Z.to_nat s) (buf data) ++ rest reader)
      /\ exists pre,
           AsyncCopyReaderFunctor fuel writer reader data (Value s)
           = pre ++ [EvRelease; EvFinished NoError])
  /\ (forall (writer : W) (reader : R) (data : CopyData) (e : Z),
         data_ok L B data -> 0 <= e -> copied data + e <= L ->
         (2 * Z.to_nat (Z.min (L - copied data - e) (len (rest reader))) + 1
          < fuel)%nat ->
         written (AsyncCopyWriterFunctor fuel writer reader data e (Value e))
         = firstn (Z.to_nat (L - copied data - e)) (rest reader)
         /\ exists pre,
              AsyncCopyWriterFunctor fuel writer reader data e (Value e)
              = pre ++ [EvRelease; EvFinished NoError]).
Proof.
  induction fuel as [| fuel [IHR IHW]]; [split; intros; lia |].
  split.
  - intros writer reader data s Hdata Hs Hs0 Hfuel.
    cbn [AsyncCopyReaderFunctor].
    pose proof Hdata as (Hl & Hb & Hc).
    pose proof (len_nonneg (rest reader)) as Hrest0.
    destruct (s =? 0) eqn:Ez.
    { apply Z.eqb_eq in Ez. subst s. split; [| exists []; reflexivity].
      cbn [written CallFinishedHandler Z.to_nat firstn app].
      destruct (Hs0 eq_refl) as [Hzero | Hnil].
      - rewrite Hzero. reflexivity.
      - rewrite Hnil. rewrite firstn_nil. reflexivity. }
    apply Z.eqb_neq in Ez.
    set (bytes := firstn (Z.to_nat s) (buf data)).
    assert (Hbytes : len bytes = s) by (apply len_firstn_le; lia).
    destruct (Hsink writer bytes) as (writer' & wsub & Hwrite & Hh).
    rewrite Hwrite. rewrite Hbytes in Hh.
    destruct (IHW writer' reader data s Hdata) as [Hw [pre Hpre]]; try lia.
    assert (Hfront : firstn (Z.to_nat (L - copied data)) (bytes ++ rest reader)
                     = bytes ++ firstn (Z.to_nat (L - copied data - s)) (rest reader)).
    { rewrite firstn_app_ge by (unfold len in Hbytes; lia).
      f_equal. f_equal. unfold len in Hbytes. lia. }
    assert (Hgoal : forall sub0,
              written (EvWrite bytes sub0
                         :: AsyncCopyWriterFunctor fuel writer' reader data s
                              (Value s))
              = firstn (Z.to_nat (L - copied data)) (bytes ++ rest reader)
              /\ exists pre0,
                   EvWrite bytes sub0
                     :: AsyncCopyWriterFunctor fuel writer' reader data s (Value s)
                   = pre0 ++ [EvRelease; EvFinished NoError]).
    { intros sub0. split.
      - cbn [written]. rewrite Hw, Hfront. reflexivity.
      - exists (EvWrite bytes sub0 :: pre). rewrite Hpre. reflexivity. }
    destruct (handed_value_cases _ _ Hh) as [-> | ->]; apply Hgoal.
  - intros writer reader data e Hdata He Hbudget Hfuel.
    cbn [AsyncCopyWriterFunctor].
    pose proof Hdata as (Hl & Hb & Hc).
    pose proof (len_nonneg (rest reader)) as Hrest0.
    rewrite Z.eqb_refl. cbn [negb].
    destruct (data_ok_after_write L B data e HL Hdata) as [Hcopied Hdata1]; [lia |].
    set (data1 := mk_CopyData (buf data) (to_int64 (copied data + e)) (limit data)) in *.
    assert (Hc1 : copied data1 = copied data + e) by exact Hcopied.
    set (to_copy := Z.min (L - (copied data + e)) B).
    assert (Htc : to_copy_of data1 = to_copy)
      by (rewrite (to_copy_of_ok L B data1 HB HL Hdata1), Hc1; reflexivity).
    rewrite Htc.
    destruct (to_copy =? 0) eqn:Et.
    { apply Z.eqb_eq in Et. split; [| exists []; reflexivity].
      cbn [written CallFinishedHandler].
      replace (L - copied data - e) with 0 by (unfold to_copy in Et; lia).
      reflexivity. }
    apply Z.eqb_neq in Et.
    assert (Hto : 0 < to_copy <= B) by (unfold to_copy in *; lia).
    assert (Hrange : len (firstn (Z.to_nat to_copy) (buf data1)) = to_copy)
      by (apply len_firstn_le; cbn; lia).
    destruct (Hsrc reader (firstn (Z.to_nat to_copy) (buf data1)))
      as (reader' & range' & sub' & s' & Hread & Hh & Hs' & Hpos & Hserved & Hrest'
          & Hlen').
    rewrite Hread. rewrite Hrange in Hs', Hpos, Hlen'.
    remember (mk_CopyData (buf_after_read data1 to_copy range')
                (copied data1) (limit data1)) as data2 eqn:Hdata2.
    assert (Hc2 : copied data2 = copied data + e) by (subst data2; exact Hc1).
    assert (Hb2 : buf data2 = buf_after_read data1 to_copy range')
      by (subst data2; reflexivity).
    assert (Hok2 : data_ok L B data2)
      by (subst data2; apply data_ok_after_read; [exact Hdata1 | lia | exact Hlen']).
    assert (Hlen2 : len (rest reader') = len (rest reader) - s')
      by (rewrite Hrest'; apply len_skipn; lia).
    destruct (IHR writer reader' data2 s' Hok2) as [Hw [pre Hpre]].
    { rewrite Hc2. unfold to_copy in *. lia. }
    { intros E0. right. subst s'.
      destruct (rest reader) as [| x tl] eqn:Er; [rewrite Hrest'; reflexivity |].
      assert (0 < 0) by (apply Hpos; [lia | discriminate]). lia. }
    { rewrite Hc2, Hlen2.
      replace (s' + (len (rest reader) - s')) with (len (rest reader)) by lia.
      replace (L - (copied data + e)) with (L - copied data - e) by lia. lia. }
    assert (Hjoin : firstn (Z.to_nat s') (buf data2) ++ rest reader' = rest reader).
    { rewrite Hb2, Hrest'. apply served_join; [lia | exact Hlen' | exact Hserved]. }
    rewrite Hjoin, Hc2 in Hw.
    replace (L - (copied data + e)) with (L - copied data - e) in Hw by lia.
    assert (Hgoal : forall sub0,
              written (EvRead to_copy sub0
                         :: AsyncCopyReaderFunctor fuel writer reader' data2
                              (Value s'))
              = firstn (Z.to_nat (L - copied data - e)) (rest reader)
              /\ exists pre0,
                   EvRead to_copy sub0
                     :: AsyncCopyReaderFunctor fuel writer reader' data2 (Value s')
                   = pre0 ++ [EvRelease; EvFinished NoError]).
    { intros sub0. split.
      - cbn [written]. exact Hw.
      - exists (EvRead to_copy sub0 :: pre). rewrite Hpre. reflexivity. }
    destruct (handed_value_cases _ _ Hh) as [-> | ->]; apply Hgoal.
Qed.

Lemma AsyncCopy_AsyncWriter_AsyncReader_content (dst : W) (src : R) (fuel : nat) :
  (2 * Z.to_nat (Z.min L (len (rest src))) < fuel)%nat ->
  written (AsyncCopy_AsyncWriter_AsyncReader B fuel dst src L)
  = firstn (Z.to_nat L) (rest src)
  /\ exists pre,
       AsyncCopy_AsyncWriter_AsyncReader B fuel dst src L
       = pre ++ [EvRelease; EvFinished NoError].
Proof.
  intros Hfuel. unfold AsyncCopy_AsyncWriter_AsyncReader.
  rewrite (first_to_copy L B HB HL).
  pose proof (CopyData_new_ok L B (proj1 HB) (proj1 HL)) as Hdata.
  set (data := CopyData_new B L) in *.
  set (n0 := Z.min L B).
  assert (Hrange : len (firstn (Z.to_nat n0) (buf data)) = n0).
  { apply len_firstn_le. destruct Hdata as (_ & Hb & _). unfold n0. lia. }
  destruct (Hsrc src (firstn (Z.to_nat n0) (buf data)))
    as (src' & range' & sub & s & Hread & Hh & Hs & Hpos & Hserved & Hrest'
        & Hlen').
  rewrite Hread. rewrite Hrange in Hs, Hpos, Hlen'.
  pose proof (len_nonneg (rest src)) as Hrest0.
  remember (mk_CopyData (buf_after_read data n0 range') (copied data) (limit data))
    as data1 eqn:Hdata1.
  assert (Hc1 : copied data1 = 0) by (subst data1; reflexivity).
  assert (Hb1 : buf data1 = buf_after_read data n0 range')
    by (subst data1; reflexivity).
  assert (Hok1 : data_ok L B data1)
    by (subst data1; apply data_ok_after_read;
        [exact Hdata | unfold n0; lia | exact Hlen']).
  assert (Hlen1 : len (rest src') = len (rest src) - s)
    by (rewrite Hrest'; apply len_skipn; lia).
  destruct (proj1 (AsyncCopy_Functors_content fuel) dst src' data1 s Hok1)
    as [Hw [pre Hpre]].
  { rewrite Hc1. unfold n0 in *. lia. }
  { intros E0. subst s. rewrite Hc1.
    destruct (Z.eq_dec L 0) as [HL0 | HL0]; [left; lia | right].
    destruct (rest src) as [| x tl] eqn:Er; [rewrite Hrest'; reflexivity |].
    assert (0 < 0) by (apply Hpos; [unfold n0; lia | discriminate]). lia. }
  { rewrite Hc1, Hlen1. replace (s + (len (rest src) - s)) with (len (rest src)) by lia.
    rewrite Z.sub_0_r. exact Hfuel. }
  assert (Hjoin : firstn (Z.to_nat s) (buf data1) ++ rest src' = rest src).
  { rewrite Hb1, Hrest'. apply served_join; [lia | exact Hlen' | exact Hserved]. }
  rewrite Hjoin, Hc1, Z.sub_0_r in Hw.
  assert (Hgoal : forall sub0,
            written (EvRead n0 sub0
                       :: AsyncCopyReaderFunctor fuel dst src' data1 (Value s))
            = firstn (Z.to_nat L) (rest src)
            /\ exists pre0,
                 EvRead n0 sub0 :: AsyncCopyReaderFunctor fuel dst src' data1 (Value s)
                 = pre0 ++ [EvRelease; EvFinished NoError]).
  { intros sub0. split.
    - cbn [written]. exact Hw.
    - exists (EvRead n0 sub0 :: pre). rewrite Hpre. reflexivity. }
  destruct (handed_value_cases _ _ Hh) as [-> | ->]; apply Hgoal.
Qed.

End AsyncWriter_AsyncReader_content.

End Content.

Lemma ChunkReader_async_serves :
  @AsyncReader_serves ChunkReader _ ChunkReader_rest.
Proof.
  intros r range.
  destruct (ChunkReader_serves r range) as (r' & range' & s & Hread & Hrest).
  unfold Read, ChunkReader_Reader in Hread.
  exists r', range', (Inline (Value s)), s.
  split; [| split; [reflexivity | exact Hrest]].
  unfold AsyncRead, ChunkReader_AsyncReader. rewrite Hread. reflexivity.
Qed.

(** X14: each of the three [AsyncCopy] shapes with a limit [L], from a
    source that does not fail and serves its content in order into a writer
    that takes everything, hands the writer exactly the first [L] bytes of
    the source's content, in order (all of it when the source holds less
    than [L]), whatever the buffer size and however short the reads, and
    then calls the finished handler with [NoError]. *)
Theorem X14_AsyncCopy_transfers_content (B L : Z) :
  0 < B < 2 ^ 63 -> 0 <= L < 2 ^ 63 ->
  (forall (W R : Type) (HW : Writer W) (HR : AsyncReader R)
          (rest : R -> list byte) (dst : W) (src : R) (fuel : nat),
      AsyncReader_serves rest -> Writer_accepts ->
      (Z.to_nat (Z.min L (len (rest src))) < fuel)%nat ->
      written (AsyncCopy_Writer_AsyncReader B fuel dst src L)
      = firstn (Z.to_nat L) (rest src)
      /\ exists pre,
           AsyncCopy_Writer_AsyncReader B fuel dst src L
           = pre ++ [EvRelease; EvFinished NoError])
  /\ (forall (W R : Type) (HW : AsyncWriter W) (HR : Reader R)
             (rest : R -> list byte) (dst : W) (src : R) (fuel : nat),
         Reader_serves rest -> AsyncWriter_accepts ->
         (Z.to_nat (Z.min L (len (rest src))) < fuel)%nat ->
         written (AsyncCopy_AsyncWriter_Reader B fuel dst src L)
         = firstn (Z.to_nat L) (rest src)
         /\ exists pre,
              AsyncCopy_AsyncWriter_Reader B fuel dst src L
              = pre ++ [EvRelease; EvFinished NoError])
  /\ (forall (W R : Type) (HW : AsyncWriter W) (HR : AsyncReader R)
             (rest : R -> list byte) (dst : W) (src : R) (fuel : nat),
         AsyncReader_serves rest -> AsyncWriter_accepts ->
         (2 * Z.to_nat (Z.min L (len (rest src))) < fuel)%nat ->
         written (AsyncCopy_AsyncWriter_AsyncReader B fuel dst src L)
         = firstn (Z.to_nat L) (rest src)
         /\ exists pre,
              AsyncCopy_AsyncWriter_AsyncReader B fuel dst src L
              = pre ++ [EvRelease; EvFinished NoError]).
Proof.
  intros HB HL. split; [| split];
    intros W R HW HR rest dst src fuel Hsrc Hsink Hfuel.
  - apply (AsyncCopy_Writer_AsyncReader_content L B HB HL rest Hsrc Hsink dst src
             fuel Hfuel).
  - apply (AsyncCopy_AsyncWriter_Reader_content L B HB HL rest Hsrc Hsink dst src
             fuel Hfuel).
  - apply (AsyncCopy_AsyncWriter_AsyncReader_content L B HB HL rest Hsrc Hsink dst
             src fuel Hfuel).
Qed.

(** X14 on five bytes served two at a time through a buffer of two, with a
    limit of three: the sink is handed the first three bytes. *)
Lemma X14_AsyncCopy_transfers_content_witness :
  written (AsyncCopy_Writer_AsyncReader 2 4 ([] : Sink)
             (mk_ChunkReader [x01; x02; x03; x04; x05] 2) 3)
  = [x01; x02; x03]
  /\ written (AsyncCopy_AsyncWriter_Reader 2 4 ([] : Sink)
                (mk_ChunkReader [x01; x02; x03; x04; x05] 2) 3)
     = [x01; x02; x03]
  /\ written (AsyncCopy_AsyncWriter_AsyncReader 2 7 ([] : Sink)
                (mk_ChunkReader [x01; x02; x03; x04; x05] 2) 3)
     = [x01; x02; x03].
Proof.
  assert (HB : 0 < 2 < 2 ^ 63) by lia.
  assert (HL : 0 <= 3 < 2 ^ 63) by lia.
  destruct (X14_AsyncCopy_transfers_content 2 3 HB HL) as (H1 & H2 & H3).
  pose (src := mk_ChunkReader [x01; x02; x03; x04; x05] 2).
  split; [| split].
  - destruct (H1 Sink ChunkReader _ _ ChunkReader_rest [] src 4%nat
                ChunkReader_async_serves Sink_accepts) as [Hw _];
      [unfold len; simpl; lia | exact Hw].
  - destruct (H2 Sink ChunkReader _ _ ChunkReader_rest [] src 4%nat
                ChunkReader_serves Sink_async_accepts) as [Hw _];
      [unfold len; simpl; lia | exact Hw].
  - destruct (H3 Sink ChunkReader _ _ ChunkReader_rest [] src 7%nat
                ChunkReader_async_serves Sink_async_accepts) as [Hw _];
      [unfold len; simpl; lia | exact Hw].
Defined.

(** ** Repeated asynchronous reads: reading a source to its end *)

Lemma sum_le_length (sizes : list Z) (m : Z) :
  Forall (fun n => 0 < n <= m) sizes ->
  fold_right Z.add 0 sizes <= m * Z.of_nat (length sizes).
Proof.
  induction 1 as [| n sizes Hn Hall IH]; cbn [fold_right length]; [lia |].
  rewrite Nat2Z.inj_succ. nia.
Qed.

Section RepeatedStack.

Context {R : Type} `{AsyncReader R}.
Variable Hs : Type.
Variable limit : nat.

(** Every invocation of the handler in a run that returned was within the
    stack. *)
Lemma ScheduleNextRead_calls_within
    (handler : Hs -> list byte -> ExpectedSize -> Hs * Repeat) (fuel : nat) :
  forall stack reader range h repeat r' g' h' calls ended,
    ScheduleNextRead_calls handler limit fuel stack reader range h repeat
    = Some (r', g', h', calls, ended) ->
    Forall (fun c => (length (fst c) <= limit)%nat) calls.
Proof.
  induction fuel as [| fuel IH];
    intros stack reader range h repeat r' g' h' calls ended Hrun;
    cbn [ScheduleNextRead_calls] in Hrun.
  - injection Hrun as _ _ _ <- _. constructor.
  - destruct repeat; [| injection Hrun as _ _ _ <- _; constructor].
    destruct (length (F_AsyncRead :: stack) <=? limit)%nat; [| discriminate Hrun].
    destruct (AsyncRead reader range) as [[reader1 range1] [err | res | res]].
    + destruct (Error_eqb err NoError);
        [injection Hrun as _ _ _ <- _; constructor |].
      destruct (length (F_handler :: stack) <=? limit)%nat eqn:El;
        [| discriminate Hrun].
      destruct (handler h range1 (Unexpected err)) as [h1 rep1].
      destruct (ScheduleNextRead_calls handler limit fuel stack reader1 range1 h1 rep1)
        as [[[[[r2 g2] h2] calls2] ended2] |] eqn:Hrec; [| discriminate Hrun].
      injection Hrun as _ _ _ <- _.
      constructor; [apply Nat.leb_le; exact El | eapply IH; exact Hrec].
    + destruct (length (F_handler :: F_Functor :: F_AsyncRead :: stack) <=? limit)%nat
        eqn:El; [| discriminate Hrun].
      destruct (handler h range1 res) as [h1 rep1].
      destruct (ScheduleNextRead_calls handler limit fuel
                  (F_ScheduleNextRead :: F_Functor :: F_AsyncRead :: stack)
                  reader1 range1 h1 rep1)
        as [[[[[r2 g2] h2] calls2] ended2] |] eqn:Hrec; [| discriminate Hrun].
      injection Hrun as _ _ _ <- _.
      constructor; [apply Nat.leb_le; exact El | eapply IH; exact Hrec].
    + destruct (length [F_handler; F_Functor; F_event_loop] <=? limit)%nat
        eqn:El; [| discriminate Hrun].
      destruct (handler h range1 res) as [h1 rep1].
      destruct (ScheduleNextRead_calls handler limit fuel
                  [F_ScheduleNextRead; F_Functor; F_event_loop]
                  reader1 range1 h1 rep1)
        as [[[[[r2 g2] h2] calls2] ended2] |] eqn:Hrec; [| discriminate Hrun].
      injection Hrun as _ _ _ <- _.
      constructor; [apply Nat.leb_le; exact El | eapply IH; exact Hrec].
Qed.

(** The stacks are those of [ScheduleNextRead]. *)
Lemma ScheduleNextRead_calls_stacks
    (handler : Hs -> ExpectedSize -> Hs * Repeat) (fuel : nat) :
  forall stack reader range h repeat r' g' h' calls ended,
    ScheduleNextRead_calls (fun h0 _ res => handler h0 res) limit fuel stack
      reader range h repeat
    = Some (r', g', h', calls, ended) ->
    map fst calls = ScheduleNextRead handler fuel stack reader range h repeat.
Proof.
  induction fuel as [| fuel IH];
    intros stack reader range h repeat r' g' h' calls ended Hrun;
    cbn [ScheduleNextRead_calls ScheduleNextRead] in *.
  - injection Hrun as _ _ _ <- _. reflexivity.
  - destruct repeat; [| injection Hrun as _ _ _ <- _; reflexivity].
    destruct (length (F_AsyncRead :: stack) <=? limit)%nat; [| discriminate Hrun].
    destruct (AsyncRead reader range) as [[reader1 range1] [err | res | res]].
    + destruct (Error_eqb err NoError);
        [injection Hrun as _ _ _ <- _; reflexivity |].
      destruct (length (F_handler :: stack) <=? limit)%nat; [| discriminate Hrun].
      destruct (handler h (Unexpected err)) as [h1 rep1].
      destruct (ScheduleNextRead_calls (fun h0 _ res => handler h0 res) limit fuel
                  stack reader1 range1 h1 rep1)
        as [[[[[r2 g2] h2] calls2] ended2] |] eqn:Hrec; [| discriminate Hrun].
      injection Hrun as _ _ _ <- _. cbn [map fst]. f_equal. eapply IH; exact Hrec.
    + destruct (length (F_handler :: F_Functor :: F_AsyncRead :: stack) <=? limit)%nat;
        [| discriminate Hrun].
      destruct (handler h res) as [h1 rep1].
      destruct (ScheduleNextRead_calls (fun h0 _ res => handler h0 res) limit fuel
                  (F_ScheduleNextRead :: F_Functor :: F_AsyncRead :: stack)
                  reader1 range1 h1 rep1)
        as [[[[[r2 g2] h2] calls2] ended2] |] eqn:Hrec; [| discriminate Hrun].
      injection Hrun as _ _ _ <- _. cbn [map fst]. f_equal. eapply IH; exact Hrec.
    + destruct (length [F_handler; F_Functor; F_event_loop] <=? limit)%nat;
        [| discriminate Hrun].
      destruct (handler h res) as [h1 rep1].
      destruct (ScheduleNextRead_calls (fun h0 _ res => handler h0 res) limit fuel
                  [F_ScheduleNextRead; F_Functor; F_event_loop]
                  reader1 range1 h1 rep1)
        as [[[[[r2 g2] h2] calls2] ended2] |] eqn:Hrec; [| discriminate Hrun].
      injection Hrun as _ _ _ <- _. cbn [map fst]. f_equal. eapply IH; exact Hrec.
Qed.

(** When every submission completes inline, invocation [k] of the handler
    runs three frames deeper than invocation [k - 1]. *)
Lemma ScheduleNextRead_calls_inline_depths
    (handler : Hs -> list byte -> ExpectedSize -> Hs * Repeat) :
  (forall r g, exists r' g' res, AsyncRead r g = (r', g', Inline res)) ->
  forall fuel stack reader range h repeat r' g' h' calls ended,
    ScheduleNextRead_calls handler limit fuel stack reader range h repeat
    = Some (r', g', h', calls, ended) ->
    map (fun c => length (fst c)) calls
    = map (fun k => (length stack + 3 * (k + 1))%nat) (seq 0 (length calls)).
Proof.
  intros Hin. induction fuel as [| fuel IH];
    intros stack reader range h repeat r' g' h' calls ended Hrun;
    cbn [ScheduleNextRead_calls] in Hrun.
  - injection Hrun as _ _ _ <- _. reflexivity.
  - destruct repeat; [| injection Hrun as _ _ _ <- _; reflexivity].
    destruct (length (F_AsyncRead :: stack) <=? limit)%nat; [| discriminate Hrun].
    destruct (Hin reader range) as (reader1 & range1 & res & Hread).
    rewrite Hread in Hrun.
    destruct (length (F_handler :: F_Functor :: F_AsyncRead :: stack) <=? limit)%nat;
      [| discriminate Hrun].
    destruct (handler h range1 res) as [h1 rep1].
    destruct (ScheduleNextRead_calls handler limit fuel
                (F_ScheduleNextRead :: F_Functor :: F_AsyncRead :: stack)
                reader1 range1 h1 rep1)
      as [[[[[r2 g2] h2] calls2] ended2] |] eqn:Hrec; [| discriminate Hrun].
    injection Hrun as _ _ _ <- _.
    apply IH in Hrec. cbn [map fst length seq]. f_equal; [lia |].
    rewrite Hrec, <- seq_shift, map_map. apply map_ext. intros k.
    cbn [length]. lia.
Qed.

End RepeatedStack.

Section RepeatedCollect.

Context {R : Type} `{AsyncReader R}.
Variable rest : R -> list byte.
Hypothesis Hsrc : AsyncReader_serves rest.
Variable limit : nat.

(** What a run that returned has done. *)
Lemma ScheduleNextRead_collected (fuel : nat) :
  forall (stack : list frame) (reader : R) (range h : list byte) r' g' h' calls
         ended,
    0 < len range -> (length (rest reader) < fuel)%nat ->
    ScheduleNextRead_calls collect limit fuel stack reader range h Yes
    = Some (r', g', h', calls, ended) ->
    ended = true /\ h' = h ++ rest reader /\ rest r' = []
    /\ exists sizes,
         map snd calls = map (@Value Z) sizes ++ [Value 0]
         /\ Forall (fun n => 0 < n <= len range) sizes
         /\ fold_right Z.add 0 sizes = len (rest reader).
Proof.
  induction fuel as [| fuel IH];
    intros stack reader range h r' g' h' calls ended Hrange Hfuel Hrun; [lia |].
  cbn [ScheduleNextRead_calls] in Hrun.
  destruct (length (F_AsyncRead :: stack) <=? limit)%nat; [| discriminate Hrun].
  destruct (Hsrc reader range)
    as (reader1 & range1 & sub & s & Hread & Hh & Hs & Hpos & Hserved & Hrest1
        & Hlen1).
  rewrite Hread in Hrun.
  assert (Hstep : forall (at_handler next : list frame),
    (if (length at_handler <=? limit)%nat
     then
       let '(h1, repeat1) := collect h range1 (Value s) in
       match ScheduleNextRead_calls collect limit fuel next reader1 range1 h1
               repeat1 with
       | None => None
       | Some (r2, g2, h2, calls2, ended2) =>
           Some (r2, g2, h2, (at_handler, Value s) :: calls2, ended2)
       end
     else None) = Some (r', g', h', calls, ended) ->
    ended = true /\ h' = h ++ rest reader /\ rest r' = []
    /\ exists sizes,
         map snd calls = map (@Value Z) sizes ++ [Value 0]
         /\ Forall (fun n => 0 < n <= len range) sizes
         /\ fold_right Z.add 0 sizes = len (rest reader)).
  { intros at_handler next Hgo.
    destruct (length at_handler <=? limit)%nat; [| discriminate Hgo].
    unfold collect at 1 in Hgo. destruct (s =? 0) eqn:Ez.
    - apply Z.eqb_eq in Ez. subst s.
      assert (Hnil : rest reader = []).
      { destruct (rest reader) as [| x tl] eqn:Er; [reflexivity |].
        assert (0 < 0) by (apply Hpos; [lia | discriminate]). lia. }
      assert (Hno : ScheduleNextRead_calls collect limit fuel next reader1 range1
                      h No = Some (reader1, range1, h, [], true))
        by (destruct fuel; reflexivity).
      rewrite Hno in Hgo. injection Hgo as <- _ <- <- <-.
      rewrite Hnil, app_nil_r. split; [reflexivity |]. split; [reflexivity |].
      split; [rewrite Hrest1, Hnil; reflexivity |].
      exists []. split; [reflexivity |]. split; [constructor | reflexivity].
    - apply Z.eqb_neq in Ez.
      destruct (ScheduleNextRead_calls collect limit fuel next reader1 range1
                  (h ++ firstn (Z.to_nat s) range1) Yes)
        as [[[[[r2 g2] h2] calls2] ended2] |] eqn:Hrec; [| discriminate Hgo].
      injection Hgo as <- _ <- <- <-.
      apply IH in Hrec; [| lia | rewrite Hrest1, length_skipn; unfold len in *; lia].
      destruct Hrec as (He & Hh2 & Hr2 & sizes & Hcalls & Hall & Hsum).
      split; [exact He |].
      split; [rewrite Hh2, Hserved, Hrest1, <- app_assoc, firstn_skipn; reflexivity |].
      split; [exact Hr2 |].
      exists (s :: sizes). split; [cbn [map snd app]; rewrite Hcalls; reflexivity |].
      split; [constructor; [lia | rewrite Hlen1 in Hall; exact Hall] |].
      cbn [fold_right]. rewrite Hsum, Hrest1, len_skipn by lia. lia. }
  destruct (handed_value_cases _ _ Hh) as [-> | ->]; eapply Hstep; exact Hrun.
Qed.

(** The chain returns when the stack can hold three more frames for each
    byte still to come. *)
Lemma ScheduleNextRead_returns (fuel : nat) :
  forall (stack : list frame) (reader : R) (range h : list byte),
    0 < len range ->
    (length stack + 3 * length (rest reader) + 3 <= limit)%nat ->
    exists res,
      ScheduleNextRead_calls collect limit fuel stack reader range h Yes = Some res.
Proof.
  induction fuel as [| fuel IH]; intros stack reader range h Hrange Hlimit;
    [eexists; reflexivity |].
  cbn [ScheduleNextRead_calls].
  destruct (length (F_AsyncRead :: stack) <=? limit)%nat eqn:Ecall;
    [| apply Nat.leb_gt in Ecall; cbn [length] in Ecall; lia].
  destruct (Hsrc reader range)
    as (reader1 & range1 & sub & s & Hread & Hh & Hs & Hpos & Hserved & Hrest1
        & Hlen1).
  rewrite Hread.
  assert (Hstep : forall (at_handler next : list frame),
    (length at_handler <= limit)%nat ->
    (length next + 3 * length (rest reader) <= limit)%nat ->
    exists res,
      (if (length at_handler <=? limit)%nat
       then
         let '(h1, repeat1) := collect h range1 (Value s) in
         match ScheduleNextRead_calls collect limit fuel next reader1 range1 h1
                 repeat1 with
         | None => None
         | Some (r2, g2, h2, calls2, ended2) =>
             Some (r2, g2, h2, (at_handler, Value s) :: calls2, ended2)
         end
       else None) = Some res).
  { intros at_handler next Hat Hnext.
    destruct (length at_handler <=? limit)%nat eqn:El;
      [| apply Nat.leb_gt in El; lia].
    unfold collect at 1. destruct (s =? 0) eqn:Ez.
    - assert (Hno : ScheduleNextRead_calls collect limit fuel next reader1 range1
                      h No = Some (reader1, range1, h, [], true))
        by (destruct fuel; reflexivity).
      rewrite Hno. eexists; reflexivity.
    - apply Z.eqb_neq in Ez.
      destruct (IH next reader1 range1 (h ++ firstn (Z.to_nat s) range1))
        as [[[[[r2 g2] h2] calls2] ended2] Hrec].
      + lia.
      + rewrite Hrest1, length_skipn. unfold len in *. lia.
      + rewrite Hrec. eexists; reflexivity. }
  destruct (handed_value_cases _ _ Hh) as [-> | ->]; apply Hstep; cbn [length]; lia.
Qed.

(** Without inline completions four frames are enough, whatever is still
    to come: three for the handler called from the event loop, four for the
    call of [AsyncRead] that follows. *)
Lemma ScheduleNextRead_returns_deferred (fuel : nat) :
  (forall r g r' g' sub, AsyncRead r g = (r', g', sub) ->
                         forall res, sub <> Inline res) ->
  (4 <= limit)%nat ->
  forall (stack : list frame) (reader : R) (range h : list byte),
    (length stack <= 3)%nat ->
    exists r' g' h' calls ended,
      ScheduleNextRead_calls collect limit fuel stack reader range h Yes
      = Some (r', g', h', calls, ended)
      /\ Forall (fun c => length (fst c) = 3%nat) calls.
Proof.
  intros Hno Hlimit. induction fuel as [| fuel IH];
    intros stack reader range h Hstack;
    [eexists _, _, _, _, _; split; [reflexivity | constructor] |].
  cbn [ScheduleNextRead_calls].
  destruct (length (F_AsyncRead :: stack) <=? limit)%nat eqn:Ecall;
    [| apply Nat.leb_gt in Ecall; cbn [length] in Ecall; lia].
  destruct (Hsrc reader range)
    as (reader1 & range1 & sub & s & Hread & Hh & _).
  rewrite Hread.
  destruct (handed_value_cases _ _ Hh) as [-> | ->];
    [exfalso; exact (Hno _ _ _ _ _ Hread _ eq_refl) |].
  cbn [length]. destruct (3 <=? limit)%nat eqn:El; [| apply Nat.leb_gt in El; lia].
  unfold collect at 1. destruct (s =? 0).
  - assert (Hstop : ScheduleNextRead_calls collect limit fuel
                      [F_ScheduleNextRead; F_Functor; F_event_loop] reader1 range1
                      h No = Some (reader1, range1, h, [], true))
      by (destruct fuel; reflexivity).
    rewrite Hstop. eexists _, _, _, _, _. split; [reflexivity |].
    constructor; [reflexivity | constructor].
  - destruct (IH [F_ScheduleNextRead; F_Functor; F_event_loop] reader1 range1
                (h ++ firstn (Z.to_nat s) range1))
      as (r2 & g2 & h2 & calls2 & ended2 & Hrec & Hall); [cbn [length]; lia |].
    rewrite Hrec. eexists _, _, _, _, _. split; [reflexivity |].
    constructor; [reflexivity | exact Hall].
Qed.

End RepeatedCollect.

(** X15: [RepeatedAsyncRead] over a reader that does not fail and serves
    its content in order, into a non-empty range, with a handler that keeps
    what each read delivered and asks for more until a read delivers
    nothing, on a call stack of [limit] frames.
    - A chain that runs to its end without overflowing the stack has called
      the handler with counts of at least one byte that add up to the
      content's length, then once with 0; the handler then holds the whole
      content, in order, and nothing more is read.
    - It does run to its end when the stack holds [3 * n + 5] frames for a
      content of [n] bytes; and, when no read completes inline, on 4
      frames, whatever the length: the handler is then always called 3
      frames deep, from the event loop.
    - When every read completes inline, each completion re-enters the
      driver from inside [AsyncRead]: invocation [k] of the handler runs
      [3 * k + 5] frames deep, and the chain overflows the stack when the
      content takes more than [(limit - 5) / 3] reads of the range. *)
Theorem X15_RepeatedAsyncRead_reads_to_the_end {R} `{AsyncReader R}
    (rest : R -> list byte) (reader : R) (range h : list byte)
    (limit fuel : nat) :
  AsyncReader_serves rest -> range <> [] -> (length (rest reader) < fuel)%nat ->
  (forall r' g' h' calls ended,
      RepeatedAsyncRead_calls collect limit fuel reader range h
      = Some (r', g', h', calls, ended) ->
      ended = true /\ h' = h ++ rest reader /\ rest r' = []
      /\ Forall (fun c => (length (fst c) <= limit)%nat) calls
      /\ exists sizes,
           map snd calls = map (@Value Z) sizes ++ [Value 0]
           /\ Forall (fun n => 0 < n <= len range) sizes
           /\ fold_right Z.add 0 sizes = len (rest reader))
  /\ ((3 * length (rest reader) + 5 <= limit)%nat ->
      exists res,
        RepeatedAsyncRead_calls collect limit fuel reader range h = Some res)
  /\ ((forall r g r' g' sub, AsyncRead r g = (r', g', sub) ->
                             forall res, sub <> Inline res) ->
      (4 <= limit)%nat ->
      exists r' g' h' calls ended,
        RepeatedAsyncRead_calls collect limit fuel reader range h
        = Some (r', g', h', calls, ended)
        /\ Forall (fun c => length (fst c) = 3%nat) calls)
  /\ ((forall r g, exists r' g' res, AsyncRead r g = (r', g', Inline res)) ->
      (forall r' g' h' calls ended,
          RepeatedAsyncRead_calls collect limit fuel reader range h
          = Some (r', g', h', calls, ended) ->
          map (fun c => length (fst c)) calls
          = map (fun k => (3 * k + 5)%nat) (seq 0 (length calls)))
      /\ (len range * Z.of_nat ((limit - 5) / 3) < len (rest reader) ->
          RepeatedAsyncRead_calls collect limit fuel reader range h = None)).
Proof.
  intros Hsrc Hne Hfuel. unfold RepeatedAsyncRead_calls.
  pose proof (len_pos_of_nonempty range Hne) as Hpos.
  assert (Hdone : forall r' g' h' calls ended,
    ScheduleNextRead_calls collect limit fuel
      [F_ScheduleNextRead; F_RepeatedAsyncRead] reader range h Yes
    = Some (r', g', h', calls, ended) ->
    ended = true /\ h' = h ++ rest reader /\ rest r' = []
    /\ Forall (fun c => (length (fst c) <= limit)%nat) calls
    /\ exists sizes,
         map snd calls = map (@Value Z) sizes ++ [Value 0]
         /\ Forall (fun n => 0 < n <= len range) sizes
         /\ fold_right Z.add 0 sizes = len (rest reader)).
  { intros r' g' h' calls ended Hrun.
    destruct (ScheduleNextRead_collected rest Hsrc limit fuel _ _ _ _ _ _ _ _ _
                Hpos Hfuel Hrun) as (He & Hh & Hr & Hsizes).
    split; [exact He |]. split; [exact Hh |]. split; [exact Hr |].
    split; [| exact Hsizes].
    eapply ScheduleNextRead_calls_within; exact Hrun. }
  assert (Hdepth : (forall r g, exists r' g' res, AsyncRead r g = (r', g', Inline res)) ->
    forall r' g' h' calls ended,
      ScheduleNextRead_calls collect limit fuel
        [F_ScheduleNextRead; F_RepeatedAsyncRead] reader range h Yes
      = Some (r', g', h', calls, ended) ->
      map (fun c => length (fst c)) calls
      = map (fun k => (3 * k + 5)%nat) (seq 0 (length calls))).
  { intros Hin r' g' h' calls ended Hrun.
    rewrite (ScheduleNextRead_calls_inline_depths _ limit collect Hin _ _ _ _ _ _
               _ _ _ _ _ Hrun).
    apply map_ext. intros k. cbn [length]. lia. }
  split; [exact Hdone |]. split; [| split].
  - intros Hlimit.
    apply (ScheduleNextRead_returns rest Hsrc limit fuel); [exact Hpos |].
    cbn [length]. lia.
  - intros Hno Hlimit.
    apply (ScheduleNextRead_returns_deferred rest Hsrc limit fuel Hno Hlimit).
    cbn [length]. lia.
  - intros Hin. split; [apply Hdepth; exact Hin |].
    intros Hover.
    destruct (ScheduleNextRead_calls collect limit fuel
                [F_ScheduleNextRead; F_RepeatedAsyncRead] reader range h Yes)
      as [[[[[r' g'] h'] calls] ended] |] eqn:Hrun; [exfalso | reflexivity].
    pose proof (Hdepth Hin _ _ _ _ _ eq_refl) as Hd.
    destruct (Hdone _ _ _ _ _ eq_refl)
      as (_ & _ & _ & Hwithin & sizes & Hcalls & Hall & Hsum).
    assert (Hlen : length calls = S (length sizes)).
    { rewrite <- (length_map snd calls), Hcalls, length_app, length_map.
      cbn [length]. lia. }
    assert (Hlast : (3 * length sizes + 5 <= limit)%nat).
    { assert (Hin_last : In (3 * length sizes + 5)%nat
                           (map (fun c => length (fst c)) calls)).
      { rewrite Hd, Hlen. apply in_map_iff. exists (length sizes).
        split; [reflexivity |]. apply in_seq. lia. }
      apply in_map_iff in Hin_last as (c & Hc & Hcin).
      rewrite Forall_forall in Hwithin. specialize (Hwithin c Hcin). lia. }
    pose proof (sum_le_length sizes (len range) Hall) as Hbound.
    assert (Hk : (length sizes <= (limit - 5) / 3)%nat).
    { apply Nat.div_le_lower_bound; lia. }
    rewrite Hsum in Hbound.
    assert (len range * Z.of_nat (length sizes)
            <= len range * Z.of_nat ((limit - 5) / 3)) by nia.
    lia.
Qed.

(** X15 on five bytes served two at a time into a range of three: on a
    stack of 20 frames the reads complete inline, 5, 8, 11 and 14 frames
    deep, and the handler gets everything; on a stack of 8 frames the chain
    overflows; with completions from the event loop 4 frames are enough. *)
Lemma X15_RepeatedAsyncRead_reads_to_the_end_witness :
  (exists reader' range' calls,
      RepeatedAsyncRead_calls collect 20 6
        (mk_ChunkReader [x01; x02; x03; x04; x05] 2) [x00; x00; x00] []
      = Some (reader', range', [x01; x02; x03; x04; x05], calls, true)
      /\ map snd calls = [Value 2; Value 2; Value 1; Value 0]
      /\ map (fun c => length (fst c)) calls = [5; 8; 11; 14]%nat)
  /\ RepeatedAsyncRead_calls collect 8 6
       (mk_ChunkReader [x01; x02; x03; x04; x05] 2) [x00; x00; x00] []
     = None
  /\ (exists reader' range' calls,
        RepeatedAsyncRead_calls collect 4 6
          (mk_DeferringReader (mk_ChunkReader [x01; x02; x03; x04; x05] 2))
          [x00; x00; x00] []
        = Some (reader', range', [x01; x02; x03; x04; x05], calls, true)).
Proof.
  assert (Hinline : forall (r : ChunkReader) (g : list byte),
             exists r' g' res, AsyncRead r g = (r', g', Inline res)).
  { intros r g. unfold AsyncRead, ChunkReader_AsyncReader.
    destruct (ChunkReader_Read r g) as [[r' g'] res]. eexists _, _, _. reflexivity. }
  split; [| split].
  - destruct (X15_RepeatedAsyncRead_reads_to_the_end ChunkReader_rest
                (mk_ChunkReader [x01; x02; x03; x04; x05] 2) [x00; x00; x00] []
                20 6 ChunkReader_async_serves)
      as (Hdone & Hreturns & _ & Hin); [discriminate | simpl; lia |].
    destruct Hreturns as [[[[[r' g'] h'] calls] ended] Hrun]; [simpl; lia |].
    destruct (Hdone _ _ _ _ _ Hrun) as (-> & -> & _).
    exists r', g', calls. split; [exact Hrun |].
    assert (Hc : exists r g c,
               RepeatedAsyncRead_calls collect 20 6
                 (mk_ChunkReader [x01; x02; x03; x04; x05] 2) [x00; x00; x00] []
               = Some (r, g, [x01; x02; x03; x04; x05], c, true)
               /\ map snd c = [Value 2; Value 2; Value 1; Value 0]
               /\ map (fun c => length (fst c)) c = [5; 8; 11; 14]%nat)
      by (eexists _, _, _; split; [reflexivity | split; reflexivity]).
    destruct Hc as (r & g & c & Hc & Hs & Hd).
    rewrite Hc in Hrun. injection Hrun as _ _ <-. split; assumption.
  - destruct (X15_RepeatedAsyncRead_reads_to_the_end ChunkReader_rest
                (mk_ChunkReader [x01; x02; x03; x04; x05] 2) [x00; x00; x00] []
                8 6 ChunkReader_async_serves)
      as (_ & _ & _ & Hin); [discriminate | simpl; lia |].
    apply (proj2 (Hin Hinline)). unfold len. simpl. lia.
  - assert (Hserves : @AsyncReader_serves DeferringReader _
                        (fun r => ChunkReader_rest (dr_source r))).
    { intros r g.
      destruct (ChunkReader_serves (dr_source r) g)
        as (r' & g' & s & Hread & Hrest).
      unfold Read, ChunkReader_Reader in Hread.
      exists (mk_DeferringReader r'), g', (Deferred (Value s)), s.
      split; [| split; [reflexivity | exact Hrest]].
      unfold AsyncRead, DeferringReader_AsyncReader. rewrite Hread. reflexivity. }
    destruct (X15_RepeatedAsyncRead_reads_to_the_end
                (fun r => ChunkReader_rest (dr_source r))
                (mk_DeferringReader (mk_ChunkReader [x01; x02; x03; x04; x05] 2))
                [x00; x00; x00] [] 4 6 Hserves)
      as (Hdone & _ & Hdef & _); [discriminate | simpl; lia |].
    destruct Hdef as (r' & g' & h' & calls & ended & Hrun & _).
    + intros r g r' g' sub Hread res ->.
      unfold AsyncRead, DeferringReader_AsyncReader in Hread.
      destruct (ChunkReader_Read (dr_source r) g) as [[r1 g1] res1].
      discriminate Hread.
    + lia.
    + destruct (Hdone _ _ _ _ _ Hrun) as (-> & -> & _).
      exists r', g', calls. exact Hrun.
Defined.

(** ** The rewindable reader is transparent while it records *)

Section Transparent.

Context {R : Type} `{Reader R}.
Hypothesis Hcontract : Reader_contract.

Lemma BufferedReader_Read_all_recording (ranges : list (list byte)) :
  forall b : BufferedReader R,
    replay_pending b = false -> stop_done_ b = false ->
    exists b',
      BufferedReader_Read_all b ranges
      = Some (b', snd (Reader_Read_all (wrapped_reader_ b) ranges))
      /\ wrapped_reader_ b' = fst (Reader_Read_all (wrapped_reader_ b) ranges)
      /\ buffer_ b'
         = buffer_ b ++ delivered (snd (Reader_Read_all (wrapped_reader_ b) ranges))
      /\ replay_pending b' = false /\ stop_done_ b' = false
      /\ rewind_done_ b' = rewind_done_ b.
Proof.
  induction ranges as [| g rest IH]; intros b Hp Hs.
  - exists b. cbn [BufferedReader_Read_all Reader_Read_all fst snd delivered].
    rewrite app_nil_r. repeat split; assumption || reflexivity.
  - cbn [BufferedReader_Read_all Reader_Read_all].
    unfold BufferedReader_Read. pose proof Hp as Hp'.
    unfold replay_pending in Hp'. rewrite Hp', Hs. cbn [negb].
    destruct (Read (wrapped_reader_ b) g) as [[wr rg] [n | e]] eqn:Hread.
    + destruct (Hcontract _ _ _ _ _ Hread) as [Hn Hlen].
      destruct (n <=? len g) eqn:En; [| apply Z.leb_gt in En; lia].
      match goal with
      | |- context [BufferedReader_Read_all ?b1 rest] =>
          destruct (IH b1) as (b' & Hall & Hw & Hb & Hp1 & Hs1 & Hd1);
          [exact Hp | reflexivity |]
      end.
      cbn [wrapped_reader_ buffer_ rewind_done_] in Hall, Hw, Hb, Hd1.
      rewrite Hall.
      destruct (Reader_Read_all wr rest) as [wr' log].
      cbn [fst snd] in *. exists b'.
      split; [reflexivity |]. split; [exact Hw |].
      split; [rewrite Hb, <- app_assoc; reflexivity |]. auto.
    + match goal with
      | |- context [BufferedReader_Read_all ?b1 rest] =>
          destruct (IH b1) as (b' & Hall & Hw & Hb & Hp1 & Hs1 & Hd1);
          [exact Hp | reflexivity |]
      end.
      cbn [wrapped_reader_ buffer_ rewind_done_] in Hall, Hw, Hb, Hd1.
      rewrite Hall.
      destruct (Reader_Read_all wr rest) as [wr' log].
      cbn [fst snd] in *. exists b'.
      split; [reflexivity |]. split; [exact Hw |].
      split; [exact Hb |]. auto.
Qed.

End Transparent.

(** X16: until the first rewind a rewindable reader is transparent.  Over a
    wrapped reader that keeps to the interface, any sequence of reads on a
    fresh rewindable reader gets, call by call, the results and the bytes
    the same reads get from the wrapped reader itself, errors and empty
    reads included; meanwhile the buffer collects exactly the bytes the
    successful reads delivered, in order, and [Rewind] reports their
    number. *)
Theorem X16_BufferedReader_transparent_while_recording {R} `{Reader R}
    (wrapped : R) (ranges : list (list byte)) :
  Reader_contract ->
  exists b',
    BufferedReader_Read_all (BufferedReader_new wrapped) ranges
    = Some (b', snd (Reader_Read_all wrapped ranges))
    /\ wrapped_reader_ b' = fst (Reader_Read_all wrapped ranges)
    /\ buffer_ b' = delivered (snd (Reader_Read_all wrapped ranges))
    /\ snd (BufferedReader_Rewind b')
       = Value (len (delivered (snd (Reader_Read_all wrapped ranges)))).
Proof.
  intros Hcontract.
  destruct (BufferedReader_Read_all_recording Hcontract ranges
              (BufferedReader_new wrapped) eq_refl eq_refl)
    as (b' & Hall & Hw & Hb & Hp & Hs & Hd).
  cbn [BufferedReader_new wrapped_reader_ buffer_ app] in Hall, Hw, Hb.
  exists b'. split; [exact Hall |]. split; [exact Hw |]. split; [exact Hb |].
  unfold BufferedReader_Rewind. rewrite Hs, Hb. reflexivity.
Qed.

(** X16 on the sample reader: three reads, the last one empty. *)
Lemma X16_BufferedReader_transparent_while_recording_witness :
  exists b',
    BufferedReader_Read_all (BufferedReader_new (mk_ChunkReader [x01; x02; x03] 2))
      [[x00; x00]; [x00; x00]; [x00; x00]]
    = Some (b', [([x01; x02], Value 2); ([x03; x00], Value 1); ([x00; x00], Value 0)])
    /\ buffer_ b' = [x01; x02; x03]
    /\ snd (BufferedReader_Rewind b') = Value 3.
Proof.
  destruct (X16_BufferedReader_transparent_while_recording
              (mk_ChunkReader [x01; x02; x03] 2)
              [[x00; x00]; [x00; x00]; [x00; x00]] ChunkReader_contract)
    as (b' & Hall & _ & Hb & Hrew).
  exists b'. split; [exact Hall |]. split; [exact Hb | exact Hrew].
Defined.

(** ** Copy and AsyncCopy: nothing but the source's bytes *)

Lemma prefix_of_nil {A} (b : list A) : prefix_of [] b.
Proof. exists b. reflexivity. Qed.

Lemma prefix_of_app {A} (h a b : list A) :
  prefix_of a b -> prefix_of (h ++ a) (h ++ b).
Proof. intros [tl ->]. exists tl. apply app_assoc. Qed.

Lemma prefix_of_app_nil {A} (h b : list A) : prefix_of (h ++ []) (h ++ b).
Proof. apply prefix_of_app, prefix_of_nil. Qed.

Section CopySafety.

Context {W R : Type} `{Writer W} `{Reader R}.
Variable rest : R -> list byte.
Hypothesis Hsrc : Reader_faithful rest.

Lemma Copy_hands_prefix (fuel : nat) :
  forall (dst : W) (src : R) (buffer : list byte),
    prefix_of (written (snd (fst (Copy fuel dst src buffer)))) (rest src).
Proof.
  induction fuel as [| fuel IH]; intros dst src buffer; cbn [Copy].
  - apply prefix_of_nil.
  - destruct (Read src buffer) as [[src1 buffer1] [r | e]] eqn:Hread;
      [| apply prefix_of_nil].
    destruct (r =? 0); [apply prefix_of_nil |].
    destruct (len buffer <? r); [apply prefix_of_nil |].
    destruct (Hsrc _ _ _ _ _ Hread) as (Hr & Hserved & Hrest & Hlen).
    assert (Hjoin : rest src = firstn (Z.to_nat r) buffer1 ++ rest src1)
      by (rewrite Hserved, Hrest, firstn_skipn; reflexivity).
    destruct (Write dst (firstn (Z.to_nat r) buffer1)) as [dst1 [w | e]].
    + destruct (w =? 0);
        [cbn [fst snd written]; rewrite Hjoin; apply prefix_of_app_nil |].
      destruct (negb (r =? w));
        [cbn [fst snd written]; rewrite Hjoin; apply prefix_of_app_nil |].
      specialize (IH dst1 src1 buffer1).
      destruct (Copy fuel dst1 src1 buffer1) as [[[[dst2 src2] buffer2] t] res].
      cbn [fst snd written] in *. rewrite Hjoin. apply prefix_of_app. exact IH.
    + cbn [fst snd written]. rewrite Hjoin. apply prefix_of_app_nil.
Qed.

End CopySafety.

Section Safety.

Variables L B : Z.
Hypothesis HB : 0 < B < 2 ^ 63.
Hypothesis HL : 0 <= L < 2 ^ 63.

Lemma front_of_limit (bytes content : list byte) (n s : Z) :
  len bytes = s -> 0 <= s <= n ->
  firstn (Z.to_nat n) (bytes ++ content)
  = bytes ++ firstn (Z.to_nat (n - s)) content.
Proof.
  intros Hb Hs. rewrite firstn_app_ge by (unfold len in Hb; lia).
  f_equal. f_equal. unfold len in Hb. lia.
Qed.

Section Writer_AsyncReader_safety.

Context {W R : Type} `{Writer W} `{AsyncReader R}.
Variable rest : R -> list byte.
Hypothesis Hsrc : AsyncReader_faithful rest.

Lemma AsyncCopy_Writer_AsyncReader_Functor_failed (fuel : nat) (writer : W)
    (reader : R) (data : CopyData) (e : Error) :
  written (AsyncCopy_Writer_AsyncReader_Functor fuel writer reader data
             (Unexpected e)) = [].
Proof. destruct fuel; reflexivity. Qed.

Lemma AsyncCopy_Writer_AsyncReader_Functor_safe (fuel : nat) :
  forall (writer : W) (reader : R) (data : CopyData) (s : Z),
    data_ok L B data -> 0 <= s <= Z.min (L - copied data) B ->
    prefix_of
      (written (AsyncCopy_Writer_AsyncReader_Functor fuel writer reader data
                  (Value s)))
      (firstn (Z.to_nat (L - copied data))
         (firstn (Z.to_nat s) (buf data) ++ rest reader)).
Proof.
  induction fuel as [| fuel IH]; intros writer reader data s Hdata Hs;
    [apply prefix_of_nil |].
  cbn [AsyncCopy_Writer_AsyncReader_Functor].
  pose proof Hdata as (Hl & Hb & Hc).
  destruct (s =? 0); [apply prefix_of_nil |].
  set (bytes := firstn (Z.to_nat s) (buf data)).
  assert (Hbytes : len bytes = s) by (apply len_firstn_le; lia).
  rewrite (front_of_limit bytes (rest reader) (L - copied data) s Hbytes)
    by lia.
  destruct (Write writer bytes) as [writer' [n | e]];
    [| cbn [written CallFinishedHandler]; apply prefix_of_app_nil].
  destruct (n =? s) eqn:En; cbn [negb];
    [| cbn [written CallFinishedHandler]; apply prefix_of_app_nil].
  apply Z.eqb_eq in En. subst n.
  destruct (data_ok_after_write L B data s HL Hdata) as [Hcopied Hdata1]; [lia |].
  set (data1 := mk_CopyData (buf data) (to_int64 (copied data + s)) (limit data)) in *.
  assert (Hc1 : copied data1 = copied data + s) by exact Hcopied.
  set (to_copy := Z.min (L - (copied data + s)) B).
  assert (Htc : to_copy_of data1 = to_copy)
    by (rewrite (to_copy_of_ok L B data1 HB HL Hdata1), Hc1; reflexivity).
  rewrite Htc.
  destruct (to_copy =? 0) eqn:Et;
    [cbn [written CallFinishedHandler]; apply prefix_of_app_nil |].
  apply Z.eqb_neq in Et.
  assert (Hto : 0 < to_copy <= B) by (unfold to_copy in *; lia).
  assert (Hrange : len (firstn (Z.to_nat to_copy) (buf data1)) = to_copy)
    by (apply len_firstn_le; cbn; lia).
  destruct (AsyncRead reader (firstn (Z.to_nat to_copy) (buf data1)))
    as [[reader' range'] sub] eqn:Hread.
  assert (Hnext : forall res, handed sub = Some res ->
            prefix_of
              (bytes ++ written
                 (AsyncCopy_Writer_AsyncReader_Functor fuel writer' reader'
                    (mk_CopyData (buf_after_read data1 to_copy range')
                       (copied data1) (limit data1)) res))
              (bytes ++ firstn (Z.to_nat (L - copied data - s)) (rest reader))).
  { intros [s' | e] Hh.
    - destruct (Hsrc _ _ _ _ _ _ Hread Hh) as (Hs' & Hserved & Hrest' & Hlen').
      rewrite Hrange in Hs', Hlen'.
      apply prefix_of_app.
      remember (mk_CopyData (buf_after_read data1 to_copy range')
                  (copied data1) (limit data1)) as data2 eqn:Hdata2.
      assert (Hc2 : copied data2 = copied data + s) by (subst data2; exact Hc1).
      assert (Hb2 : buf data2 = buf_after_read data1 to_copy range')
        by (subst data2; reflexivity).
      assert (Hok2 : data_ok L B data2)
        by (subst data2; apply data_ok_after_read;
            [exact Hdata1 | lia | exact Hlen']).
      pose proof (IH writer' reader' data2 s' Hok2) as Hrec.
      rewrite Hb2, Hrest', (served_join data1 to_copy s' range' (rest reader)),
        Hc2 in Hrec; [| lia | exact Hlen' | exact Hserved].
      replace (L - copied data - s) with (L - (copied data + s)) by lia.
      apply Hrec. unfold to_copy in *. lia.
    - rewrite AsyncCopy_Writer_AsyncReader_Functor_failed.
      apply prefix_of_app_nil. }
  destruct sub as [err | res | res]; cbn [written].
  - destruct (Error_eqb err NoError);
      cbn [written CallFinishedHandler]; apply prefix_of_app_nil.
  - apply Hnext. reflexivity.
  - apply Hnext. reflexivity.
Qed.

Lemma AsyncCopy_Writer_AsyncReader_safe (dst : W) (src : R) (fuel : nat) :
  prefix_of (written (AsyncCopy_Writer_AsyncReader B fuel dst src L))
    (firstn (Z.to_nat L) (rest src)).
Proof.
  unfold AsyncCopy_Writer_AsyncReader.
  rewrite (first_to_copy L B HB HL).
  pose proof (CopyData_new_ok L B (proj1 HB) (proj1 HL)) as Hdata.
  set (data := CopyData_new B L) in *.
  set (n0 := Z.min L B).
  assert (Hrange : len (firstn (Z.to_nat n0) (buf data)) = n0).
  { apply len_firstn_le. destruct Hdata as (_ & Hb & _). unfold n0. lia. }
  destruct (AsyncRead src (firstn (Z.to_nat n0) (buf data)))
    as [[src' range'] sub] eqn:Hread.
  assert (Hnext : forall res, handed sub = Some res ->
            prefix_of
              (written
                 (AsyncCopy_Writer_AsyncReader_Functor fuel dst src'
                    (mk_CopyData (buf_after_read data n0 range')
                       (copied data) (limit data)) res))
              (firstn (Z.to_nat L) (rest src))).
  { intros [s | e] Hh.
    - destruct (Hsrc _ _ _ _ _ _ Hread Hh) as (Hs & Hserved & Hrest' & Hlen').
      rewrite Hrange in Hs, Hlen'.
      remember (mk_CopyData (buf_after_read data n0 range')
                  (copied data) (limit data)) as data1 eqn:Hdata1.
      assert (Hc1 : copied data1 = 0) by (subst data1; reflexivity).
      assert (Hb1 : buf data1 = buf_after_read data n0 range')
        by (subst data1; reflexivity).
      assert (Hok1 : data_ok L B data1)
        by (subst data1; apply data_ok_after_read;
            [exact Hdata | unfold n0; lia | exact Hlen']).
      pose proof (AsyncCopy_Writer_AsyncReader_Functor_safe fuel dst src' data1 s
                    Hok1) as Hrec.
      rewrite Hb1, Hrest', (served_join data n0 s range' (rest src)), Hc1,
        Z.sub_0_r in Hrec; [| lia | exact Hlen' | exact Hserved].
      apply Hrec. unfold n0 in *. lia.
    - rewrite AsyncCopy_Writer_AsyncReader_Functor_failed. apply prefix_of_nil. }
  destruct sub as [err | res | res]; cbn [written].
  - destruct (Error_eqb err NoError); apply prefix_of_nil.
  - apply Hnext. reflexivity.
  - apply Hnext. reflexivity.
Qed.

End Writer_AsyncReader_safety.

Section AsyncWriter_Reader_safety.

Context {W R : Type} `{AsyncWriter W} `{Reader R}.
Variable rest : R -> list byte.
Hypothesis Hsrc : Reader_faithful rest.

Lemma AsyncCopy_AsyncWriter_Reader_Functor_safe (fuel : nat) :
  forall (writer : W) (reader : R) (data : CopyData) (e : Z)
         (exp_written : ExpectedSize),
    data_ok L B data -> 0 <= e -> copied data + e <= L ->
    prefix_of
      (written (AsyncCopy_AsyncWriter_Reader_Functor fuel writer reader data e
                  exp_written))
      (firstn (Z.to_nat (L - copied data - e)) (rest reader)).
Proof.
  induction fuel as [| fuel IH]; intros writer reader data e res Hdata He Hbudget;
    [apply prefix_of_nil |].
  cbn [AsyncCopy_AsyncWriter_Reader_Functor].
  pose proof Hdata as (Hl & Hb & Hc).
  destruct res as [w | err]; [| apply prefix_of_nil].
  destruct (w =? e) eqn:Ew; cbn [negb]; [| apply prefix_of_nil].
  apply Z.eqb_eq in Ew. subst w.
  destruct (data_ok_after_write L B data e HL Hdata) as [Hcopied Hdata1]; [lia |].
  set (data1 := mk_CopyData (buf data) (to_int64 (copied data + e)) (limit data)) in *.
  assert (Hc1 : copied data1 = copied data + e) by exact Hcopied.
  set (to_copy := Z.min (L - (copied data + e)) B).
  assert (Htc : to_copy_of data1 = to_copy)
    by (rewrite (to_copy_of_ok L B data1 HB HL Hdata1), Hc1; reflexivity).
  rewrite Htc.
  destruct (to_copy =? 0) eqn:Et; [apply prefix_of_nil |].
  apply Z.eqb_neq in Et.
  assert (Hto : 0 < to_copy <= B) by (unfold to_copy in *; lia).
  assert (Hrange : len (firstn (Z.to_nat to_copy) (buf data1)) = to_copy)
    by (apply len_firstn_le; cbn; lia).
  destruct (Read reader (firstn (Z.to_nat to_copy) (buf data1)))
    as [[reader' range'] [s' | err]] eqn:Hread; [| apply prefix_of_nil].
  destruct (s' =? 0); [apply prefix_of_nil |].
  destruct (Hsrc _ _ _ _ _ Hread) as (Hs' & Hserved & Hrest' & Hlen').
  rewrite Hrange in Hs', Hlen'.
  remember (mk_CopyData (buf_after_read data1 to_copy range')
              (copied data1) (limit data1)) as data2 eqn:Hdata2.
  assert (Hc2 : copied data2 = copied data + e) by (subst data2; exact Hc1).
  assert (Hb2 : buf data2 = buf_after_read data1 to_copy range')
    by (subst data2; reflexivity).
  assert (Hok2 : data_ok L B data2)
    by (subst data2; apply data_ok_after_read; [exact Hdata1 | lia | exact Hlen']).
  set (bytes' := firstn (Z.to_nat s') (buf data2)).
  assert (Hcontent : bytes' = firstn (Z.to_nat s') (rest reader)).
  { unfold bytes'. rewrite Hb2. unfold buf_after_read.
    rewrite firstn_app_le by (unfold len in *; lia). exact Hserved. }
  assert (Hsplit : firstn (Z.to_nat (L - copied data - e)) (rest reader)
                   = bytes' ++ firstn (Z.to_nat (L - (copied data + e) - s'))
                                 (skipn (Z.to_nat s') (rest reader))).
  { rewrite Hcontent.
    replace (Z.to_nat (L - copied data - e))
      with (Z.to_nat s' + Z.to_nat (L - (copied data + e) - s'))%nat
      by (unfold to_copy in *; lia).
    apply firstn_add_skipn. }
  rewrite Hsplit.
  destruct (AsyncWrite writer bytes') as [writer' sub].
  assert (Hnext : forall res,
            prefix_of
              (bytes' ++ written
                 (AsyncCopy_AsyncWriter_Reader_Functor fuel writer' reader'
                    data2 s' res))
              (bytes' ++ firstn (Z.to_nat (L - (copied data + e) - s'))
                           (skipn (Z.to_nat s') (rest reader)))).
  { intros res. apply prefix_of_app.
    pose proof (IH writer' reader' data2 s' res Hok2) as Hrec.
    rewrite Hc2, Hrest' in Hrec. apply Hrec; unfold to_copy in *; lia. }
  destruct sub as [err | res | res]; cbn [written].
  - destruct (Error_eqb err NoError);
      cbn [written CallFinishedHandler]; apply prefix_of_app_nil.
  - apply Hnext.
  - apply Hnext.
Qed.

Lemma AsyncCopy_AsyncWriter_Reader_safe (dst : W) (src : R) (fuel : nat) :
  prefix_of (written (AsyncCopy_AsyncWriter_Reader B fuel dst src L))
    (firstn (Z.to_nat L) (rest src)).
Proof.
  unfold AsyncCopy_AsyncWriter_Reader.
  pose proof (CopyData_new_ok L B (proj1 HB) (proj1 HL)) as Hdata.
  pose proof (AsyncCopy_AsyncWriter_Reader_Functor_safe fuel dst src
                (CopyData_new B L) 0 (Value 0) Hdata) as Hrec.
  cbn [copied CopyData_new] in Hrec. rewrite !Z.sub_0_r in Hrec.
  apply Hrec; lia.
Qed.

End AsyncWriter_Reader_safety.

Section AsyncWriter_AsyncReader_safety.

Context {W R : Type} `{AsyncWriter W} `{AsyncReader R}.
Variable rest : R -> list byte.
Hypothesis Hsrc : AsyncReader_faithful rest.

Lemma AsyncCopyReaderFunctor_failed (fuel : nat) (writer : W) (reader : R)
    (data : CopyData) (e : Error) :
  written (AsyncCopyReaderFunctor fuel writer reader data (Unexpected e)) = [].
Proof. destruct fuel; reflexivity. Qed.

Lemma AsyncCopy_Functors_safe (fuel : nat) :
  (forall (writer : W) (reader : R) (data : CopyData) (s : Z),
      data_ok L B data -> 0 <= s <= Z.min (L - copied data) B ->
      prefix_of
        (written (AsyncCopyReaderFunctor fuel writer reader data (Value s)))
        (firstn (Z.to_nat (L - copied data))
           (firstn (Z.to_nat s) (buf data) ++ rest reader)))
  /\ (forall (writer : W) (reader : R) (data : CopyData) (e : Z)
             (exp_size : ExpectedSize),
         data_ok L B data -> 0 <= e -> copied data + e <= L ->
         prefix_of
           (written (AsyncCopyWriterFunctor fuel writer reader data e exp_size))
           (firstn (Z.to_nat (L - copied data - e)) (rest reader))).
Proof.
  induction fuel as [| fuel [IHR IHW]];
    [split; intros; apply prefix_of_nil |].
  split.
  - intros writer reader data s Hdata Hs.
    cbn [AsyncCopyReaderFunctor].
    pose proof Hdata as (Hl & Hb & Hc).
    destruct (s =? 0); [apply prefix_of_nil |].
    set (bytes := firstn (Z.to_nat s) (buf data)).
    assert (Hbytes : len bytes = s) by (apply len_firstn_le; lia).
    rewrite (front_of_limit bytes (rest reader) (L - copied data) s Hbytes)
      by lia.
    destruct (AsyncWrite writer bytes) as [writer' sub].
    assert (Hnext : forall res,
              prefix_of
                (bytes ++ written
                   (AsyncCopyWriterFunctor fuel writer' reader data s res))
                (bytes ++ firstn (Z.to_nat (L - copied data - s)) (rest reader))).
    { intros res. apply prefix_of_app. apply IHW; [exact Hdata | lia | lia]. }
    destruct sub as [err | res | res]; cbn [written].
    + destruct (Error_eqb err NoError);
        cbn [written CallFinishedHandler]; apply prefix_of_app_nil.
    + apply Hnext.
    + apply Hnext.
  - intros writer reader data e res Hdata He Hbudget.
    cbn [AsyncCopyWriterFunctor].
    pose proof Hdata as (Hl & Hb & Hc).
    destruct res as [w | err]; [| apply prefix_of_nil].
    destruct (w =? e) eqn:Ew; cbn [negb]; [| apply prefix_of_nil].
    apply Z.eqb_eq in Ew. subst w.
    destruct (data_ok_after_write L B data e HL Hdata) as [Hcopied Hdata1]; [lia |].
    set (data1 := mk_CopyData (buf data) (to_int64 (copied data + e)) (limit data)) in *.
    assert (Hc1 : copied data1 = copied data + e) by exact Hcopied.
    set (to_copy := Z.min (L - (copied data + e)) B).
    assert (Htc : to_copy_of data1 = to_copy)
      by (rewrite (to_copy_of_ok L B data1 HB HL Hdata1), Hc1; reflexivity).
    rewrite Htc.
    destruct (to_copy =? 0) eqn:Et; [apply prefix_of_nil |].
    apply Z.eqb_neq in Et.
    assert (Hto : 0 < to_copy <= B) by (unfold to_copy in *; lia).
    assert (Hrange : len (firstn (Z.to_nat to_copy) (buf data1)) = to_copy)
      by (apply len_firstn_le; cbn; lia).
    destruct (AsyncRead reader (firstn (Z.to_nat to_copy) (buf data1)))
      as [[reader' range'] sub] eqn:Hread.
    assert (Hnext : forall res, handed sub = Some res ->
              prefix_of
                (written
                   (AsyncCopyReaderFunctor fuel writer reader'
                      (mk_CopyData (buf_after_read data1 to_copy range')
                         (copied data1) (limit data1)) res))
                (firstn (Z.to_nat (L - copied data - e)) (rest reader))).
    { intros [s' | err] Hh.
      - destruct (Hsrc _ _ _ _ _ _ Hread Hh) as (Hs' & Hserved & Hrest' & Hlen').
        rewrite Hrange in Hs', Hlen'.
        remember (mk_CopyData (buf_after_read data1 to_copy range')
                    (copied data1) (limit data1)) as data2 eqn:Hdata2.
        assert (Hc2 : copied data2 = copied data + e) by (subst data2; exact Hc1).
        assert (Hb2 : buf data2 = buf_after_read data1 to_copy range')
          by (subst data2; reflexivity).
        assert (Hok2 : data_ok L B data2)
          by (subst data2; apply data_ok_after_read;
              [exact Hdata1 | lia | exact Hlen']).
        pose proof (IHR writer reader' data2 s' Hok2) as Hrec.
        rewrite Hb2, Hrest', (served_join data1 to_copy s' range' (rest reader)),
          Hc2 in Hrec; [| lia | exact Hlen' | exact Hserved].
        replace (L - copied data - e) with (L - (copied data + e)) by lia.
        apply Hrec. unfold to_copy in *. lia.
      - rewrite AsyncCopyReaderFunctor_failed. apply prefix_of_nil. }
    destruct sub as [err | res | res]; cbn [written].
    + destruct (Error_eqb err NoError); apply prefix_of_nil.
    + apply Hnext. reflexivity.
    + apply Hnext. reflexivity.
Qed.

Lemma AsyncCopy_AsyncWriter_AsyncReader_safe (dst : W) (src : R) (fuel : nat) :
  prefix_of (written (AsyncCopy_AsyncWriter_AsyncReader B fuel dst src L))
    (firstn (Z.to_nat L) (rest src)).
Proof.
  unfold AsyncCopy_AsyncWriter_AsyncReader.
  rewrite (first_to_copy L B HB HL).
  pose proof (CopyData_new_ok L B (proj1 HB) (proj1 HL)) as Hdata.
  set (data := CopyData_new B L) in *.
  set (n0 := Z.min L B).
  assert (Hrange : len (firstn (Z.to_nat n0) (buf data)) = n0).
  { apply len_firstn_le. destruct Hdata as (_ & Hb & _). unfold n0. lia. }
  destruct (AsyncRead src (firstn (Z.to_nat n0) (buf data)))
    as [[src' range'] sub] eqn:Hread.
  assert (Hnext : forall res, handed sub = Some res ->
            prefix_of
              (written
                 (AsyncCopyReaderFunctor fuel dst src'
                    (mk_CopyData (buf_after_read data n0 range')
                       (copied data) (limit data)) res))
              (firstn (Z.to_nat L) (rest src))).
  { intros [s | e] Hh.
    - destruct (Hsrc _ _ _ _ _ _ Hread Hh) as (Hs & Hserved & Hrest' & Hlen').
      rewrite Hrange in Hs, Hlen'.
      remember (mk_CopyData (buf_after_read data n0 range')
                  (copied data) (limit data)) as data1 eqn:Hdata1.
      assert (Hc1 : copied data1 = 0) by (subst data1; reflexivity).
      assert (Hb1 : buf data1 = buf_after_read data n0 range')
        by (subst data1; reflexivity).
      assert (Hok1 : data_ok L B data1)
        by (subst data1; apply data_ok_after_read;
            [exact Hdata | unfold n0; lia | exact Hlen']).
      pose proof (proj1 (AsyncCopy_Functors_safe fuel) dst src' data1 s Hok1)
        as Hrec.
      rewrite Hb1, Hrest', (served_join data n0 s range' (rest src)), Hc1,
        Z.sub_0_r in Hrec; [| lia | exact Hlen' | exact Hserved].
      apply Hrec. unfold n0 in *. lia.
    - rewrite AsyncCopyReaderFunctor_failed. apply prefix_of_nil. }
  destruct sub as [err | res | res]; cbn [written].
  - destruct (Error_eqb err NoError); apply prefix_of_nil.
  - apply Hnext. reflexivity.
  - apply Hnext. reflexivity.
Qed.

End AsyncWriter_AsyncReader_safety.

End Safety.

(** The sample reader serves its content in order. *)
Lemma ChunkReader_faithful : @Reader_faithful ChunkReader _ ChunkReader_rest.
Proof.
  intros r r' range range' s Hread.
  destruct (ChunkReader_serves r range)
    as (r1 & range1 & s1 & Hread1 & Hs & _ & Hserved & Hrest & Hlen).
  rewrite Hread in Hread1. injection Hread1 as -> -> ->. auto.
Qed.

Lemma ChunkReader_async_faithful :
  @AsyncReader_faithful ChunkReader _ ChunkReader_rest.
Proof.
  intros r r' range range' sub s Hread Hh.
  destruct (ChunkReader_async_serves r range)
    as (r1 & range1 & sub1 & s1 & Hread1 & Hh1 & Hs & _ & Hserved & Hrest & Hlen).
  rewrite Hread in Hread1. injection Hread1 as -> -> ->.
  rewrite Hh in Hh1. injection Hh1 as ->. auto.
Qed.

(** X17: whatever the writer does (short writes, errors, rejected
    submissions) and however far the copy is followed, [Copy] and the three
    [AsyncCopy] shapes hand the writer nothing but the next bytes of the
    source: given a source whose successful reads serve its content in
    order (it may fail at any time), the bytes handed to the writer are
    always a beginning of the source's content, and with a limit [L] of its
    first [L] bytes. *)
Theorem X17_copies_hand_over_only_the_source (B L : Z) :
  0 < B < 2 ^ 63 -> 0 <= L < 2 ^ 63 ->
  (forall (W R : Type) (HW : Writer W) (HR : Reader R) (rest : R -> list byte)
          (dst : W) (src : R) (buffer : list byte) (fuel : nat),
      Reader_faithful rest ->
      prefix_of (written (snd (fst (Copy fuel dst src buffer)))) (rest src))
  /\ (forall (W R : Type) (HW : Writer W) (HR : AsyncReader R)
             (rest : R -> list byte) (dst : W) (src : R) (fuel : nat),
         AsyncReader_faithful rest ->
         prefix_of (written (AsyncCopy_Writer_AsyncReader B fuel dst src L))
           (firstn (Z.to_nat L) (rest src)))
  /\ (forall (W R : Type) (HW : AsyncWriter W) (HR : Reader R)
             (rest : R -> list byte) (dst : W) (src : R) (fuel : nat),
         Reader_faithful rest ->
         prefix_of (written (AsyncCopy_AsyncWriter_Reader B fuel dst src L))
           (firstn (Z.to_nat L) (rest src)))
  /\ (forall (W R : Type) (HW : AsyncWriter W) (HR : AsyncReader R)
             (rest : R -> list byte) (dst : W) (src : R) (fuel : nat),
         AsyncReader_faithful rest ->
         prefix_of (written (AsyncCopy_AsyncWriter_AsyncReader B fuel dst src L))
           (firstn (Z.to_nat L) (rest src))).
Proof.
  intros HB HL. split; [| split; [| split]].
  - intros W R HW HR rest dst src buffer fuel Hsrc.
    apply (Copy_hands_prefix rest Hsrc).
  - intros W R HW HR rest dst src fuel Hsrc.
    apply (AsyncCopy_Writer_AsyncReader_safe L B HB HL rest Hsrc).
  - intros W R HW HR rest dst src fuel Hsrc.
    apply (AsyncCopy_AsyncWriter_Reader_safe L B HB HL rest Hsrc).
  - intros W R HW HR rest dst src fuel Hsrc.
    apply (AsyncCopy_AsyncWriter_AsyncReader_safe L B HB HL rest Hsrc).
Qed.

(** X17 on five bytes served two at a time to a writer that takes two
    bytes, then one of two, then fails: [Copy] stops at the short write
    having handed over the first four bytes. *)
Lemma X17_copies_hand_over_only_the_source_witness :
  let dst := mk_ScriptWriter [Value 2; Value 1] [] in
  let src := mk_ChunkReader [x01; x02; x03; x04; x05] 2 in
  written (snd (fst (Copy 5 dst src [x00; x00; x00]))) = [x01; x02; x03; x04]
  /\ snd (Copy 5 dst src [x00; x00; x00]) = Some short_write_error
  /\ prefix_of (written (snd (fst (Copy 5 dst src [x00; x00; x00])))) 
       [x01; x02; x03; x04; x05].
Proof.
  intros dst src.
  assert (HB : 0 < 2 < 2 ^ 63) by lia.
  assert (HL : 0 <= 3 < 2 ^ 63) by lia.
  destruct (X17_copies_hand_over_only_the_source 2 3 HB HL) as (Hcopy & _).
  split; [reflexivity |]. split; [reflexivity |].
  apply (Hcopy ScriptWriter ChunkReader _ _ ChunkReader_rest dst src
           [x00; x00; x00] 5%nat ChunkReader_faithful).
Defined.
